(** * reson: chapter segmentation and chunked synthesis

    A shallow embedding of the Markdown book parser
    ([audiobook_generator/book_parsers/markdown_book_parser.py]) and of the
    Gemini, MiniMax and Qwen3 text-to-speech providers
    ([audiobook_generator/tts_providers/*.py]), with the properties of the
    pipeline specification stated and proved over them.

    Text is a list of code points restricted to the range 0..255, so a
    Python [str] is a [list ascii]; the whitespace, digit, line-boundary and
    case tables below are the ones CPython uses on that range. *)

From Stdlib Require Import Ascii String List Arith Bool Lia ZArith QArith Lqa.
From stdpp Require Import base option list gmap strings.
Import ListNotations.

Local Open Scope nat_scope.
Local Open Scope list_scope.

(** [lit "abc"] is the Python literal ["abc"]. *)
Definition lit (s : string) : list ascii := list_ascii_of_string s.

(** ** Python string primitives *)

Module PyStr.

Definition LF : ascii := ascii_of_nat 10.
Definition CR : ascii := ascii_of_nat 13.
Definition SP : ascii := ascii_of_nat 32.

Definition code (c : ascii) : nat := nat_of_ascii c.

Definition in_range (lo hi : nat) (c : ascii) : bool :=
  (lo <=? code c) && (code c <=? hi).

(** [str.isspace] on one code point below 256, also the class [\s] of [re]. *)
Definition is_space (c : ascii) : bool :=
  in_range 9 13 c || in_range 28 32 c || (code c =? 133) || (code c =? 160).

(** The decimal digits below 256, the class [\d] of [re]. *)
Definition is_digit (c : ascii) : bool := in_range 48 57 c.

(** The line boundaries of [str.splitlines] below 256. *)
Definition is_linebreak (c : ascii) : bool :=
  in_range 10 13 c || in_range 28 30 c || (code c =? 133).

Definition eqc (a b : ascii) : bool := Ascii.eqb a b.

Fixpoint eqs (a b : list ascii) : bool :=
  match a, b with
  | [], [] => true
  | x :: a', y :: b' => eqc x y && eqs a' b'
  | _, _ => false
  end.

(** [s.startswith(p)] *)
Fixpoint startswith (p s : list ascii) : bool :=
  match p, s with
  | [], _ => true
  | x :: p', y :: s' => eqc x y && startswith p' s'
  | _ :: _, [] => false
  end.

(** [p in s] for strings. *)
Fixpoint contains (p s : list ascii) : bool :=
  startswith p s ||
  match s with
  | [] => false
  | _ :: s' => contains p s'
  end.

Fixpoint lstrip (s : list ascii) : list ascii :=
  match s with
  | c :: s' => if is_space c then lstrip s' else s
  | [] => []
  end.

Definition rstrip (s : list ascii) : list ascii := rev (lstrip (rev s)).

(** [s.strip()] *)
Definition strip (s : list ascii) : list ascii := rstrip (lstrip s).

(** [c.lower()] on one code point below 256: the ASCII capitals and the
    Latin-1 capitals U+00C0..U+00DE (U+00D7 apart) move up by 32. *)
Definition lower_char (c : ascii) : ascii :=
  if in_range 65 90 c || (in_range 192 222 c && negb (code c =? 215))
  then ascii_of_nat (code c + 32) else c.

Definition lower (s : list ascii) : list ascii := map lower_char s.

(** [sep.join(parts)] *)
Fixpoint join (sep : list ascii) (parts : list (list ascii)) : list ascii :=
  match parts with
  | [] => []
  | [p] => p
  | p :: ps => p ++ sep ++ join sep ps
  end.

(** The loop of [s.replace(old, new)] for a non-empty [old]: [skip] counts the
    characters of the occurrence just replaced that are still to be dropped. *)
Fixpoint replace_go (old new : list ascii) (skip : nat) (s : list ascii)
  : list ascii :=
  match s with
  | [] => []
  | c :: s' =>
      match skip with
      | S k => replace_go old new k s'
      | 0 =>
          if startswith old s
          then new ++ replace_go old new (Nat.pred (length old)) s'
          else c :: replace_go old new 0 s'
      end
  end.

(** [s.replace(old, new)]; with an empty [old] Python puts [new] before every
    character and at the end. *)
Definition replace (old new s : list ascii) : list ascii :=
  match old with
  | [] => new ++ flat_map (fun c => c :: new) s
  | _ :: _ => replace_go old new 0 s
  end.

(** [s.splitlines()]: [cur] is the current line, reversed. A carriage return
    followed by a line feed is one boundary; no empty last line is produced. *)
Fixpoint splitlines_go (cur s : list ascii) : list (list ascii) :=
  match s with
  | [] => match cur with [] => [] | _ :: _ => [rev cur] end
  | c :: s' =>
      if eqc c CR then
        match s' with
        | d :: s'' =>
            if eqc d LF then rev cur :: splitlines_go [] s''
            else rev cur :: splitlines_go [] s'
        | [] => [rev cur]
        end
      else if is_linebreak c then rev cur :: splitlines_go [] s'
      else splitlines_go (c :: cur) s'
  end.

Definition splitlines (s : list ascii) : list (list ascii) := splitlines_go [] s.

(** Python's truth value of a list or a string: it is not empty. *)
Definition nonempty {A : Type} (l : list A) : bool :=
  match l with
  | [] => false
  | _ :: _ => true
  end.

(** Python's truth value of an [Optional[str]]. *)
Definition truthy (h : option (list ascii)) : bool :=
  match h with
  | Some s => nonempty s
  | None => false
  end.

(** [str(n)] for a natural number: its decimal digits. *)
Fixpoint digits_go (fuel n : nat) (acc : list ascii) : list ascii :=
  match fuel with
  | 0 => acc
  | S f =>
      let acc' := ascii_of_nat (48 + n mod 10) :: acc in
      if n <? 10 then acc' else digits_go f (n / 10) acc'
  end.

Definition str_of_nat (n : nat) : list ascii := digits_go (S n) n [].

(** [s.endswith(p)] *)
Definition endswith (p s : list ascii) : bool := startswith (rev p) (rev s).

(** The loop of [s.split(sep)] for a non-empty [sep]: [cur] is the piece
    being read, reversed; [skip] counts the characters of the separator just
    found that are still to be dropped. *)
Fixpoint split_go (sep cur : list ascii) (skip : nat) (s : list ascii)
  : list (list ascii) :=
  match s with
  | [] => [rev cur]
  | c :: s' =>
      match skip with
      | S k => split_go sep cur k s'
      | 0 =>
          if startswith sep s
          then rev cur :: split_go sep [] (Nat.pred (length sep)) s'
          else split_go sep (c :: cur) 0 s'
      end
  end.

(** [s.split(sep)] for a non-empty [sep] (Python raises on an empty one). *)
Definition split (sep s : list ascii) : list (list ascii) :=
  split_go sep [] 0 s.

End PyStr.

Import PyStr.


(** ** The fragment of Python's [re] the parser uses

    A backtracking matcher with the priorities of CPython's engine: the first
    alternative, the longest greedy and the shortest lazy repetition are tried
    first, and a later choice is taken only when the rest of the pattern fails.
    The matcher is written in continuation-passing style; [None] is a failed
    match. *)

Module Re.

(** Members of a bracketed character set. *)
Inductive cclass : Type :=
| CChar (c : ascii)            (* a literal character *)
| CRange (lo hi : ascii)       (* [lo-hi] *)
| CSpace                       (* \s *)
| CDigit.                      (* \d *)

Inductive re : Type :=
| Eps
| Cset (l : list cclass)                     (* [...], a literal, \s, \d *)
| Nset (l : list cclass)                   (* [^...] *)
| Dot (dotall : bool)                        (* .  (with re.DOTALL when true) *)
| Seq (a b : re)
| Alt (a b : re)
| Rep (greedy : bool) (lo : nat) (hi : option nat) (a : re)
| Grp (n : nat) (a : re)                     (* capture group number n *)
| Bref (n : nat)                             (* \n, a back-reference *)
| Bol (multiline : bool)                     (* ^ *)
| Eol                                        (* $ without re.MULTILINE *)
| Behind (l : list cclass).                  (* (?<=[...]) *)

Definition in_cclass (c : ascii) (k : cclass) : bool :=
  match k with
  | CChar d => eqc c d
  | CRange lo hi => in_range (code lo) (code hi) c
  | CSpace => is_space c
  | CDigit => is_digit c
  end.

Definition in_set (l : list cclass) (c : ascii) : bool :=
  existsb (in_cclass c) l.

(** The state of one match attempt: the character before the position
    ([None] at the start of the text), the text from the position on, and the
    groups captured so far. *)
Record mstate : Type := MState {
  prev : option ascii;
  rest : list ascii;
  caps : list (nat * list ascii)
}.

Fixpoint get_cap (n : nat) (cs : list (nat * list ascii)) : option (list ascii) :=
  match cs with
  | [] => None
  | (m, v) :: cs' => if n =? m then Some v else get_cap n cs'
  end.

(** One character is consumed. *)
Definition advance (c : ascii) (s' : list ascii) (st : mstate) : mstate :=
  MState (Some c) s' (caps st).

Fixpoint eat (lit : list ascii) (st : mstate) : option mstate :=
  match lit with
  | [] => Some st
  | x :: lit' =>
      match rest st with
      | c :: s' => if eqc x c then eat lit' (advance c s' st) else None
      | [] => None
      end
  end.

(** The text consumed between two states of one attempt. *)
Definition consumed (st st' : mstate) : list ascii :=
  firstn (length (rest st) - length (rest st')) (rest st).

Definition one_char (p : ascii -> bool) (k : mstate -> option mstate)
  (st : mstate) : option mstate :=
  match rest st with
  | c :: s' => if p c then k (advance c s' st) else None
  | [] => None
  end.

Definition orelse (a b : option mstate) : option mstate :=
  match a with
  | Some x => Some x
  | None => b
  end.

Definition below (i : nat) (hi : option nat) : bool :=
  match hi with
  | Some h => i <? h
  | None => true
  end.

(** [a{lo,hi}] after [i] iterations. [fuel] bounds the iterations left by the
    length of the text left when the repetition was entered: every repeated
    sub-pattern used here consumes at least one character. *)
Fixpoint rep_loop (greedy : bool)
  (body : (mstate -> option mstate) -> mstate -> option mstate)
  (lo : nat) (hi : option nat) (k : mstate -> option mstate)
  (fuel i : nat) (st : mstate) : option mstate :=
  let more :=
    match fuel with
    | 0 => None
    | S f =>
        if below i hi
        then body (rep_loop greedy body lo hi k f (S i)) st
        else None
    end in
  let stop := if lo <=? i then k st else None in
  if greedy then orelse more stop else orelse stop more.

Fixpoint run (r : re) (k : mstate -> option mstate) (st : mstate)
  : option mstate :=
  match r with
  | Eps => k st
  | Cset l => one_char (in_set l) k st
  | Nset l => one_char (fun c => negb (in_set l c)) k st
  | Dot dotall => one_char (fun c => dotall || negb (eqc c LF)) k st
  | Seq a b => run a (run b k) st
  | Alt a b => orelse (run a k st) (run b k st)
  | Rep greedy lo hi a =>
      rep_loop greedy (run a) lo hi k (length (rest st)) 0 st
  | Grp n a =>
      run a (fun st' =>
             k (MState (prev st') (rest st')
                       ((n, consumed st st') :: caps st'))) st
  | Bref n =>
      match get_cap n (caps st) with
      | Some v => match eat v st with Some st' => k st' | None => None end
      | None => None
      end
  | Bol multiline =>
      match prev st with
      | None => k st
      | Some c => if multiline && eqc c LF then k st else None
      end
  | Eol =>
      match rest st with
      | [] => k st
      | [c] => if eqc c LF then k st else None
      | _ => None
      end
  | Behind l =>
      match prev st with
      | Some c => if in_set l c then k st else None
      | None => None
      end
  end.

(** [pattern.match(s)]: a match at the start of [s]. *)
Definition rmatch (r : re) (s : list ascii) : option mstate :=
  run r Some (MState None s []).

(** [match.group(n)] of a group that took part in the match. *)
Definition group (n : nat) (st : mstate) : list ascii :=
  match get_cap n (caps st) with
  | Some v => v
  | None => []
  end.

(** A replacement template: literal text and group references [\n]. A group
    that did not take part in the match expands to the empty string. *)
Inductive titem : Type :=
| TLit (s : list ascii)
| TGrp (n : nat).

Definition expand (tpl : list titem) (st : mstate) : list ascii :=
  flat_map (fun t => match t with TLit s => s | TGrp n => group n st end) tpl.

(** One match attempt of [re.sub] at a position; with [must_advance] an empty
    match is refused (the engine's rule right after an empty match). *)
Definition attempt (r : re) (must_advance : bool) (p : option ascii)
  (s : list ascii) : option mstate :=
  run r (fun st' =>
         if must_advance && (length (rest st') =? length s) then None
         else Some st')
    (MState p s []).

(** [re.sub(r, tpl, s)], position by position. [skip] counts the characters
    of the last match still to be dropped. At a position the pattern is tried;
    on failure the character is copied; after an empty match the pattern is
    tried once more at the same position for a non-empty match. *)
Fixpoint sub_go (r : re) (tpl : list titem) (p : option ascii) (skip : nat)
  (s : list ascii) : list ascii :=
  let copy :=
    match s with
    | [] => []
    | c :: s' => c :: sub_go r tpl (Some c) 0 s'
    end in
  let drop_match n :=
    match s with
    | [] => []
    | c :: s' => sub_go r tpl (Some c) (Nat.pred n) s'
    end in
  match skip with
  | S k =>
      match s with
      | [] => []
      | c :: s' => sub_go r tpl (Some c) k s'
      end
  | 0 =>
      match attempt r false p s with
      | None => copy
      | Some st' =>
          let n := length (consumed (MState p s []) st') in
          expand tpl st' ++
          if n =? 0 then
            match attempt r true p s with
            | None => copy
            | Some st'' =>
                expand tpl st'' ++
                drop_match (length (consumed (MState p s []) st''))
            end
          else drop_match n
      end
  end.

Definition sub (r : re) (tpl : list titem) (s : list ascii) : list ascii :=
  sub_go r tpl None 0 s.

(** Pattern shorthands. *)
Definition chr (c : ascii) : re := Cset [CChar c].
Definition star (a : re) : re := Rep true 0 None a.
Definition plus (a : re) : re := Rep true 1 None a.
Definition opt (a : re) : re := Rep true 0 (Some 1) a.
Definition lazy_star (a : re) : re := Rep false 0 None a.

Fixpoint seqs (l : list re) : re :=
  match l with
  | [] => Eps
  | [a] => a
  | a :: l' => Seq a (seqs l')
  end.

(** The literal text [s] as a pattern. *)
Definition text (s : string) : re := seqs (map chr (list_ascii_of_string s)).

End Re.

(** ** Errors

    A Python call either returns a value or raises. An exception is its class
    and the fixed leading text of its message. *)

Inductive exn : Type :=
| ValueError (msg : list ascii)
| TypeError (msg : list ascii)
| OverflowError (msg : list ascii)
| RuntimeError (msg : list ascii)
| ImportError (msg : list ascii)
| OtherError (tag : nat)         (* any other subclass of [Exception], told
                                    apart by a tag *)
| BaseError (tag : nat).         (* [KeyboardInterrupt], [SystemExit] and the
                                    like: a [BaseException] that is no
                                    [Exception] *)

(** [isinstance(e, Exception)]: what [except Exception] takes. *)
Definition is_exception (e : exn) : bool :=
  match e with
  | BaseError _ => false
  | _ => true
  end.

Inductive result (A : Type) : Type :=
| Ok (a : A)
| Raise (e : exn).

Arguments Ok {A} a.
Arguments Raise {A} e.

Definition rbind {A B : Type} (x : result A) (f : A -> result B) : result B :=
  match x with
  | Ok a => f a
  | Raise e => Raise e
  end.

Declare Scope result_scope.
Delimit Scope result_scope with result.
Notation "'do' x <- c ; k" := (rbind c (fun x => k))
  (at level 10, x name, c at level 100, k at level 200) : result_scope.

(** ** The Markdown book parser *)

Module Markdown.

Import Re.

(** [GeneralConfig], the fields the parser reads. *)
Record config : Type := Config {
  input_file : list ascii;
  newline_mode : list ascii;
  remove_endnotes : bool;
  remove_reference_numbers : bool
}.

(** One entry of [get_search_and_replaces()]: the text transformer
    [lambda text: re.sub(search, replace, text)] of a user-supplied pair; it
    raises when the user's pattern or replacement is malformed. *)
Definition rule : Type := list ascii -> result (list ascii).

Definition space : re := Cset [CSpace].
Definition digit : re := Cset [CDigit].
Definition hashes : re := Rep true 1 (Some 6) (chr "#").

(** [FRONT_MATTER_DELIMITER = re.compile(r"^---\s*$")] *)
Definition FRONT_MATTER_DELIMITER : re :=
  seqs [Bol false; text "---"; star space; Eol].

(** [METADATA_PATTERN =
     re.compile(r"^(?P<key>[A-Za-z0-9_\- ]+):\s*(?P<value>.+)$")];
    group 1 is [key], group 2 is [value]. *)
Definition METADATA_PATTERN : re :=
  seqs [Bol false;
        Grp 1 (plus (Cset [CRange "A" "Z"; CRange "a" "z"; CRange "0" "9";
                           CChar "_"; CChar "-"; CChar " "]));
        chr ":"; star space;
        Grp 2 (plus (Dot false)); Eol].

(** [HEADING_PATTERN]: optional white space, one to six hash signs (group 1),
    white space, and the rest of the line (group 2). *)
Definition HEADING_PATTERN : re :=
  seqs [Bol false; star space; Grp 1 hashes; plus space;
        Grp 2 (star (Dot false)); Eol].

Definition matches (r : re) (s : list ascii) : bool :=
  match rmatch r s with
  | Some _ => true
  | None => false
  end.

(** The loop [for idx in range(1, len(lines))] of [_extract_front_matter]
    over [lines[idx:]]; the result is the metadata and [body_start], or
    [None] for [body_start] when the loop ends without a [break]. *)
Fixpoint front_matter_loop (idx : nat) (ls : list (list ascii))
  (metadata : gmap (list ascii) (list ascii))
  : gmap (list ascii) (list ascii) * option nat :=
  match ls with
  | [] => (metadata, None)
  | l :: ls' =>
      if matches FRONT_MATTER_DELIMITER l then (metadata, Some (idx + 1))
      else
        match rmatch METADATA_PATTERN l with
        | Some mt =>
            let key := lower (strip (group 1 mt)) in
            let value := strip (group 2 mt) in
            front_matter_loop (S idx) ls' (<[key := value]> metadata)
        | None => front_matter_loop (S idx) ls' metadata
        end
  end.

Definition _extract_front_matter (text : list ascii)
  : gmap (list ascii) (list ascii) * list (list ascii) :=
  let lines := splitlines text in
  match lines with
  | l0 :: ls =>
      if matches FRONT_MATTER_DELIMITER l0 then
        let '(metadata, found) := front_matter_loop 1 ls ∅ in
        let body_start := match found with Some i => i | None => 0 end in
        (metadata, drop body_start lines)
      else (∅, drop 0 lines)
  | [] => (∅, drop 0 lines)
  end.

(** [_strip_markdown], one substitution per line of the source. *)
Definition strip_code_blocks : list ascii -> list ascii :=
  sub (seqs [text "```"; lazy_star (Dot true); text "```"]) [].
Definition strip_inline_code : list ascii -> list ascii :=
  sub (seqs [chr "`"; Grp 1 (star (Nset [CChar "`"])); chr "`"]) [TGrp 1].
Definition strip_images : list ascii -> list ascii :=
  sub (seqs [text "!["; Grp 1 (star (Nset [CChar "]"])); text "](";
             star (Nset [CChar ")"]); chr ")"]) [TGrp 1].
Definition strip_links : list ascii -> list ascii :=
  sub (seqs [chr "["; Grp 1 (plus (Nset [CChar "]"])); text "](";
             star (Nset [CChar ")"]); chr ")"]) [TGrp 1].
Definition strip_bold : list ascii -> list ascii :=
  sub (seqs [Grp 1 (Alt (text "**") (text "__"));
             Grp 2 (lazy_star (Dot false)); Bref 1]) [TGrp 2].
Definition strip_italic : list ascii -> list ascii :=
  sub (seqs [Grp 1 (Alt (chr "*") (chr "_"));
             Grp 2 (lazy_star (Dot false)); Bref 1]) [TGrp 2].
Definition strip_blockquotes : list ascii -> list ascii :=
  sub (seqs [Bol true; plus (chr ">"); opt space]) [].
Definition strip_bullets : list ascii -> list ascii :=
  sub (seqs [Bol true; Rep true 0 (Some 3) space;
             Cset [CChar "-"; CChar "*"; CChar "+"]; plus space]) [].
Definition strip_numbered : list ascii -> list ascii :=
  sub (seqs [Bol true; star space; plus digit; chr "."; plus space]) [].
Definition strip_headings : list ascii -> list ascii :=
  sub (seqs [Bol true; star space; Grp 1 hashes; star space]) [].

Definition _strip_markdown (text : list ascii) : list ascii :=
  let text := strip_code_blocks text in
  let text := strip_inline_code text in
  let text := strip_images text in
  let text := strip_links text in
  let text := strip_bold text in
  let text := strip_italic text in
  let text := strip_blockquotes text in
  let text := strip_bullets text in
  let text := strip_numbered text in
  let text := strip_headings text in
  text.

(** The replacement [f" {break_string.strip()} "] of [_apply_newline_mode].
    [re.sub] reads a replacement as a template; the text is taken literally
    here, which is what Python does for a break string without a backslash
    (every provider's break string is [" @BRK#"]). *)
Definition break_template (break_string : list ascii) : list titem :=
  [TLit (lit " " ++ strip break_string ++ lit " ")].

Definition _apply_newline_mode (cfg : config) (text break_string : list ascii)
  : result (list ascii) :=
  let text := replace [CR; LF] [LF] text in
  if eqs (newline_mode cfg) (lit "single") then
    Ok (sub (plus (chr LF)) (break_template break_string) text)
  else if eqs (newline_mode cfg) (lit "double") then
    let cleaned :=
      sub (Rep true 2 None (chr LF)) (break_template break_string) text in
    Ok (sub (chr LF) [TLit (lit " ")] cleaned)
  else if eqs (newline_mode cfg) (lit "none") then
    Ok (sub (chr LF) [TLit (lit " ")] text)
  else
    Raise (ValueError (lit "Invalid newline mode: " ++ newline_mode cfg)).

(** The endnote substitution of [_build_chapter_text]: one or more digits
    that follow a letter, one of [. , ! ? ; )] or a double quote are removed.
    The closing curly quote U+201D of the source's set lies outside the
    modelled code points. *)
Definition strip_endnotes : list ascii -> list ascii :=
  sub (seqs [Behind [CRange "a" "z"; CRange "A" "Z"; CChar "."; CChar ",";
                     CChar "!"; CChar "?"; CChar ";";
                     CChar (ascii_of_nat 34); CChar ")"];
             plus digit]) [].

(** The reference-number substitution: [[n]] and [[n.n]] are removed. *)
Definition strip_reference_numbers : list ascii -> list ascii :=
  sub (seqs [chr "["; plus digit; opt (Grp 1 (Seq (chr ".") (plus digit)));
             chr "]"]) [].

(** [re.sub(r"\s+", " ", text)] *)
Definition collapse_whitespace : list ascii -> list ascii :=
  sub (plus space) [TLit (lit " ")].

Fixpoint apply_rules (rules : list rule) (text : list ascii)
  : result (list ascii) :=
  match rules with
  | [] => Ok text
  | f :: rules' => (do text' <- f text; apply_rules rules' text')%result
  end.

Definition _build_chapter_text (cfg : config) (lines : list (list ascii))
  (break_string : list ascii) (search_and_replaces : list rule)
  (heading : option (list ascii)) : result (list ascii) :=
  if negb (nonempty lines) && negb (truthy heading) then Ok []
  else
    let parts : list (list ascii) := [] in
    let parts :=
      match heading with
      | Some h =>
          if nonempty h then
            let heading_text := strip h in
            if nonempty heading_text then parts ++ [heading_text] else parts
          else parts
      | None => parts
      end in
    let parts :=
      if nonempty lines then
        let body_text := strip (join [LF] lines) in
        if nonempty body_text then parts ++ [body_text] else parts
      else parts in
    let text := strip (join [LF; LF] parts) in
    if negb (nonempty text) then Ok []
    else
      let text := _strip_markdown text in
      (do text <- _apply_newline_mode cfg text break_string;
       let text := if remove_endnotes cfg then strip_endnotes text else text in
       let text :=
         if remove_reference_numbers cfg then strip_reference_numbers text
         else text in
       do text <- apply_rules search_and_replaces text;
       Ok (strip (collapse_whitespace text)))%result.

(** The parser object after [__init__]: the configuration, the text read from
    the input file and the result of [_extract_front_matter]. *)
Record parser : Type := Parser {
  cfg : config;
  raw_text : list ascii;
  metadata : gmap (list ascii) (list ascii);
  body_lines : list (list ascii)
}.

Definition init (c : config) (raw : list ascii) : parser :=
  let '(md, body) := _extract_front_matter raw in
  Parser c raw md body.

(** [os.path.basename] for POSIX paths: the text after the last slash. *)
Fixpoint basename_go (cur p : list ascii) : list ascii :=
  match p with
  | [] => rev cur
  | c :: p' => if eqc c "/" then basename_go [] p' else basename_go (c :: cur) p'
  end.

Definition basename (p : list ascii) : list ascii := basename_go [] p.

(** [name.rfind(".")] scanning from index [i], [found] being the last dot
    seen so far. *)
Fixpoint rfind_dot (i : nat) (name : list ascii) (found : option nat)
  : option nat :=
  match name with
  | [] => found
  | c :: name' => rfind_dot (S i) name' (if eqc c "." then Some i else found)
  end.

(** [os.path.splitext(name)[0]] for a name without a slash: the text before
    the last dot, unless only dots stand before it. *)
Definition splitext_root (name : list ascii) : list ascii :=
  match rfind_dot 0 name None with
  | Some d =>
      if forallb (fun c => eqc c ".") (take d name) then name else take d name
  | None => name
  end.

(** The level and the stripped text of a heading line. *)
Definition heading_of (line : list ascii) : option (nat * list ascii) :=
  match rmatch HEADING_PATTERN line with
  | Some mt => Some (length (group 1 mt), strip (group 2 mt))
  | None => None
  end.

(** The loop of [get_book_title] over the body lines. *)
Fixpoint first_h1 (lines : list (list ascii)) : option (list ascii) :=
  match lines with
  | [] => None
  | line :: lines' =>
      match heading_of line with
      | Some (level, heading_text) =>
          if level =? 1 then Some heading_text else first_h1 lines'
      | None => first_h1 lines'
      end
  end.

Definition get_book_title (p : parser) : list ascii :=
  match metadata p !! lit "title" with
  | Some t => t
  | None =>
      match first_h1 (body_lines p) with
      | Some t => t
      | None => splitext_root (basename (input_file (cfg p)))
      end
  end.

Definition get_book_author (p : parser) : list ascii :=
  match metadata p !! lit "author" with
  | Some a => a
  | None =>
      match metadata p !! lit "authors" with
      | Some a => a
      | None =>
          match metadata p !! lit "creator" with
          | Some a => a
          | None => lit "Unknown"
          end
      end
  end.

(** The local variables of [get_chapters]. *)
Record scan : Type := Scan {
  chapters : list (list ascii * list ascii);
  current_title : option (list ascii);
  current_lines : list (list ascii);
  fallback_index : nat
}.

(** [current_title or fallback] *)
Definition title_or (current_title : option (list ascii))
  (fallback : list ascii) : list ascii :=
  match current_title with
  | Some t => if nonempty t then t else fallback
  | None => fallback
  end.

(** [f"Chapter {fallback_index}"] *)
Definition chapter_n (n : nat) : list ascii := lit "Chapter " ++ str_of_nat n.

(** The condition of [get_search_and_replaces] on one line of the file. *)
Definition is_replacement_line (line : list ascii) : bool :=
  contains (lit "==") line && negb (startswith (lit "==") line)
  && negb (endswith (lit "==") line) && negb (startswith (lit "#") line).

(** The loop of [get_search_and_replaces] over [fp.readlines()]; an entry is
    the pair of its [search] and [replace] values. [x[0]] and [x[1]] are
    read with a default, which is never used: a line with the separator
    splits in two pieces at least. *)
Fixpoint replacement_entries (content : list (list ascii))
  : list (list ascii * list ascii) :=
  match content with
  | [] => []
  | search_and_replace :: content' =>
      if is_replacement_line search_and_replace then
        let search := nth 0 (split (lit "==") search_and_replace) [] in
        let replace :=
          removelast (nth 1 (split (lit "==") search_and_replace) []) in
        (search, replace) :: replacement_entries content'
      else replacement_entries content'
  end.

(** [get_search_and_replaces]: [content] is [fp.readlines()] of the file
    [config.search_and_replace_file] names, [None] when the configuration
    names no file. *)
Definition get_search_and_replaces (content : option (list (list ascii)))
  : list (list ascii * list ascii) :=
  match content with
  | Some lines => replacement_entries lines
  | None => []
  end.

Section WithSanitizer.

(** [BaseBookParser.sanitize_title(title, break_string)], defined in the base
    class of the parser. *)
Variable sanitize_title : list ascii -> list ascii -> list ascii.

Variable p : parser.
Variable break_string : list ascii.
Variable search_and_replaces : list rule.

(** The block under [if level <= 2:] that closes the previous chapter. *)
Definition close_previous (st : scan) : result scan :=
  if bool_decide (is_Some (current_title st)) || nonempty (current_lines st)
  then
    (do chapter_text <-
       _build_chapter_text (cfg p) (current_lines st) break_string
         search_and_replaces (current_title st);
     if nonempty chapter_text then
       let title_source :=
         title_or (current_title st) (chapter_n (fallback_index st)) in
       let sanitized_title := sanitize_title title_source break_string in
       Ok (Scan (chapters st ++ [(sanitized_title, chapter_text)])
                (current_title st) (current_lines st)
                (fallback_index st + 1))
     else Ok st)%result
  else Ok st.

(** One iteration of [for line in self.body_lines]. *)
Definition scan_line (st : scan) (line : list ascii) : result scan :=
  let append :=
    Ok (Scan (chapters st) (current_title st) (current_lines st ++ [line])
             (fallback_index st)) in
  match heading_of line with
  | Some (level, heading_text) =>
      if level <=? 2 then
        (do st' <- close_previous st;
         Ok (Scan (chapters st') (Some heading_text) []
                  (fallback_index st')))%result
      else append
  | None => append
  end.

Fixpoint scan_lines (st : scan) (lines : list (list ascii)) : result scan :=
  match lines with
  | [] => Ok st
  | line :: lines' =>
      (do st' <- scan_line st line; scan_lines st' lines')%result
  end.

(** The block after the loop that closes the last chapter. *)
Definition close_last (st : scan)
  : result (list (list ascii * list ascii)) :=
  if bool_decide (is_Some (current_title st)) || nonempty (current_lines st)
  then
    (do chapter_text <-
       _build_chapter_text (cfg p) (current_lines st) break_string
         search_and_replaces (current_title st);
     if nonempty chapter_text then
       let title_source :=
         title_or (current_title st) (chapter_n (fallback_index st)) in
       let sanitized_title := sanitize_title title_source break_string in
       Ok (chapters st ++ [(sanitized_title, chapter_text)])
     else Ok (chapters st))%result
  else Ok (chapters st).

(** The block [if not chapters and self.body_lines:]. *)
Definition whole_book (chs : list (list ascii * list ascii))
  : result (list (list ascii * list ascii)) :=
  if negb (nonempty chs) && nonempty (body_lines p) then
    (do text <-
       _build_chapter_text (cfg p) (body_lines p) break_string
         search_and_replaces (Some (get_book_title p));
     if nonempty text then
       let title_source := title_or (Some (get_book_title p)) (lit "Chapter 1") in
       let sanitized_title := sanitize_title title_source break_string in
       Ok (chs ++ [(sanitized_title, text)])
     else Ok chs)%result
  else Ok chs.

(** [get_chapters] up to the block after the loop: the chapters the scan of
    the body finds. *)
Definition scan_chapters : result (list (list ascii * list ascii)) :=
  (do st <- scan_lines (Scan [] None [] 1) (body_lines p);
   close_last st)%result.

Definition get_chapters : result (list (list ascii * list ascii)) :=
  (do chs <- scan_chapters;
   whole_book chs)%result.

End WithSanitizer.

End Markdown.


(** ** The text-to-speech providers *)

Module Tts.

(** The contents of an [io.BytesIO]. *)
Definition buffer : Type := list Byte.byte.

(** [AudioTags], the fields the providers read. *)
Record audio_tags : Type := AudioTags {
  idx : nat;
  title : list ascii;
  author : list ascii;
  book_title : list ascii
}.

(** What a provider does to the outside world, in order. *)
Inductive event : Type :=
| Call (payload : list ascii)          (* one request to the vendor *)
| Sleep (seconds : nat)                (* [time.sleep] *)
| Merge (segments : list buffer) (output_file ext : list ascii)
        (chunk_ids : list (list ascii)) (use_pydub : bool)
| SetTags (output_file : list ascii) (tags : audio_tags).

(** The outside world: the number of vendor requests made so far and the
    events so far. *)
Record world : Type := World {
  calls : nat;
  trace : list event
}.

(** [utils.split_text], [utils.merge_audio_segments] and
    [utils.set_audio_tags], which the providers import: the splitter as a
    function, the two file operations by their outcome. *)
Record env : Type := Env {
  split_text : list ascii -> nat -> list ascii -> list (list ascii);
  merge_outcome : list buffer -> list ascii -> list ascii ->
                  list (list ascii) -> bool -> result unit;
  tags_outcome : list ascii -> audio_tags -> result unit
}.

(** A computation that reads and extends the world and may raise. *)
Definition M (A : Type) : Type := world -> result A * world.

Definition ret {A : Type} (a : A) : M A := fun w => (Ok a, w).

Definition raise {A : Type} (e : exn) : M A := fun w => (Raise e, w).

Definition bind {A B : Type} (c : M A) (f : A -> M B) : M B :=
  fun w =>
    match c w with
    | (Ok a, w') => f a w'
    | (Raise e, w') => (Raise e, w')
    end.

(** [try: c except Exception as exc: h exc]: an error that is no
    [Exception] passes through. *)
Definition catch {A : Type} (c : M A) (h : exn -> M A) : M A :=
  fun w =>
    match c w with
    | (Ok a, w') => (Ok a, w')
    | (Raise e, w') => if is_exception e then h e w' else (Raise e, w')
    end.

Definition emit (ev : event) : M unit :=
  fun w => (Ok tt, World (calls w) (trace w ++ [ev])).

Definition lift {A : Type} (r : result A) : M A := fun w => (r, w).

Declare Scope tts_scope.
Delimit Scope tts_scope with tts.
Notation "x <- c ;; k" := (bind c (fun x => k))
  (at level 100, c at next level, k at level 200, right associativity)
  : tts_scope.
Notation "c ;; k" := (bind c (fun _ => k))
  (at level 100, k at level 200, right associativity) : tts_scope.
Local Open Scope tts_scope.

(** One request to a vendor whose answers are [backend]: the answer may
    depend on the payload and on how many requests came before. *)
Definition request {A : Type} (backend : nat -> list ascii -> result A)
  (payload : list ascii) : M A :=
  fun w =>
    (backend (calls w) payload,
     World (S (calls w)) (trace w ++ [Call payload])).

Definition sleep (seconds : nat) : M unit := emit (Sleep seconds).

Definition merge_audio_segments (E : env) (segments : list buffer)
  (output_file ext : list ascii) (chunk_ids : list (list ascii))
  (use_pydub : bool) : M unit :=
  emit (Merge segments output_file ext chunk_ids use_pydub) ;;
  lift (merge_outcome E segments output_file ext chunk_ids use_pydub).

Definition set_audio_tags (E : env) (output_file : list ascii)
  (tags : audio_tags) : M unit :=
  emit (SetTags output_file tags) ;;
  lift (tags_outcome E output_file tags).

(** [f"chapter-{audio_tags.idx}_{audio_tags.title}_chunk_{index}_of_{total}"] *)
Definition chunk_id_of (tags : audio_tags) (index total : nat) : list ascii :=
  lit "chapter-" ++ str_of_nat (idx tags) ++ lit "_" ++ title tags ++
  lit "_chunk_" ++ str_of_nat index ++ lit "_of_" ++ str_of_nat total.

(** The loop [for index, chunk in enumerate(chunks, 1)] of the three
    [text_to_speech] methods: [step chunk chunk_id] is the body up to the
    segment, which is then appended with its identifier. *)
Fixpoint for_chunks (step : list ascii -> list ascii -> M buffer)
  (tags : audio_tags) (total index : nat) (chunks : list (list ascii))
  (audio_segments : list buffer) (chunk_ids : list (list ascii))
  : M (list buffer * list (list ascii)) :=
  match chunks with
  | [] => ret (audio_segments, chunk_ids)
  | chunk :: chunks' =>
      let chunk_id := chunk_id_of tags index total in
      segment <- step chunk chunk_id ;;
      for_chunks step tags total (S index) chunks'
        (audio_segments ++ [segment]) (chunk_ids ++ [chunk_id])
  end.

(** The loop of [_synthesize_with_retry] over the attempts left, shared by the
    MiniMax and Qwen3 providers (their two methods differ in log texts). *)
Fixpoint retry_loop (synth : list ascii -> M buffer)
  (max_retries backoff : nat) (exhausted : exn) (attempts : list nat)
  (last_error : option exn) (text : list ascii) : M buffer :=
  match attempts with
  | [] =>
      match last_error with
      | Some e => raise e
      | None => raise exhausted
      end
  | attempt :: attempts' =>
      catch (synth text)
        (fun exc =>
           (if attempt <? max_retries then sleep (backoff * attempt)
            else ret tt) ;;
           retry_loop synth max_retries backoff exhausted attempts'
             (Some exc) text)
  end.

Definition DEFAULT_BREAK_STRING : list ascii := lit " @BRK#".

(** A Python float: a finite double, as the rational it denotes, an
    infinity, or NaN. *)
Inductive pyfloat : Type :=
| Fin (q : Q)
| PInf
| NInf
| NaN.

(** A value of [GeneralConfig] that [float()] is applied to: one it converts
    ([FNum x], for a float [x] itself, an integer in range or a numeric
    string), a string it rejects with [ValueError], an object it rejects with
    [TypeError], or an integer beyond the range of a float, on which it raises
    [OverflowError]. *)
Inductive raw_float : Type :=
| FNum (x : pyfloat)
| FBadString
| FBadType
| FHuge.

(** A value that [int()] is applied to: one it converts ([INum z], for an
    integer, a finite float or a numeric string), a string or a NaN it
    rejects with [ValueError], an object it rejects with [TypeError], or an
    infinite float, on which it raises [OverflowError]. *)
Inductive raw_int : Type :=
| INum (z : Z)
| IBadValue
| IBadType
| IInf.

(** [float(raw)] and [int(raw)]. *)
Definition float_of (raw : raw_float) : result pyfloat :=
  match raw with
  | FNum x => Ok x
  | FBadString => Raise (ValueError (lit "could not convert string to float"))
  | FBadType =>
      Raise (TypeError (lit "float() argument must be a string or a real number"))
  | FHuge => Raise (OverflowError (lit "int too large to convert to float"))
  end.

Definition int_of (raw : raw_int) : result Z :=
  match raw with
  | INum z => Ok z
  | IBadValue => Raise (ValueError [])   (* the message names the value *)
  | IBadType =>
      Raise (TypeError (lit "int() argument must be a string, a bytes-like object or a real number"))
  | IInf => Raise (OverflowError (lit "cannot convert float infinity to integer"))
  end.

(** [try: r except (ValueError, TypeError): return default] *)
Definition except_value_type {A : Type} (r : result A) (default : A)
  : result A :=
  match r with
  | Raise (ValueError _) | Raise (TypeError _) => Ok default
  | _ => r
  end.

(** [try: r except Exception: return default] *)
Definition except_exception {A : Type} (r : result A) (default : A)
  : result A :=
  match r with
  | Raise e => if is_exception e then Ok default else Raise e
  | Ok a => Ok a
  end.

(** The argument of [--gemini_speaker_map]: absent or empty, a JSON object
    (its entries as strings), JSON that is no object, or no JSON at all. *)
Inductive speaker_map_arg : Type :=
| SMAbsent
| SMObject (entries : list (list ascii * list ascii))
| SMNotObject
| SMInvalid.

(** [GeneralConfig], the fields the three providers read. *)
Record general_config : Type := GeneralConfig {
  model_name : option (list ascii);
  voice_name : option (list ascii);
  output_format : option (list ascii);
  language : option (list ascii);
  instructions : option (list ascii);
  gemini_api_key : option (list ascii);
  gemini_sample_rate : option Z;
  gemini_channels : option Z;
  gemini_audio_encoding : option (list ascii);
  gemini_speaker_map : speaker_map_arg;
  qwen_api_key : option (list ascii);
  qwen_language_type : option (list ascii);
  qwen_stream : bool;
  qwen_request_timeout : option raw_int;
  minimax_api_key : option (list ascii);
  minimax_speed : option raw_float;
  minimax_volume : option raw_float;
  minimax_pitch : option raw_float;
  minimax_language_boost : option (list ascii);
  minimax_request_timeout : option raw_int
}.

(** The process environment a constructor reads: three environment variables
    and whether the optional vendor modules could be imported. *)
Record host : Type := Host {
  GOOGLE_API_KEY : option (list ascii);
  DASHSCOPE_API_KEY : option (list ascii);
  FAL_KEY : option (list ascii);
  has_dashscope : bool;
  has_fal_client : bool
}.

(** [x or default] for an [Optional[str]] and a string. *)
Definition or_default (x : option (list ascii)) (default : list ascii)
  : list ascii :=
  match x with
  | Some (c :: s) => c :: s
  | _ => default
  end.

(** [x or y] for two [Optional[str]]. *)
Definition or_else (x y : option (list ascii)) : option (list ascii) :=
  if truthy x then x else y.

(** [x in table] for a list of strings. *)
Definition mem (x : list ascii) (table : list (list ascii)) : bool :=
  existsb (eqs x) table.

(** [table.get(key)] for a constant dictionary. *)
Fixpoint dict_get {V : Type} (key : list ascii)
  (table : list (list ascii * V)) : option V :=
  match table with
  | [] => None
  | (k, v) :: table' => if eqs key k then Some v else dict_get key table'
  end.

(** [a < b] on floats: false as soon as one of them is NaN. *)
Definition flt (a b : pyfloat) : bool :=
  match a, b with
  | NaN, _ | _, NaN => false
  | Fin x, Fin y => negb (Qle_bool y x)
  | NInf, NInf => false
  | NInf, _ => true
  | Fin _, PInf => true
  | Fin _, NInf => false
  | PInf, _ => false
  end.

(** [min(a, b)] and [max(a, b)] as Python computes them: the first argument
    unless the second is strictly smaller (larger). *)
Definition py_min (a b : pyfloat) : pyfloat := if flt b a then b else a.
Definition py_max (a b : pyfloat) : pyfloat := if flt a b then b else a.

(** *** MiniMax *)

Module Minimax.

Definition DEFAULT_MODEL : list ascii := lit "fal-ai/minimax/speech-02-hd".
Definition DEFAULT_VOICE : list ascii := lit "Chinese (Mandarin)_Warm_Bestie".
Definition DEFAULT_OUTPUT_FORMAT : list ascii := lit "mp3".
Definition DEFAULT_MAX_INPUT_CHARS : nat := 4500.
Definition DEFAULT_TIMEOUT_SECONDS : Z := 60.
Definition MAX_RETRIES : nat := 4.
Definition RETRY_BACKOFF_SECONDS : nat := 2.

Definition _SUPPORTED_VOICES : list (list ascii) :=
  map lit ["Chinese (Mandarin)_Warm_Bestie"; "Chinese (Mandarin)_Sincere_Adult";
           "Chinese (Mandarin)_Soft_Girl"]%string.

Definition _SUPPORTED_LANGUAGE_BOOSTS : list (list ascii) :=
  map lit ["Chinese"; "Chinese,Yue"; "English"; "Arabic"; "Russian"; "Spanish";
           "French"; "Portuguese"; "German"; "Turkish"; "Dutch"; "Ukrainian";
           "Vietnamese"; "Indonesian"; "Japanese"; "Italian"; "Korean"; "Thai";
           "Polish"; "Romanian"; "Greek"; "Czech"; "Finnish"; "Hindi";
           "Bulgarian"; "Danish"; "Hebrew"; "Malay"; "Slovak"; "Swedish";
           "Croatian"; "Hungarian"; "Norwegian"; "Slovenian"; "Catalan";
           "Nynorsk"; "Afrikaans"; "auto"]%string.

Definition _LANGUAGE_BOOST_MAPPING : list (list ascii * list ascii) :=
  map (fun '(k, v) => (lit k, lit v))
    [("zh", "Chinese"); ("zh-cn", "Chinese"); ("zh-tw", "Chinese,Yue");
     ("zh-hk", "Chinese,Yue"); ("en", "English"); ("en-us", "English");
     ("en-gb", "English"); ("ar", "Arabic"); ("ru", "Russian");
     ("es", "Spanish"); ("fr", "French"); ("pt", "Portuguese");
     ("de", "German"); ("tr", "Turkish"); ("nl", "Dutch"); ("uk", "Ukrainian");
     ("vi", "Vietnamese"); ("id", "Indonesian"); ("ja", "Japanese");
     ("it", "Italian"); ("ko", "Korean"); ("th", "Thai"); ("pl", "Polish");
     ("ro", "Romanian"); ("el", "Greek"); ("cs", "Czech"); ("fi", "Finnish");
     ("hi", "Hindi"); ("bg", "Bulgarian"); ("da", "Danish"); ("he", "Hebrew");
     ("ms", "Malay"); ("sk", "Slovak"); ("sv", "Swedish"); ("hr", "Croatian");
     ("hu", "Hungarian"); ("no", "Norwegian"); ("sl", "Slovenian");
     ("ca", "Catalan"); ("af", "Afrikaans")]%string.

(** The doubles written [0.5], [2.0], [0.1], [12.0] and [1.0] in the source. *)
Definition f0_5 : Q := 1 # 2.
Definition f2_0 : Q := 2 # 1.
Definition f0_1 : Q := 3602879701896397 # 36028797018963968.
Definition f12_0 : Q := 12 # 1.
Definition f1_0 : Q := 1 # 1.

Definition _resolve_speed (raw_speed : option raw_float) : result pyfloat :=
  match raw_speed with
  | None => Ok (Fin f1_0)
  | Some raw =>
      except_value_type
        (do speed <- float_of raw;
         Ok (py_max (Fin f0_5) (py_min (Fin f2_0) speed)))%result
        (Fin f1_0)
  end.

Definition _resolve_volume (raw_volume : option raw_float) : result pyfloat :=
  match raw_volume with
  | None => Ok (Fin f1_0)
  | Some raw =>
      except_value_type
        (do volume <- float_of raw;
         Ok (py_max (Fin f0_1) (py_min (Fin f2_0) volume)))%result
        (Fin f1_0)
  end.

Definition _resolve_pitch (raw_pitch : option raw_float) : result pyfloat :=
  match raw_pitch with
  | None => Ok (Fin 0)
  | Some raw =>
      except_value_type
        (do pitch <- float_of raw;
         Ok (py_max (Fin (- f12_0)) (py_min (Fin f12_0) pitch)))%result
        (Fin 0)
  end.

Definition _resolve_timeout (raw_timeout : option raw_int) : result Z :=
  except_value_type
    (do timeout <-
       match raw_timeout with
       | Some raw => int_of raw
       | None => Ok DEFAULT_TIMEOUT_SECONDS
       end;
     if (timeout <=? 0)%Z then Raise (ValueError []) else Ok timeout)%result
    DEFAULT_TIMEOUT_SECONDS.

Definition _resolve_language_boost (explicit locale : option (list ascii))
  : option (list ascii) :=
  if truthy explicit then explicit
  else
    match locale with
    | Some (c :: l) => dict_get (lower (c :: l)) _LANGUAGE_BOOST_MAPPING
    | _ => None
    end.

(** The provider object: the configuration fields [__init__] rewrites and the
    attributes it sets. *)
Record provider : Type := Provider {
  p_model_name : list ascii;
  p_voice_name : list ascii;
  p_output_format : list ascii;
  p_language : list ascii;
  _speed : pyfloat;
  _volume : pyfloat;
  _pitch : pyfloat;
  _language_boost : option (list ascii);
  _timeout : Z;
  _api_key : list ascii;
  _max_chars : nat
}.

(** [__init__] up to [super().__init__(config)], the initialiser of the base
    class [BaseTTSProvider]. *)
Definition init_fields (config : general_config) (h : host) : result provider :=
  let model_name := or_default (model_name config) DEFAULT_MODEL in
  let voice_name := or_default (voice_name config) DEFAULT_VOICE in
  let output_format :=
    lower (or_default (output_format config) DEFAULT_OUTPUT_FORMAT) in
  let language := or_default (language config) (lit "en-US") in
  (do speed <- _resolve_speed (minimax_speed config);
   do volume <- _resolve_volume (minimax_volume config);
   do pitch <- _resolve_pitch (minimax_pitch config);
   let language_boost :=
     _resolve_language_boost (minimax_language_boost config) (Some language) in
   do timeout <- _resolve_timeout (minimax_request_timeout config);
   match or_else (minimax_api_key config) (FAL_KEY h) with
   | Some (c :: k) =>
       if negb (has_fal_client h) then
         Raise (ImportError (lit "MinimaxTTSProvider: fal-client is required."))
       else
         Ok (Provider model_name voice_name output_format language speed
               volume pitch language_boost timeout (c :: k)
               DEFAULT_MAX_INPUT_CHARS)
   | _ =>
       Raise (ValueError (lit "MinimaxTTSProvider: FAL_KEY environment variable or --minimax_api_key is required."))
   end)%result.

Definition validate_config (self : provider) : result unit :=
  if negb (mem (p_voice_name self) _SUPPORTED_VOICES) then
    Raise (ValueError (lit "MinimaxTTS: Unsupported voice"))
  else if truthy (_language_boost self) &&
          negb (mem (or_default (_language_boost self) [])
                    _SUPPORTED_LANGUAGE_BOOSTS) then
    Raise (ValueError (lit "MinimaxTTS: Unsupported language boost"))
  else if negb (mem (p_output_format self) [lit "mp3"; lit "wav"]) then
    Raise (ValueError (lit "MinimaxTTS: Only 'mp3' and 'wav' output formats are supported."))
  else Ok tt.

Definition get_break_string : list ascii := DEFAULT_BREAK_STRING.

Definition get_output_file_extension (self : provider) : list ascii :=
  p_output_format self.

Definition _prepare_text (text : list ascii) : list ascii :=
  strip (replace get_break_string [LF; LF] text).

Section Run.

Variable E : env.

(** The outcome of [_synthesize], the exchange with the vendor (request and
    download): a buffer or an exception, by payload and number of earlier
    requests. *)
Variable backend : nat -> list ascii -> result buffer.

Definition _synthesize (text : list ascii) : M buffer := request backend text.

Definition _synthesize_with_retry (text chunk_id : list ascii) : M buffer :=
  retry_loop _synthesize MAX_RETRIES RETRY_BACKOFF_SECONDS
    (RuntimeError (lit "MinimaxTTS: Failed to synthesize chunk " ++ chunk_id))
    (seq 1 MAX_RETRIES) None text.

Definition text_to_speech (self : provider) (text output_file : list ascii)
  (tags : audio_tags) : M unit :=
  if negb (nonempty (strip text)) then ret tt
  else
    let chunks := split_text E text (_max_chars self) (p_language self) in
    done <-
      for_chunks
        (fun chunk chunk_id =>
           let prepared_text := _prepare_text chunk in
           _synthesize_with_retry prepared_text chunk_id)
        tags (length chunks) 1 chunks [] [] ;;
    let audio_segments := fst done in
    let chunk_ids := snd done in
    merge_audio_segments E audio_segments output_file
      (get_output_file_extension self) chunk_ids true ;;
    set_audio_tags E output_file tags.

End Run.

(** The dictionary [arguments] of [_synthesize]: the text, the voice
    setting, the output format and, when one is set, the language boost. *)
Record arguments : Type := MkArguments {
  arg_text : list ascii;
  arg_speed : pyfloat;
  arg_vol : pyfloat;
  arg_voice_id : list ascii;
  arg_pitch : pyfloat;
  arg_english_normalization : bool;
  arg_output_format : list ascii;
  arg_language_boost : option (list ascii)
}.

Definition build_arguments (self : provider) (text : list ascii) : arguments :=
  MkArguments text (_speed self) (_volume self) (p_voice_name self)
    (_pitch self) false (lit "url")
    (if truthy (_language_boost self) then _language_boost self else None).

(** The vendor: [subscribe n model arguments] is what
    [response.get("audio", {}).get("url")] gives for the response of
    [fal_client.subscribe] ([None] for no URL), or the exception on the way;
    [download n url timeout] is the content [requests.get] and
    [raise_for_status] give, or their exception. [n] is the number of
    exchanges before this one. *)
Record vendor : Type := Vendor {
  subscribe : nat -> list ascii -> arguments -> result (option (list ascii));
  download : nat -> list ascii -> Z -> result buffer
}.

Definition _download_audio (v : vendor) (self : provider) (n : nat)
  (url : list ascii) : result buffer :=
  download v n url (_timeout self).

(** The body of [_synthesize]: the outcome the [backend] of [_synthesize]
    above stands for. *)
Definition synthesize_outcome (v : vendor) (self : provider) (n : nat)
  (text : list ascii) : result buffer :=
  (do audio_url <- subscribe v n (p_model_name self) (build_arguments self text);
   match audio_url with
   | Some (c :: u) => _download_audio v self n (c :: u)
   | _ =>
       Raise (RuntimeError (lit "MinimaxTTS: Response did not contain an audio URL."))
   end)%result.

End Minimax.

(** *** Qwen3 *)

Module Qwen.

Definition DEFAULT_MODEL : list ascii := lit "qwen3-tts-flash".
Definition DEFAULT_VOICE : list ascii := lit "Cherry".
Definition DEFAULT_OUTPUT_FORMAT : list ascii := lit "wav".
Definition DEFAULT_LANGUAGE_TYPE : list ascii := lit "Chinese".
Definition DEFAULT_MAX_INPUT_CHARS : nat := 550.
Definition DEFAULT_TIMEOUT_SECONDS : Z := 30.
Definition MAX_RETRIES : nat := 4.
Definition RETRY_BACKOFF_SECONDS : nat := 2.

Definition _SUPPORTED_MODELS : list (list ascii) :=
  map lit ["qwen3-tts-flash"; "qwen3-tts-flash-2025-09-18"]%string.

Definition _SUPPORTED_VOICES : list (list ascii) :=
  map lit ["Cherry"; "Ethan"; "Nofish"; "Jennifer"; "Ryan"; "Katerina";
           "Elias"; "Jada"; "Dylan"; "Sunny"; "li"; "Marcus"; "Roy"; "Peter";
           "Rocky"; "Kiki"; "Eric"]%string.

Definition _SUPPORTED_LANGUAGE_TYPES : list (list ascii) :=
  map lit ["Chinese"; "English"; "Spanish"; "Russian"; "Italian"; "French";
           "Korean"; "Japanese"; "German"; "Portuguese"]%string.

Definition _LANGUAGE_ALIAS : list (list ascii * list ascii) :=
  map (fun '(k, v) => (lit k, lit v))
    [("zh", "Chinese"); ("zh-cn", "Chinese"); ("zh-cn-beijing", "Chinese");
     ("zh-cn-shanghai", "Chinese"); ("zh-cn-sichuan", "Chinese");
     ("zh-cn-nanjing", "Chinese"); ("zh-cn-tianjin", "Chinese");
     ("zh-cn-minnan", "Chinese"); ("zh-cn-cantonese", "Chinese");
     ("zh-cn-guangxi", "Chinese"); ("zh-tw", "Chinese"); ("zh-hk", "Chinese");
     ("en", "English"); ("en-us", "English"); ("en-gb", "English");
     ("es", "Spanish"); ("ru", "Russian"); ("it", "Italian");
     ("fr", "French"); ("ko", "Korean"); ("ja", "Japanese");
     ("de", "German"); ("pt", "Portuguese")]%string.

Definition _resolve_timeout (raw_timeout : option raw_int) : result Z :=
  except_exception
    (do timeout <-
       match raw_timeout with
       | Some raw => int_of raw
       | None =>
           Raise (TypeError (lit "int() argument must be a string, a bytes-like object or a real number"))
       end;
     if (timeout <=? 0)%Z then Raise (ValueError []) else Ok timeout)%result
    DEFAULT_TIMEOUT_SECONDS.

Definition _resolve_language_type (explicit locale : option (list ascii))
  : list ascii :=
  match explicit with
  | Some (c :: e) => c :: e
  | _ =>
      match locale with
      | Some (c :: l) =>
          match dict_get (lower (c :: l)) _LANGUAGE_ALIAS with
          | Some v => v
          | None => DEFAULT_LANGUAGE_TYPE
          end
      | _ => DEFAULT_LANGUAGE_TYPE
      end
  end.

Record provider : Type := Provider {
  p_model_name : list ascii;
  p_voice_name : list ascii;
  p_output_format : list ascii;
  p_language : list ascii;
  _language_type : list ascii;
  _stream : bool;
  _timeout : Z;
  _api_key : list ascii;
  _max_chars : nat
}.

(** [__init__] up to [super().__init__(config)], the initialiser of the base
    class [BaseTTSProvider]. *)
Definition init_fields (config : general_config) (h : host) : result provider :=
  let model_name := or_default (model_name config) DEFAULT_MODEL in
  let voice_name := or_default (voice_name config) DEFAULT_VOICE in
  let output_format :=
    lower (or_default (output_format config) DEFAULT_OUTPUT_FORMAT) in
  let language := or_default (language config) (lit "zh-CN") in
  let language_type :=
    _resolve_language_type (qwen_language_type config) (Some language) in
  let stream := qwen_stream config in
  (do timeout <- _resolve_timeout (qwen_request_timeout config);
   match or_else (qwen_api_key config) (DASHSCOPE_API_KEY h) with
   | Some (c :: k) =>
       if negb (has_dashscope h) then
         Raise (ImportError (lit "Qwen3TTSProvider: dashscope>=1.24.6 is required."))
       else
         Ok (Provider model_name voice_name output_format language
               language_type stream timeout (c :: k) DEFAULT_MAX_INPUT_CHARS)
   | _ =>
       Raise (ValueError (lit "Qwen3TTSProvider: DASHSCOPE_API_KEY environment variable or --qwen_api_key is required."))
   end)%result.

Definition validate_config (self : provider) : result unit :=
  if negb (mem (p_model_name self) _SUPPORTED_MODELS) then
    Raise (ValueError (lit "Qwen3TTS: Unsupported model"))
  else if negb (mem (p_voice_name self) _SUPPORTED_VOICES) then
    Raise (ValueError (lit "Qwen3TTS: Unsupported voice"))
  else if negb (mem (_language_type self) _SUPPORTED_LANGUAGE_TYPES) then
    Raise (ValueError (lit "Qwen3TTS: Unsupported language type"))
  else if negb (eqs (p_output_format self) DEFAULT_OUTPUT_FORMAT) then
    Raise (ValueError (lit "Qwen3TTS: Only 'wav' output format is supported at the moment."))
  else Ok tt.

Definition get_break_string : list ascii := DEFAULT_BREAK_STRING.

Definition get_output_file_extension (self : provider) : list ascii :=
  p_output_format self.

Definition _prepare_text (text : list ascii) : list ascii :=
  strip (replace get_break_string [LF; LF] text).

Section Run.

Variable E : env.

(** The outcome of [_synthesize], the exchange with the vendor (streaming or
    not, with its download): a buffer or an exception, by payload and number
    of earlier requests. *)
Variable backend : nat -> list ascii -> result buffer.

Definition _synthesize (text : list ascii) : M buffer := request backend text.

Definition _synthesize_with_retry (text chunk_id : list ascii) : M buffer :=
  retry_loop _synthesize MAX_RETRIES RETRY_BACKOFF_SECONDS
    (RuntimeError (lit "Qwen3TTS: Failed to synthesize chunk " ++ chunk_id))
    (seq 1 MAX_RETRIES) None text.

Definition text_to_speech (self : provider) (text output_file : list ascii)
  (tags : audio_tags) : M unit :=
  if negb (nonempty (strip text)) then ret tt
  else
    let chunks := split_text E text (_max_chars self) (p_language self) in
    done <-
      for_chunks
        (fun chunk chunk_id =>
           let prepared_text := _prepare_text chunk in
           _synthesize_with_retry prepared_text chunk_id)
        tags (length chunks) 1 chunks [] [] ;;
    let audio_segments := fst done in
    let chunk_ids := snd done in
    merge_audio_segments E audio_segments output_file
      (get_output_file_extension self) chunk_ids true ;;
    set_audio_tags E output_file tags.

End Run.

(** The keyword arguments of [dashscope.MultiModalConversation.call]. *)
Record call_arguments : Type := CallArguments {
  arg_model : list ascii;
  arg_api_key : list ascii;
  arg_text : list ascii;
  arg_voice : list ascii;
  arg_language_type : list ascii;
  arg_stream : bool
}.

Definition build_call (self : provider) (text : list ascii) (stream : bool)
  : call_arguments :=
  CallArguments (p_model_name self) (_api_key self) text (p_voice_name self)
    (_language_type self) stream.

(** [chunk.output.audio] of a streamed chunk: its [data] and [url]
    attributes, [None] for a missing one. *)
Record audio : Type := Audio {
  audio_data : option (list ascii);
  audio_url : option (list ascii)
}.

(** The vendor: [call n arguments] is what
    [getattr(response.output.audio, "url", None)] gives for the response of
    a call without streaming; [call_stream n arguments] are the chunks of a
    streamed call, each by its [output.audio] ([None] for none); either may
    raise. [b64decode] and [download] are [base64.b64decode] and
    [requests.get] with [raise_for_status]. [n] is the number of exchanges
    before this one. *)
Record vendor : Type := Vendor {
  call : nat -> call_arguments -> result (option (list ascii));
  call_stream : nat -> call_arguments -> result (list (option audio));
  b64decode : list ascii -> result buffer;
  download : nat -> list ascii -> Z -> result buffer
}.

Definition _download_audio (v : vendor) (self : provider) (n : nat)
  (url : list ascii) : result buffer :=
  download v n url (_timeout self).

Definition _synthesize_non_streaming (v : vendor) (self : provider) (n : nat)
  (text : list ascii) : result buffer :=
  (do audio_url <- call v n (build_call self text false);
   match audio_url with
   | Some (c :: u) => _download_audio v self n (c :: u)
   | _ =>
       Raise (RuntimeError (lit "Qwen3TTS: Response did not contain an audio URL."))
   end)%result.

(** The loop of [_synthesize_streaming] over the chunks: the bytes written
    to the buffer and the last URL seen. *)
Fixpoint stream_loop (v : vendor) (chunks : list (option audio))
  (written : buffer) (url : option (list ascii))
  : result (buffer * option (list ascii)) :=
  match chunks with
  | [] => Ok (written, url)
  | None :: chunks' => stream_loop v chunks' written url
  | Some a :: chunks' =>
      (do written' <-
         match audio_data a with
         | Some (c :: d) =>
             (do bytes <- b64decode v (c :: d); Ok (written ++ bytes))
         | _ => Ok written
         end;
       let url' := if truthy (audio_url a) then audio_url a else url in
       stream_loop v chunks' written' url')%result
  end.

Definition _synthesize_streaming (v : vendor) (self : provider) (n : nat)
  (text : list ascii) : result buffer :=
  (do chunks <- call_stream v n (build_call self text true);
   do collected <- stream_loop v chunks [] None;
   let written := fst collected in
   let url := snd collected in
   if length written =? 0 then
     match url with
     | Some (c :: u) => _download_audio v self n (c :: u)
     | _ =>
         Raise (RuntimeError (lit "Qwen3TTS: Streaming response contained no audio data."))
     end
   else Ok written)%result.

(** The body of [_synthesize]: the outcome the [backend] of [_synthesize]
    above stands for. *)
Definition synthesize_outcome (v : vendor) (self : provider) (n : nat)
  (text : list ascii) : result buffer :=
  if _stream self then _synthesize_streaming v self n text
  else _synthesize_non_streaming v self n text.

End Qwen.

(** *** Gemini *)

Module Gemini.

Definition DEFAULT_MODEL : list ascii := lit "gemini-2.5-pro-preview-tts".
Definition DEFAULT_VOICE : list ascii := lit "Kore".
Definition DEFAULT_SAMPLE_RATE : Z := 24000.
Definition DEFAULT_CHANNELS : Z := 1.
Definition DEFAULT_OUTPUT_FORMAT : list ascii := lit "wav".
Definition DEFAULT_MAX_CHARS : nat := 1800.

Definition _SUPPORTED_VOICES : list (list ascii) :=
  map lit ["Zephyr"; "Puck"; "Charon"; "Kore"; "Fenrir"; "Leda"; "Orus";
           "Aoede"; "Callirrhoe"; "Autonoe"; "Enceladus"; "Iapetus";
           "Umbriel"; "Algieba"; "Despina"; "Erinome"; "Algenib";
           "Rasalgethi"; "Laomedeia"; "Achernar"; "Alnilam"; "Schedar";
           "Gacrux"; "Pulcherrima"; "Achird"; "Zubenelgenubi";
           "Vindemiatrix"; "Sadachbia"; "Sadaltager"; "Sulafat"]%string.

Definition _SUPPORTED_OUTPUT_FORMATS : list (list ascii) :=
  map lit ["wav"; "mp3"; "flac"; "ogg"; "opus"; "aac"]%string.

Definition _SUPPORTED_ENCODINGS : list (list ascii * nat) :=
  map (fun '(k, v) => (lit k, v))
    [("pcm16", 2); ("linear16", 2); ("pcm_s16le", 2); ("pcm24", 3);
     ("pcm_s24le", 3); ("pcm32", 4); ("pcm_s32le", 4)]%string.

Definition _SUPPORTED_MODELS : list (list ascii) :=
  map lit ["gemini-2.5-pro-preview-tts"; "gemini-2.5-flash-preview-tts"]%string.

(** [x or default] for an [Optional[int]]: [None] and [0] give the default. *)
Definition int_or (x : option Z) (default : Z) : Z :=
  match x with
  | Some z => if (z =? 0)%Z then default else z
  | None => default
  end.

Definition _resolve_sample_width (encoding : list ascii) : result nat :=
  match dict_get encoding _SUPPORTED_ENCODINGS with
  | Some width => Ok width
  | None => Raise (ValueError (lit "GeminiTTS: Unsupported audio encoding"))
  end.

Definition _parse_speaker_map (raw : speaker_map_arg)
  : result (list (list ascii * list ascii)) :=
  match raw with
  | SMAbsent => Ok []
  | SMObject entries => Ok entries
  | SMInvalid =>
      Raise (ValueError (lit "GeminiTTS: --gemini_speaker_map must be a valid JSON object string"))
  | SMNotObject =>
      Raise (ValueError (lit "GeminiTTS: speaker map must be a JSON object"))
  end.

Record provider : Type := Provider {
  p_model_name : list ascii;
  p_voice_name : list ascii;
  p_output_format : list ascii;
  p_language : list ascii;
  p_instructions : option (list ascii);
  sample_rate : Z;
  channels : Z;
  audio_encoding : list ascii;
  sample_width : nat;
  _speaker_map : list (list ascii * list ascii);
  _max_chars : nat;
  api_key : list ascii
}.

(** [__init__] up to [super().__init__(config)], the initialiser of the base
    class [BaseTTSProvider]. *)
Definition init_fields (config : general_config) (h : host) : result provider :=
  let model_name := or_default (model_name config) DEFAULT_MODEL in
  let output_format :=
    lower (or_default (output_format config) DEFAULT_OUTPUT_FORMAT) in
  let language := or_default (language config) (lit "en-US") in
  let voice_name := or_default (voice_name config) DEFAULT_VOICE in
  let sample_rate := int_or (gemini_sample_rate config) DEFAULT_SAMPLE_RATE in
  let channels := int_or (gemini_channels config) DEFAULT_CHANNELS in
  let audio_encoding :=
    lower (or_default (gemini_audio_encoding config) (lit "pcm16")) in
  (do sample_width <- _resolve_sample_width audio_encoding;
   do speaker_map <- _parse_speaker_map (gemini_speaker_map config);
   let max_chars :=
     if negb (startswith (lit "zh") language) then DEFAULT_MAX_CHARS
     else 1200 in
   match or_else (gemini_api_key config) (GOOGLE_API_KEY h) with
   | Some (c :: k) =>
       Ok (Provider model_name voice_name output_format language
             (instructions config) sample_rate channels audio_encoding
             sample_width speaker_map max_chars (c :: k))
   | _ =>
       Raise (ValueError (lit "GeminiTTSProvider: GOOGLE_API_KEY environment variable or --gemini_api_key is required."))
   end)%result.

(** The loop [for speaker, voice in self._speaker_map.items()]. *)
Fixpoint validate_speakers (entries : list (list ascii * list ascii))
  : result unit :=
  match entries with
  | [] => Ok tt
  | (speaker, voice) :: entries' =>
      if negb (mem voice _SUPPORTED_VOICES) then
        Raise (ValueError (lit "GeminiTTS: Unsupported voice name '" ++ voice ++
                           lit "' for speaker '" ++ speaker ++ lit "'."))
      else validate_speakers entries'
  end.

Definition validate_config (self : provider) : result unit :=
  if negb (mem (p_output_format self) _SUPPORTED_OUTPUT_FORMATS) then
    Raise (ValueError (lit "GeminiTTS: Unsupported output format"))
  else if (sample_rate self <=? 0)%Z then
    Raise (ValueError (lit "GeminiTTS: sample rate must be positive"))
  else if negb ((channels self =? 1)%Z || (channels self =? 2)%Z) then
    Raise (ValueError (lit "GeminiTTS: only mono or stereo channels are supported"))
  else if nonempty (p_voice_name self) &&
          negb (mem (p_voice_name self) _SUPPORTED_VOICES) then
    Raise (ValueError (lit "GeminiTTS: Unsupported voice name"))
  else validate_speakers (_speaker_map self).

Definition get_break_string : list ascii := DEFAULT_BREAK_STRING.

Definition get_output_file_extension (self : provider) : list ascii :=
  p_output_format self.

Definition _prepare_prompt (self : provider) (chunk : list ascii)
  : list ascii :=
  let cleaned := replace get_break_string [LF; LF] chunk in
  match p_instructions self with
  | Some (c :: i) => strip (c :: i) ++ [LF; LF] ++ cleaned
  | _ => cleaned
  end.

(** [part.inline_data.data] of a response part: bytes or a base64 string. *)
Inductive inline_data : Type :=
| DataBytes (b : buffer)
| DataStr (s : list ascii).

Definition data_truthy (d : inline_data) : bool :=
  match d with
  | DataBytes b => nonempty b
  | DataStr s => nonempty s
  end.

(** The content of a candidate by its [parts], each part by its inline data
    ([None] for a part without); the attribute [parts] itself may be
    [None]. *)
Definition content : Type := option (list (option inline_data)).

(** A response by its [candidates], each by its content ([None] for a
    candidate without); the attribute [candidates] itself may be [None]. *)
Definition response : Type := option (list (option content)).

(** The vendor's client and the codecs the provider calls. *)
Record services : Type := Services {
  generate_content : nat -> list ascii -> result response;
  b64decode : list ascii -> result buffer;
  encode_pcm : buffer -> nat -> Z -> Z -> list ascii -> result buffer
}.

Definition no_payload (chunk_id : list ascii) : exn :=
  RuntimeError (lit "GeminiTTS: No audio payload returned for " ++ chunk_id).

(** What a [for] loop over [None] raises. *)
Definition not_iterable : exn :=
  TypeError (lit "'NoneType' object is not iterable").

(** The loop [for part in content.parts] of [_extract_pcm_bytes]: the first
    part with data ends the search. *)
Fixpoint first_data (parts : list (option inline_data)) : option inline_data :=
  match parts with
  | [] => None
  | Some d :: parts' => if data_truthy d then Some d else first_data parts'
  | None :: parts' => first_data parts'
  end.

(** The loop [for candidate in candidates]. *)
Fixpoint extract_loop (svc : services) (candidates : list (option content))
  (chunk_id : list ascii) : result buffer :=
  match candidates with
  | [] => Raise (no_payload chunk_id)
  | None :: candidates' => extract_loop svc candidates' chunk_id
  | Some None :: candidates' => Raise not_iterable
  | Some (Some parts) :: candidates' =>
      match first_data parts with
      | Some (DataStr data) => b64decode svc data
      | Some (DataBytes data) => Ok data
      | None => extract_loop svc candidates' chunk_id
      end
  end.

Definition _extract_pcm_bytes (svc : services) (response : response)
  (chunk_id : list ascii) : result buffer :=
  match response with
  | Some candidates => extract_loop svc candidates chunk_id
  | None => Raise not_iterable
  end.

Definition _encode_pcm_to_segment (svc : services) (self : provider)
  (pcm_bytes : buffer) : result buffer :=
  encode_pcm svc pcm_bytes (sample_width self) (sample_rate self)
    (channels self) (get_output_file_extension self).

Section Run.

Variable E : env.
Variable svc : services.

(** The body of the chunk loop of [text_to_speech]. *)
Definition synthesize_chunk (self : provider) (chunk chunk_id : list ascii)
  : M buffer :=
  let prepared_prompt := _prepare_prompt self chunk in
  response <-
    catch (request (generate_content svc) prepared_prompt)
      (fun exc => raise exc) ;;
  pcm_bytes <- lift (_extract_pcm_bytes svc response chunk_id) ;;
  segment_buffer <- lift (_encode_pcm_to_segment svc self pcm_bytes) ;;
  ret segment_buffer.

Definition text_to_speech (self : provider) (text output_file : list ascii)
  (tags : audio_tags) : M unit :=
  if negb (nonempty (strip text)) then ret tt
  else
    let chunks := split_text E text (_max_chars self) (p_language self) in
    done <-
      for_chunks (synthesize_chunk self) tags (length chunks) 1 chunks [] [] ;;
    let audio_segments := fst done in
    let chunk_ids := snd done in
    merge_audio_segments E audio_segments output_file
      (get_output_file_extension self) chunk_ids true ;;
    set_audio_tags E output_file tags.

End Run.

(** [types.SpeechConfig]: several speakers with a voice each, or one
    voice. *)
Inductive speech_config : Type :=
| MultiSpeaker (speaker_configs : list (list ascii * list ascii))
| SingleVoice (voice : list ascii).

Definition _build_speech_config (self : provider) : speech_config :=
  if nonempty (_speaker_map self) then MultiSpeaker (_speaker_map self)
  else SingleVoice (p_voice_name self).

End Gemini.

End Tts.

(** ** Reference definitions

    Definitions that follow the words of the specification, to be compared
    with the definitions taken from the source. *)

Module Spec.

Import Re Markdown.

(** The metadata entry a front-matter line stands for: the lower-cased key
    and the value of a line of the form [key: value]. *)
Definition meta_entry (line : list ascii) : option (list ascii * list ascii) :=
  match rmatch METADATA_PATTERN line with
  | Some mt => Some (lower (strip (group 1 mt)), strip (group 2 mt))
  | None => None
  end.

(** The lines before the first delimiter line. *)
Fixpoint before_close (ls : list (list ascii)) : list (list ascii) :=
  match ls with
  | [] => []
  | l :: ls' =>
      if matches FRONT_MATTER_DELIMITER l then [] else l :: before_close ls'
  end.

(** The lines after the first delimiter line, if there is one. *)
Fixpoint after_close (ls : list (list ascii)) : option (list (list ascii)) :=
  match ls with
  | [] => None
  | l :: ls' =>
      if matches FRONT_MATTER_DELIMITER l then Some ls' else after_close ls'
  end.

(** The value of the last line among [ls] whose entry has the key [key]. *)
Fixpoint last_value (key : list ascii) (ls : list (list ascii))
  : option (list ascii) :=
  match ls with
  | [] => None
  | l :: ls' =>
      match last_value key ls' with
      | Some v => Some v
      | None =>
          match meta_entry l with
          | Some (k, v) => if bool_decide (k = key) then Some v else None
          | None => None
          end
      end
  end.

(** The value of the first line among [ls] whose entry has the key [key]. *)
Fixpoint first_value (key : list ascii) (ls : list (list ascii))
  : option (list ascii) :=
  match ls with
  | [] => None
  | l :: ls' =>
      match meta_entry l with
      | Some (k, v) =>
          if bool_decide (k = key) then Some v else first_value key ls'
      | None => first_value key ls'
      end
  end.

(** The body cut at its headings of level one and two: each segment is the
    text of the heading that opens it ([None] before the first heading) and
    the lines up to the next such heading. *)
Fixpoint segments (heading : option (list ascii)) (lines : list (list ascii))
  (body : list (list ascii)) : list (option (list ascii) * list (list ascii)) :=
  match body with
  | [] => [(heading, lines)]
  | l :: body' =>
      match heading_of l with
      | Some (level, heading_text) =>
          if level <=? 2
          then (heading, lines) :: segments (Some heading_text) [] body'
          else segments heading (lines ++ [l]) body'
      | None => segments heading (lines ++ [l]) body'
      end
  end.

(** The chapters of a list of segments: a segment whose text is empty gives
    none; a segment without a heading text is titled [Chapter n], [n] being
    the position of its chapter among those emitted. *)
Fixpoint emit_segments (sanitize_title : list ascii -> list ascii -> list ascii)
  (c : config) (break_string : list ascii) (rules : list rule)
  (emitted : list (list ascii * list ascii))
  (segs : list (option (list ascii) * list (list ascii)))
  : result (list (list ascii * list ascii)) :=
  match segs with
  | [] => Ok emitted
  | (heading, lines) :: segs' =>
      (do text <- _build_chapter_text c lines break_string rules heading;
       emit_segments sanitize_title c break_string rules
         (if nonempty text
          then emitted ++
               [(sanitize_title
                   (title_or heading (chapter_n (S (length emitted))))
                   break_string, text)]
          else emitted)
         segs')%result
  end.

(** A run of [n] consecutive line feeds is replaced by [f n]; other
    characters are kept. [run] is the length of the run being read. *)
Fixpoint subst_runs (f : nat -> list ascii) (run : nat) (s : list ascii)
  : list ascii :=
  match s with
  | [] => match run with 0 => [] | S _ => f run end
  | c :: s' =>
      if eqc c LF then subst_runs f (S run) s'
      else match run with 0 => [] | S _ => f run end ++ c :: subst_runs f 0 s'
  end.

(** The text begins with a line feed. *)
Definition starts_with_lf (s : list ascii) : bool :=
  match s with
  | c :: _ => eqc c LF
  | [] => false
  end.

(** Every line feed becomes [y]. *)
Definition each_lf (y : list ascii) (s : list ascii) : list ascii :=
  flat_map (fun c => if eqc c LF then y else [c]) s.

(** The break marker as [_apply_newline_mode] writes it: stripped, with one
    space on each side. *)
Definition padded_marker (break_string : list ascii) : list ascii :=
  lit " " ++ strip break_string ++ lit " ".

(** Mode [single]: every run of line breaks becomes the marker. *)
Definition single_mode (break_string : list ascii) (n : nat) : list ascii :=
  padded_marker break_string.

(** Mode [double]: a run of two or more line breaks becomes the marker, a
    single line break a space. *)
Definition double_mode (break_string : list ascii) (n : nat) : list ascii :=
  if 2 <=? n then padded_marker break_string else lit " ".

(** Mode [none]: every line break becomes a space. *)
Definition none_mode (n : nat) : list ascii := repeat SP n.

(** A break string the literal reading of the replacement is exact for: it
    has no backslash, and no line feed that a later pass would rewrite. *)
Definition plain_marker (break_string : list ascii) : bool :=
  forallb (fun c => negb (eqc c "\") && negb (eqc c LF)) break_string.

(** The newline modes [_apply_newline_mode] knows. *)
Definition valid_mode (c : config) : bool :=
  eqs (newline_mode c) (lit "single") || eqs (newline_mode c) (lit "double")
  || eqs (newline_mode c) (lit "none").

(** A search-and-replace rule that never raises. *)
Definition total_rule (f : rule) : Prop := forall t, exists t', f t = Ok t'.

(** The events of the vendor exchange: requests and back-off sleeps. *)
Definition backend_event (ev : Tts.event) : bool :=
  match ev with
  | Tts.Call _ | Tts.Sleep _ => true
  | Tts.Merge _ _ _ _ _ | Tts.SetTags _ _ => false
  end.

(** From [w] to [w'] nothing but vendor requests and sleeps happened: no
    merge and no tag attachment. *)
Definition quiet (w w' : Tts.world) : Prop :=
  exists evs, Tts.trace w' = Tts.trace w ++ evs /\
              forallb backend_event evs = true.

(** The protocol of one chapter, for a chunk loop body [step] and the whole
    method [tts]. (1) If a chunk's synthesis raises after the chunks before it
    succeeded, [tts] raises that very error in that very world, in which
    neither a merge nor a tag attachment has happened. (2) If every chunk
    succeeds, one merge of the segments follows, and the tags are set after
    it and only if it returned. *)
Definition chapter_protocol (E : Tts.env)
  (step : list ascii -> list ascii -> Tts.M Tts.buffer) (tts : Tts.M unit)
  (chunks : list (list ascii)) (tags : Tts.audio_tags)
  (output_file ext : list ascii) : Prop :=
  (forall w pre c post done w1 e w2,
      chunks = pre ++ c :: post ->
      Tts.for_chunks step tags (length chunks) 1 pre [] [] w = (Ok done, w1) ->
      step c (Tts.chunk_id_of tags (S (length pre)) (length chunks)) w1
        = (Raise e, w2) ->
      tts w = (Raise e, w2) /\ quiet w w2) /\
  (forall w segments ids w1,
      Tts.for_chunks step tags (length chunks) 1 chunks [] [] w
        = (Ok (segments, ids), w1) ->
      quiet w w1 /\
      tts w =
      match Tts.merge_outcome E segments output_file ext ids true with
      | Ok _ =>
          (Tts.tags_outcome E output_file tags,
           Tts.World (Tts.calls w1)
             (Tts.trace w1 ++ [Tts.Merge segments output_file ext ids true;
                               Tts.SetTags output_file tags]))
      | Raise e =>
          (Raise e,
           Tts.World (Tts.calls w1)
             (Tts.trace w1 ++ [Tts.Merge segments output_file ext ids true]))
      end).

(** The events of [k] failed attempts on [text], each followed by its linear
    back-off, and of one more attempt. *)
Definition retried_trace (backoff : nat) (text : list ascii) (k : nat)
  : list Tts.event :=
  flat_map (fun attempt => [Tts.Call text; Tts.Sleep (backoff * attempt)])
    (seq 1 k) ++ [Tts.Call text].

(** The first [k] answers of the vendor to [text], counted from the world
    [w], are failures of class [Exception]: the failures a retry loop takes
    for transient. *)
Definition fails_first (backend : nat -> list ascii -> result Tts.buffer)
  (text : list ascii) (w : Tts.world) (k : nat) : Prop :=
  forall i, i < k ->
    exists e, backend (Tts.calls w + i) text = Raise e /\
              is_exception e = true.

(** The text [s] with each occurrence of the break marker, found from the
    left, replaced by a blank line. The side condition of the second rule
    says that the marker does not begin before the end of [a]. *)
Inductive marker_replaced : list ascii -> list ascii -> Prop :=
| replaced_none (s : list ascii) :
    contains Tts.DEFAULT_BREAK_STRING s = false -> marker_replaced s s
| replaced_first (a b t : list ascii) :
    contains Tts.DEFAULT_BREAK_STRING (a ++ lit " @BRK") = false ->
    marker_replaced b t ->
    marker_replaced (a ++ Tts.DEFAULT_BREAK_STRING ++ b) (a ++ [LF; LF] ++ t).

(** What stands before the chunk in a Gemini prompt: the configured
    instructions, stripped, and a blank line; nothing without
    instructions. *)
Definition instructions_prefix (instructions : option (list ascii))
  : list ascii :=
  match instructions with
  | Some (c :: i) => strip (c :: i) ++ [LF; LF]
  | _ => []
  end.

(** The payloads of the vendor requests among the events [evs]. *)
Definition call_payloads (evs : list Tts.event) : list (list ascii) :=
  flat_map
    (fun ev =>
       match ev with
       | Tts.Call payload => [payload]
       | _ => []
       end) evs.

(** From [w] to [w'] every vendor request carried a payload that satisfies
    [P]. *)
Definition sends_only (P : list ascii -> Prop) (w w' : Tts.world) : Prop :=
  exists evs, Tts.trace w' = Tts.trace w ++ evs /\
              Forall P (call_payloads evs).

(** A float within [lo, hi] as [max(lo, min(hi, x))] has it: an infinity goes
    to the bound on its side, and NaN, which no comparison places, to
    [hi]. *)
Definition clamped (lo hi : Q) (x : Tts.pyfloat) : Q :=
  match x with
  | Tts.Fin q =>
      if Qle_bool hi q then hi else if Qle_bool q lo then lo else q
  | Tts.PInf | Tts.NaN => hi
  | Tts.NInf => lo
  end.

End Spec.

(** ** Concrete inputs for the examples *)

Module Examples.

Import Markdown.

(** The document of the specification's example. *)
Definition example_doc : list ascii :=
  join [LF] (map lit ["---"; "title: T"; "---"; "# Prologue"; "Hello."; "";
                      "## One"; "World **bold**."]%string).

Definition example_config : config :=
  Config (lit "book.md") (lit "double") false false.

(** A front matter with the key [title] twice. *)
Definition twice_titled_doc : list ascii :=
  join [LF] (map lit ["---"; "title: A"; "title: B"; "---"; "text"]%string).

(** A heading with a title, then a heading without text. *)
Definition untitled_second_doc : list ascii :=
  join [LF] (map lit ["# A"; "text"; "# "; "more"]%string).

(** An empty title in the front matter and a body that is one code block. *)
Definition code_only_doc : list ascii :=
  join [LF] (map lit ["---"; "title: "; "---"; "```x```"]%string).

(** A splitter that keeps the text in one chunk; a merge and a tag
    attachment that succeed. *)
Definition one_chunk_env : Tts.env :=
  Tts.Env (fun text _ _ => [text]) (fun _ _ _ _ _ => Ok tt) (fun _ _ => Ok tt).

(** A splitter that gives the two chunks [One.] and [Two.] whatever the
    text; a merge and a tag attachment that succeed. *)
Definition two_chunk_env : Tts.env :=
  Tts.Env (fun _ _ _ => [lit "One."; lit "Two."]) (fun _ _ _ _ _ => Ok tt)
    (fun _ _ => Ok tt).

Definition some_tags : Tts.audio_tags :=
  Tts.AudioTags 1 (lit "One") (lit "Jane Doe") (lit "T").

Definition one_byte : Tts.buffer := [Byte.x01].

(** A vendor that is down, and one that answers from the third request on. *)
Definition down_backend (n : nat) (payload : list ascii) : result Tts.buffer :=
  Raise (OtherError n).

(** A vendor call that the user interrupts every time: it raises
    [KeyboardInterrupt], which is no [Exception]. *)
Definition interrupted_backend (n : nat) (payload : list ascii)
  : result Tts.buffer :=
  Raise (BaseError n).

Definition flaky_backend (n : nat) (payload : list ascii) : result Tts.buffer :=
  if n <? 2 then Raise (OtherError n) else Ok one_byte.

Definition down_services : Tts.Gemini.services :=
  Tts.Gemini.Services (fun n _ => Raise (OtherError n)) (fun _ => Ok [])
    (fun pcm _ _ _ _ => Ok pcm).

(** A Gemini service that answers the first request with one byte of audio
    and fails from the second on. *)
Definition second_fails_services : Tts.Gemini.services :=
  Tts.Gemini.Services
    (fun n _ =>
       if n =? 0
       then Ok (Some [Some (Some [Some (Tts.Gemini.DataBytes one_byte)])])
       else Raise (OtherError n))
    (fun _ => Ok []) (fun pcm _ _ _ _ => Ok pcm).

(** A configuration that sets nothing, and a host with the three keys and the
    two vendor modules. *)
Definition empty_config : Tts.general_config :=
  Tts.GeneralConfig None None None None None None None None None Tts.SMAbsent
    None None false None None None None None None None.

Definition full_host : Tts.host :=
  Tts.Host (Some (lit "g")) (Some (lit "d")) (Some (lit "f")) true true.

Definition minimax_provider : Tts.Minimax.provider :=
  Tts.Minimax.Provider Tts.Minimax.DEFAULT_MODEL Tts.Minimax.DEFAULT_VOICE
    (lit "mp3") (lit "en-US") (Tts.Fin 1) (Tts.Fin 1) (Tts.Fin 0)
    (Some (lit "English")) 60 (lit "f") 4500.

Definition qwen_provider : Tts.Qwen.provider :=
  Tts.Qwen.Provider Tts.Qwen.DEFAULT_MODEL Tts.Qwen.DEFAULT_VOICE (lit "wav")
    (lit "zh-CN") (lit "Chinese") false 30 (lit "d") 550.

Definition gemini_provider (instructions : option (list ascii))
  : Tts.Gemini.provider :=
  Tts.Gemini.Provider Tts.Gemini.DEFAULT_MODEL Tts.Gemini.DEFAULT_VOICE
    (lit "wav") (lit "en-US") instructions 24000 1 (lit "pcm16") 2 [] 1800
    (lit "g").

(** A configuration that asks for a voice no table lists. *)
Definition bob_config : Tts.general_config :=
  Tts.GeneralConfig None (Some (lit "Bob")) None None None None None None None
    Tts.SMAbsent None None false None None None None None None None.

(** A configuration with a model name no table lists, a speed above the
    range and a negative timeout. *)
Definition odd_config : Tts.general_config :=
  Tts.GeneralConfig (Some (lit "no-such-model")) None None None None None None
    None None Tts.SMAbsent None None false None None
    (Some (Tts.FNum (Tts.Fin 5))) None None None (Some (Tts.INum (-5))).

End Examples.

(** ** Proof automation *)

(** Case analysis on the conditions of a chain of [if]s in [H], dropping the
    branches in which [H] equates different constructors. *)
Ltac split_ifs H :=
  repeat match type of H with
         | context [if ?b then _ else _] =>
             let E := fresh "E" in destruct b eqn:E; try discriminate H
         end.

(** ** Vocabulary of the further properties *)

Module Notions.

Import Re Markdown.

(** The number a string of decimal digits denotes. *)
Definition decimal (digits : list ascii) : nat :=
  fold_left (fun acc c => 10 * acc + (code c - 48)) digits 0.

(** The chunk identifiers of a chapter of [total] chunks, in order. *)
Definition expected_ids (tags : Tts.audio_tags) (total : nat)
  : list (list ascii) :=
  map (fun index => Tts.chunk_id_of tags index total) (seq 1 total).

(** The chunks are synthesized one after the other, each in the world the
    one before left: [step] returns the segment [seg] for the chunk of number
    [index], and the segments are listed in the order of the chunks. *)
Inductive steps_in_order
  (step : list ascii -> list ascii -> Tts.M Tts.buffer)
  (tags : Tts.audio_tags) (total : nat)
  : nat -> list (list ascii) -> Tts.world -> list Tts.buffer -> Tts.world ->
    Prop :=
| steps_done (index : nat) (w : Tts.world) :
    steps_in_order step tags total index [] w [] w
| steps_next (index : nat) (chunk : list ascii) (chunks : list (list ascii))
    (w w1 w2 : Tts.world) (seg : Tts.buffer) (segs : list Tts.buffer) :
    step chunk (Tts.chunk_id_of tags index total) w = (Ok seg, w1) ->
    steps_in_order step tags total (S index) chunks w1 segs w2 ->
    steps_in_order step tags total index (chunk :: chunks) w (seg :: segs) w2.

(** A chapter of [chunks] that went well from [w] to [w']: every chunk was
    synthesized in turn; then came one merge, of the segments in the order
    of their chunks and under the chunks' identifiers in that order, with
    pydub forced; the tag attachment came last; and both returned. *)
Definition merged_in_order (E : Tts.env)
  (step : list ascii -> list ascii -> Tts.M Tts.buffer)
  (chunks : list (list ascii)) (tags : Tts.audio_tags)
  (output_file ext : list ascii) (w w' : Tts.world) : Prop :=
  exists segments w1,
    steps_in_order step tags (length chunks) 1 chunks w segments w1 /\
    Tts.merge_outcome E segments output_file ext
      (expected_ids tags (length chunks)) true = Ok tt /\
    Tts.tags_outcome E output_file tags = Ok tt /\
    w' =
    Tts.World (Tts.calls w1)
      (Tts.trace w1 ++
       [Tts.Merge segments output_file ext
          (expected_ids tags (length chunks)) true;
        Tts.SetTags output_file tags]).

(** The seconds slept in a trace. *)
Fixpoint slept (evs : list Tts.event) : nat :=
  match evs with
  | [] => 0
  | Tts.Sleep seconds :: evs' => seconds + slept evs'
  | _ :: evs' => slept evs'
  end.

(** From [w] to [w'] at most [requests] vendor requests were made and at
    most [seconds] seconds slept. *)
Definition within (requests seconds : nat) (w w' : Tts.world) : Prop :=
  Tts.calls w' <= Tts.calls w + requests /\
  slept (Tts.trace w') <= slept (Tts.trace w) + seconds.

(** What a scan of the candidates of a Gemini response comes upon,
    candidate by candidate and part by part: a payload that is not empty, or
    a content whose [parts] is [None], which stops the scan. *)
Inductive finding : Type :=
| Payload (d : Tts.Gemini.inline_data)
| NoParts.

Definition findings (candidates : list (option Tts.Gemini.content))
  : list finding :=
  flat_map
    (fun candidate =>
       match candidate with
       | Some (Some parts) =>
           flat_map
             (fun part =>
                match part with
                | Some d =>
                    if Tts.Gemini.data_truthy d then [Payload d] else []
                | None => []
                end) parts
       | Some None => [NoParts]
       | None => []
       end) candidates.

(** The voices a speech configuration names. *)
Definition voices_of (sc : Tts.Gemini.speech_config) : list (list ascii) :=
  match sc with
  | Tts.Gemini.MultiSpeaker speaker_configs => map snd speaker_configs
  | Tts.Gemini.SingleVoice voice => [voice]
  end.

(** The base64 texts and the URLs of a stream of Qwen3 chunks that are not
    empty, in order. *)
Definition stream_datas (chunks : list (option Tts.Qwen.audio))
  : list (list ascii) :=
  flat_map
    (fun chunk =>
       match chunk with
       | Some a =>
           match Tts.Qwen.audio_data a with
           | Some (c :: d) => [c :: d]
           | _ => []
           end
       | None => []
       end) chunks.

Definition stream_urls (chunks : list (option Tts.Qwen.audio))
  : list (list ascii) :=
  flat_map
    (fun chunk =>
       match chunk with
       | Some a =>
           match Tts.Qwen.audio_url a with
           | Some (c :: u) => [c :: u]
           | _ => []
           end
       | None => []
       end) chunks.

(** An answer of the vendor without an audio URL. *)
Definition no_url (answer : result (option (list ascii))) : bool :=
  match answer with
  | Ok None | Ok (Some []) => true
  | _ => false
  end.

(** *** The parser *)

(** The code points of the model. *)
Definition all_chars : list ascii := map ascii_of_nat (seq 0 256).

(** A match of [r] consumes a character that satisfies [P]. *)
Fixpoint needs (P : ascii -> bool) (r : re) : bool :=
  match r with
  | Cset l => forallb (fun c => implb (in_set l c) (P c)) all_chars
  | Seq a b => needs P a || needs P b
  | Alt a b => needs P a && needs P b
  | Rep _ lo _ a => (1 <=? lo) && needs P a
  | Grp _ a => needs P a
  | _ => false
  end.

(** The characters Markdown markup is made of, as far as [_strip_markdown]
    looks for it: back quote, opening bracket, asterisk, underscore,
    greater-than sign, hyphen, plus sign, hash sign, and the digits. *)
Definition markup (c : ascii) : bool :=
  in_set [CChar "`"; CChar "["; CChar "*"; CChar "_"; CChar ">"; CChar "-";
          CChar "+"; CChar "#"; CDigit] c.

(** A text without markup characters. *)
Definition plain_text (s : list ascii) : bool :=
  forallb (fun c => negb (markup c)) s.

(** The character before the position once [w] has been read from a
    position that follows [p]. *)
Definition after (p : option ascii) (w : list ascii) : option ascii :=
  match last w with
  | Some d => Some d
  | None => p
  end.

(** The text begins with a character of the set [l]. *)
Definition head_in (l : list cclass) (t : list ascii) : bool :=
  match t with
  | c :: _ => in_set l c
  | [] => false
  end.

(** The text [a] ends where a line begins: it is empty or ends with a
    line feed. *)
Definition at_line_start (a : list ascii) : bool :=
  match last a with
  | Some c => eqc c LF
  | None => true
  end.

(** The markup characters other than the hash sign: what the nine
    substitutions before the heading substitution need. *)
Definition inline_markup (c : ascii) : bool :=
  in_set [CChar "`"; CChar "["; CChar "*"; CChar "_"; CChar ">"; CChar "-";
          CChar "+"; CDigit] c.

(** The end of the link and image patterns: the literal that closes the
    label and opens the address, the address, and its closing
    parenthesis. *)
Definition link_tail : re :=
  Seq (text "](") (Seq (star (Nset [CChar ")"])) (chr ")")).

(** An address: no closing parenthesis in it, and neither a back quote nor
    an opening bracket, which earlier substitutions look for. *)
Definition address (url : list ascii) : bool :=
  forallb (fun c => negb (in_set [CChar ")"; CChar "`"; CChar "["] c)) url.

(** Every maximal run of characters of the set [l] is replaced by [x];
    [in_run] tells that the character before belongs to a run. *)
Fixpoint squeeze (l : list cclass) (x : list ascii) (in_run : bool)
  (s : list ascii) : list ascii :=
  match s with
  | [] => []
  | c :: s' =>
      if in_set l c then
        if in_run then squeeze l x true s' else x ++ squeeze l x true s'
      else c :: squeeze l x false s'
  end.

(** A text in normal form: its only white space is the space character,
    never two in a row and none at either end. *)
Definition normal_ws (t : list ascii) : bool :=
  forallb (fun c => negb (is_space c) || eqc c SP) t
  && negb (contains [SP; SP] t)
  && eqs (strip t) t.

(** Some line has a character that is not white space. *)
Definition has_text (lines : list (list ascii)) : bool :=
  existsb (existsb (fun c => negb (is_space c))) lines.

(** The line is a heading of level one or two. *)
Definition opens_chapter (line : list ascii) : bool :=
  match heading_of line with
  | Some (level, _) => level <=? 2
  | None => false
  end.

(** The lines that are headings of level one or two. *)
Definition chapter_headings (body : list (list ascii)) : list (list ascii) :=
  List.filter opens_chapter body.

(** A file name [stem.ext]: no slash in it, no dot in the extension, and a
    stem that is not made of dots only. *)
Definition file_name (stem ext : list ascii) : bool :=
  forallb (fun c => negb (eqc c "/")) (stem ++ lit "." ++ ext)
  && forallb (fun c => negb (eqc c ".")) ext
  && existsb (fun c => negb (eqc c ".")) stem.

(** A configuration that leaves the model, the voice and the output format
    to the provider's defaults and sets no language boost, no language type
    and no Gemini audio parameter; the language is free. *)
Definition leaves_defaults (config : Tts.general_config) : Prop :=
  Tts.model_name config = None /\ Tts.voice_name config = None /\
  Tts.output_format config = None /\
  Tts.minimax_language_boost config = None /\
  Tts.qwen_language_type config = None /\
  Tts.gemini_sample_rate config = None /\
  Tts.gemini_channels config = None /\
  Tts.gemini_speaker_map config = Tts.SMAbsent.

End Notions.

(** ** Concrete inputs for the further examples *)

Module MoreExamples.

Import Examples.

(** A MiniMax vendor whose responses carry no audio URL, and one whose first
    download fails. *)
Definition silent_vendor : Tts.Minimax.vendor :=
  Tts.Minimax.Vendor (fun _ _ _ => Ok None) (fun _ _ _ => Ok one_byte).

Definition broken_link_vendor : Tts.Minimax.vendor :=
  Tts.Minimax.Vendor (fun _ _ _ => Ok (Some (lit "https://v/a.mp3")))
    (fun n _ _ => if n =? 0 then Raise (OtherError 404) else Ok one_byte).

(** A Qwen3 provider that streams, and a vendor that streams three chunks,
    two of them with data: the base64 texts of the bytes 1, 2 and of the
    byte 3. The decoder is [base64.b64decode] at these two texts; any other
    text it answers as [base64.b64decode] answers the text [QQ]. *)
Definition streaming_provider : Tts.Qwen.provider :=
  Tts.Qwen.Provider Tts.Qwen.DEFAULT_MODEL Tts.Qwen.DEFAULT_VOICE (lit "wav")
    (lit "zh-CN") (lit "Chinese") true 30 (lit "d") 550.

Definition streamed_chunks : list (option Tts.Qwen.audio) :=
  [Some (Tts.Qwen.Audio (Some (lit "AQI=")) None); None;
   Some (Tts.Qwen.Audio (Some (lit "Aw==")) (Some (lit "https://v/a.wav")))].

Definition sample_b64decode (data : list ascii) : result Tts.buffer :=
  if eqs data (lit "AQI=") then Ok [Byte.x01; Byte.x02]
  else if eqs data (lit "Aw==") then Ok [Byte.x03]
  else Raise (ValueError (lit "Incorrect padding")).

Definition streaming_vendor : Tts.Qwen.vendor :=
  Tts.Qwen.Vendor (fun _ _ => Ok None) (fun _ _ => Ok streamed_chunks)
    sample_b64decode (fun _ _ _ => Raise (OtherError 404)).

(** A vendor that answers its first request with the byte 10 and every
    later one with the byte 11. *)
Definition counting_backend (n : nat) (payload : list ascii)
  : result Tts.buffer :=
  match n with
  | 0 => Ok [Byte.x0a]
  | _ => Ok [Byte.x0b]
  end.

(** A parser configuration with a newline mode the parser does not know. *)
Definition paragraph_config : Markdown.config :=
  Markdown.Config (lit "book.md") (lit "paragraph") false false.

(** A configuration that sets nothing but a language no table lists. *)
Definition klingon_config : Tts.general_config :=
  Tts.GeneralConfig None None None (Some (lit "tlh")) None None None None None
    Tts.SMAbsent None None false None None None None None None None.

End MoreExamples.

(** * Facts about the string primitives *)

Module PyStrFacts.

Lemma eqc_true (a b : ascii) : eqc a b = true <-> a = b.
Proof. unfold eqc. apply Ascii.eqb_eq. Qed.

Lemma eqc_false (a b : ascii) : eqc a b = false <-> a <> b.
Proof. unfold eqc. apply Ascii.eqb_neq. Qed.

Lemma eqc_refl (a : ascii) : eqc a a = true.
Proof. by apply eqc_true. Qed.

Lemma eqs_true (a b : list ascii) : eqs a b = true <-> a = b.
Proof.
  revert b. induction a as [|x a IH]; intros [|y b]; simpl; try done.
  rewrite andb_true_iff, eqc_true, IH. split; [by intros [-> ->]|].
  by intros [= -> ->].
Qed.

Lemma startswith_app (p t : list ascii) : startswith p (p ++ t) = true.
Proof. induction p as [|x p IH]; simpl; [done|]. by rewrite eqc_refl, IH. Qed.

Lemma startswith_true (p s : list ascii) :
  startswith p s = true <-> exists t, s = p ++ t.
Proof.
  split.
  - revert s. induction p as [|x p IH]; intros s; simpl; [eauto|].
    destruct s as [|y s]; [done|].
    rewrite andb_true_iff, eqc_true. intros [-> H].
    destruct (IH s H) as [t ->]. eauto.
  - intros [t ->]. apply startswith_app.
Qed.

(** A character that is not in [p] ends what [p] can be a prefix of. *)
Lemma startswith_stop (p a b : list ascii) (n : ascii) :
  n ∉ p -> startswith p (a ++ n :: b) = startswith p a.
Proof.
  revert a. induction p as [|y p IH]; intros a Hn; simpl; [by destruct a|].
  apply not_elem_of_cons in Hn as [Hy Hp].
  destruct a as [|x a]; simpl.
  - assert (eqc y n = false) as -> by (apply eqc_false; congruence). done.
  - by rewrite IH.
Qed.

Lemma startswith_long (p u v : list ascii) :
  length p <= length u -> startswith p (u ++ v) = startswith p u.
Proof.
  revert u. induction p as [|y p IH]; intros u Hlen; simpl; [by destruct u|].
  destruct u as [|x u]; simpl in *; [lia|].
  rewrite IH by lia. done.
Qed.

Lemma contains_nil (p : list ascii) : p <> [] -> contains p [] = false.
Proof. by destruct p. Qed.

Lemma contains_startswith (p s : list ascii) :
  startswith p s = true -> contains p s = true.
Proof. intros H. destruct s; simpl; by rewrite H. Qed.

Lemma contains_true (p s : list ascii) :
  contains p s = true <-> exists a b, s = a ++ p ++ b.
Proof.
  split.
  - induction s as [|c s IH]; simpl.
    + rewrite orb_false_r. intros H%startswith_true. destruct H as [t ->].
      by exists [], t.
    + intros [H|H]%orb_true_iff.
      * apply startswith_true in H as [t ->]. by exists [], t.
      * destruct (IH H) as (a & b & ->). by exists (c :: a), b.
  - intros (a & b & ->). induction a as [|c a IH]; simpl.
    + apply contains_startswith, startswith_app.
    + by rewrite IH, orb_true_r.
Qed.

Lemma contains_false_app_l (p a b : list ascii) :
  contains p (a ++ b) = false -> contains p a = false.
Proof.
  intros H. destruct (contains p a) eqn:E; [|done].
  apply contains_true in E as (x & y & ->).
  rewrite <- H. symmetry. apply contains_true. exists x, (y ++ b).
  by rewrite <- !app_assoc.
Qed.

Lemma contains_false_app_r (p a b : list ascii) :
  contains p (a ++ b) = false -> contains p b = false.
Proof.
  intros H. destruct (contains p b) eqn:E; [|done].
  apply contains_true in E as (x & y & ->).
  rewrite <- H. symmetry. apply contains_true. exists (a ++ x), y.
  by rewrite <- !app_assoc.
Qed.

(** A character that is not in [p] cuts the search for [p] in two. *)
Lemma contains_cut (p a b : list ascii) (n : ascii) :
  p <> [] -> n ∉ p ->
  contains p (a ++ n :: b) = contains p a || contains p b.
Proof.
  intros Hp Hn. induction a as [|x a IH]; simpl.
  - pose proof (startswith_stop p [] b n Hn) as H. simpl in H. rewrite H.
    by destruct p.
  - rewrite IH.
    pose proof (startswith_stop p (x :: a) b n Hn) as H. simpl in H.
    rewrite H. by rewrite orb_assoc.
Qed.

Lemma lstrip_suffix (s : list ascii) : exists a, s = a ++ lstrip s.
Proof.
  induction s as [|c s [a IH]]; simpl; [by exists []|].
  destruct (is_space c); [|by exists []].
  exists (c :: a). simpl. by f_equal.
Qed.

Lemma rstrip_prefix (s : list ascii) : exists b, s = rstrip s ++ b.
Proof.
  unfold rstrip. destruct (lstrip_suffix (rev s)) as [a H].
  exists (rev a). rewrite <- rev_app_distr, <- H. by rewrite rev_involutive.
Qed.

Lemma contains_strip (p s : list ascii) :
  contains p s = false -> contains p (strip s) = false.
Proof.
  unfold strip. intros H.
  destruct (lstrip_suffix s) as [a Ha].
  destruct (rstrip_prefix (lstrip s)) as [b Hb].
  rewrite Ha in H. apply contains_false_app_r in H.
  rewrite Hb in H. by apply contains_false_app_l in H.
Qed.

(** *** [str.replace] *)

Lemma replace_go_skip (old new s : list ascii) :
  forall k, replace_go old new k s = replace_go old new 0 (drop k s).
Proof.
  induction s as [|c s IH]; intros [|k]; simpl; auto.
Qed.

Lemma replace_go_cons (old new : list ascii) (x : ascii) (s : list ascii) :
  replace_go old new 0 (x :: s) =
  if startswith old (x :: s)
  then new ++ replace_go old new 0 (drop (Nat.pred (length old)) s)
  else x :: replace_go old new 0 s.
Proof.
  change (replace_go old new 0 (x :: s)) with
    (if startswith old (x :: s)
     then new ++ replace_go old new (Nat.pred (length old)) s
     else x :: replace_go old new 0 s).
  by rewrite <- replace_go_skip.
Qed.

(** No occurrence of [old]: the text is unchanged. *)
Lemma replace_go_id (old new s : list ascii) :
  contains old s = false -> replace_go old new 0 s = s.
Proof.
  induction s as [|c s IH]; [done|].
  change (contains old (c :: s))
    with (startswith old (c :: s) || contains old s).
  intros [H1 H2]%orb_false_iff.
  rewrite replace_go_cons, H1. f_equal. by apply IH.
Qed.

(** An occurrence of [old] at the start is replaced by [new], and the
    replacement goes on behind it. *)
Lemma replace_go_hit (old new b : list ascii) :
  old <> [] ->
  replace_go old new 0 (old ++ b) = new ++ replace_go old new 0 b.
Proof.
  intros Hold. destruct old as [|o old']; [done|].
  change ((o :: old') ++ b) with (o :: (old' ++ b)).
  rewrite replace_go_cons.
  change (o :: old' ++ b) with ((o :: old') ++ b).
  rewrite startswith_app. simpl. by rewrite drop_app_length.
Qed.

(** The first occurrence of [old], after a text [a] in which none begins, is
    replaced by [new], and the replacement goes on behind it. *)
Lemma replace_go_first (old new a b : list ascii) :
  old <> [] ->
  contains old (a ++ removelast old) = false ->
  replace_go old new 0 (a ++ old ++ b) =
  a ++ new ++ replace_go old new 0 b.
Proof.
  intros Hold. induction a as [|x a IH]; intros H.
  - simpl. by apply replace_go_hit.
  - change (contains old ((x :: a) ++ removelast old))
      with (startswith old (x :: a ++ removelast old)
            || contains old (a ++ removelast old)) in H.
    apply orb_false_iff in H as [H1 H2].
    change ((x :: a) ++ old ++ b) with (x :: (a ++ old ++ b)).
    rewrite replace_go_cons.
    assert (Hs : startswith old (x :: a ++ old ++ b) = false).
    { rewrite <- H1.
      assert (Hsplit : old = removelast old ++ [List.last old x])
        by (by apply app_removelast_last).
      assert (Hlen : length old = S (length (removelast old))).
      { rewrite Hsplit at 1. rewrite length_app. simpl. lia. }
      rewrite Hsplit at 2.
      replace (x :: a ++ (removelast old ++ [List.last old x]) ++ b)
        with ((x :: a ++ removelast old) ++ [List.last old x] ++ b)
        by (simpl; by rewrite <- !app_assoc).
      apply startswith_long. simpl. rewrite length_app. lia. }
    rewrite Hs. simpl. f_equal. by apply IH.
Qed.

(** A text without characters of [new] that begins the result began the
    input. *)
Lemma replace_go_prefix (old new p : list ascii) :
  new <> [] ->
  (forall c, c ∈ p -> c ∉ new) ->
  forall s, startswith p (replace_go old new 0 s) = true ->
            startswith p s = true.
Proof.
  intros Hnew. induction p as [|y p IH]; intros Hp s; [done|].
  destruct s as [|x s]; [done|].
  rewrite replace_go_cons.
  destruct (startswith old (x :: s)) eqn:Hs.
  - destruct new as [|n new']; [done|]. simpl.
    intros [Hy _]%andb_true_iff. apply eqc_true in Hy. subst y.
    exfalso. apply (Hp n); left.
  - simpl. intros [Hy Hrest]%andb_true_iff. rewrite Hy. simpl.
    apply IH; [|done]. intros c Hc. apply Hp. by right.
Qed.

Lemma contains_after_new (old new r : list ascii) :
  (forall c, c ∈ new -> c ∉ old) ->
  contains old (new ++ r) = contains old r.
Proof.
  induction new as [|n new' IH]; intros Hap; [done|].
  change (contains old ((n :: new') ++ r))
    with (startswith old (n :: new' ++ r) || contains old (new' ++ r)).
  rewrite IH by (intros c Hc; apply Hap; by right).
  destruct old as [|o old']; [by destruct r|]. simpl.
  assert (eqc o n = false) as ->; [|done].
  apply eqc_false. intros ->. apply (Hap n); left.
Qed.

(** After the replacement [old] occurs nowhere. *)
Lemma replace_go_clean (old new : list ascii) :
  old <> [] -> new <> [] ->
  (forall c, c ∈ new -> c ∉ old) ->
  forall s, contains old (replace_go old new 0 s) = false.
Proof.
  intros Hold Hnew Hap s.
  remember (length s) as n eqn:Hn. revert s Hn.
  induction n as [n IH] using lt_wf_ind. intros s ->.
  destruct s as [|x s]; [by apply contains_nil|].
  rewrite replace_go_cons.
  destruct (startswith old (x :: s)) eqn:Hs.
  - rewrite contains_after_new by done.
    apply (IH (length (drop (Nat.pred (length old)) s))); [|done].
    rewrite length_drop. simpl. lia.
  - change (contains old (x :: replace_go old new 0 s))
      with (startswith old (x :: replace_go old new 0 s)
            || contains old (replace_go old new 0 s)).
    rewrite (IH (length s)) by (simpl; lia || done).
    rewrite orb_false_r.
    destruct old as [|o old']; [done|]. simpl.
    destruct (eqc o x) eqn:Hox; [|done]. simpl.
    destruct (startswith old' (replace_go (o :: old') new 0 s)) eqn:Hp;
      [|done].
    apply replace_go_prefix in Hp; [|done|].
    + simpl in Hs. by rewrite Hox, Hp in Hs.
    + intros c Hc Hcn. apply (Hap c Hcn). by right.
Qed.

Lemma replace_nonempty (old new s : list ascii) :
  old <> [] -> replace old new s = replace_go old new 0 s.
Proof. by destruct old. Qed.

End PyStrFacts.

(** * Properties of the Markdown parser *)

Module MarkdownFacts.

Import Re Markdown Spec Examples.

(** C4, as the code computes it: the example document gives two chapters
    titled by the sanitized headings, and each text holds the break marker
    between its heading and its paragraph. *)
Theorem C4_example_chapters :
  forall sanitize_title : list ascii -> list ascii -> list ascii,
    get_chapters sanitize_title (init example_config example_doc)
      (lit " @BRK#") [] =
    Ok [(sanitize_title (lit "Prologue") (lit " @BRK#"),
         lit "Prologue @BRK# Hello.");
        (sanitize_title (lit "One") (lit " @BRK#"),
         lit "One @BRK# World bold.")].
Proof.
  intros sanitize_title. vm_compute. reflexivity.
Qed.

(** C4, counterexample: whatever the sanitizer, the two chapter texts are
    not the marker-free texts of the specification's example; the marker
    stands in both. *)
Lemma C4_counterexample :
  (fun sanitize_title =>
     get_chapters sanitize_title (init example_config example_doc)
       (lit " @BRK#") []) =
  (fun sanitize_title =>
     Ok [(sanitize_title (lit "Prologue") (lit " @BRK#"),
          lit "Prologue @BRK# Hello.");
         (sanitize_title (lit "One") (lit " @BRK#"),
          lit "One @BRK# World bold.")])
  /\ eqs (lit "Prologue @BRK# Hello.") (lit "Prologue Hello.") = false
  /\ eqs (lit "One @BRK# World bold.") (lit "One World bold.") = false
  /\ contains (lit " @BRK#") (lit "Prologue @BRK# Hello.") = true
  /\ contains (lit " @BRK#") (lit "One @BRK# World bold.") = true.
Proof.
  split; [vm_compute; reflexivity | repeat split; reflexivity].
Qed.

(** *** Front matter *)

Lemma front_matter_loop_lookup (ls : list (list ascii)) :
  forall (i : nat) (md : gmap (list ascii) (list ascii)) (key : list ascii),
    (front_matter_loop i ls md).1 !! key =
    match last_value key (before_close ls) with
    | Some v => Some v
    | None => md !! key
    end.
Proof.
  induction ls as [|l ls IH]; intros i md key; simpl; [done|].
  destruct (matches FRONT_MATTER_DELIMITER l) eqn:Hd; simpl; [done|].
  unfold meta_entry.
  destruct (rmatch METADATA_PATTERN l) as [mt|]; rewrite IH;
    destruct (last_value key (before_close ls)); try done.
  case_bool_decide as Hk.
  - subst key. by rewrite lookup_insert_eq.
  - by rewrite lookup_insert_ne.
Qed.

Lemma front_matter_loop_body (ls : list (list ascii)) :
  forall (i : nat) (md : gmap (list ascii) (list ascii))
         (pre : list (list ascii)),
    length pre = i ->
    match (front_matter_loop i ls md).2 with
    | Some j => after_close ls = Some (drop j (pre ++ ls))
    | None => after_close ls = None
    end.
Proof.
  induction ls as [|l ls IH]; intros i md pre Hlen; simpl; [done|].
  destruct (matches FRONT_MATTER_DELIMITER l) eqn:Hd; simpl.
  - f_equal. replace (i + 1) with (length (pre ++ [l])).
    + rewrite (cons_middle l pre ls), app_assoc. by rewrite drop_app_length.
    + rewrite length_app. simpl. lia.
  - assert (Hpre : length (pre ++ [l]) = S i)
      by (rewrite length_app; simpl; lia).
    destruct (rmatch METADATA_PATTERN l) as [mt|].
    + specialize (IH (S i) (<[lower (strip (group 1 mt)) := strip (group 2 mt)]> md)
                     (pre ++ [l]) Hpre).
      by rewrite <- app_assoc in IH.
    + specialize (IH (S i) md (pre ++ [l]) Hpre).
      by rewrite <- app_assoc in IH.
Qed.

(** C7, as the code computes it: under an opening delimiter line, the
    metadata maps a key to the value of the LAST line before the closing
    delimiter whose entry has that key (a later line overwrites an earlier
    one), and the body is what follows the closing delimiter (the whole
    document when there is none); without an opening delimiter there is no
    metadata and the whole document is the body. *)
Theorem C7_front_matter (text : list ascii) :
  (forall l0 ls,
      splitlines text = l0 :: ls ->
      matches FRONT_MATTER_DELIMITER l0 = true ->
      (forall key,
          (_extract_front_matter text).1 !! key =
          last_value key (before_close ls)) /\
      (_extract_front_matter text).2 =
      match after_close ls with
      | Some body => body
      | None => l0 :: ls
      end) /\
  (match splitlines text with
   | l0 :: _ => matches FRONT_MATTER_DELIMITER l0
   | [] => false
   end = false ->
   _extract_front_matter text = (∅, splitlines text)).
Proof.
  unfold _extract_front_matter. split.
  - intros l0 ls Hl Hd. rewrite Hl, Hd.
    pose proof (front_matter_loop_lookup ls 1 ∅) as Hlook.
    pose proof (front_matter_loop_body ls 1 ∅ [l0] eq_refl) as Hbody.
    destruct (front_matter_loop 1 ls ∅) as [md found]. simpl in *. split.
    + intros key. rewrite Hlook, lookup_empty.
      by destruct (last_value key (before_close ls)).
    + destruct found as [j|]; rewrite Hbody; done.
  - destruct (splitlines text) as [|l0 ls]; [done|].
    intros Hd. by rewrite Hd.
Qed.

(** C7, at a concrete document: the title of the example is read off its one
    [title] line. *)
Lemma C7_front_matter_witness :
  (_extract_front_matter example_doc).1 !! lit "title" = Some (lit "T").
Proof.
  exact (proj1 (proj1 (C7_front_matter example_doc) (lit "---")
                  (map lit ["title: T"; "---"; "# Prologue"; "Hello."; "";
                            "## One"; "World **bold**."]%string)
                  eq_refl eq_refl) (lit "title")).
Defined.

(** C7, counterexample: of two lines with the same key the second one is
    kept, although the first matching line has the value [A]. *)
Lemma C7_counterexample :
  (_extract_front_matter twice_titled_doc).1 !! lit "title" = Some (lit "B")
  /\ first_value (lit "title") (map lit ["title: A"; "title: B"]%string)
     = Some (lit "A").
Proof.
  split; vm_compute; reflexivity.
Qed.

(** *** Chapter titles *)

Section Chapters.

Variable sanitize_title : list ascii -> list ascii -> list ascii.
Variable p : parser.
Variable break_string : list ascii.
Variable rules : list rule.

(** The loop with its counter and the closing block compute the chapters of
    the segments, numbered by their position. *)
Lemma scan_lines_segments (body : list (list ascii)) :
  forall st : scan,
    fallback_index st = S (length (chapters st)) ->
    (do st' <- scan_lines sanitize_title p break_string rules st body;
     close_last sanitize_title p break_string rules st')%result =
    emit_segments sanitize_title (cfg p) break_string rules (chapters st)
      (segments (current_title st) (current_lines st) body).
Proof.
  induction body as [|l body IH]; intros [chs ct cl fi] Hfi; simpl in *.
  - unfold close_last; simpl. subst fi.
    destruct ct as [t|]; simpl.
    + destruct (_build_chapter_text _ _ _ _ _) as [text|e]; simpl; [|done].
      by destruct (nonempty text).
    + destruct cl as [|c cl]; simpl; [done|].
      destruct (_build_chapter_text _ _ _ _ _) as [text|e]; simpl; [|done].
      by destruct (nonempty text).
  - unfold scan_line; simpl.
    destruct (heading_of l) as [[level heading_text]|]; simpl;
      [destruct (level <=? 2) eqn:Hlevel; simpl|]; try (by apply IH).
    unfold close_previous; simpl. subst fi.
    destruct ct as [t|]; simpl.
    + destruct (_build_chapter_text _ _ _ _ _) as [text|e]; simpl; [|done].
      destruct (nonempty text); simpl; apply IH; simpl; [|done].
      rewrite length_app. simpl. lia.
    + destruct cl as [|c cl]; simpl; [by apply IH|].
      destruct (_build_chapter_text _ _ _ _ _) as [text|e]; simpl; [|done].
      destruct (nonempty text); simpl; apply IH; simpl; [|done].
      rewrite length_app. simpl. lia.
Qed.

Lemma scan_chapters_segments :
  scan_chapters sanitize_title p break_string rules =
  emit_segments sanitize_title (cfg p) break_string rules []
    (segments None [] (body_lines p)).
Proof.
  unfold scan_chapters. by rewrite scan_lines_segments.
Qed.

End Chapters.

(** C8, as the code computes it: the chapters of [get_chapters] are those of
    the body's segments, and the [n] of a fallback title [Chapter n] is the
    position of the chapter among all chapters emitted (the counter advances
    on every emitted chapter, whatever its title); the block for a book
    without chapters follows. *)
Theorem C8_fallback_titles_count_all_chapters :
  forall (sanitize_title : list ascii -> list ascii -> list ascii)
         (p : parser) (break_string : list ascii) (rules : list rule),
    get_chapters sanitize_title p break_string rules =
    (do chs <- emit_segments sanitize_title (cfg p) break_string rules []
                 (segments None [] (body_lines p));
     whole_book sanitize_title p break_string rules chs)%result.
Proof.
  intros. unfold get_chapters. by rewrite scan_chapters_segments.
Qed.

(** C8, counterexample: the first chapter with a fallback title is titled
    [Chapter 2], because the chapter titled by its heading [A] advanced the
    counter. *)
Lemma C8_counterexample :
  (fun sanitize_title =>
     get_chapters sanitize_title (init example_config untitled_second_doc)
       (lit " @BRK#") []) =
  (fun sanitize_title =>
     Ok [(sanitize_title (lit "A") (lit " @BRK#"), lit "A @BRK# text");
         (sanitize_title (lit "Chapter 2") (lit " @BRK#"), lit "more")]).
Proof.
  vm_compute. reflexivity.
Qed.

(** *** A book without chapters *)

Lemma apply_newline_mode_ok (c : config) (text break_string : list ascii) :
  valid_mode c = true ->
  exists t, _apply_newline_mode c text break_string = Ok t.
Proof.
  unfold valid_mode, _apply_newline_mode. intros H.
  destruct (eqs (newline_mode c) (lit "single")); [eauto|].
  destruct (eqs (newline_mode c) (lit "double")); [eauto|].
  destruct (eqs (newline_mode c) (lit "none")); [eauto|done].
Qed.

Lemma apply_newline_mode_valid (c : config) (text break_string t : list ascii) :
  _apply_newline_mode c text break_string = Ok t -> valid_mode c = true.
Proof.
  unfold valid_mode, _apply_newline_mode.
  destruct (eqs (newline_mode c) (lit "single")); [done|].
  destruct (eqs (newline_mode c) (lit "double")); [done|].
  destruct (eqs (newline_mode c) (lit "none")); done.
Qed.

Lemma apply_rules_total (rules : list rule) :
  Forall total_rule rules ->
  forall text, exists t, apply_rules rules text = Ok t.
Proof.
  induction 1 as [|f rules Hf _ IH]; intros text; simpl; [eauto|].
  destruct (Hf text) as [t' ->]. simpl. apply IH.
Qed.

Lemma build_chapter_text_total (c : config) (break_string : list ascii)
  (rules : list rule) :
  valid_mode c = true -> Forall total_rule rules ->
  forall lines heading,
    exists t, _build_chapter_text c lines break_string rules heading = Ok t.
Proof.
  intros Hmode Hrules lines heading. unfold _build_chapter_text.
  destruct (negb (nonempty lines) && negb (truthy heading)); [eauto|].
  match goal with |- context [negb (nonempty ?x)] =>
    destruct (negb (nonempty x)); [eauto|] end.
  match goal with |- context [_apply_newline_mode c ?x break_string] =>
    destruct (apply_newline_mode_ok c x break_string Hmode) as [t1 ->] end.
  simpl.
  match goal with |- context [apply_rules rules ?x] =>
    destruct (apply_rules_total rules Hrules x) as [t2 ->] end.
  simpl. eauto.
Qed.

Lemma build_chapter_text_valid (c : config) (break_string : list ascii)
  (rules : list rule) lines heading text :
  _build_chapter_text c lines break_string rules heading = Ok text ->
  text <> [] -> valid_mode c = true.
Proof.
  unfold _build_chapter_text. intros H Hne.
  destruct (negb (nonempty lines) && negb (truthy heading)); [congruence|].
  match type of H with context [negb (nonempty ?x)] =>
    destruct (negb (nonempty x)); [congruence|] end.
  match type of H with context [_apply_newline_mode c ?x break_string] =>
    destruct (_apply_newline_mode c x break_string) as [t1|e] eqn:Hm;
      [|done] end.
  by eapply apply_newline_mode_valid.
Qed.

Lemma emit_segments_total (sanitize_title : list ascii -> list ascii -> list ascii)
  (c : config) (break_string : list ascii) (rules : list rule) :
  valid_mode c = true -> Forall total_rule rules ->
  forall segs emitted,
    exists chs,
      emit_segments sanitize_title c break_string rules emitted segs = Ok chs.
Proof.
  intros Hmode Hrules segs.
  induction segs as [|[heading lines] segs IH]; intros emitted; simpl;
    [eauto|].
  destruct (build_chapter_text_total c break_string rules Hmode Hrules
              lines heading) as [t ->].
  simpl. apply IH.
Qed.

Lemma segments_no_heading (body : list (list ascii)) :
  Forall (fun l => heading_of l = None) body ->
  forall heading lines,
    segments heading lines body = [(heading, lines ++ body)].
Proof.
  induction 1 as [|l body Hl _ IH]; intros heading lines; simpl.
  - by rewrite app_nil_r.
  - rewrite Hl, IH. by rewrite <- app_assoc.
Qed.

Lemma nonempty_true {A : Type} (l : list A) : l <> [] -> nonempty l = true.
Proof. by destruct l. Qed.

(** C6, as the code computes it. (1) When the text built from the book title
    and the whole body is not empty (the body has a line, the rules do not
    raise), [get_chapters] returns at least one chapter, and if the scan
    emitted none it returns exactly one, titled by the sanitized book title
    ([Chapter 1] for an empty book title). (2) A body without any heading
    whose own text is not empty is one chapter titled by the sanitized
    [Chapter 1], not by the book title. *)
Theorem C6_chapters_of_a_body :
  forall (sanitize_title : list ascii -> list ascii -> list ascii)
         (p : parser) (break_string : list ascii) (rules : list rule),
    (forall text,
        Forall total_rule rules ->
        body_lines p <> [] ->
        _build_chapter_text (cfg p) (body_lines p) break_string rules
          (Some (get_book_title p)) = Ok text ->
        text <> [] ->
        exists chs,
          get_chapters sanitize_title p break_string rules = Ok chs /\
          chs <> [] /\
          (scan_chapters sanitize_title p break_string rules = Ok [] ->
           chs = [(sanitize_title
                     (title_or (Some (get_book_title p)) (lit "Chapter 1"))
                     break_string, text)])) /\
    (forall text,
        Forall (fun l => heading_of l = None) (body_lines p) ->
        _build_chapter_text (cfg p) (body_lines p) break_string rules None
          = Ok text ->
        text <> [] ->
        get_chapters sanitize_title p break_string rules =
        Ok [(sanitize_title (lit "Chapter 1") break_string, text)]).
Proof.
  intros sanitize_title p break_string rules. split.
  - intros text Hrules Hbody Hbuild Htext.
    pose proof (build_chapter_text_valid _ _ _ _ _ _ Hbuild Htext) as Hmode.
    unfold get_chapters. rewrite scan_chapters_segments.
    destruct (emit_segments_total sanitize_title (cfg p) break_string rules
                Hmode Hrules (segments None [] (body_lines p)) [])
      as [chs ->].
    simpl. unfold whole_book. destruct chs as [|ch chs]; simpl.
    + rewrite (nonempty_true _ Hbody), Hbuild. simpl.
      rewrite (nonempty_true _ Htext). eauto.
    + eexists. split; [done|]. split; [done|]. intros [=].
  - intros text Hnone Hbuild Htext.
    unfold get_chapters. rewrite scan_chapters_segments.
    rewrite (segments_no_heading _ Hnone). simpl.
    rewrite Hbuild. simpl. rewrite (nonempty_true _ Htext). done.
Qed.

(** C6 at two bodies without headings, under the file name [book.md]: a
    body that is one code block is rescued by the book title; a body of one
    plain line is the chapter [Chapter 1]. *)
Lemma C6_chapters_of_a_body_witness :
  (exists chs,
      get_chapters (fun t _ => t) (init example_config (lit "```x```"))
        (lit " @BRK#") [] = Ok chs /\
      chs <> [] /\
      (scan_chapters (fun t _ => t) (init example_config (lit "```x```"))
         (lit " @BRK#") [] = Ok [] ->
       chs = [(lit "book", lit "book @BRK#")])) /\
  get_chapters (fun t _ => t)
    (init example_config (lit "Hello.")) (lit " @BRK#") [] =
  Ok [(lit "Chapter 1", lit "Hello.")].
Proof.
  split.
  - apply (proj1 (C6_chapters_of_a_body (fun t _ => t)
                    (init example_config (lit "```x```")) (lit " @BRK#") [])
             (lit "book @BRK#")).
    + constructor.
    + discriminate.
    + reflexivity.
    + discriminate.
  - apply (proj2 (C6_chapters_of_a_body (fun t _ => t)
                    (init example_config (lit "Hello.")) (lit " @BRK#") [])
             (lit "Hello.")).
    + repeat constructor.
    + reflexivity.
    + discriminate.
Defined.

(** C6, counterexample. A body that is not empty and has no heading gives
    no chapter when the title and the body both clean up to nothing; and the
    one chapter of a plain body without headings is titled [Chapter 1], not
    by the book title (here [book], from the file name). *)
Lemma C6_counterexample :
  body_lines (init example_config code_only_doc) = [lit "```x```"]
  /\ (fun sanitize_title =>
        get_chapters sanitize_title (init example_config code_only_doc)
          (lit " @BRK#") []) = (fun _ => Ok [])
  /\ get_book_title (init example_config (lit "Hello.")) = lit "book"
  /\ (fun sanitize_title =>
        get_chapters sanitize_title (init example_config (lit "Hello."))
          (lit " @BRK#") []) =
     (fun sanitize_title =>
        Ok [(sanitize_title (lit "Chapter 1") (lit " @BRK#"), lit "Hello.")]).
Proof.
  repeat split; vm_compute; reflexivity.
Qed.

End MarkdownFacts.

(** * Properties of the providers *)

Module TtsFacts.

Import Tts Spec Examples PyStrFacts.
Local Open Scope tts_scope.

Lemma quiet_refl (w : world) : quiet w w.
Proof. exists []. by rewrite app_nil_r. Qed.

Lemma quiet_trans (w1 w2 w3 : world) : quiet w1 w2 -> quiet w2 w3 -> quiet w1 w3.
Proof.
  intros (e1 & H1 & F1) (e2 & H2 & F2). exists (e1 ++ e2). split.
  - by rewrite H2, H1, app_assoc.
  - by rewrite forallb_app, F1, F2.
Qed.

(** *** The retry loop *)

Section Retry.

Variable backend : nat -> list ascii -> result buffer.
Variables max_retries backoff : nat.
Variable exhausted : exn.

Lemma retry_loop_quiet (text : list ascii) (attempts : list nat) :
  forall last_error w,
    quiet w (retry_loop (request backend) max_retries backoff exhausted
               attempts last_error text w).2.
Proof.
  induction attempts as [|a attempts IH]; intros last_error w; simpl.
  - destruct last_error; apply quiet_refl.
  - unfold catch. simpl.
    destruct (backend (calls w) text) as [b|e]; simpl.
    + by exists [Call text].
    + destruct (is_exception e); [|by exists [Call text]].
      unfold bind.
      destruct (a <? max_retries); simpl.
      * eapply quiet_trans; [|apply IH].
        by exists [Call text; Sleep (backoff * a)]; rewrite <- app_assoc.
      * eapply quiet_trans; [|apply IH]. by exists [Call text].
Qed.

End Retry.

Section Retry4.

Variable backend : nat -> list ascii -> result buffer.
Variable exhausted : exn.

(** Four attempts, a back-off of two seconds: the constants of both
    providers. *)
Local Abbreviation retry4 text :=
  (retry_loop (request backend) 4 2 exhausted (seq 1 4) None text).

(** The loop stops at the first attempt that succeeds or fails with an error
    that is no [Exception], and at the fourth attempt whatever it gives. *)
Lemma retry4_stops (text : list ascii) (w : world) (k : nat)
  (r : result buffer) :
  k < 4 ->
  fails_first backend text w k ->
  backend (calls w + k) text = r ->
  match r with
  | Ok _ => True
  | Raise e => is_exception e = false \/ k = 3
  end ->
  retry4 text w =
  (r, World (calls w + k + 1) (trace w ++ retried_trace 2 text k)).
Proof.
  intros Hk Hfail Hr Hstop.
  assert (H0 : 0 < k -> exists e, backend (calls w) text = Raise e /\
                                  is_exception e = true).
  { intros H. destruct (Hfail 0 H) as (e & He & Hc). exists e.
    by rewrite Nat.add_0_r in He. }
  assert (H1 : 1 < k -> exists e, backend (S (calls w)) text = Raise e /\
                                  is_exception e = true).
  { intros H. destruct (Hfail 1 H) as (e & He & Hc). exists e.
    by replace (calls w + 1) with (S (calls w)) in He by lia. }
  assert (H2 : 2 < k -> exists e, backend (S (S (calls w))) text = Raise e /\
                                  is_exception e = true).
  { intros H. destruct (Hfail 2 H) as (e & He & Hc). exists e.
    by replace (calls w + 2) with (S (S (calls w))) in He by lia. }
  unfold retry_loop, catch, bind, request, sleep, emit, raise, retried_trace.
  destruct k as [|[|[|[|k]]]]; [| | | |lia]; simpl.
  - rewrite Nat.add_0_r in Hr. rewrite Hr.
    destruct r as [buf|e]; simpl.
    + do 2 f_equal. lia.
    + destruct Hstop as [-> | ?]; [|lia]. do 2 f_equal. lia.
  - destruct H0 as (e0 & -> & ->); [lia|]. simpl.
    replace (calls w + 1) with (S (calls w)) in Hr by lia. rewrite Hr.
    destruct r as [buf|e]; simpl.
    + f_equal. f_equal; [lia|]. by rewrite <- !app_assoc.
    + destruct Hstop as [-> | ?]; [|lia].
      f_equal. f_equal; [lia|]. by rewrite <- !app_assoc.
  - destruct H0 as (e0 & -> & ->); [lia|]. simpl.
    destruct H1 as (e1 & -> & ->); [lia|]. simpl.
    replace (calls w + 2) with (S (S (calls w))) in Hr by lia. rewrite Hr.
    destruct r as [buf|e]; simpl.
    + f_equal. f_equal; [lia|]. by rewrite <- !app_assoc.
    + destruct Hstop as [-> | ?]; [|lia].
      f_equal. f_equal; [lia|]. by rewrite <- !app_assoc.
  - destruct H0 as (e0 & -> & ->); [lia|]. simpl.
    destruct H1 as (e1 & -> & ->); [lia|]. simpl.
    destruct H2 as (e2 & -> & ->); [lia|]. simpl.
    replace (calls w + 3) with (S (S (S (calls w)))) in Hr by lia.
    rewrite Hr.
    destruct r as [buf|e]; simpl.
    + f_equal. f_equal; [lia|]. by rewrite <- !app_assoc.
    + destruct (is_exception e); simpl;
        (f_equal; f_equal; [lia|]; by rewrite <- !app_assoc).
Qed.

(** A failure of the loop is the failure of the attempt it stopped at. *)
Lemma retry4_outcome (text : list ascii) (w w' : world) (e : exn) :
  retry4 text w = (Raise e, w') ->
  exists k,
    k < 4 /\ fails_first backend text w k /\
    backend (calls w + k) text = Raise e /\
    (is_exception e = true -> k = 3) /\
    w' = World (calls w + k + 1) (trace w ++ retried_trace 2 text k).
Proof.
  intros H.
  destruct (backend (calls w) text) as [b0|e0] eqn:H0.
  { rewrite (retry4_stops text w 0 (Ok b0)) in H; try done; try lia.
    - intros i Hi. lia.
    - by rewrite Nat.add_0_r. }
  destruct (is_exception e0) eqn:C0.
  2:{ rewrite (retry4_stops text w 0 (Raise e0)) in H; try lia.
      - injection H as <- <-. exists 0. split; [lia|]. split; [intros i; lia|].
        split; [by rewrite Nat.add_0_r|]. split; [by rewrite C0|done].
      - intros i Hi. lia.
      - by rewrite Nat.add_0_r.
      - by left. }
  assert (F1 : fails_first backend text w 1).
  { intros i Hi. assert (i = 0) as -> by lia. exists e0.
    by rewrite Nat.add_0_r. }
  destruct (backend (calls w + 1) text) as [b1|e1] eqn:H1.
  { by rewrite (retry4_stops text w 1 (Ok b1)) in H; try done; try lia. }
  destruct (is_exception e1) eqn:C1.
  2:{ rewrite (retry4_stops text w 1 (Raise e1)) in H; try done; try lia;
        [|by left].
      injection H as <- <-. exists 1. split; [lia|]. split; [done|].
      split; [done|]. split; [by rewrite C1|done]. }
  assert (F2 : fails_first backend text w 2).
  { intros i Hi. destruct i as [|i]; [by apply F1; lia|].
    assert (i = 0) as -> by lia. by exists e1. }
  destruct (backend (calls w + 2) text) as [b2|e2] eqn:H2.
  { by rewrite (retry4_stops text w 2 (Ok b2)) in H; try done; try lia. }
  destruct (is_exception e2) eqn:C2.
  2:{ rewrite (retry4_stops text w 2 (Raise e2)) in H; try done; try lia;
        [|by left].
      injection H as <- <-. exists 2. split; [lia|]. split; [done|].
      split; [done|]. split; [by rewrite C2|done]. }
  assert (F3 : fails_first backend text w 3).
  { intros i Hi. destruct i as [|[|i]]; [by apply F2; lia|by apply F2; lia|].
    assert (i = 0) as -> by lia. by exists e2. }
  destruct (backend (calls w + 3) text) as [b3|e3] eqn:H3.
  { by rewrite (retry4_stops text w 3 (Ok b3)) in H; try done; try lia. }
  rewrite (retry4_stops text w 3 (Raise e3)) in H; try done; try lia;
    try (by right).
  injection H as <- <-. exists 3. split; [lia|]. by repeat split.
Qed.

End Retry4.

(** *** The chunk loop *)

Section ChunkLoop.

Variable E : env.
Variable step : list ascii -> list ascii -> M buffer.
Variable tags : audio_tags.
Variable total : nat.

Hypothesis step_quiet : forall c id w, quiet w (step c id w).2.

Lemma for_chunks_quiet (chunks : list (list ascii)) :
  forall index segs ids w,
    quiet w (for_chunks step tags total index chunks segs ids w).2.
Proof.
  induction chunks as [|c chunks IH]; intros index segs ids w; simpl.
  - apply quiet_refl.
  - unfold bind. pose proof (step_quiet c (chunk_id_of tags index total) w) as Hq.
    destruct (step c (chunk_id_of tags index total) w) as [[b|e] w1]; simpl in *.
    + eapply quiet_trans; [exact Hq|apply IH].
    + exact Hq.
Qed.

Lemma for_chunks_raises (pre : list (list ascii)) :
  forall c post index segs ids w done w1 e w2,
    for_chunks step tags total index pre segs ids w = (Ok done, w1) ->
    step c (chunk_id_of tags (index + length pre) total) w1 = (Raise e, w2) ->
    for_chunks step tags total index (pre ++ c :: post) segs ids w
      = (Raise e, w2).
Proof.
  induction pre as [|c0 pre IH]; intros c post index segs ids w done w1 e w2;
    simpl.
  - unfold ret, bind. intros [= <- <-]. rewrite Nat.add_0_r. by intros ->.
  - unfold bind.
    destruct (step c0 (chunk_id_of tags index total) w) as [[b|e0] w0];
      [|done].
    intros Hpre Hstep. eapply IH; [exact Hpre|].
    by replace (S index + length pre) with (index + S (length pre)) by lia.
Qed.

End ChunkLoop.

Lemma chapter_protocol_intro (E : env)
  (step : list ascii -> list ascii -> M buffer) (tts : M unit)
  (chunks : list (list ascii)) (tags : audio_tags)
  (output_file ext : list ascii) :
  (forall c id w, quiet w (step c id w).2) ->
  tts =
  (done <- for_chunks step tags (length chunks) 1 chunks [] [] ;;
   merge_audio_segments E (fst done) output_file ext (snd done) true ;;
   set_audio_tags E output_file tags) ->
  chapter_protocol E step tts chunks tags output_file ext.
Proof.
  intros Hstep ->. split.
  - intros w pre c post done w1 e w2 -> Hpre Hc.
    pose proof (for_chunks_quiet step tags (length (pre ++ c :: post)) Hstep
                  (pre ++ c :: post) 1 [] [] w) as Hq.
    unfold bind at 1.
    rewrite (for_chunks_raises step tags _ pre c post 1 [] [] w done w1 e w2
               Hpre Hc) in *.
    done.
  - intros w segments ids w1 Hloop.
    pose proof (for_chunks_quiet step tags (length chunks) Hstep
                  chunks 1 [] [] w) as Hq.
    unfold bind at 1. rewrite Hloop in *. simpl in *. split; [done|].
    unfold merge_audio_segments, set_audio_tags, bind, emit, lift. simpl.
    destruct (merge_outcome E segments output_file ext ids true); simpl.
    + by rewrite <- app_assoc.
    + done.
Qed.

Lemma gemini_step_quiet (svc : Gemini.services) (self : Gemini.provider)
  (c id : list ascii) (w : world) :
  quiet w (Gemini.synthesize_chunk svc self c id w).2.
Proof.
  unfold Gemini.synthesize_chunk, bind, catch, raise, lift, ret, request.
  simpl.
  destruct (Gemini.generate_content svc (calls w) _) as [r|e]; simpl;
    [|destruct (is_exception e); by eexists [_]].
  destruct (Gemini._extract_pcm_bytes svc r id) as [pcm|e]; simpl;
    [|by eexists [_]].
  destruct (Gemini._encode_pcm_to_segment svc self pcm); simpl;
    by eexists [_].
Qed.

(** C1: for each of the three providers, a chunk whose synthesis raises makes
    [text_to_speech] raise that error with neither a merge nor a tag
    attachment done; when every chunk succeeds the segments are merged once,
    and [set_audio_tags] comes after the merge and only if it returned. A
    blank text is skipped: nothing is synthesized, merged or tagged. *)
Theorem C1_no_merge_no_tags_on_failure :
  forall (E : env) (backend : nat -> list ascii -> result buffer)
         (svc : Gemini.services)
         (gemini : Gemini.provider) (minimax : Minimax.provider)
         (qwen : Qwen.provider)
         (text output_file : list ascii) (tags : audio_tags),
    (nonempty (strip text) = true ->
     chapter_protocol E (Gemini.synthesize_chunk svc gemini)
       (Gemini.text_to_speech E svc gemini text output_file tags)
       (split_text E text (Gemini._max_chars gemini)
          (Gemini.p_language gemini))
       tags output_file (Gemini.get_output_file_extension gemini) /\
     chapter_protocol E
       (fun chunk chunk_id =>
          Minimax._synthesize_with_retry backend (Minimax._prepare_text chunk)
            chunk_id)
       (Minimax.text_to_speech E backend minimax text output_file tags)
       (split_text E text (Minimax._max_chars minimax)
          (Minimax.p_language minimax))
       tags output_file (Minimax.get_output_file_extension minimax) /\
     chapter_protocol E
       (fun chunk chunk_id =>
          Qwen._synthesize_with_retry backend (Qwen._prepare_text chunk)
            chunk_id)
       (Qwen.text_to_speech E backend qwen text output_file tags)
       (split_text E text (Qwen._max_chars qwen) (Qwen.p_language qwen))
       tags output_file (Qwen.get_output_file_extension qwen)) /\
    (nonempty (strip text) = false ->
     forall w,
       Gemini.text_to_speech E svc gemini text output_file tags w = (Ok tt, w)
       /\ Minimax.text_to_speech E backend minimax text output_file tags w
          = (Ok tt, w)
       /\ Qwen.text_to_speech E backend qwen text output_file tags w
          = (Ok tt, w)).
Proof.
  intros E backend svc gemini minimax qwen text output_file tags.
  split.
  - intros Htext. split; [|split].
    + apply chapter_protocol_intro.
      * apply gemini_step_quiet.
      * unfold Gemini.text_to_speech. by rewrite Htext.
    + apply chapter_protocol_intro.
      * intros c id w. apply retry_loop_quiet.
      * unfold Minimax.text_to_speech. by rewrite Htext.
    + apply chapter_protocol_intro.
      * intros c id w. apply retry_loop_quiet.
      * unfold Qwen.text_to_speech. by rewrite Htext.
  - intros Htext w.
    unfold Gemini.text_to_speech, Minimax.text_to_speech,
      Qwen.text_to_speech.
    by rewrite Htext.
Qed.

(** C1 at a concrete chapter: one chunk and a vendor that is down; the
    chapter fails with the vendor's error after one request, and the world
    holds no merge and no tag attachment. *)
Lemma C1_no_merge_no_tags_on_failure_witness :
  Gemini.text_to_speech one_chunk_env down_services (gemini_provider None)
    (lit "Hello.") (lit "out.wav") some_tags (World 0 [])
  = (Raise (OtherError 0), World 1 [Call (lit "Hello.")]).
Proof.
  apply (proj1 (proj1 (proj1 (C1_no_merge_no_tags_on_failure one_chunk_env
                                down_backend down_services
                                (gemini_provider None) minimax_provider
                                qwen_provider (lit "Hello.") (lit "out.wav")
                                some_tags) eq_refl))
           (World 0 []) [] (lit "Hello.") [] ([], []) (World 0 [])
           (OtherError 0) (World 1 [Call (lit "Hello.")]) eq_refl eq_refl
           eq_refl).
Defined.


(** C2, as the code computes it. In both providers [_synthesize_with_retry]
    makes exactly four attempts when the first three fail with an
    [Exception] and the fourth fails too, sleeping 2, 4 and 6 seconds
    between them and not after the last, and raises the last error; after
    [k < 4] such failures and a success it returns the buffer of the
    successful attempt, having slept [2 * attempt] seconds after each
    failure; an error that is no [Exception] ends the loop at the attempt
    that raised it, with no sleep after it. *)
Theorem C2_bounded_retry :
  forall (backend : nat -> list ascii -> result buffer)
         (text chunk_id : list ascii) (w : world),
    (forall e : exn,
        fails_first backend text w 3 ->
        backend (calls w + 3) text = Raise e ->
        let failed :=
          (Raise e,
           World (calls w + 4)
             (trace w ++ [Call text; Sleep 2; Call text; Sleep 4; Call text;
                          Sleep 6; Call text])) in
        Minimax._synthesize_with_retry backend text chunk_id w = failed /\
        Qwen._synthesize_with_retry backend text chunk_id w = failed) /\
    (forall (k : nat) (buf : buffer),
        k < 4 ->
        fails_first backend text w k ->
        backend (calls w + k) text = Ok buf ->
        let recovered :=
          (Ok buf, World (calls w + k + 1) (trace w ++ retried_trace 2 text k))
        in
        Minimax._synthesize_with_retry backend text chunk_id w = recovered /\
        Qwen._synthesize_with_retry backend text chunk_id w = recovered) /\
    (forall (k : nat) (e : exn),
        k < 4 ->
        fails_first backend text w k ->
        backend (calls w + k) text = Raise e ->
        is_exception e = false ->
        let interrupted :=
          (Raise e,
           World (calls w + k + 1) (trace w ++ retried_trace 2 text k)) in
        Minimax._synthesize_with_retry backend text chunk_id w = interrupted /\
        Qwen._synthesize_with_retry backend text chunk_id w = interrupted).
Proof.
  intros backend text chunk_id w. split; [|split].
  - intros e Hfail He failed.
    assert (Hretry : forall exhausted,
               retry_loop (request backend) 4 2 exhausted (seq 1 4) None text w
               = failed).
    { intros exhausted.
      rewrite (retry4_stops backend exhausted text w 3 (Raise e));
        try done; try lia; try (by right).
      unfold failed. f_equal. f_equal. lia. }
    split; apply Hretry.
  - intros k buf Hk Hfail Hok recovered.
    assert (Hretry : forall exhausted,
               retry_loop (request backend) 4 2 exhausted (seq 1 4) None text w
               = recovered).
    { intros exhausted.
      by apply (retry4_stops backend exhausted text w k (Ok buf)). }
    split; apply Hretry.
  - intros k e Hk Hfail He Hclass interrupted.
    assert (Hretry : forall exhausted,
               retry_loop (request backend) 4 2 exhausted (seq 1 4) None text w
               = interrupted).
    { intros exhausted.
      apply (retry4_stops backend exhausted text w k (Raise e)); try done.
      by left. }
    split; apply Hretry.
Qed.

(** C2 at a vendor that fails twice and then answers: three attempts, sleeps
    of 2 and 4 seconds, and the vendor's buffer. *)
Lemma C2_bounded_retry_witness :
  Minimax._synthesize_with_retry flaky_backend (lit "Hello.") (lit "id")
    (World 0 [])
  = (Ok one_byte,
     World 3 [Call (lit "Hello."); Sleep 2; Call (lit "Hello."); Sleep 4;
              Call (lit "Hello.")]).
Proof.
  refine (proj1 (proj1 (proj2 (C2_bounded_retry flaky_backend (lit "Hello.")
                                 (lit "id") (World 0 [])))
                   2 one_byte _ _ eq_refl)).
  - lia.
  - intros i Hi. destruct i as [|[|i]]; [| |lia].
    + exists (OtherError 0). split; reflexivity.
    + exists (OtherError 1). split; reflexivity.
Defined.

(** C2, counterexample: a vendor call that raises [KeyboardInterrupt] fails
    at every attempt, yet both loops stop after the first one: one request,
    no sleep, and the interrupt is raised. *)
Lemma C2_counterexample :
  map (fun n => interrupted_backend n (lit "Hello.")) [0; 1; 2; 3]
  = map (fun n => Raise (BaseError n)) [0; 1; 2; 3] /\
  Minimax._synthesize_with_retry interrupted_backend (lit "Hello.") (lit "id")
    (World 0 [])
  = (Raise (BaseError 0), World 1 [Call (lit "Hello.")]) /\
  Qwen._synthesize_with_retry interrupted_backend (lit "Hello.") (lit "id")
    (World 0 [])
  = (Raise (BaseError 0), World 1 [Call (lit "Hello.")]).
Proof.
  repeat split; vm_compute; reflexivity.
Qed.

(** C3, as the code computes it. In the MiniMax and Qwen3 providers a chunk
    fails at the attempt [k + 1] after [k] failures of class [Exception],
    and a failure with an [Exception] is the failure of the fourth attempt;
    only an error that is no [Exception] fails the chunk earlier. The Gemini
    provider has no retry: an exception of the request for a chunk, the
    first or a later one, fails the chapter after that one request. *)
Theorem C3_retry_by_backend :
  forall (E : env) (backend : nat -> list ascii -> result buffer)
         (svc : Gemini.services),
    (forall text chunk_id w e w',
        Minimax._synthesize_with_retry backend text chunk_id w = (Raise e, w')
        \/ Qwen._synthesize_with_retry backend text chunk_id w = (Raise e, w')
        ->
        exists k,
          k < 4 /\ fails_first backend text w k /\
          backend (calls w + k) text = Raise e /\
          (is_exception e = true -> k = 3) /\
          w' = World (calls w + k + 1) (trace w ++ retried_trace 2 text k)) /\
    (forall self text output_file tags w pre chunk post done w1 e,
        nonempty (strip text) = true ->
        split_text E text (Gemini._max_chars self) (Gemini.p_language self)
          = pre ++ chunk :: post ->
        for_chunks (Gemini.synthesize_chunk svc self) tags
          (length (pre ++ chunk :: post)) 1 pre [] [] w = (Ok done, w1) ->
        Gemini.generate_content svc (calls w1)
          (Gemini._prepare_prompt self chunk) = Raise e ->
        Gemini.text_to_speech E svc self text output_file tags w
        = (Raise e,
           World (S (calls w1))
             (trace w1 ++ [Call (Gemini._prepare_prompt self chunk)]))).
Proof.
  intros E backend svc. split.
  - intros text chunk_id w e w' [H|H]; by apply retry4_outcome in H.
  - intros self text output_file tags w pre chunk post done w1 e Htext Hsplit
      Hpre Hraise.
    unfold Gemini.text_to_speech. rewrite Htext, Hsplit. cbn [negb].
    unfold bind at 1.
    rewrite (for_chunks_raises (Gemini.synthesize_chunk svc self) tags _ pre
               chunk post 1 [] [] w done w1 e
               (World (S (calls w1))
                  (trace w1 ++ [Call (Gemini._prepare_prompt self chunk)]))
               Hpre); [done|].
    unfold Gemini.synthesize_chunk, bind, catch, request, raise. simpl.
    rewrite Hraise. by destruct (is_exception e).
Qed.

(** C3 at a Gemini chapter of two chunks whose second request fails: the
    chapter fails with that error after the two requests; the second was
    made once. *)
Lemma C3_retry_by_backend_witness :
  Gemini.text_to_speech two_chunk_env second_fails_services
    (gemini_provider None) (lit "One. Two.") (lit "out.wav") some_tags
    (World 0 [])
  = (Raise (OtherError 1), World 2 [Call (lit "One."); Call (lit "Two.")]).
Proof.
  apply (proj2 (C3_retry_by_backend two_chunk_env down_backend
                  second_fails_services)
           (gemini_provider None) (lit "One. Two.") (lit "out.wav") some_tags
           (World 0 []) [lit "One."] (lit "Two.") []
           ([one_byte], [chunk_id_of some_tags 1 2])
           (World 1 [Call (lit "One.")]) (OtherError 1));
    reflexivity.
Defined.

(** C3, counterexample: with the Gemini provider the first exception fails
    the chapter; one request was made and none was retried. *)
Lemma C3_counterexample :
  Gemini.text_to_speech one_chunk_env down_services (gemini_provider None)
    (lit "One two three.") (lit "out.wav") some_tags (World 0 [])
  = (Raise (OtherError 0), World 1 [Call (lit "One two three.")]).
Proof.
  vm_compute. reflexivity.
Qed.

(** *** The break marker *)

Lemma marker_nonempty : DEFAULT_BREAK_STRING <> [].
Proof. done. Qed.

Lemma blank_line_apart (c : ascii) :
  c ∈ [LF; LF] -> c ∉ DEFAULT_BREAK_STRING.
Proof.
  intros Hc Hm. apply list_elem_of_In in Hc, Hm.
  destruct Hc as [<-|[<-|[]]]; vm_compute in Hm; intuition discriminate.
Qed.

Lemma marker_replaced_clean (chunk : list ascii) :
  contains DEFAULT_BREAK_STRING (replace DEFAULT_BREAK_STRING [LF; LF] chunk)
  = false.
Proof.
  rewrite replace_nonempty by apply marker_nonempty.
  apply replace_go_clean;
    [apply marker_nonempty | done | apply blank_line_apart].
Qed.

Lemma startswith_short (p x : list ascii) :
  length x < length p -> startswith p x = false.
Proof.
  revert x. induction p as [|c p IH]; intros x H; [simpl in H; lia|].
  destruct x as [|d x]; [done|]. simpl in *.
  rewrite IH by lia. apply andb_false_r.
Qed.

Lemma contains_short (p x : list ascii) :
  length x < length p -> contains p x = false.
Proof.
  induction x as [|d x IH]; intros H.
  - simpl. by rewrite startswith_short.
  - change (contains p (d :: x)) with (startswith p (d :: x) || contains p x).
    rewrite startswith_short by done. simpl in H. apply IH. lia.
Qed.

(** A text that holds [p] splits at the first occurrence of [p]. *)
Lemma contains_first (p s : list ascii) :
  p <> [] ->
  contains p s = true ->
  exists a b, s = a ++ p ++ b /\ contains p (a ++ removelast p) = false.
Proof.
  intros Hp. induction s as [|c s IH]; intros H.
  - by rewrite contains_nil in H.
  - destruct (startswith p (c :: s)) eqn:Hs.
    + apply startswith_true in Hs as [t Ht]. exists [], t.
      split; [done|]. simpl app. apply contains_short.
      destruct p as [|x p] using rev_ind; [done|].
      rewrite removelast_last, length_app. simpl. lia.
    + change (contains p (c :: s)) with (startswith p (c :: s) || contains p s)
        in H.
      rewrite Hs in H. simpl in H.
      destruct (IH H) as (a & b & -> & Ha). exists (c :: a), b.
      split; [done|]. simpl app.
      change (contains p (c :: a ++ removelast p))
        with (startswith p (c :: a ++ removelast p)
              || contains p (a ++ removelast p)).
      rewrite Ha, orb_false_r.
      rewrite <- Hs.
      destruct p as [|x p _] using rev_ind; [done|].
      rewrite removelast_last.
      replace (c :: a ++ (p ++ [x]) ++ b) with ((c :: a ++ p) ++ x :: b)
        by (simpl; by rewrite <- !app_assoc).
      destruct (decide (length (p ++ [x]) <= length (c :: a ++ p))) as [Hl|Hl].
      * by rewrite startswith_long.
      * simpl in Hl. rewrite !length_app in Hl. simpl in Hl. lia.
Qed.

(** [replace] is the replacement of every occurrence, found from the
    left. *)
Lemma marker_replaced_replace (s t : list ascii) :
  marker_replaced s t -> t = replace DEFAULT_BREAK_STRING [LF; LF] s.
Proof.
  induction 1 as [s Hs|a b t Ha Hb IH].
  - rewrite replace_nonempty by apply marker_nonempty.
    by rewrite replace_go_id.
  - rewrite replace_nonempty in * by apply marker_nonempty.
    rewrite replace_go_first; [by rewrite <- IH|apply marker_nonempty|].
    exact Ha.
Qed.

Lemma marker_replaced_total (s : list ascii) :
  marker_replaced s (replace DEFAULT_BREAK_STRING [LF; LF] s).
Proof.
  remember (length s) as n eqn:Hn. revert s Hn.
  induction n as [n IH] using lt_wf_ind. intros s ->.
  destruct (contains DEFAULT_BREAK_STRING s) eqn:Hc.
  - destruct (contains_first _ s marker_nonempty Hc) as (a & b & -> & Ha).
    rewrite replace_nonempty by apply marker_nonempty.
    rewrite replace_go_first by (done || apply marker_nonempty).
    rewrite <- replace_nonempty by apply marker_nonempty.
    apply replaced_first; [exact Ha|].
    apply (IH (length b)); [|done]. rewrite !length_app. simpl. lia.
  - rewrite replace_nonempty by apply marker_nonempty.
    rewrite replace_go_id by done. by apply replaced_none.
Qed.

(** *** What is sent to the vendor *)

Lemma call_payloads_app (a b : list event) :
  call_payloads (a ++ b) = call_payloads a ++ call_payloads b.
Proof. unfold call_payloads. apply flat_map_app. Qed.

Lemma sends_refl (P : list ascii -> Prop) (w : world) : sends_only P w w.
Proof. exists []. split; [by rewrite app_nil_r|constructor]. Qed.

Lemma sends_trans (P : list ascii -> Prop) (w1 w2 w3 : world) :
  sends_only P w1 w2 -> sends_only P w2 w3 -> sends_only P w1 w3.
Proof.
  intros (e1 & H1 & F1) (e2 & H2 & F2). exists (e1 ++ e2). split.
  - by rewrite H2, H1, app_assoc.
  - rewrite call_payloads_app. by apply Forall_app.
Qed.

Lemma sends_weaken (P Q : list ascii -> Prop) (w w' : world) :
  (forall p, P p -> Q p) -> sends_only P w w' -> sends_only Q w w'.
Proof.
  intros HPQ (evs & H & F). exists evs. split; [done|].
  by eapply Forall_impl.
Qed.

Lemma retry_loop_sends (backend : nat -> list ascii -> result buffer)
  (max_retries backoff : nat) (exhausted : exn) (text : list ascii)
  (attempts : list nat) :
  forall last_error w,
    sends_only (fun p => p = text) w
      (retry_loop (request backend) max_retries backoff exhausted attempts
         last_error text w).2.
Proof.
  induction attempts as [|a attempts IH]; intros last_error w; simpl.
  - destruct last_error; apply sends_refl.
  - unfold catch. simpl.
    destruct (backend (calls w) text) as [b|e]; simpl.
    + exists [Call text]. split; [done|]. by repeat constructor.
    + destruct (is_exception e).
      2:{ exists [Call text]. split; [done|]. by repeat constructor. }
      unfold bind.
      destruct (a <? max_retries); simpl.
      * eapply sends_trans; [|apply IH].
        exists [Call text; Sleep (backoff * a)]. simpl.
        split; [by rewrite <- app_assoc|]. by repeat constructor.
      * eapply sends_trans; [|apply IH].
        exists [Call text]. split; [done|]. by repeat constructor.
Qed.

Lemma gemini_step_sends (svc : Gemini.services) (self : Gemini.provider)
  (c id : list ascii) (w : world) :
  sends_only (fun p => p = Gemini._prepare_prompt self c) w
    (Gemini.synthesize_chunk svc self c id w).2.
Proof.
  assert (Hone : forall calls',
             sends_only (fun p => p = Gemini._prepare_prompt self c) w
               (World calls'
                  (trace w ++ [Call (Gemini._prepare_prompt self c)]))).
  { intros calls'. exists [Call (Gemini._prepare_prompt self c)].
    split; [done|]. by repeat constructor. }
  unfold Gemini.synthesize_chunk, bind, catch, raise, lift, ret, request.
  simpl.
  destruct (Gemini.generate_content svc (calls w) _) as [r|e]; simpl;
    [|destruct (is_exception e); apply Hone].
  destruct (Gemini._extract_pcm_bytes svc r id) as [pcm|e]; simpl;
    [|apply Hone].
  destruct (Gemini._encode_pcm_to_segment svc self pcm); simpl; apply Hone.
Qed.

Section Sends.

Variable E : env.
Variable step : list ascii -> list ascii -> M buffer.
Variable prepare : list ascii -> list ascii.
Variable tags : audio_tags.

Hypothesis step_sends :
  forall c id w, sends_only (fun p => p = prepare c) w (step c id w).2.

Lemma for_chunks_sends (total : nat) (chunks : list (list ascii)) :
  forall index segs ids w,
    sends_only (fun p => exists c, c ∈ chunks /\ p = prepare c) w
      (for_chunks step tags total index chunks segs ids w).2.
Proof.
  induction chunks as [|c chunks IH]; intros index segs ids w; simpl.
  - apply sends_refl.
  - unfold bind.
    pose proof (step_sends c (chunk_id_of tags index total) w) as Hs.
    assert (Hc : sends_only
                   (fun p => exists c0, c0 ∈ c :: chunks /\ p = prepare c0) w
                   (step c (chunk_id_of tags index total) w).2).
    { eapply sends_weaken; [|exact Hs]. intros p ->. exists c.
      split; [left|done]. }
    destruct (step c (chunk_id_of tags index total) w) as [[b|e] w1];
      simpl in *; [|exact Hc].
    eapply sends_trans; [exact Hc|].
    eapply sends_weaken; [|apply IH].
    intros p (c0 & Hin & ->). exists c0. split; [by right|done].
Qed.

Lemma chapter_sends (chunks : list (list ascii))
  (output_file ext : list ascii) (w : world) :
  sends_only (fun p => exists c, c ∈ chunks /\ p = prepare c) w
    ((done <- for_chunks step tags (length chunks) 1 chunks [] [] ;;
      merge_audio_segments E (fst done) output_file ext (snd done) true ;;
      set_audio_tags E output_file tags) w).2.
Proof.
  unfold bind at 1.
  pose proof (for_chunks_sends (length chunks) chunks 1 [] [] w) as Hloop.
  destruct (for_chunks step tags (length chunks) 1 chunks [] [] w)
    as [[[segs ids]|e] w1]; simpl in *; [|done].
  eapply sends_trans; [exact Hloop|].
  unfold merge_audio_segments, set_audio_tags, bind, emit, lift. simpl.
  destruct (merge_outcome E segs output_file ext ids true); simpl.
  - eexists [_; _]. split; [by rewrite <- app_assoc|constructor].
  - eexists [_]. split; [done|constructor].
Qed.

End Sends.

Lemma prepared_texts_clean (chunk : list ascii) :
  contains DEFAULT_BREAK_STRING (Minimax._prepare_text chunk) = false /\
  contains DEFAULT_BREAK_STRING (Qwen._prepare_text chunk) = false /\
  forall self,
    contains DEFAULT_BREAK_STRING (Gemini._prepare_prompt self chunk) =
    match Gemini.p_instructions self with
    | Some (c :: i) => contains DEFAULT_BREAK_STRING (strip (c :: i))
    | _ => false
    end.
Proof.
  split; [apply contains_strip, marker_replaced_clean|].
  split; [apply contains_strip, marker_replaced_clean|].
  intros self. unfold Gemini._prepare_prompt, Gemini.get_break_string.
  destruct (Gemini.p_instructions self) as [[|c i]|];
    try apply marker_replaced_clean.
  change (strip (c :: i) ++ [LF; LF] ++
          replace DEFAULT_BREAK_STRING [LF; LF] chunk)
    with (strip (c :: i) ++
          LF :: ([] ++ LF :: replace DEFAULT_BREAK_STRING [LF; LF] chunk)).
  rewrite !contains_cut;
    try apply marker_nonempty; try (apply blank_line_apart; left).
  rewrite marker_replaced_clean. simpl. by rewrite !orb_false_r.
Qed.

Lemma requests_carry_prepared_texts (E : env)
  (backend : nat -> list ascii -> result buffer)
  (svc : Gemini.services) (gemini : Gemini.provider)
  (minimax : Minimax.provider) (qwen : Qwen.provider)
  (text output_file : list ascii) (tags : audio_tags) (w : world) :
  sends_only
    (fun p => exists chunk,
         chunk ∈ split_text E text (Gemini._max_chars gemini)
                   (Gemini.p_language gemini) /\
         p = Gemini._prepare_prompt gemini chunk)
    w (Gemini.text_to_speech E svc gemini text output_file tags w).2 /\
  sends_only
    (fun p => exists chunk,
         chunk ∈ split_text E text (Minimax._max_chars minimax)
                   (Minimax.p_language minimax) /\
         p = Minimax._prepare_text chunk)
    w (Minimax.text_to_speech E backend minimax text output_file tags w).2 /\
  sends_only
    (fun p => exists chunk,
         chunk ∈ split_text E text (Qwen._max_chars qwen)
                   (Qwen.p_language qwen) /\
         p = Qwen._prepare_text chunk)
    w (Qwen.text_to_speech E backend qwen text output_file tags w).2.
Proof.
  unfold Gemini.text_to_speech, Minimax.text_to_speech, Qwen.text_to_speech.
  destruct (nonempty (strip text)); cbn [negb].
  - split; [|split].
    + apply (chapter_sends E _ (Gemini._prepare_prompt gemini)).
      apply gemini_step_sends.
    + apply (chapter_sends E _ Minimax._prepare_text).
      intros c id w0. apply retry_loop_sends.
    + apply (chapter_sends E _ Qwen._prepare_text).
      intros c id w0. apply retry_loop_sends.
  - split; [|split]; apply sends_refl.
Qed.

(** C10: the text of a chunk goes to the vendor with each occurrence of the
    break marker replaced by a blank line. Every chunk has such a text [t];
    it holds no break marker; MiniMax and Qwen3 send [t] stripped, and
    Gemini sends [t] behind the configured instructions, if any. So the text
    MiniMax and Qwen3 send never holds the marker, and the Gemini prompt
    holds it only where the instructions themselves, stripped, hold it. Every
    request of [text_to_speech] carries the text so prepared of one of the
    chunks; so no request of MiniMax or Qwen3 carries a break marker, and
    none of Gemini does when the configured instructions hold none. *)
Theorem C10_break_marker_replaced :
  (forall chunk, exists t, marker_replaced chunk t) /\
  (forall chunk t,
      marker_replaced chunk t ->
      contains DEFAULT_BREAK_STRING t = false /\
      Minimax._prepare_text chunk = strip t /\
      Qwen._prepare_text chunk = strip t /\
      forall self,
        Gemini._prepare_prompt self chunk =
        instructions_prefix (Gemini.p_instructions self) ++ t) /\
  (forall chunk,
      contains DEFAULT_BREAK_STRING (Minimax._prepare_text chunk) = false /\
      contains DEFAULT_BREAK_STRING (Qwen._prepare_text chunk) = false /\
      forall self,
        contains DEFAULT_BREAK_STRING (Gemini._prepare_prompt self chunk) =
        match Gemini.p_instructions self with
        | Some (c :: i) => contains DEFAULT_BREAK_STRING (strip (c :: i))
        | _ => false
        end) /\
  (forall (E : env) (backend : nat -> list ascii -> result buffer)
          (svc : Gemini.services) (gemini : Gemini.provider)
          (minimax : Minimax.provider) (qwen : Qwen.provider)
          (text output_file : list ascii) (tags : audio_tags) (w : world),
      sends_only
        (fun p => exists chunk,
             chunk ∈ split_text E text (Gemini._max_chars gemini)
                       (Gemini.p_language gemini) /\
             p = Gemini._prepare_prompt gemini chunk)
        w (Gemini.text_to_speech E svc gemini text output_file tags w).2 /\
      sends_only
        (fun p => exists chunk,
             chunk ∈ split_text E text (Minimax._max_chars minimax)
                       (Minimax.p_language minimax) /\
             p = Minimax._prepare_text chunk)
        w (Minimax.text_to_speech E backend minimax text output_file tags w).2
      /\
      sends_only
        (fun p => exists chunk,
             chunk ∈ split_text E text (Qwen._max_chars qwen)
                       (Qwen.p_language qwen) /\
             p = Qwen._prepare_text chunk)
        w (Qwen.text_to_speech E backend qwen text output_file tags w).2) /\
  (forall (E : env) (backend : nat -> list ascii -> result buffer)
          (svc : Gemini.services) (gemini : Gemini.provider)
          (minimax : Minimax.provider) (qwen : Qwen.provider)
          (text output_file : list ascii) (tags : audio_tags) (w : world),
      sends_only (fun p => contains DEFAULT_BREAK_STRING p = false)
        w (Minimax.text_to_speech E backend minimax text output_file tags w).2
      /\
      sends_only (fun p => contains DEFAULT_BREAK_STRING p = false)
        w (Qwen.text_to_speech E backend qwen text output_file tags w).2 /\
      ((forall i, Gemini.p_instructions gemini = Some i ->
                  contains DEFAULT_BREAK_STRING i = false) ->
       sends_only (fun p => contains DEFAULT_BREAK_STRING p = false)
         w (Gemini.text_to_speech E svc gemini text output_file tags w).2)).
Proof.
  split; [|split; [|split; [|split]]].
  - intros chunk. eexists. apply marker_replaced_total.
  - intros chunk t Ht. apply marker_replaced_replace in Ht as ->.
    split; [apply marker_replaced_clean|]. split; [done|]. split; [done|].
    intros self. unfold Gemini._prepare_prompt, instructions_prefix.
    destruct (Gemini.p_instructions self) as [[|c i]|]; try done.
    by rewrite <- app_assoc.
  - exact prepared_texts_clean.
  - exact requests_carry_prepared_texts.
  - intros E backend svc gemini minimax qwen text output_file tags w.
    destruct (requests_carry_prepared_texts E backend svc gemini minimax qwen
                text output_file tags w) as (Hg & Hm & Hq).
    split; [|split].
    + eapply sends_weaken; [|exact Hm]. intros p (chunk & _ & ->).
      apply prepared_texts_clean.
    + eapply sends_weaken; [|exact Hq]. intros p (chunk & _ & ->).
      apply prepared_texts_clean.
    + intros Hinstr. eapply sends_weaken; [|exact Hg].
      intros p (chunk & _ & ->).
      destruct (prepared_texts_clean chunk) as (_ & _ & ->).
      destruct (Gemini.p_instructions gemini) as [[|c i]|] eqn:Hi;
        try done.
      by apply contains_strip, Hinstr.
Qed.

(** C10 at a chunk with two markers, the second at its end: MiniMax sends
    the text with a blank line for the first and nothing for the second,
    which the final strip removes. *)
Lemma C10_break_marker_replaced_witness :
  Minimax._prepare_text (lit "One @BRK# two @BRK#")
  = lit "One" ++ [LF; LF] ++ lit " two".
Proof.
  refine (proj1 (proj2 (proj1 (proj2 C10_break_marker_replaced)
                          (lit "One @BRK# two @BRK#")
                          (lit "One" ++ [LF; LF] ++ lit " two" ++ [LF; LF])
                          _))).
  apply (replaced_first (lit "One") (lit " two @BRK#")
           (lit " two" ++ [LF; LF]));
    [reflexivity|].
  apply (replaced_first (lit " two") [] []); [reflexivity|].
  apply replaced_none. reflexivity.
Defined.

End TtsFacts.
(** * Properties of the provider configuration *)

Module ConfigFacts.

Import Tts Spec Examples PyStrFacts.

Local Arguments mem : simpl never.

(** *** Clamping *)

Lemma clamped_bounds (lo hi : Q) (x : pyfloat) :
  Qle_bool lo hi = true ->
  Qle_bool lo (clamped lo hi x) && Qle_bool (clamped lo hi x) hi = true.
Proof.
  intros Hle. apply Qle_bool_iff in Hle. apply andb_true_iff.
  rewrite !Qle_bool_iff.
  destruct x as [q| | |]; simpl; try (split; lra).
  destruct (Qle_bool hi q) eqn:H1; [split; lra|].
  apply not_true_iff_false in H1. rewrite Qle_bool_iff in H1.
  destruct (Qle_bool q lo) eqn:H2; [split; lra|].
  apply not_true_iff_false in H2. rewrite Qle_bool_iff in H2.
  split; lra.
Qed.

(** [max(lo, min(hi, x))] is the clamped value, for every float [x]. *)
Lemma py_clamp (lo hi : Q) (x : pyfloat) :
  Qle_bool hi lo = false ->
  py_max (Fin lo) (py_min (Fin hi) x) = Fin (clamped lo hi x).
Proof.
  intros Hlt. unfold py_max, py_min.
  destruct x as [q| | |]; cbn [flt clamped].
  - destruct (Qle_bool hi q); cbn [negb flt].
    + by rewrite Hlt.
    + by destruct (Qle_bool q lo).
  - cbn [flt]. by rewrite Hlt.
  - done.
  - cbn [flt]. by rewrite Hlt.
Qed.

(** *** The resolvers of the numeric parameters *)

Lemma resolve_speed_cases (raw : option raw_float) :
  Minimax._resolve_speed raw =
  match raw with
  | Some (FNum x) => Ok (Fin (clamped Minimax.f0_5 Minimax.f2_0 x))
  | Some FHuge =>
      Raise (OverflowError (lit "int too large to convert to float"))
  | _ => Ok (Fin Minimax.f1_0)
  end.
Proof.
  destruct raw as [[x| | |]|]; try done.
  unfold Minimax._resolve_speed. cbn [float_of rbind except_value_type].
  by rewrite py_clamp.
Qed.

Lemma resolve_volume_cases (raw : option raw_float) :
  Minimax._resolve_volume raw =
  match raw with
  | Some (FNum x) => Ok (Fin (clamped Minimax.f0_1 Minimax.f2_0 x))
  | Some FHuge =>
      Raise (OverflowError (lit "int too large to convert to float"))
  | _ => Ok (Fin Minimax.f1_0)
  end.
Proof.
  destruct raw as [[x| | |]|]; try done.
  unfold Minimax._resolve_volume. cbn [float_of rbind except_value_type].
  by rewrite py_clamp.
Qed.

Lemma resolve_pitch_cases (raw : option raw_float) :
  Minimax._resolve_pitch raw =
  match raw with
  | Some (FNum x) => Ok (Fin (clamped (- Minimax.f12_0) Minimax.f12_0 x))
  | Some FHuge =>
      Raise (OverflowError (lit "int too large to convert to float"))
  | _ => Ok (Fin 0)
  end.
Proof.
  destruct raw as [[x| | |]|]; try done.
  unfold Minimax._resolve_pitch. cbn [float_of rbind except_value_type].
  by rewrite py_clamp.
Qed.

Lemma minimax_timeout_cases (raw : option raw_int) :
  Minimax._resolve_timeout raw =
  match raw with
  | Some (INum z) =>
      Ok (if (0 <? z)%Z then z else Minimax.DEFAULT_TIMEOUT_SECONDS)
  | Some IInf =>
      Raise (OverflowError (lit "cannot convert float infinity to integer"))
  | _ => Ok Minimax.DEFAULT_TIMEOUT_SECONDS
  end.
Proof.
  destruct raw as [[z| | |]|]; try done.
  unfold Minimax._resolve_timeout. cbn [int_of rbind].
  destruct (z <=? 0)%Z eqn:H1, (0 <? z)%Z eqn:H2; try done; lia.
Qed.

Lemma qwen_timeout_cases (raw : option raw_int) :
  Qwen._resolve_timeout raw =
  Ok match raw with
     | Some (INum z) =>
         if (0 <? z)%Z then z else Qwen.DEFAULT_TIMEOUT_SECONDS
     | _ => Qwen.DEFAULT_TIMEOUT_SECONDS
     end.
Proof.
  destruct raw as [[z| | |]|]; try done.
  unfold Qwen._resolve_timeout. cbn [int_of rbind].
  destruct (z <=? 0)%Z eqn:H1, (0 <? z)%Z eqn:H2; try done; lia.
Qed.

(** *** What [validate_config] accepts *)

Lemma minimax_validated (self : Minimax.provider) :
  Minimax.validate_config self = Ok tt ->
  mem (Minimax.p_voice_name self) Minimax._SUPPORTED_VOICES = true /\
  mem (Minimax.p_output_format self) [lit "mp3"; lit "wav"] = true /\
  (forall boost,
      Minimax._language_boost self = Some boost -> boost <> [] ->
      mem boost Minimax._SUPPORTED_LANGUAGE_BOOSTS = true).
Proof.
  unfold Minimax.validate_config. intros H. split_ifs H.
  apply negb_false_iff in E, E1. split; [done|split; [done|]].
  intros [|c boost] Hb Hne; [done|]. rewrite Hb in E0. simpl in E0.
  by apply negb_false_iff in E0.
Qed.

Lemma minimax_accepts (self : Minimax.provider) :
  mem (Minimax.p_voice_name self) Minimax._SUPPORTED_VOICES = true ->
  mem (Minimax.p_output_format self) [lit "mp3"; lit "wav"] = true ->
  (forall boost,
      Minimax._language_boost self = Some boost -> boost <> [] ->
      mem boost Minimax._SUPPORTED_LANGUAGE_BOOSTS = true) ->
  Minimax.validate_config self = Ok tt.
Proof.
  intros Hv Hf Hb. unfold Minimax.validate_config. rewrite Hv, Hf.
  cbn [negb].
  destruct (Minimax._language_boost self) as [[|c b]|]; try done.
  cbn [truthy nonempty or_default andb]. by rewrite (Hb (c :: b)).
Qed.

Lemma qwen_validated (self : Qwen.provider) :
  Qwen.validate_config self = Ok tt ->
  mem (Qwen.p_model_name self) Qwen._SUPPORTED_MODELS = true /\
  mem (Qwen.p_voice_name self) Qwen._SUPPORTED_VOICES = true /\
  mem (Qwen._language_type self) Qwen._SUPPORTED_LANGUAGE_TYPES = true /\
  Qwen.p_output_format self = lit "wav".
Proof.
  unfold Qwen.validate_config. intros H. split_ifs H.
  apply negb_false_iff in E, E0, E1, E2. apply eqs_true in E2. done.
Qed.

Lemma qwen_accepts (self : Qwen.provider) :
  mem (Qwen.p_model_name self) Qwen._SUPPORTED_MODELS = true ->
  mem (Qwen.p_voice_name self) Qwen._SUPPORTED_VOICES = true ->
  mem (Qwen._language_type self) Qwen._SUPPORTED_LANGUAGE_TYPES = true ->
  Qwen.p_output_format self = lit "wav" ->
  Qwen.validate_config self = Ok tt.
Proof.
  intros Hm Hv Ht Hf. unfold Qwen.validate_config.
  by rewrite Hm, Hv, Ht, Hf.
Qed.

Lemma gemini_speakers_validated (entries : list (list ascii * list ascii)) :
  Gemini.validate_speakers entries = Ok tt <->
  Forall (fun sv => mem sv.2 Gemini._SUPPORTED_VOICES = true) entries.
Proof.
  induction entries as [|[speaker voice] entries IH]; [by split; constructor|].
  cbn [Gemini.validate_speakers].
  destruct (mem voice Gemini._SUPPORTED_VOICES) eqn:Hv; cbn [negb].
  - rewrite IH. split.
    + by constructor.
    + by inversion 1.
  - split; [done|]. inversion 1 as [|? ? Hx]. simpl in Hx. congruence.
Qed.

Lemma gemini_speakers_value_error (entries : list (list ascii * list ascii)) :
  Gemini.validate_speakers entries = Ok tt \/
  exists msg, Gemini.validate_speakers entries = Raise (ValueError msg).
Proof.
  induction entries as [|[speaker voice] entries IH]; [by left|].
  cbn [Gemini.validate_speakers].
  destruct (mem voice Gemini._SUPPORTED_VOICES); cbn [negb]; [done|].
  right. by eexists.
Qed.

Lemma gemini_validated (self : Gemini.provider) :
  Gemini.validate_config self = Ok tt ->
  mem (Gemini.p_output_format self) Gemini._SUPPORTED_OUTPUT_FORMATS = true /\
  (0 < Gemini.sample_rate self)%Z /\
  (Gemini.channels self = 1 \/ Gemini.channels self = 2)%Z /\
  (Gemini.p_voice_name self <> [] ->
   mem (Gemini.p_voice_name self) Gemini._SUPPORTED_VOICES = true) /\
  Forall (fun sv => mem sv.2 Gemini._SUPPORTED_VOICES = true)
    (Gemini._speaker_map self).
Proof.
  unfold Gemini.validate_config. intros H. split_ifs H.
  apply negb_false_iff in E, E1. apply Z.leb_gt in E0.
  apply gemini_speakers_validated in H.
  split; [done|]. split; [done|]. split; [|split; [|done]].
  - apply orb_true_iff in E1 as [E1|E1]; apply Z.eqb_eq in E1; auto.
  - intros Hne. destruct (Gemini.p_voice_name self) as [|c v]; [done|].
    simpl in E2. by apply negb_false_iff in E2.
Qed.

Lemma gemini_accepts (self : Gemini.provider) :
  mem (Gemini.p_output_format self) Gemini._SUPPORTED_OUTPUT_FORMATS = true ->
  (0 < Gemini.sample_rate self)%Z ->
  (Gemini.channels self = 1 \/ Gemini.channels self = 2)%Z ->
  (Gemini.p_voice_name self <> [] ->
   mem (Gemini.p_voice_name self) Gemini._SUPPORTED_VOICES = true) ->
  Forall (fun sv => mem sv.2 Gemini._SUPPORTED_VOICES = true)
    (Gemini._speaker_map self) ->
  Gemini.validate_config self = Ok tt.
Proof.
  intros Hf Hr Hc Hv Hs. unfold Gemini.validate_config. rewrite Hf.
  cbn [negb].
  assert ((Gemini.sample_rate self <=? 0)%Z = false) as ->
      by (apply Z.leb_gt; lia).
  assert (((Gemini.channels self =? 1)%Z || (Gemini.channels self =? 2)%Z)
          = true) as ->.
  { apply orb_true_iff. destruct Hc as [-> | ->]; auto. }
  cbn [negb].
  assert (nonempty (Gemini.p_voice_name self) &&
          negb (mem (Gemini.p_voice_name self) Gemini._SUPPORTED_VOICES)
          = false) as ->.
  { destruct (Gemini.p_voice_name self) as [|c v] eqn:Hn; [done|].
    cbn [nonempty andb]. by rewrite Hv. }
  by apply gemini_speakers_validated.
Qed.

(** *** What [__init__] makes of the configuration *)

Lemma minimax_init_fields (config : general_config) (h : host)
  (self : Minimax.provider) :
  Minimax.init_fields config h = Ok self ->
  Minimax.p_model_name self
    = or_default (model_name config) Minimax.DEFAULT_MODEL /\
  Minimax.p_voice_name self
    = or_default (voice_name config) Minimax.DEFAULT_VOICE /\
  Minimax.p_output_format self
    = lower (or_default (output_format config) Minimax.DEFAULT_OUTPUT_FORMAT) /\
  Minimax._language_boost self
    = Minimax._resolve_language_boost (minimax_language_boost config)
        (Some (or_default (language config) (lit "en-US"))).
Proof.
  unfold Minimax.init_fields. intros H.
  destruct (Minimax._resolve_speed _); cbn [rbind] in H; [|discriminate H].
  destruct (Minimax._resolve_volume _); cbn [rbind] in H; [|discriminate H].
  destruct (Minimax._resolve_pitch _); cbn [rbind] in H; [|discriminate H].
  destruct (Minimax._resolve_timeout _); cbn [rbind] in H; [|discriminate H].
  destruct (or_else _ _) as [[|c k]|]; try discriminate H.
  destruct (negb (has_fal_client h)); [discriminate H|].
  by injection H as <-.
Qed.

Lemma qwen_init_fields (config : general_config) (h : host)
  (self : Qwen.provider) :
  Qwen.init_fields config h = Ok self ->
  Qwen.p_model_name self = or_default (model_name config) Qwen.DEFAULT_MODEL /\
  Qwen.p_voice_name self = or_default (voice_name config) Qwen.DEFAULT_VOICE /\
  Qwen.p_output_format self
    = lower (or_default (output_format config) Qwen.DEFAULT_OUTPUT_FORMAT) /\
  Qwen._language_type self
    = Qwen._resolve_language_type (qwen_language_type config)
        (Some (or_default (language config) (lit "zh-CN"))).
Proof.
  unfold Qwen.init_fields. intros H.
  destruct (Qwen._resolve_timeout _); cbn [rbind] in H; [|discriminate H].
  destruct (or_else _ _) as [[|c k]|]; try discriminate H.
  destruct (negb (has_dashscope h)); [discriminate H|].
  by injection H as <-.
Qed.

Lemma gemini_init_fields (config : general_config) (h : host)
  (self : Gemini.provider) :
  Gemini.init_fields config h = Ok self ->
  Gemini.p_model_name self
    = or_default (model_name config) Gemini.DEFAULT_MODEL /\
  Gemini.p_voice_name self
    = or_default (voice_name config) Gemini.DEFAULT_VOICE /\
  Gemini.p_output_format self
    = lower (or_default (output_format config) Gemini.DEFAULT_OUTPUT_FORMAT) /\
  Gemini.sample_rate self
    = Gemini.int_or (gemini_sample_rate config) Gemini.DEFAULT_SAMPLE_RATE /\
  Gemini.channels self
    = Gemini.int_or (gemini_channels config) Gemini.DEFAULT_CHANNELS /\
  Gemini._parse_speaker_map (gemini_speaker_map config)
    = Ok (Gemini._speaker_map self) /\
  is_Some (dict_get (Gemini.audio_encoding self) Gemini._SUPPORTED_ENCODINGS).
Proof.
  unfold Gemini.init_fields, Gemini._resolve_sample_width. intros H.
  destruct (dict_get _ Gemini._SUPPORTED_ENCODINGS) as [width|] eqn:Hw;
    [|discriminate H].
  cbn [rbind] in H.
  destruct (Gemini._parse_speaker_map _) as [sm|e]; [|discriminate H].
  cbn [rbind] in H.
  destruct (or_else _ _) as [[|c k]|]; try discriminate H.
  injection H as <-. cbn. repeat split; try done; by exists width.
Qed.

Lemma or_default_kept (v default : list ascii) :
  nonempty v = true -> or_default (Some v) default = v.
Proof. by destruct v. Qed.

(** C9, as the code computes it.

    (1) [validate_config] accepts a provider exactly when its values are
    supported ones: voice and output format, for Qwen3 also model and
    language type, for MiniMax also the language boost if there is one, for
    Gemini also a positive sample rate, one or two channels and the voices
    of the speaker map; it raises [ValueError] otherwise.

    (2) [__init__] hands the configured values to it: a model, a voice and
    an output format that are set are taken as they are (the format in
    lower case), and the defaults stand in for those that are not; for
    Gemini a sample rate or channel count of 0 counts as not set, and an
    unknown audio encoding or a speaker map that is no JSON object raises
    [ValueError] in [__init__] itself. An unsupported MiniMax voice
    therefore raises in [validate_config].

    (3) The numeric MiniMax parameters and the timeouts raise no
    [ValueError]: speed, volume and pitch are clamped into [0.5, 2.0],
    [0.1, 2.0] and [-12, 12], NaN going to the upper bound; a value that is
    missing or that [float()] rejects becomes the default; a timeout that is
    missing, rejected by [int()] or not positive becomes the default. Only
    an integer too large for a float, and for MiniMax an infinite timeout,
    raises: [OverflowError], which leaves [__init__]. *)
Theorem C9_configuration_checks :
  (forall self : Minimax.provider,
      (Minimax.validate_config self = Ok tt <->
       mem (Minimax.p_voice_name self) Minimax._SUPPORTED_VOICES = true /\
       mem (Minimax.p_output_format self) [lit "mp3"; lit "wav"] = true /\
       (forall boost,
           Minimax._language_boost self = Some boost -> boost <> [] ->
           mem boost Minimax._SUPPORTED_LANGUAGE_BOOSTS = true)) /\
      (Minimax.validate_config self = Ok tt \/
       exists msg, Minimax.validate_config self = Raise (ValueError msg))) /\
  (forall self : Qwen.provider,
      (Qwen.validate_config self = Ok tt <->
       mem (Qwen.p_model_name self) Qwen._SUPPORTED_MODELS = true /\
       mem (Qwen.p_voice_name self) Qwen._SUPPORTED_VOICES = true /\
       mem (Qwen._language_type self) Qwen._SUPPORTED_LANGUAGE_TYPES = true /\
       Qwen.p_output_format self = lit "wav") /\
      (Qwen.validate_config self = Ok tt \/
       exists msg, Qwen.validate_config self = Raise (ValueError msg))) /\
  (forall self : Gemini.provider,
      (Gemini.validate_config self = Ok tt <->
       mem (Gemini.p_output_format self) Gemini._SUPPORTED_OUTPUT_FORMATS
         = true /\
       (0 < Gemini.sample_rate self)%Z /\
       (Gemini.channels self = 1 \/ Gemini.channels self = 2)%Z /\
       (Gemini.p_voice_name self <> [] ->
        mem (Gemini.p_voice_name self) Gemini._SUPPORTED_VOICES = true) /\
       Forall (fun sv => mem sv.2 Gemini._SUPPORTED_VOICES = true)
         (Gemini._speaker_map self)) /\
      (Gemini.validate_config self = Ok tt \/
       exists msg, Gemini.validate_config self = Raise (ValueError msg))) /\
  (forall (config : general_config) (h : host),
      (forall self,
          Minimax.init_fields config h = Ok self ->
          (forall v, model_name config = Some v -> nonempty v = true ->
                     Minimax.p_model_name self = v) /\
          (forall v, voice_name config = Some v -> nonempty v = true ->
                     Minimax.p_voice_name self = v) /\
          (forall v, output_format config = Some v -> nonempty v = true ->
                     Minimax.p_output_format self = lower v) /\
          (forall v, voice_name config = Some v -> nonempty v = true ->
                     mem v Minimax._SUPPORTED_VOICES = false ->
                     Minimax.validate_config self =
                     Raise (ValueError (lit "MinimaxTTS: Unsupported voice"))))
      /\
      (forall self,
          Qwen.init_fields config h = Ok self ->
          (forall v, model_name config = Some v -> nonempty v = true ->
                     Qwen.p_model_name self = v) /\
          (forall v, voice_name config = Some v -> nonempty v = true ->
                     Qwen.p_voice_name self = v) /\
          (forall v, output_format config = Some v -> nonempty v = true ->
                     Qwen.p_output_format self = lower v)) /\
      (forall self,
          Gemini.init_fields config h = Ok self ->
          (forall v, model_name config = Some v -> nonempty v = true ->
                     Gemini.p_model_name self = v) /\
          (forall v, voice_name config = Some v -> nonempty v = true ->
                     Gemini.p_voice_name self = v) /\
          (forall v, output_format config = Some v -> nonempty v = true ->
                     Gemini.p_output_format self = lower v) /\
          Gemini.sample_rate self =
          match gemini_sample_rate config with
          | Some z => if (z =? 0)%Z then 24000%Z else z
          | None => 24000%Z
          end /\
          Gemini.channels self =
          match gemini_channels config with
          | Some z => if (z =? 0)%Z then 1%Z else z
          | None => 1%Z
          end /\
          is_Some (dict_get (Gemini.audio_encoding self)
                     Gemini._SUPPORTED_ENCODINGS)) /\
      (dict_get (lower (or_default (gemini_audio_encoding config)
                          (lit "pcm16")))
         Gemini._SUPPORTED_ENCODINGS = None ->
       Gemini.init_fields config h =
       Raise (ValueError (lit "GeminiTTS: Unsupported audio encoding"))) /\
      (forall e, Minimax._resolve_speed (minimax_speed config) = Raise e ->
                 Minimax.init_fields config h = Raise e)) /\
  (forall raw : option raw_float,
      Minimax._resolve_speed raw =
      match raw with
      | Some (FNum x) => Ok (Fin (clamped Minimax.f0_5 Minimax.f2_0 x))
      | Some FHuge =>
          Raise (OverflowError (lit "int too large to convert to float"))
      | _ => Ok (Fin Minimax.f1_0)
      end /\
      Minimax._resolve_volume raw =
      match raw with
      | Some (FNum x) => Ok (Fin (clamped Minimax.f0_1 Minimax.f2_0 x))
      | Some FHuge =>
          Raise (OverflowError (lit "int too large to convert to float"))
      | _ => Ok (Fin Minimax.f1_0)
      end /\
      Minimax._resolve_pitch raw =
      match raw with
      | Some (FNum x) => Ok (Fin (clamped (- Minimax.f12_0) Minimax.f12_0 x))
      | Some FHuge =>
          Raise (OverflowError (lit "int too large to convert to float"))
      | _ => Ok (Fin 0)
      end) /\
  (forall x : pyfloat,
      Qle_bool Minimax.f0_5 (clamped Minimax.f0_5 Minimax.f2_0 x) &&
      Qle_bool (clamped Minimax.f0_5 Minimax.f2_0 x) Minimax.f2_0 = true /\
      Qle_bool Minimax.f0_1 (clamped Minimax.f0_1 Minimax.f2_0 x) &&
      Qle_bool (clamped Minimax.f0_1 Minimax.f2_0 x) Minimax.f2_0 = true /\
      Qle_bool (- Minimax.f12_0) (clamped (- Minimax.f12_0) Minimax.f12_0 x) &&
      Qle_bool (clamped (- Minimax.f12_0) Minimax.f12_0 x) Minimax.f12_0
      = true) /\
  (forall raw : option raw_int,
      Minimax._resolve_timeout raw =
      match raw with
      | Some (INum z) => Ok (if (0 <? z)%Z then z else 60%Z)
      | Some IInf =>
          Raise (OverflowError
                   (lit "cannot convert float infinity to integer"))
      | _ => Ok 60%Z
      end /\
      Qwen._resolve_timeout raw =
      Ok match raw with
         | Some (INum z) => if (0 <? z)%Z then z else 30%Z
         | _ => 30%Z
         end).
Proof.
  split; [|split; [|split; [|split; [|split; [|split]]]]].
  - intros self. split.
    + split; [apply minimax_validated|].
      intros (Hv & Hf & Hb). by apply minimax_accepts.
    + unfold Minimax.validate_config.
      repeat match goal with
             | |- context [if ?b then _ else _] => destruct b
             end; (by left) || (right; by eexists).
  - intros self. split.
    + split; [apply qwen_validated|].
      intros (Hm & Hv & Ht & Hf). by apply qwen_accepts.
    + unfold Qwen.validate_config.
      repeat match goal with
             | |- context [if ?b then _ else _] => destruct b
             end; (by left) || (right; by eexists).
  - intros self. split.
    + split; [apply gemini_validated|].
      intros (Hf & Hr & Hc & Hv & Hs). by apply gemini_accepts.
    + unfold Gemini.validate_config.
      repeat match goal with
             | |- context [if ?b then _ else _] => destruct b
             end; try (right; by eexists).
      apply gemini_speakers_value_error.
  - intros config h. split; [|split; [|split; [|split]]].
    + intros self Hi.
      apply minimax_init_fields in Hi as (Hm & Hv & Hf & _).
      split; [|split; [|split]]; intros v Hcfg Hne.
      * by rewrite Hm, Hcfg, or_default_kept.
      * by rewrite Hv, Hcfg, or_default_kept.
      * by rewrite Hf, Hcfg, or_default_kept.
      * intros Hun. unfold Minimax.validate_config.
        by rewrite Hv, Hcfg, or_default_kept, Hun.
    + intros self Hi. apply qwen_init_fields in Hi as (Hm & Hv & Hf & _).
      rewrite Hm, Hv, Hf.
      split; [|split]; intros v -> Hne; by rewrite or_default_kept.
    + intros self Hi.
      apply gemini_init_fields in Hi as (Hm & Hv & Hf & Hr & Hc & _ & He).
      rewrite Hm, Hv, Hf.
      split; [|split; [|split; [|split; [|split]]]]; try done;
        intros v -> Hne; by rewrite or_default_kept.
    + intros Henc. unfold Gemini.init_fields, Gemini._resolve_sample_width.
      by rewrite Henc.
    + intros e He. unfold Minimax.init_fields. by rewrite He.
  - intros raw. split; [apply resolve_speed_cases|].
    split; [apply resolve_volume_cases|apply resolve_pitch_cases].
  - intros x. split; [|split]; by apply clamped_bounds.
  - intros raw. split; [apply minimax_timeout_cases|apply qwen_timeout_cases].
Qed.

(** C9 at a configuration that asks for the voice [Bob]: [__init__] takes
    the name, and [validate_config] raises. *)
Lemma C9_configuration_checks_witness :
  (do self <- Minimax.init_fields bob_config full_host;
   Minimax.validate_config self)%result
  = Raise (ValueError (lit "MinimaxTTS: Unsupported voice")).
Proof.
  change (Minimax.init_fields bob_config full_host)
    with (Ok (Minimax.Provider Minimax.DEFAULT_MODEL (lit "Bob") (lit "mp3")
                (lit "en-US") (Fin 1) (Fin 1) (Fin 0) (Some (lit "English"))
                60 (lit "f") 4500)).
  cbn [rbind].
  apply (proj2 (proj2 (proj2
           (proj1 (proj1 (proj2 (proj2 (proj2 C9_configuration_checks)))
                     bob_config full_host)
              _ eq_refl)))
           (lit "Bob")); reflexivity.
Defined.

(** C9, counterexample: a speed of 5.0 and a timeout of -5 seconds are taken
    and silently replaced by 2.0 and 60, and a model name that no table lists
    is taken as it is by the MiniMax and Gemini providers; neither [__init__]
    nor [validate_config] raises. *)
Lemma C9_counterexample :
  Minimax.init_fields odd_config full_host =
  Ok (Minimax.Provider (lit "no-such-model") Minimax.DEFAULT_VOICE (lit "mp3")
        (lit "en-US") (Fin Minimax.f2_0) (Fin Minimax.f1_0) (Fin 0)
        (Some (lit "English")) 60 (lit "f") 4500)
  /\ (do self <- Minimax.init_fields odd_config full_host;
      Minimax.validate_config self)%result = Ok tt
  /\ Gemini.init_fields odd_config full_host =
     Ok (Gemini.Provider (lit "no-such-model") Gemini.DEFAULT_VOICE (lit "wav")
           (lit "en-US") None 24000 1 (lit "pcm16") 2 [] 1800 (lit "g"))
  /\ (do self <- Gemini.init_fields odd_config full_host;
      Gemini.validate_config self)%result = Ok tt
  /\ mem (lit "no-such-model") Gemini._SUPPORTED_MODELS = false.
Proof.
  repeat split; vm_compute; reflexivity.
Qed.

End ConfigFacts.

(** * Properties of the newline modes *)

Module NewlineFacts.

Import Re Markdown Spec Examples PyStrFacts.

Local Arguments in_set : simpl never.

(** *** The matcher on runs of line feeds *)

Lemma split_run (s : list ascii) :
  exists j t, s = repeat LF j ++ t /\ starts_with_lf t = false.
Proof.
  induction s as [|c s (j & t & -> & Ht)].
  - by exists 0, [].
  - destruct (eqc c LF) eqn:Hc.
    + apply eqc_true in Hc as ->. by exists (S j), t.
    + exists 0, (c :: repeat LF j ++ t). split; [done|]. simpl. exact Hc.
Qed.

Lemma in_set_lf (c : ascii) : in_set [CChar LF] c = eqc c LF.
Proof. unfold in_set. simpl. apply orb_false_r. Qed.

Lemma run_chr_lf (k : mstate -> option mstate) (st : mstate) :
  run (chr LF) k st = one_char (fun c => eqc c LF) k st.
Proof.
  simpl. unfold one_char. destruct (rest st) as [|c s]; [done|].
  by rewrite in_set_lf.
Qed.

(** A greedy repetition of the line feed takes the whole run that stands at
    the position, and matches if the run is long enough. *)
Lemma rep_lf_greedy (lo : nat) (t : list ascii) (cs : list (nat * list ascii))
  (body : (mstate -> option mstate) -> mstate -> option mstate) :
  (forall k st, body k st = one_char (fun c => eqc c LF) k st) ->
  starts_with_lf t = false ->
  forall j fuel i p,
    j <= fuel ->
    rep_loop true body lo None Some fuel i (MState p (repeat LF j ++ t) cs) =
    if lo <=? i + j
    then Some (MState (match j with 0 => p | S _ => Some LF end) t cs)
    else None.
Proof.
  intros Hbody Ht. induction j as [|j IH]; intros fuel i p Hfuel.
  - rewrite Nat.add_0_r. simpl repeat. simpl app.
    assert (Hnone : forall k, body k (MState p t cs) = None).
    { intros k. rewrite Hbody. unfold one_char. simpl.
      destruct t as [|c t]; [done|]. simpl in Ht. by rewrite Ht. }
    destruct fuel as [|fuel]; simpl rep_loop.
    + by destruct (lo <=? i).
    + rewrite Hnone. by destruct (lo <=? i).
  - destruct fuel as [|fuel]; [lia|].
    change (repeat LF (S j) ++ t) with (LF :: (repeat LF j ++ t)).
    simpl rep_loop. rewrite Hbody.
    unfold one_char at 1. cbn [rest]. rewrite eqc_refl.
    unfold advance. cbn [caps].
    rewrite IH by lia.
    replace (S i + j) with (i + S j) by lia.
    destruct (lo <=? i + S j) eqn:Hlo.
    + simpl. by destruct j.
    + simpl. apply Nat.leb_gt in Hlo.
      assert ((lo <=? i) = false) as -> by (apply Nat.leb_gt; lia). done.
Qed.

Lemma attempt_rep_lf (lo j : nat) (t : list ascii) (p : option ascii) :
  starts_with_lf t = false ->
  attempt (Rep true lo None (chr LF)) false p (repeat LF j ++ t) =
  if lo <=? j
  then Some (MState (match j with 0 => p | S _ => Some LF end) t [])
  else None.
Proof.
  intros Ht. unfold attempt.
  change (run (Rep true lo None (chr LF))
            (fun st' : mstate =>
               if false && (length (rest st') =? length (repeat LF j ++ t))
               then None else Some st')
            (MState p (repeat LF j ++ t) []))
    with (rep_loop true (run (chr LF)) lo None Some
            (length (repeat LF j ++ t)) 0 (MState p (repeat LF j ++ t) [])).
  rewrite (rep_lf_greedy lo t [] (run (chr LF)) run_chr_lf Ht j); [done|].
  rewrite length_app, repeat_length. lia.
Qed.

Lemma consumed_run (j : nat) (t : list ascii) (p p' : option ascii) :
  consumed (MState p (repeat LF j ++ t) []) (MState p' t []) = repeat LF j.
Proof.
  unfold consumed. simpl.
  rewrite length_app, repeat_length.
  replace (j + length t - length t) with j by lia.
  rewrite <- (repeat_length LF j) at 1. by rewrite take_app_length.
Qed.

(** The characters of a match are dropped one by one. *)
Lemma sub_go_skip (r : re) (tpl : list titem) (a t : list ascii) :
  forall p,
    exists p', sub_go r tpl p (length a) (a ++ t) = sub_go r tpl p' 0 t.
Proof.
  induction a as [|c a IH]; intros p; [by exists p|].
  simpl length. simpl app. apply (IH (Some c)).
Qed.

Lemma expand_lit (x : list ascii) (st : mstate) : expand [TLit x] st = x.
Proof. unfold expand. simpl. apply app_nil_r. Qed.

(** *** Runs in the reference definition *)

Lemma subst_runs_repeat (f : nat -> list ascii) (j run : nat) (t : list ascii) :
  subst_runs f run (repeat LF j ++ t) = subst_runs f (run + j) t.
Proof.
  revert run. induction j as [|j IH]; intros run; simpl.
  - by rewrite Nat.add_0_r.
  - rewrite IH. f_equal. lia.
Qed.

Lemma subst_runs_flush (f : nat -> list ascii) (run : nat) (t : list ascii) :
  starts_with_lf t = false ->
  subst_runs f run t =
  match run with 0 => [] | S _ => f run end ++ subst_runs f 0 t.
Proof.
  intros Ht. destruct t as [|c t]; simpl in *.
  - by rewrite app_nil_r.
  - by rewrite Ht.
Qed.

Lemma subst_runs_run (f : nat -> list ascii) (j : nat) (t : list ascii) :
  starts_with_lf t = false ->
  subst_runs f 0 (repeat LF j ++ t) =
  match j with 0 => [] | S _ => f j end ++ subst_runs f 0 t.
Proof.
  intros Ht. rewrite subst_runs_repeat. simpl. by apply subst_runs_flush.
Qed.

Lemma subst_runs_ext (f g : nat -> list ascii) :
  (forall n, 0 < n -> f n = g n) ->
  forall s run, subst_runs f run s = subst_runs g run s.
Proof.
  intros Hfg s. induction s as [|c s IH]; intros run; simpl.
  - destruct run; [done|]. apply Hfg. lia.
  - rewrite !IH. destruct (eqc c LF); [done|].
    destruct run; [done|]. rewrite Hfg by lia. done.
Qed.

(** *** The substitutions of [_apply_newline_mode] *)

Lemma sub_go_nil (r : re) (tpl : list titem) (p : option ascii) :
  attempt r false p [] = None -> sub_go r tpl p 0 [] = [].
Proof. intros H. simpl. by rewrite H. Qed.

Lemma sub_go_miss (r : re) (tpl : list titem) (p : option ascii) (c : ascii)
  (s : list ascii) :
  attempt r false p (c :: s) = None ->
  sub_go r tpl p 0 (c :: s) = c :: sub_go r tpl (Some c) 0 s.
Proof.
  intros H.
  change (sub_go r tpl p 0 (c :: s)) with
    (match attempt r false p (c :: s) with
     | None => c :: sub_go r tpl (Some c) 0 s
     | Some st' =>
         expand tpl st' ++
         (if length (consumed (MState p (c :: s) []) st') =? 0
          then
            match attempt r true p (c :: s) with
            | None => c :: sub_go r tpl (Some c) 0 s
            | Some st'' =>
                expand tpl st'' ++
                sub_go r tpl (Some c)
                  (Nat.pred (length (consumed (MState p (c :: s) []) st'')))
                  s
            end
          else
            sub_go r tpl (Some c)
              (Nat.pred (length (consumed (MState p (c :: s) []) st'))) s)
     end).
  by rewrite H.
Qed.

Lemma sub_go_hit (r : re) (tpl : list titem) (p : option ascii) (c : ascii)
  (s : list ascii) (st' : mstate) (n : nat) :
  attempt r false p (c :: s) = Some st' ->
  length (consumed (MState p (c :: s) []) st') = S n ->
  sub_go r tpl p 0 (c :: s) = expand tpl st' ++ sub_go r tpl (Some c) n s.
Proof.
  intros H Hn.
  change (sub_go r tpl p 0 (c :: s)) with
    (match attempt r false p (c :: s) with
     | None => c :: sub_go r tpl (Some c) 0 s
     | Some st' =>
         expand tpl st' ++
         (if length (consumed (MState p (c :: s) []) st') =? 0
          then
            match attempt r true p (c :: s) with
            | None => c :: sub_go r tpl (Some c) 0 s
            | Some st'' =>
                expand tpl st'' ++
                sub_go r tpl (Some c)
                  (Nat.pred (length (consumed (MState p (c :: s) []) st'')))
                  s
            end
          else
            sub_go r tpl (Some c)
              (Nat.pred (length (consumed (MState p (c :: s) []) st'))) s)
     end).
  by rewrite H, Hn.
Qed.

(** A run of at least [lo] line feeds becomes [x]; a shorter run stays. *)
Lemma sub_rep_lf (lo : nat) (x : list ascii) :
  1 <= lo ->
  forall s p,
    sub_go (Rep true lo None (chr LF)) [TLit x] p 0 s =
    subst_runs (fun n => if lo <=? n then x else repeat LF n) 0 s.
Proof.
  intros Hlo s. remember (length s) as n eqn:Hn. revert s Hn.
  induction n as [n IH] using lt_wf_ind. intros s -> p.
  destruct (split_run s) as (j & t & -> & Ht).
  rewrite (subst_runs_run _ j t Ht).
  assert (Hlo0 : (lo <=? 0) = false) by (apply Nat.leb_gt; lia).
  destruct j as [|j].
  - change (repeat LF 0 ++ t) with t.
    pose proof (attempt_rep_lf lo 0 t p Ht) as Hatt.
    change (repeat LF 0 ++ t) with t in Hatt. rewrite Hlo0 in Hatt.
    destruct t as [|c t].
    + by rewrite sub_go_nil.
    + rewrite sub_go_miss by done.
      rewrite (IH (length t)) by (simpl; lia || done).
      simpl. simpl in Ht. by rewrite Ht.
  - pose proof (attempt_rep_lf lo (S j) t p Ht) as Hatt.
    change (repeat LF (S j) ++ t) with (LF :: (repeat LF j ++ t)) in *.
    destruct (lo <=? S j) eqn:Hj.
    + rewrite (sub_go_hit _ _ _ _ _ _ j Hatt).
      * rewrite expand_lit. f_equal.
        destruct (sub_go_skip (Rep true lo None (chr LF)) [TLit x]
                    (repeat LF j) t (Some LF)) as [p' Hskip].
        rewrite repeat_length in Hskip. rewrite Hskip.
        apply (IH (length t)); [|done].
        simpl. rewrite length_app. lia.
      * change (LF :: (repeat LF j ++ t)) with (repeat LF (S j) ++ t).
        by rewrite consumed_run, repeat_length.
    + rewrite sub_go_miss by done.
      rewrite (IH (length (repeat LF j ++ t))) by (simpl; lia || done).
      rewrite (subst_runs_run _ j t Ht). simpl. f_equal.
      apply Nat.leb_gt in Hj.
      destruct j as [|j]; [done|].
      assert ((lo <=? S j) = false) as -> by (apply Nat.leb_gt; lia).
      done.
Qed.

(** Every line feed becomes [y]. *)
Lemma sub_chr_lf (y : list ascii) :
  forall s p, sub_go (chr LF) [TLit y] p 0 s = each_lf y s.
Proof.
  induction s as [|c s IH]; intros p; [done|].
  assert (Hatt : attempt (chr LF) false p (c :: s) =
                 if eqc c LF then Some (MState (Some c) s []) else None).
  { unfold attempt. rewrite run_chr_lf. unfold one_char. cbn [rest].
    by destruct (eqc c LF). }
  unfold each_lf. simpl flat_map.
  destruct (eqc c LF) eqn:Hc.
  - rewrite (sub_go_hit _ _ _ _ _ _ 0 Hatt).
    + rewrite expand_lit. f_equal. apply IH.
    + unfold consumed. simpl.
      replace (S (length s) - length s) with 1 by lia. done.
  - rewrite sub_go_miss by done. f_equal. apply IH.
Qed.

(** *** Line feeds to spaces *)

Lemma each_lf_app (y a b : list ascii) :
  each_lf y (a ++ b) = each_lf y a ++ each_lf y b.
Proof. unfold each_lf. apply flat_map_app. Qed.

Lemma each_lf_id (y x : list ascii) :
  forallb (fun c => negb (eqc c LF)) x = true -> each_lf y x = x.
Proof.
  induction x as [|c x IH]; [done|]. simpl.
  intros [Hc Hx]%andb_true_iff. apply negb_true_iff in Hc.
  unfold each_lf in *. simpl. rewrite Hc. simpl. f_equal. by apply IH.
Qed.

Lemma each_lf_subst_runs (y : list ascii) (f : nat -> list ascii)
  (s : list ascii) :
  forall run,
    each_lf y (subst_runs f run s) =
    subst_runs (fun n => each_lf y (f n)) run s.
Proof.
  induction s as [|c s IH]; intros run; simpl.
  - by destruct run.
  - destruct (eqc c LF) eqn:Hc; [apply IH|].
    rewrite each_lf_app. f_equal; [by destruct run|].
    change (c :: subst_runs f 0 s) with ([c] ++ subst_runs f 0 s).
    rewrite each_lf_app, IH. unfold each_lf at 1. simpl. by rewrite Hc.
Qed.

Lemma subst_runs_none (s : list ascii) :
  forall run, subst_runs none_mode run s = repeat SP run ++ each_lf [SP] s.
Proof.
  unfold none_mode.
  induction s as [|c s IH]; intros run; simpl.
  - rewrite app_nil_r. by destruct run.
  - unfold each_lf. simpl. fold (each_lf [SP] s).
    destruct (eqc c LF) eqn:Hc.
    + rewrite IH. simpl.
      rewrite (cons_middle SP (repeat SP run)), app_assoc.
      by rewrite <- repeat_cons.
    + rewrite IH. simpl. by destruct run.
Qed.

Lemma strip_infix (s : list ascii) : exists a b, s = a ++ strip s ++ b.
Proof.
  unfold strip.
  destruct (lstrip_suffix s) as [a Ha].
  destruct (rstrip_prefix (lstrip s)) as [b Hb].
  exists a, b. by rewrite <- Hb.
Qed.

Lemma padded_marker_no_lf (break_string : list ascii) :
  plain_marker break_string = true ->
  forallb (fun c => negb (eqc c LF)) (padded_marker break_string) = true.
Proof.
  unfold plain_marker, padded_marker. intros H.
  destruct (strip_infix break_string) as (a & b & Hs).
  rewrite Hs in H. rewrite !forallb_app in H.
  apply andb_true_iff in H as [_ H]. apply andb_true_iff in H as [H _].
  rewrite !forallb_app. apply andb_true_iff. split; [done|].
  apply andb_true_iff. split; [|done].
  apply forallb_forall. intros c Hc.
  rewrite forallb_forall in H. specialize (H c Hc).
  by apply andb_true_iff in H as [_ H].
Qed.

(** C5: after [\r\n] is rewritten to a line feed, mode [single] replaces
    every run of one or more line feeds by the break marker, mode [double]
    every run of two or more by the break marker and each remaining single
    line feed by a space, mode [none] every line feed by a space, and any
    other mode raises [ValueError]. The marker is written stripped, with one
    space on each side; the break string is one without backslash or line
    feed, as the providers' [" @BRK#"]. *)
Theorem C5_newline_modes :
  forall (c : config) (text break_string : list ascii),
    plain_marker break_string = true ->
    let t := replace [CR; LF] [LF] text in
    (newline_mode c = lit "single" ->
     _apply_newline_mode c text break_string =
     Ok (subst_runs (single_mode break_string) 0 t)) /\
    (newline_mode c = lit "double" ->
     _apply_newline_mode c text break_string =
     Ok (subst_runs (double_mode break_string) 0 t)) /\
    (newline_mode c = lit "none" ->
     _apply_newline_mode c text break_string =
     Ok (subst_runs none_mode 0 t)) /\
    (valid_mode c = false ->
     _apply_newline_mode c text break_string =
     Raise (ValueError (lit "Invalid newline mode: " ++ newline_mode c))).
Proof.
  intros c text break_string Hplain t.
  unfold _apply_newline_mode, break_template. fold t.
  fold (padded_marker break_string).
  split; [|split; [|split]].
  - intros ->. change (eqs (lit "single") (lit "single")) with true.
    cbv iota. f_equal. unfold sub, plus. rewrite sub_rep_lf by lia.
    apply subst_runs_ext. intros n Hn. unfold single_mode.
    by assert ((1 <=? n) = true) as -> by (apply Nat.leb_le; lia).
  - intros ->. change (eqs (lit "double") (lit "single")) with false.
    change (eqs (lit "double") (lit "double")) with true.
    cbv iota. f_equal. unfold sub. rewrite sub_rep_lf by lia.
    rewrite sub_chr_lf, each_lf_subst_runs.
    apply subst_runs_ext. intros n Hn. unfold double_mode.
    destruct (2 <=? n) eqn:H2.
    + apply each_lf_id. by apply padded_marker_no_lf.
    + apply Nat.leb_gt in H2. assert (n = 1) as -> by lia. done.
  - intros ->. change (eqs (lit "none") (lit "single")) with false.
    change (eqs (lit "none") (lit "double")) with false.
    change (eqs (lit "none") (lit "none")) with true.
    cbv iota. f_equal. unfold sub. rewrite sub_chr_lf.
    by rewrite subst_runs_none.
  - unfold valid_mode. intros H.
    apply orb_false_iff in H as [H H3]. apply orb_false_iff in H as [H1 H2].
    by rewrite H1, H2, H3.
Qed.

(** C5 in mode [double]: the blank line becomes the marker, the single line
    feed a space. *)
Lemma C5_newline_modes_witness :
  _apply_newline_mode example_config
    (lit "a" ++ [LF; LF] ++ lit "b" ++ [LF] ++ lit "c") (lit " @BRK#")
  = Ok (lit "a @BRK# b c").
Proof.
  exact (proj1 (proj2 (C5_newline_modes example_config
                         (lit "a" ++ [LF; LF] ++ lit "b" ++ [LF] ++ lit "c")
                         (lit " @BRK#") eq_refl))
           eq_refl).
Defined.

End NewlineFacts.

(** * Further properties of the providers *)

Module ChapterFacts.

Import Tts Spec Notions Examples MoreExamples PyStrFacts TtsFacts.
Local Open Scope tts_scope.

(** *** Chunk identifiers *)

Lemma code_digit (d : nat) : d < 10 -> code (ascii_of_nat (48 + d)) = 48 + d.
Proof. intros H. unfold code. apply nat_ascii_embedding. lia. Qed.

Lemma decimal_snoc (ds : list ascii) (c : ascii) :
  decimal (ds ++ [c]) = 10 * decimal ds + (code c - 48).
Proof. unfold decimal. by rewrite fold_left_app. Qed.

Lemma digits_go_decimal (fuel : nat) :
  forall n acc,
    n < fuel ->
    exists ds, digits_go fuel n acc = ds ++ acc /\ decimal ds = n.
Proof.
  induction fuel as [|fuel IH]; intros n acc Hn; [lia|].
  change (digits_go (S fuel) n acc)
    with (if n <? 10 then ascii_of_nat (48 + n mod 10) :: acc
          else digits_go fuel (n / 10) (ascii_of_nat (48 + n mod 10) :: acc)).
  pose proof (Nat.mod_upper_bound n 10 ltac:(lia)) as Hmod.
  pose proof (Nat.div_mod_eq n 10) as Hdiv.
  destruct (n <? 10) eqn:Hlt.
  - apply Nat.ltb_lt in Hlt. exists [ascii_of_nat (48 + n mod 10)].
    split; [done|]. unfold decimal. cbn [fold_left].
    rewrite code_digit by done. rewrite Nat.mod_small by done. lia.
  - apply Nat.ltb_ge in Hlt.
    destruct (IH (n / 10) (ascii_of_nat (48 + n mod 10) :: acc)) as (ds & -> & Hds).
    { assert (n / 10 < n) by (apply Nat.div_lt; lia). lia. }
    exists (ds ++ [ascii_of_nat (48 + n mod 10)]). split.
    + by rewrite <- app_assoc.
    + rewrite decimal_snoc, Hds, code_digit by done. lia.
Qed.

(** [str(n)] is the decimal numeral of [n]. *)
Lemma str_of_nat_decimal (n : nat) : decimal (str_of_nat n) = n.
Proof.
  unfold str_of_nat.
  destruct (digits_go_decimal (S n) n [] ltac:(lia)) as (ds & -> & Hds).
  by rewrite app_nil_r.
Qed.

Lemma str_of_nat_inj (i j : nat) : str_of_nat i = str_of_nat j -> i = j.
Proof.
  intros H. rewrite <- (str_of_nat_decimal i), <- (str_of_nat_decimal j).
  by rewrite H.
Qed.

Lemma chunk_id_of_inj (tags : audio_tags) (total i j : nat) :
  chunk_id_of tags i total = chunk_id_of tags j total -> i = j.
Proof.
  unfold chunk_id_of. rewrite !app_assoc. intros H.
  apply app_inv_tail in H. apply app_inv_tail in H.
  rewrite <- !app_assoc in H. do 5 apply app_inv_head in H.
  by apply str_of_nat_inj.
Qed.

(** The chunks of a chapter have pairwise different identifiers. *)
Theorem chunk_ids_distinct (tags : audio_tags) (total : nat) :
  NoDup (expected_ids tags total).
Proof.
  unfold expected_ids. apply NoDup_fmap_2.
  - intros i j. apply chunk_id_of_inj.
  - apply NoDup_seq.
Qed.

(** *** What the merge receives *)

(** The chunk loop returns exactly when every step returns in turn, and
    then with the segments of the steps in the order of the chunks. *)
Lemma for_chunks_steps (step : list ascii -> list ascii -> M buffer)
  (tags : audio_tags) (total : nat) (chunks : list (list ascii)) :
  forall index segs ids w segs' ids' w',
    for_chunks step tags total index chunks segs ids w
      = (Ok (segs', ids'), w') <->
    exists new,
      steps_in_order step tags total index chunks w new w' /\
      segs' = segs ++ new /\
      ids' = ids ++ map (fun i => chunk_id_of tags i total)
                      (seq index (length chunks)).
Proof.
  induction chunks as [|c chunks IH]; intros index segs ids w segs' ids' w'.
  - simpl. unfold ret. split.
    + intros [= <- <- <-]. exists []. rewrite !app_nil_r.
      split; [constructor|done].
    + intros (new & Hs & -> & ->). inversion Hs; subst.
      by rewrite !app_nil_r.
  - cbn [for_chunks length seq map]. unfold bind at 1.
    destruct (step c (chunk_id_of tags index total) w) as [[b|e] w1]
      eqn:Hstep.
    + rewrite IH. split.
      * intros (new & Hs & -> & ->). exists (b :: new).
        split; [by econstructor|]. by rewrite <- !app_assoc.
      * intros (new & Hs & -> & ->).
        inversion Hs as [|? ? ? ? w1' ? seg segs0 Hstep' Hrest]; subst.
        rewrite Hstep in Hstep'. injection Hstep' as <- <-.
        exists segs0. split; [done|]. by rewrite <- !app_assoc.
    + split; [done|]. intros (new & Hs & _).
      inversion Hs as [|? ? ? ? w1' ? seg segs0 Hstep' Hrest]; subst.
      rewrite Hstep in Hstep'. discriminate Hstep'.
Qed.

Lemma chapter_merged (E : env) (step : list ascii -> list ascii -> M buffer)
  (chunks : list (list ascii)) (tags : audio_tags)
  (output_file ext : list ascii) (w w' : world) :
  (done <- for_chunks step tags (length chunks) 1 chunks [] [] ;;
   merge_audio_segments E (fst done) output_file ext (snd done) true ;;
   set_audio_tags E output_file tags) w = (Ok tt, w') <->
  merged_in_order E step chunks tags output_file ext w w'.
Proof.
  unfold merged_in_order, expected_ids. unfold bind at 1.
  destruct (for_chunks step tags (length chunks) 1 chunks [] [] w)
    as [[[segs ids]|e] w1] eqn:Hloop.
  - pose proof Hloop as Hsteps.
    apply for_chunks_steps in Hsteps as (new & Hsteps & -> & ->).
    simpl app. cbn [fst snd].
    unfold merge_audio_segments, set_audio_tags, bind, emit, lift. simpl.
    split.
    + destruct (merge_outcome E new output_file ext _ true) as [[]|e]
        eqn:Hm; [|done].
      intros [= Ht <-]. exists new, w1. repeat split; try done.
      by rewrite <- app_assoc.
    + intros (segments & w2 & Hs & Hm & Ht & ->).
      assert (Hsame : for_chunks step tags (length chunks) 1 chunks [] [] w
                      = (Ok ([] ++ segments,
                             [] ++ map (fun i =>
                                          chunk_id_of tags i (length chunks))
                                     (seq 1 (length chunks))), w2)).
      { apply for_chunks_steps. by exists segments. }
      rewrite Hloop in Hsame. injection Hsame as -> ->.
      simpl app. rewrite Hm, Ht. by rewrite <- app_assoc.
  - split; [done|]. intros (segments & w2 & Hs & _).
    assert (Hsame : for_chunks step tags (length chunks) 1 chunks [] [] w
                    = (Ok ([] ++ segments,
                           [] ++ map (fun i =>
                                        chunk_id_of tags i (length chunks))
                                   (seq 1 (length chunks))), w2)).
    { apply for_chunks_steps. by exists segments. }
    rewrite Hloop in Hsame. discriminate Hsame.
Qed.

(** [text_to_speech] returns for a text that is not blank exactly when every
    chunk of [split_text] was synthesized in turn and the merge and the tag
    attachment returned; the merge then received the segments in the order
    of their chunks, under the identifiers [chunk_id_of tags 1 n ..
    chunk_id_of tags n n] in this order, and the tags were attached after
    it. This holds for the three providers. *)
Theorem merge_receives_every_chunk_in_order :
  forall (E : env) (backend : nat -> list ascii -> result buffer)
         (svc : Gemini.services)
         (gemini : Gemini.provider) (minimax : Minimax.provider)
         (qwen : Qwen.provider)
         (text output_file : list ascii) (tags : audio_tags) (w w' : world),
    nonempty (strip text) = true ->
    (Gemini.text_to_speech E svc gemini text output_file tags w = (Ok tt, w')
     <->
     merged_in_order E (Gemini.synthesize_chunk svc gemini)
       (split_text E text (Gemini._max_chars gemini) (Gemini.p_language gemini))
       tags output_file (Gemini.get_output_file_extension gemini) w w') /\
    (Minimax.text_to_speech E backend minimax text output_file tags w
       = (Ok tt, w') <->
     merged_in_order E
       (fun chunk chunk_id =>
          Minimax._synthesize_with_retry backend (Minimax._prepare_text chunk)
            chunk_id)
       (split_text E text (Minimax._max_chars minimax)
          (Minimax.p_language minimax))
       tags output_file (Minimax.get_output_file_extension minimax) w w') /\
    (Qwen.text_to_speech E backend qwen text output_file tags w = (Ok tt, w')
     <->
     merged_in_order E
       (fun chunk chunk_id =>
          Qwen._synthesize_with_retry backend (Qwen._prepare_text chunk)
            chunk_id)
       (split_text E text (Qwen._max_chars qwen) (Qwen.p_language qwen))
       tags output_file (Qwen.get_output_file_extension qwen) w w').
Proof.
  intros E backend svc gemini minimax qwen text output_file tags w w' Htext.
  unfold Gemini.text_to_speech, Minimax.text_to_speech, Qwen.text_to_speech.
  rewrite Htext. cbn [negb].
  split; [|split]; apply chapter_merged.
Qed.

(** At a chapter of two chunks and a vendor that answers the first request
    with the byte 10 and the second with the byte 11: the merge receives the
    byte 10 first, under the identifier of chunk 1 of 2, and the byte 11
    second. *)
Lemma merge_receives_every_chunk_in_order_witness :
  Minimax.text_to_speech two_chunk_env counting_backend minimax_provider
    (lit "One. Two.") (lit "out.mp3") some_tags (World 0 [])
  = (Ok tt,
     World 2
       [Call (lit "One."); Call (lit "Two.");
        Merge [[Byte.x0a]; [Byte.x0b]] (lit "out.mp3") (lit "mp3")
          [lit "chapter-1_One_chunk_1_of_2"; lit "chapter-1_One_chunk_2_of_2"]
          true;
        SetTags (lit "out.mp3") some_tags]).
Proof.
  apply (proj1 (proj2 (merge_receives_every_chunk_in_order two_chunk_env
                         counting_backend down_services (gemini_provider None)
                         minimax_provider qwen_provider (lit "One. Two.")
                         (lit "out.mp3") some_tags (World 0 []) _ eq_refl))).
  exists [[Byte.x0a]; [Byte.x0b]],
    (World 2 [Call (lit "One."); Call (lit "Two.")]).
  split; [|by repeat split].
  eapply steps_next; [reflexivity|].
  eapply steps_next; [reflexivity|].
  apply steps_done.
Defined.

(** *** The cost of a chapter *)

Lemma slept_app (a b : list event) : slept (a ++ b) = slept a + slept b.
Proof.
  induction a as [|ev a IH]; [done|]. destruct ev; simpl; rewrite IH; lia.
Qed.

Lemma within_refl (w : world) : within 0 0 w w.
Proof. unfold within. lia. Qed.

Lemma within_trans (r1 s1 r2 s2 : nat) (w1 w2 w3 : world) :
  within r1 s1 w1 w2 -> within r2 s2 w2 w3 -> within (r1 + r2) (s1 + s2) w1 w3.
Proof. unfold within. lia. Qed.

Lemma retry4_within (backend : nat -> list ascii -> result buffer)
  (exhausted : exn) (text : list ascii) (w : world) :
  within 4 12 w
    (retry_loop (request backend) 4 2 exhausted (seq 1 4) None text w).2.
Proof.
  unfold within, retry_loop, catch, bind, request, sleep, emit, raise. simpl.
  destruct (backend (calls w) text) as [b0|e0]; simpl;
    [rewrite !slept_app; simpl; lia|].
  destruct (is_exception e0); simpl; [|rewrite !slept_app; simpl; lia].
  destruct (backend (S (calls w)) text) as [b1|e1]; simpl;
    [rewrite !slept_app; simpl; lia|].
  destruct (is_exception e1); simpl; [|rewrite !slept_app; simpl; lia].
  destruct (backend (S (S (calls w))) text) as [b2|e2]; simpl;
    [rewrite !slept_app; simpl; lia|].
  destruct (is_exception e2); simpl; [|rewrite !slept_app; simpl; lia].
  destruct (backend (S (S (S (calls w)))) text) as [b3|e3]; simpl;
    [rewrite !slept_app; simpl; lia|].
  destruct (is_exception e3); simpl; rewrite !slept_app; simpl; lia.
Qed.

Lemma gemini_step_within (svc : Gemini.services) (self : Gemini.provider)
  (c id : list ascii) (w : world) :
  within 1 0 w (Gemini.synthesize_chunk svc self c id w).2.
Proof.
  unfold within, Gemini.synthesize_chunk, bind, catch, raise, lift, ret,
    request.
  simpl.
  destruct (Gemini.generate_content svc (calls w) _) as [r|e]; simpl;
    [|destruct (is_exception e); simpl; rewrite slept_app; simpl; lia].
  destruct (Gemini._extract_pcm_bytes svc r id) as [pcm|e]; simpl;
    [|rewrite slept_app; simpl; lia].
  destruct (Gemini._encode_pcm_to_segment svc self pcm); simpl;
    rewrite slept_app; simpl; lia.
Qed.

Lemma for_chunks_within (step : list ascii -> list ascii -> M buffer)
  (tags : audio_tags) (total r s : nat) :
  (forall c id w, within r s w (step c id w).2) ->
  forall chunks index segs ids w,
    within (r * length chunks) (s * length chunks) w
      (for_chunks step tags total index chunks segs ids w).2.
Proof.
  intros Hstep chunks.
  induction chunks as [|c chunks IH]; intros index segs ids w; simpl.
  - unfold within. simpl. lia.
  - unfold bind.
    pose proof (Hstep c (chunk_id_of tags index total) w) as H1.
    destruct (step c (chunk_id_of tags index total) w) as [[b|e] w1];
      simpl in *.
    + pose proof (IH (S index) (segs ++ [b])
                    (ids ++ [chunk_id_of tags index total]) w1) as H2.
      unfold within in *. nia.
    + unfold within in *. nia.
Qed.

Lemma chapter_within (E : env) (step : list ascii -> list ascii -> M buffer)
  (chunks : list (list ascii)) (tags : audio_tags)
  (output_file ext : list ascii) (r s : nat) (w : world) :
  (forall c id w0, within r s w0 (step c id w0).2) ->
  within (r * length chunks) (s * length chunks) w
    ((done <- for_chunks step tags (length chunks) 1 chunks [] [] ;;
      merge_audio_segments E (fst done) output_file ext (snd done) true ;;
      set_audio_tags E output_file tags) w).2.
Proof.
  intros Hstep. unfold bind at 1.
  pose proof (for_chunks_within step tags (length chunks) r s Hstep chunks 1
                [] [] w) as Hloop.
  destruct (for_chunks step tags (length chunks) 1 chunks [] [] w)
    as [[[segs ids]|e] w1]; simpl in *; [|done].
  unfold merge_audio_segments, set_audio_tags, bind, emit, lift. simpl.
  destruct (merge_outcome E segs output_file ext ids true); simpl;
    unfold within in *; simpl; rewrite ?slept_app; simpl; lia.
Qed.

(** Whatever the vendor answers, a chapter of [n] chunks costs at most [n]
    requests and no sleep with Gemini, and at most [4 * n] requests and
    [12 * n] seconds of sleep with MiniMax and Qwen3. *)
Theorem chapter_request_budget :
  forall (E : env) (backend : nat -> list ascii -> result buffer)
         (svc : Gemini.services)
         (gemini : Gemini.provider) (minimax : Minimax.provider)
         (qwen : Qwen.provider)
         (text output_file : list ascii) (tags : audio_tags) (w : world),
    within
      (length (split_text E text (Gemini._max_chars gemini)
                 (Gemini.p_language gemini)))
      0 w
      (Gemini.text_to_speech E svc gemini text output_file tags w).2 /\
    within
      (4 * length (split_text E text (Minimax._max_chars minimax)
                     (Minimax.p_language minimax)))
      (12 * length (split_text E text (Minimax._max_chars minimax)
                      (Minimax.p_language minimax)))
      w
      (Minimax.text_to_speech E backend minimax text output_file tags w).2 /\
    within
      (4 * length (split_text E text (Qwen._max_chars qwen)
                     (Qwen.p_language qwen)))
      (12 * length (split_text E text (Qwen._max_chars qwen)
                      (Qwen.p_language qwen)))
      w
      (Qwen.text_to_speech E backend qwen text output_file tags w).2.
Proof.
  intros E backend svc gemini minimax qwen text output_file tags w.
  unfold Gemini.text_to_speech, Minimax.text_to_speech, Qwen.text_to_speech.
  destruct (nonempty (strip text)); cbn [negb].
  - split; [|split].
    + pose proof (chapter_within E (Gemini.synthesize_chunk svc gemini)
                    (split_text E text (Gemini._max_chars gemini)
                       (Gemini.p_language gemini))
                    tags output_file
                    (Gemini.get_output_file_extension gemini) 1 0 w
                    (gemini_step_within svc gemini)) as H.
      unfold within in *. lia.
    + apply chapter_within. intros c id w0. apply retry4_within.
    + apply chapter_within. intros c id w0. apply retry4_within.
  - unfold within, ret. simpl. lia.
Qed.

End ChapterFacts.

(** * Properties of the exchanges with the vendors *)

Module VendorFacts.

Import Tts Spec Notions Examples MoreExamples PyStrFacts TtsFacts.
Local Open Scope tts_scope.

(** *** Gemini: the payload of a response *)

Lemma first_data_findings (c : Gemini.content)
  (parts : list (option Gemini.inline_data)) :
  c = Some parts ->
  match Gemini.first_data parts with
  | Some d => exists rest, findings [Some c] = Payload d :: rest
  | None => findings [Some c] = []
  end.
Proof.
  intros ->. unfold findings. cbn [flat_map]. rewrite app_nil_r.
  induction parts as [|[d|] parts IH]; cbn [Gemini.first_data flat_map];
    [done| |exact IH].
  destruct (Gemini.data_truthy d); [by eexists|exact IH].
Qed.

Lemma findings_cons (candidate : option Gemini.content)
  (candidates : list (option Gemini.content)) :
  findings (candidate :: candidates)
  = findings [candidate] ++ findings candidates.
Proof. unfold findings. cbn [flat_map]. by rewrite app_nil_r. Qed.

(** [_extract_pcm_bytes] goes through the candidates and their parts in
    order and stops at the first finding: a payload that is not empty is
    returned, bytes as they are and a string through [base64.b64decode],
    whose failure no later payload makes up for; a content whose [parts] is
    [None] raises [TypeError], as does a response whose [candidates] is
    [None]; with no finding at all it raises [RuntimeError]. *)
Theorem extract_pcm_bytes_first_payload (svc : Gemini.services)
  (response : Gemini.response) (chunk_id : list ascii) :
  Gemini._extract_pcm_bytes svc response chunk_id =
  match response with
  | None => Raise Gemini.not_iterable
  | Some candidates =>
      match findings candidates with
      | [] => Raise (Gemini.no_payload chunk_id)
      | NoParts :: _ => Raise Gemini.not_iterable
      | Payload (Gemini.DataBytes data) :: _ => Ok data
      | Payload (Gemini.DataStr data) :: _ => Gemini.b64decode svc data
      end
  end.
Proof.
  destruct response as [candidates|]; [|done].
  cbn [Gemini._extract_pcm_bytes].
  induction candidates as [|candidate candidates IH]; [done|].
  rewrite findings_cons. cbn [Gemini.extract_loop].
  destruct candidate as [[parts|]|]; [|done|exact IH].
  pose proof (first_data_findings (Some parts) parts eq_refl) as Hfirst.
  destruct (Gemini.first_data parts) as [d|].
  - destruct Hfirst as [rest ->]. by destruct d.
  - by rewrite Hfirst.
Qed.

(** *** MiniMax: a response without a URL, a download that fails *)

(** A MiniMax response without an audio URL is a [RuntimeError] of
    [_synthesize], whatever a download would give; under
    [_synthesize_with_retry] four such responses cost four requests and the
    sleeps between them. A download that fails with an [Exception] is not
    repeated on its own: the next attempt requests the synthesis again. A
    download that fails with an error that is no [Exception] ends the loop
    at once. *)
Theorem minimax_response_without_url :
  forall (v : Minimax.vendor) (self : Minimax.provider)
         (text chunk_id : list ascii) (w : world),
    ((forall i, i < 4 ->
        no_url (Minimax.subscribe v (calls w + i) (Minimax.p_model_name self)
                  (Minimax.build_arguments self text)) = true) ->
     Minimax._synthesize_with_retry (Minimax.synthesize_outcome v self) text
       chunk_id w =
     (Raise (RuntimeError
               (lit "MinimaxTTS: Response did not contain an audio URL.")),
      World (calls w + 4)
        (trace w ++ [Call text; Sleep 2; Call text; Sleep 4; Call text;
                     Sleep 6; Call text]))) /\
    (forall url url' e bytes,
        Minimax.subscribe v (calls w) (Minimax.p_model_name self)
          (Minimax.build_arguments self text) = Ok (Some url) ->
        nonempty url = true ->
        Minimax.download v (calls w) url (Minimax._timeout self) = Raise e ->
        is_exception e = true ->
        Minimax.subscribe v (calls w + 1) (Minimax.p_model_name self)
          (Minimax.build_arguments self text) = Ok (Some url') ->
        nonempty url' = true ->
        Minimax.download v (calls w + 1) url' (Minimax._timeout self)
          = Ok bytes ->
        Minimax._synthesize_with_retry (Minimax.synthesize_outcome v self)
          text chunk_id w =
        (Ok bytes,
         World (calls w + 2) (trace w ++ [Call text; Sleep 2; Call text]))) /\
    (forall url e,
        Minimax.subscribe v (calls w) (Minimax.p_model_name self)
          (Minimax.build_arguments self text) = Ok (Some url) ->
        nonempty url = true ->
        Minimax.download v (calls w) url (Minimax._timeout self) = Raise e ->
        is_exception e = false ->
        Minimax._synthesize_with_retry (Minimax.synthesize_outcome v self)
          text chunk_id w =
        (Raise e, World (calls w + 1) (trace w ++ [Call text]))).
Proof.
  intros v self text chunk_id w.
  pose (backend := Minimax.synthesize_outcome v self).
  pose (exhausted :=
          RuntimeError
            (lit "MinimaxTTS: Failed to synthesize chunk " ++ chunk_id)).
  assert (Hno_url : forall i,
             no_url (Minimax.subscribe v (calls w + i)
                       (Minimax.p_model_name self)
                       (Minimax.build_arguments self text)) = true ->
             backend (calls w + i) text =
             Raise (RuntimeError
                      (lit "MinimaxTTS: Response did not contain an audio URL."))).
  { intros i Hno. unfold backend, Minimax.synthesize_outcome.
    destruct (Minimax.subscribe v (calls w + i) _ _) as [[[|c u]|]|e];
      done. }
  assert (Hdown : forall i url,
             Minimax.subscribe v (calls w + i) (Minimax.p_model_name self)
               (Minimax.build_arguments self text) = Ok (Some url) ->
             nonempty url = true ->
             backend (calls w + i) text =
             Minimax.download v (calls w + i) url (Minimax._timeout self)).
  { intros i url Hs Hu.
    unfold backend, Minimax.synthesize_outcome, Minimax._download_audio.
    rewrite Hs. by destruct url. }
  split; [|split].
  - intros Hno.
    etransitivity;
      [apply (retry4_stops backend exhausted text w 3
                (Raise (RuntimeError
                          (lit "MinimaxTTS: Response did not contain an audio URL."))))|].
    + lia.
    + intros i Hi. eexists. split; [apply Hno_url, Hno; lia|done].
    + apply Hno_url, Hno. lia.
    + by right.
    + f_equal. f_equal. lia.
  - intros url url' e bytes Hs0 Hu0 Hd0 He Hs1 Hu1 Hd1.
    etransitivity;
      [apply (retry4_stops backend exhausted text w 1 (Ok bytes))|].
    + lia.
    + intros i Hi. assert (i = 0) as -> by lia. exists e.
      split; [|done]. rewrite (Hdown 0 url).
      * by rewrite Nat.add_0_r.
      * by rewrite Nat.add_0_r.
      * done.
    + by rewrite (Hdown 1 url').
    + done.
    + f_equal. f_equal. lia.
  - intros url e Hs Hu Hd He.
    etransitivity;
      [apply (retry4_stops backend exhausted text w 0 (Raise e))|].
    + lia.
    + intros i Hi. lia.
    + rewrite (Hdown 0 url).
      * by rewrite Nat.add_0_r.
      * by rewrite Nat.add_0_r.
      * done.
    + by left.
    + f_equal. f_equal. lia.
Qed.

(** At a vendor whose responses carry no URL: four requests, then the
    error. *)
Lemma minimax_response_without_url_witness :
  Minimax._synthesize_with_retry
    (Minimax.synthesize_outcome silent_vendor minimax_provider)
    (lit "Hello.") (lit "chapter-1_One_chunk_1_of_1") (World 0 []) =
  (Raise (RuntimeError
            (lit "MinimaxTTS: Response did not contain an audio URL.")),
   World 4
     [Call (lit "Hello."); Sleep 2; Call (lit "Hello."); Sleep 4;
      Call (lit "Hello."); Sleep 6; Call (lit "Hello.")]).
Proof.
  apply (proj1 (minimax_response_without_url silent_vendor minimax_provider
                  (lit "Hello.") (lit "chapter-1_One_chunk_1_of_1")
                  (World 0 []))).
  intros i Hi. reflexivity.
Defined.

(** *** Qwen3: the two ways of [_synthesize] *)

Lemma stream_datas_cons (chunk : option Qwen.audio)
  (chunks : list (option Qwen.audio)) :
  stream_datas (chunk :: chunks) = stream_datas [chunk] ++ stream_datas chunks.
Proof. unfold stream_datas. cbn [flat_map]. by rewrite app_nil_r. Qed.

Lemma stream_urls_cons (chunk : option Qwen.audio)
  (chunks : list (option Qwen.audio)) :
  stream_urls (chunk :: chunks) = stream_urls [chunk] ++ stream_urls chunks.
Proof. unfold stream_urls. cbn [flat_map]. by rewrite app_nil_r. Qed.

(** The loop over a stream whose data all decode. *)
Lemma stream_loop_collects (v : Qwen.vendor) :
  forall chunks decoded written url,
    Forall2 (fun data bytes => Qwen.b64decode v data = Ok bytes)
      (stream_datas chunks) decoded ->
    Qwen.stream_loop v chunks written url =
    Ok (written ++ concat decoded,
        match last (stream_urls chunks) with
        | Some u => Some u
        | None => url
        end).
Proof.
  intros chunks.
  induction chunks as [|[[data u]|] chunks IH]; intros decoded written url Hdec.
  - inversion Hdec; subst. simpl. by rewrite app_nil_r.
  - rewrite stream_datas_cons in Hdec. rewrite stream_urls_cons, last_app.
    cbn [Qwen.stream_loop Qwen.audio_data Qwen.audio_url].
    assert (Hurl : (if truthy u then u else url) =
                   match last (stream_urls [Some (Qwen.Audio data u)]) with
                   | Some u' => Some u'
                   | None => url
                   end)
      by by destruct u as [[|c' u]|].
    destruct data as [[|c d]|].
    + cbn [rbind]. rewrite (IH decoded); [|exact Hdec]. rewrite Hurl.
      by destruct (last (stream_urls chunks)).
    + inversion Hdec as [|? bytes ? decoded' Hb Hrest]; subst.
      rewrite Hb. cbn [rbind]. rewrite (IH decoded'); [|exact Hrest].
      rewrite Hurl. cbn [concat]. rewrite <- app_assoc.
      by destruct (last (stream_urls chunks)).
    + cbn [rbind]. rewrite (IH decoded); [|exact Hdec]. rewrite Hurl.
      by destruct (last (stream_urls chunks)).
  - cbn [Qwen.stream_loop]. by apply IH.
Qed.

(** The loop over a stream with a data item that does not decode. *)
Lemma stream_loop_raises (v : Qwen.vendor) (d : list ascii)
  (post : list (list ascii)) (e : exn) :
  Qwen.b64decode v d = Raise e ->
  forall chunks pre decoded written url,
    stream_datas chunks = pre ++ d :: post ->
    Forall2 (fun data bytes => Qwen.b64decode v data = Ok bytes) pre decoded ->
    Qwen.stream_loop v chunks written url = Raise e.
Proof.
  intros He chunks.
  induction chunks as [|[[data u]|] chunks IH];
    intros pre decoded written url Hsplit Hdec.
  - by destruct pre.
  - rewrite stream_datas_cons in Hsplit.
    cbn [Qwen.stream_loop Qwen.audio_data].
    destruct data as [[|c dd]|].
    + cbn [rbind]. by apply (IH pre decoded).
    + destruct pre as [|p pre].
      * injection Hsplit as Hd _. rewrite Hd, He. done.
      * injection Hsplit as Hp Hrest.
        inversion Hdec as [|? bytes ? decoded' Hb Hdec']; subst.
        rewrite Hb. cbn [rbind]. by apply (IH pre decoded').
    + cbn [rbind]. by apply (IH pre decoded).
  - cbn [Qwen.stream_loop]. by apply (IH pre decoded).
Qed.

(** With streaming on and data that [base64.b64decode] decodes,
    [_synthesize] returns the decoded data of the chunks, concatenated in
    the order of arrival, and downloads nothing; only when no byte arrived
    does it download the last URL the stream named, and with neither bytes
    nor URL it raises [RuntimeError]. The first data item that does not
    decode ends [_synthesize] with the decoder's error. With streaming off,
    a response without a URL is a [RuntimeError]. *)
Theorem qwen_synthesize_assembles_stream :
  forall (v : Qwen.vendor) (self : Qwen.provider) (n : nat)
         (text : list ascii),
    (forall chunks decoded,
        Qwen._stream self = true ->
        Qwen.call_stream v n (Qwen.build_call self text true) = Ok chunks ->
        Forall2 (fun data bytes => Qwen.b64decode v data = Ok bytes)
          (stream_datas chunks) decoded ->
        Qwen.synthesize_outcome v self n text =
        let written := concat decoded in
        if nonempty written then Ok written
        else
          match last (stream_urls chunks) with
          | Some url => Qwen.download v n url (Qwen._timeout self)
          | None =>
              Raise (RuntimeError
                       (lit "Qwen3TTS: Streaming response contained no audio data."))
          end) /\
    (forall chunks pre d post decoded e,
        Qwen._stream self = true ->
        Qwen.call_stream v n (Qwen.build_call self text true) = Ok chunks ->
        stream_datas chunks = pre ++ d :: post ->
        Forall2 (fun data bytes => Qwen.b64decode v data = Ok bytes)
          pre decoded ->
        Qwen.b64decode v d = Raise e ->
        Qwen.synthesize_outcome v self n text = Raise e) /\
    (Qwen._stream self = false ->
     no_url (Qwen.call v n (Qwen.build_call self text false)) = true ->
     Qwen.synthesize_outcome v self n text =
     Raise (RuntimeError
              (lit "Qwen3TTS: Response did not contain an audio URL."))).
Proof.
  intros v self n text. split; [|split].
  - intros chunks decoded Hstream Hcall Hdec.
    unfold Qwen.synthesize_outcome, Qwen._synthesize_streaming.
    rewrite Hstream, Hcall. cbn [rbind].
    rewrite (stream_loop_collects v chunks decoded [] None Hdec).
    cbn [rbind fst snd app].
    destruct (concat decoded) as [|b bs]; [|done].
    cbn [length Nat.eqb nonempty].
    assert (Hne : Forall (fun u => u <> []) (stream_urls chunks)).
    { unfold stream_urls. apply Forall_flat_map, Forall_forall.
      intros [[d [[|c u]|]]|] _; by repeat constructor. }
    destruct (last (stream_urls chunks)) as [[|c u]|] eqn:Hlast; [|done|done].
    apply last_Some in Hlast as [l' Hl]. rewrite Hl in Hne.
    apply Forall_app in Hne as [_ Hne]. by inversion Hne.
  - intros chunks pre d post decoded e Hstream Hcall Hsplit Hdec He.
    unfold Qwen.synthesize_outcome, Qwen._synthesize_streaming.
    rewrite Hstream, Hcall. cbn [rbind].
    by rewrite (stream_loop_raises v d post e He chunks pre decoded [] None).
  - intros Hstream Hno.
    unfold Qwen.synthesize_outcome, Qwen._synthesize_non_streaming.
    rewrite Hstream.
    destruct (Qwen.call v n _) as [[[|c u]|]|e]; done.
Qed.

(** At a stream of three chunks, two of them with data, the base64 texts of
    the bytes 1, 2 and of the byte 3: the three bytes, in order, and no
    download. *)
Lemma qwen_synthesize_assembles_stream_witness :
  Qwen.synthesize_outcome streaming_vendor streaming_provider 0 (lit "Hello.")
  = Ok [Byte.x01; Byte.x02; Byte.x03].
Proof.
  apply (proj1 (qwen_synthesize_assembles_stream streaming_vendor
                  streaming_provider 0 (lit "Hello."))
           streamed_chunks [[Byte.x01; Byte.x02]; [Byte.x03]]
           eq_refl eq_refl).
  repeat constructor.
Defined.

End VendorFacts.

(** * The providers' defaults *)

Module DefaultFacts.

Import Tts Spec Notions Examples MoreExamples PyStrFacts ConfigFacts.

Local Arguments mem : simpl never.

Lemma dict_get_values (table : list (list ascii * list ascii))
  (allowed : list (list ascii)) (key v : list ascii) :
  forallb (fun kv => mem kv.2 allowed) table = true ->
  dict_get key table = Some v -> mem v allowed = true.
Proof.
  induction table as [|[k x] table IH]; [done|].
  cbn [forallb dict_get snd]. intros [Hx Ht]%andb_true_iff.
  destruct (eqs key k); [by intros [= <-]|by apply IH].
Qed.

(** Every language boost the locale table of MiniMax names is a supported
    one; so is every language type of the alias table of Qwen3. *)
Lemma minimax_mapping_supported (locale boost : list ascii) :
  dict_get locale Minimax._LANGUAGE_BOOST_MAPPING = Some boost ->
  mem boost Minimax._SUPPORTED_LANGUAGE_BOOSTS = true.
Proof. apply dict_get_values. vm_compute. reflexivity. Qed.

Lemma qwen_alias_supported (locale language_type : list ascii) :
  dict_get locale Qwen._LANGUAGE_ALIAS = Some language_type ->
  mem language_type Qwen._SUPPORTED_LANGUAGE_TYPES = true.
Proof. apply dict_get_values. vm_compute. reflexivity. Qed.

Lemma or_default_nonempty (x : option (list ascii)) (default : list ascii) :
  default <> [] -> or_default x default <> [].
Proof. by destruct x as [[|c s]|]. Qed.

Lemma minimax_locale_boost (locale : option (list ascii)) :
  truthy (Minimax._resolve_language_boost None locale) &&
  negb (mem (or_default (Minimax._resolve_language_boost None locale) [])
          Minimax._SUPPORTED_LANGUAGE_BOOSTS) = false.
Proof.
  unfold Minimax._resolve_language_boost. cbn [truthy].
  destruct locale as [[|c l]|]; [done| |done].
  destruct (dict_get _ _) as [[|b bs]|] eqn:Hget; [done| |done].
  apply minimax_mapping_supported in Hget.
  cbn [truthy nonempty or_default andb]. by rewrite Hget.
Qed.

Lemma qwen_locale_type (locale : option (list ascii)) :
  mem (Qwen._resolve_language_type None locale)
    Qwen._SUPPORTED_LANGUAGE_TYPES = true.
Proof.
  unfold Qwen._resolve_language_type.
  destruct locale as [[|c l]|]; [done| |done].
  destruct (dict_get _ _) as [t|] eqn:Hget; [|done].
  by apply qwen_alias_supported in Hget.
Qed.

(** A configuration that leaves model, voice, output format, language boost
    and language type to the providers is accepted by [validate_config] of
    each provider that [__init__] accepts, whatever the language: a locale
    the tables do not list gives no boost (MiniMax) or the default type
    (Qwen3), and a listed one gives a supported value. *)
Theorem defaults_pass_validation :
  forall (config : general_config) (h : host),
    leaves_defaults config ->
    (forall self, Minimax.init_fields config h = Ok self ->
                  Minimax.validate_config self = Ok tt) /\
    (forall self, Qwen.init_fields config h = Ok self ->
                  Qwen.validate_config self = Ok tt) /\
    (forall self, Gemini.init_fields config h = Ok self ->
                  Gemini.validate_config self = Ok tt).
Proof.
  intros config h (Hmodel & Hvoice & Hformat & Hboost & Htype & Hrate &
                   Hchannels & Hmap).
  split; [|split]; intros self H.
  - apply minimax_init_fields in H as (_ & Hv & Hf & Hb).
    unfold Minimax.validate_config.
    rewrite Hv, Hf, Hb, Hvoice, Hformat, Hboost, minimax_locale_boost.
    reflexivity.
  - apply qwen_init_fields in H as (Hm & Hv & Hf & Ht).
    unfold Qwen.validate_config.
    rewrite Hm, Hv, Hf, Ht, Hmodel, Hvoice, Hformat, Htype, qwen_locale_type.
    reflexivity.
  - apply gemini_init_fields in H as (_ & Hv & Hf & Hr & Hc & Hs & _).
    rewrite Hmap in Hs. injection Hs as Hs.
    unfold Gemini.validate_config.
    rewrite Hv, Hf, Hr, Hc, <- Hs, Hvoice, Hformat, Hrate, Hchannels.
    reflexivity.
Qed.

(** At a configuration that sets only a language no table lists: MiniMax
    gets no boost and validates. *)
Lemma defaults_pass_validation_witness :
  (do self <- Minimax.init_fields klingon_config full_host;
   Minimax.validate_config self)%result = Ok tt.
Proof.
  change (Minimax.init_fields klingon_config full_host)
    with (Ok (Minimax.Provider Minimax.DEFAULT_MODEL Minimax.DEFAULT_VOICE
                (lit "mp3") (lit "tlh") (Fin 1) (Fin 1) (Fin 0) None 60
                (lit "f") 4500)).
  cbn [rbind].
  apply (proj1 (defaults_pass_validation klingon_config full_host
                  ltac:(repeat split))).
  reflexivity.
Defined.

(** *** The voices sent to Gemini *)

(** A Gemini provider that [__init__] has set up and [validate_config] has
    accepted sends only supported voice names: those of the speaker map when
    there is one, otherwise its voice, which is never empty. *)
Theorem gemini_speech_config_voices_supported :
  forall (config : general_config) (h : host) (self : Gemini.provider),
    Gemini.init_fields config h = Ok self ->
    Gemini.validate_config self = Ok tt ->
    Forall (fun voice => mem voice Gemini._SUPPORTED_VOICES = true)
      (voices_of (Gemini._build_speech_config self)).
Proof.
  intros config h self Hinit Hvalid.
  apply gemini_validated in Hvalid as (_ & _ & _ & Hvoice & Hmap).
  unfold Gemini._build_speech_config.
  destruct (nonempty (Gemini._speaker_map self)); cbn [voices_of].
  - by apply Forall_fmap.
  - constructor; [|constructor]. apply Hvoice.
    apply gemini_init_fields in Hinit as (_ & -> & _).
    by apply or_default_nonempty.
Qed.

(** At the configuration that sets nothing: the one voice is the default
    voice [Kore], a supported one. *)
Lemma gemini_speech_config_voices_supported_witness :
  Forall (fun voice => mem voice Gemini._SUPPORTED_VOICES = true)
    (voices_of (Gemini._build_speech_config (gemini_provider None))).
Proof.
  apply (gemini_speech_config_voices_supported empty_config full_host
           (gemini_provider None)); reflexivity.
Defined.

End DefaultFacts.

(** * Further properties of the matcher *)

Module EngineFacts.

Import Re Markdown Spec Notions PyStrFacts NewlineFacts.

Local Arguments in_set : simpl never.

(** *** A pattern that needs a character the text does not have *)

Lemma all_chars_complete (c : ascii) : In c all_chars.
Proof.
  unfold all_chars. rewrite <- (ascii_nat_embedding c).
  apply in_map, in_seq. pose proof (nat_ascii_bounded c). lia.
Qed.

Lemma eat_suffix (v : list ascii) :
  forall st st', eat v st = Some st' -> exists a, rest st = a ++ rest st'.
Proof.
  induction v as [|x v IH]; intros st st'; simpl.
  - intros [= <-]. by exists [].
  - destruct (rest st) as [|c s'] eqn:Hr; [done|].
    destruct (eqc x c); [|done].
    intros H. apply IH in H as [a Ha]. simpl in Ha.
    exists (c :: a). by rewrite Ha.
Qed.

(** The matcher answers only through its continuation, and calls it only on
    what is left of the text. *)
Lemma rep_loop_escapes
  (body : (mstate -> option mstate) -> mstate -> option mstate)
  (greedy : bool) (lo : nat) (hi : option nat) (k : mstate -> option mstate) :
  (forall k' st,
      (forall st', (exists a, rest st = a ++ rest st') -> k' st' = None) ->
      body k' st = None) ->
  forall fuel i st,
    (forall st', (exists a, rest st = a ++ rest st') -> k st' = None) ->
    rep_loop greedy body lo hi k fuel i st = None.
Proof.
  intros Hbody fuel.
  induction fuel as [|fuel IH]; intros i st Hk.
  - simpl. rewrite (Hk st) by (by exists []).
    by destruct greedy, (lo <=? i).
  - assert (Hmore : body (rep_loop greedy body lo hi k fuel (S i)) st = None).
    { apply Hbody. intros st' [a Ha]. apply IH.
      intros st'' [b Hb]. apply Hk. exists (a ++ b).
      by rewrite Ha, Hb, app_assoc. }
    simpl. rewrite Hmore, (Hk st) by (by exists []).
    by destruct greedy, (below i hi), (lo <=? i).
Qed.

Lemma run_escapes (r : re) :
  forall k st,
    (forall st', (exists a, rest st = a ++ rest st') -> k st' = None) ->
    run r k st = None.
Proof.
  induction r as [|l|l|dotall|a IHa b IHb|a IHa b IHb|greedy lo hi a IHa
                 |n a IHa|n|multiline| |l]; intros k st Hk.
  - apply Hk. by exists [].
  - simpl. unfold one_char. destruct (rest st) as [|c s'] eqn:Hr; [done|].
    destruct (in_set l c); [|done]. apply Hk. by exists [c].
  - simpl. unfold one_char. destruct (rest st) as [|c s'] eqn:Hr; [done|].
    destruct (negb (in_set l c)); [|done]. apply Hk. by exists [c].
  - simpl. unfold one_char. destruct (rest st) as [|c s'] eqn:Hr; [done|].
    destruct (dotall || negb (eqc c LF)); [|done]. apply Hk. by exists [c].
  - simpl. apply IHa. intros st' [x Hx]. apply IHb.
    intros st'' [y Hy]. apply Hk. exists (x ++ y).
    by rewrite Hx, Hy, app_assoc.
  - simpl. by rewrite IHa, IHb.
  - simpl. apply rep_loop_escapes; [|done]. intros k' st0. apply IHa.
  - simpl. apply IHa. intros st' Hst'. by apply Hk.
  - simpl. destruct (get_cap n (caps st)) as [v|]; [|done].
    destruct (eat v st) as [st'|] eqn:He; [|done].
    apply Hk. by eapply eat_suffix.
  - simpl. destruct (prev st) as [c|].
    + destruct (multiline && eqc c LF); [|done]. apply Hk. by exists [].
    + apply Hk. by exists [].
  - simpl. destruct (rest st) as [|c [|d s']] eqn:Hr; [| |done].
    + apply Hk. exists []. by rewrite Hr.
    + destruct (eqc c LF); [|done]. apply Hk. exists []. by rewrite Hr.
  - simpl. destruct (prev st) as [c|]; [|done].
    destruct (in_set l c); [|done]. apply Hk. by exists [].
Qed.

(** A pattern that needs a character of [P] fails on a text without any. *)
Lemma run_needs (P : ascii -> bool) (r : re) :
  needs P r = true ->
  forall k st,
    forallb (fun c => negb (P c)) (rest st) = true -> run r k st = None.
Proof.
  induction r as [|l|l|dotall|a IHa b IHb|a IHa b IHb|greedy lo hi a IHa
                 |n a IHa|n|multiline| |l]; cbn [needs]; try done.
  - intros Hl k st Hst. simpl. unfold one_char.
    destruct (rest st) as [|c s']; [done|].
    simpl in Hst. apply andb_true_iff in Hst as [Hc _].
    rewrite forallb_forall in Hl.
    specialize (Hl c (all_chars_complete c)).
    destruct (in_set l c); [|done].
    apply negb_true_iff in Hc. by rewrite Hc in Hl.
  - intros [Ha|Hb]%orb_true_iff k st Hst; simpl.
    + by apply IHa.
    + apply run_escapes. intros st' [x Hx]. apply IHb; [done|].
      rewrite Hx, forallb_app in Hst. by apply andb_true_iff in Hst as [_ ?].
  - intros [Ha Hb]%andb_true_iff k st Hst. simpl.
    by rewrite IHa, IHb.
  - intros [Hlo Ha]%andb_true_iff k st Hst.
    apply Nat.leb_le in Hlo.
    assert (Hlo0 : (lo <=? 0) = false) by (apply Nat.leb_gt; lia).
    simpl. destruct (length (rest st)) as [|fuel]; simpl; rewrite Hlo0.
    + by destruct greedy.
    + rewrite (IHa Ha) by done. by destruct greedy, (below 0 hi).
  - intros Ha k st Hst. simpl. by apply IHa.
Qed.

(** A substitution whose pattern needs a character the text does not have
    leaves the text as it is. *)
Lemma sub_needs (P : ascii -> bool) (r : re) (tpl : list titem) :
  needs P r = true ->
  forall s p,
    forallb (fun c => negb (P c)) s = true -> sub_go r tpl p 0 s = s.
Proof.
  intros Hr s. induction s as [|c s IH]; intros p Hs.
  - apply sub_go_nil. unfold attempt. by apply (run_needs P).
  - rewrite sub_go_miss.
    + f_equal. apply IH. simpl in Hs. by apply andb_true_iff in Hs as [_ ?].
    + unfold attempt. by apply (run_needs P).
Qed.

(** *** Runs of the characters of a set *)

Lemma split_set_run (l : list cclass) (s : list ascii) :
  exists r t,
    s = r ++ t /\ forallb (in_set l) r = true /\ head_in l t = false.
Proof.
  induction s as [|c s (r & t & -> & Hr & Ht)].
  - by exists [], [].
  - destruct (in_set l c) eqn:Hc.
    + exists (c :: r), t. simpl. by rewrite Hc, Hr.
    + exists [], (c :: r ++ t). simpl. by rewrite Hc.
Qed.

(** A greedy repetition of a set takes the whole run that stands at the
    position, and matches if the run is long enough. *)
Lemma rep_set_greedy (l : list cclass) (lo : nat) (t : list ascii)
  (cs : list (nat * list ascii))
  (body : (mstate -> option mstate) -> mstate -> option mstate) :
  (forall k st, body k st = one_char (in_set l) k st) ->
  head_in l t = false ->
  forall r fuel i p,
    forallb (in_set l) r = true ->
    length r <= fuel ->
    exists p',
      rep_loop true body lo None Some fuel i (MState p (r ++ t) cs) =
      if lo <=? i + length r then Some (MState p' t cs) else None.
Proof.
  intros Hbody Ht. induction r as [|c r IH]; intros fuel i p Hr Hfuel.
  - exists p. rewrite Nat.add_0_r. simpl app.
    assert (Hnone : forall k, body k (MState p t cs) = None).
    { intros k. rewrite Hbody. unfold one_char. simpl.
      destruct t as [|c t]; [done|]. simpl in Ht. by rewrite Ht. }
    destruct fuel as [|fuel]; simpl rep_loop.
    + by destruct (lo <=? i).
    + rewrite Hnone. by destruct (lo <=? i).
  - destruct fuel as [|fuel]; [simpl in Hfuel; lia|].
    simpl in Hr. apply andb_true_iff in Hr as [Hc Hr].
    destruct (IH fuel (S i) (Some c) Hr ltac:(simpl in Hfuel; lia))
      as [p' Hrec].
    exists p'.
    change ((c :: r) ++ t) with (c :: (r ++ t)).
    simpl rep_loop. rewrite Hbody.
    unfold one_char at 1. cbn [rest]. rewrite Hc.
    unfold advance. cbn [caps]. rewrite Hrec.
    replace (i + length (c :: r)) with (S i + length r) by (simpl; lia).
    destruct (lo <=? S i + length r) eqn:Hlo; [done|].
    simpl. apply Nat.leb_gt in Hlo.
    assert ((lo <=? i) = false) as -> by (apply Nat.leb_gt; lia). done.
Qed.

Lemma attempt_plus_set (l : list cclass) (r t : list ascii)
  (p : option ascii) :
  forallb (in_set l) r = true -> head_in l t = false ->
  exists p',
    attempt (plus (Cset l)) false p (r ++ t) =
    if 1 <=? length r then Some (MState p' t []) else None.
Proof.
  intros Hr Ht. unfold attempt, plus.
  change (run (Rep true 1 None (Cset l))
            (fun st' : mstate =>
               if false && (length (rest st') =? length (r ++ t))
               then None else Some st')
            (MState p (r ++ t) []))
    with (rep_loop true (run (Cset l)) 1 None Some
            (length (r ++ t)) 0 (MState p (r ++ t) [])).
  apply (rep_set_greedy l 1 t [] (run (Cset l)) (fun _ _ => eq_refl) Ht r);
    [done|].
  rewrite length_app. lia.
Qed.

Lemma consumed_prefix (r t : list ascii) (p p' : option ascii) :
  consumed (MState p (r ++ t) []) (MState p' t []) = r.
Proof.
  unfold consumed. simpl. rewrite length_app.
  replace (length r + length t - length t) with (length r) by lia.
  by rewrite take_app_length.
Qed.

Lemma squeeze_run (l : list cclass) (x r t : list ascii) :
  forallb (in_set l) r = true -> head_in l t = false ->
  squeeze l x true (r ++ t) = squeeze l x false t.
Proof.
  intros Hr Ht. induction r as [|c r IH].
  - destruct t as [|c t]; [done|]. simpl in *. by rewrite Ht.
  - simpl in Hr. apply andb_true_iff in Hr as [Hc Hr].
    simpl. rewrite Hc. by apply IH.
Qed.

(** [re.sub] of one or more characters of a set by a literal text replaces
    every maximal run. *)
Lemma sub_plus_set (l : list cclass) (x : list ascii) :
  forall s p,
    sub_go (plus (Cset l)) [TLit x] p 0 s = squeeze l x false s.
Proof.
  intros s. remember (length s) as n eqn:Hn. revert s Hn.
  induction n as [n IH] using lt_wf_ind. intros s -> p.
  destruct (split_set_run l s) as (r & t & -> & Hr & Ht).
  destruct (attempt_plus_set l r t p Hr Ht) as [p' Hatt].
  destruct r as [|c r].
  - simpl app in *. simpl in Hatt.
    destruct t as [|c t].
    + by rewrite sub_go_nil.
    + rewrite sub_go_miss by done.
      rewrite (IH (length t)) by (simpl; lia || done).
      simpl. simpl in Ht. by rewrite Ht.
  - change ((c :: r) ++ t) with (c :: (r ++ t)) in *.
    simpl in Hatt.
    rewrite (sub_go_hit _ _ _ _ _ _ (length r) Hatt).
    + rewrite expand_lit.
      simpl in Hr. apply andb_true_iff in Hr as [Hc Hr].
      simpl. rewrite Hc. f_equal.
      destruct (sub_go_skip (plus (Cset l)) [TLit x] r t (Some c))
        as [p'' Hskip].
      rewrite Hskip, (squeeze_run l x r t Hr Ht).
      apply (IH (length t)); [|done].
      simpl. rewrite length_app. lia.
    + change (c :: (r ++ t)) with ((c :: r) ++ t).
      by rewrite consumed_prefix.
Qed.

(** *** A greedy repetition before a continuation that accepts *)

Lemma last_cons_or (c : ascii) (r : list ascii) (p : option ascii) :
  match last (c :: r) with Some d => Some d | None => p end =
  match last r with Some d => Some d | None => Some c end.
Proof.
  destruct r as [|a r]; [done|]. simpl.
  destruct (last (a :: r)) eqn:H; [done|]. by apply last_None in H.
Qed.

(** A greedy repetition of single characters takes the whole run [r] at the
    position when the pattern behind it matches there: the longest
    repetition is tried first. *)
Lemma rep_greedy_full (P : ascii -> bool)
  (body : (mstate -> option mstate) -> mstate -> option mstate)
  (lo : nat) (hi : option nat) (k : mstate -> option mstate)
  (t : list ascii) (cs : list (nat * list ascii)) (x : mstate) :
  (forall k0 st, body k0 st = one_char P k0 st) ->
  match t with c :: _ => P c | [] => false end = false ->
  forall r fuel i p,
    forallb P r = true ->
    length r <= fuel ->
    (forall j, j < length r -> below (i + j) hi = true) ->
    lo <= i + length r ->
    k (MState (match last r with Some d => Some d | None => p end) t cs)
      = Some x ->
    rep_loop true body lo hi k fuel i (MState p (r ++ t) cs) = Some x.
Proof.
  intros Hbody Ht. induction r as [|c r IH]; intros fuel i p Hr Hfuel Hhi Hlo Hk.
  - simpl app. simpl in Hk, Hlo.
    assert (Hnone : forall k0, body k0 (MState p t cs) = None).
    { intros k0. rewrite Hbody. unfold one_char. simpl.
      destruct t as [|c t]; [done|]. by rewrite Ht. }
    assert (Hstop : (lo <=? i) = true) by (apply Nat.leb_le; lia).
    destruct fuel as [|fuel]; simpl rep_loop; rewrite Hstop, ?Hnone, Hk;
      by destruct (below i hi).
  - destruct fuel as [|fuel]; [simpl in Hfuel; lia|].
    simpl in Hr. apply andb_true_iff in Hr as [Hc Hr].
    rewrite last_cons_or in Hk.
    assert (Hrec : rep_loop true body lo hi k fuel (S i)
                     (MState (Some c) (r ++ t) cs) = Some x).
    { apply IH; [done|simpl in Hfuel; lia| |simpl in Hlo; lia|done].
      intros j Hj. replace (S i + j) with (i + S j) by lia.
      apply Hhi. simpl. lia. }
    change ((c :: r) ++ t) with (c :: (r ++ t)).
    simpl rep_loop.
    pose proof (Hhi 0 ltac:(simpl; lia)) as H0. rewrite Nat.add_0_r in H0.
    rewrite H0, Hbody. unfold one_char at 1. cbn [rest]. rewrite Hc.
    unfold advance. cbn [caps]. by rewrite Hrec.
Qed.

Lemma rep_greedy_all (P : ascii -> bool)
  (body : (mstate -> option mstate) -> mstate -> option mstate)
  (lo : nat) (k : mstate -> option mstate)
  (cs : list (nat * list ascii)) (x : mstate) (r : list ascii)
  (p : option ascii) :
  (forall k0 st, body k0 st = one_char P k0 st) ->
  forallb P r = true ->
  lo <= length r ->
  k (MState (match last r with Some d => Some d | None => p end) [] cs)
    = Some x ->
  rep_loop true body lo None k (length r) 0 (MState p r cs) = Some x.
Proof.
  intros Hbody Hr Hlo Hk.
  pose proof (rep_greedy_full P body lo None k [] cs x Hbody eq_refl r
                (length r) 0 p Hr (le_n _) (fun _ _ => eq_refl) Hlo Hk) as H.
  by rewrite app_nil_r in H.
Qed.

Lemma consumed_app (r t : list ascii) (p p' : option ascii)
  (cs cs' : list (nat * list ascii)) :
  consumed (MState p (r ++ t) cs) (MState p' t cs') = r.
Proof.
  unfold consumed. simpl. rewrite length_app.
  replace (length r + length t - length t) with (length r) by lia.
  by rewrite take_app_length.
Qed.

End EngineFacts.

(** * Further properties of the Markdown parser *)

Module ParserFacts.

Import Re Markdown Spec Notions Examples MoreExamples PyStrFacts MarkdownFacts
  NewlineFacts EngineFacts.

Local Arguments in_set : simpl never.

(** *** Markup *)

(** Each of the ten substitutions needs a markup character to match. *)
Lemma plain_passes (text : list ascii) :
  plain_text text = true ->
  strip_code_blocks text = text /\ strip_inline_code text = text /\
  strip_images text = text /\ strip_links text = text /\
  strip_bold text = text /\ strip_italic text = text /\
  strip_blockquotes text = text /\ strip_bullets text = text /\
  strip_numbered text = text /\ strip_headings text = text.
Proof.
  intros H.
  assert (Hsub : forall r tpl, needs markup r = true -> sub r tpl text = text).
  { intros r tpl Hr. by apply (sub_needs markup). }
  repeat split; apply Hsub; vm_compute; reflexivity.
Qed.

(** A text without markup characters passes [_strip_markdown] unchanged:
    each of its ten substitutions needs a back quote, a bracket, an asterisk,
    an underscore, a greater-than sign, a hyphen, a plus sign, a hash sign or
    a digit to match. *)
Theorem strip_markdown_keeps_plain_text (text : list ascii) :
  plain_text text = true -> _strip_markdown text = text.
Proof.
  intros H.
  destruct (plain_passes text H)
    as (H1 & H2 & H3 & H4 & H5 & H6 & H7 & H8 & H9 & H10).
  unfold _strip_markdown. cbv zeta.
  by rewrite H1, H2, H3, H4, H5, H6, H7, H8, H9, H10.
Qed.

(** At two lines of prose with punctuation and a parenthesis. *)
Lemma strip_markdown_keeps_plain_text_witness :
  _strip_markdown (lit "Hello, (old) world!" ++ [LF] ++ lit "Good night.") =
  lit "Hello, (old) world!" ++ [LF] ++ lit "Good night.".
Proof.
  apply (strip_markdown_keeps_plain_text
           (lit "Hello, (old) world!" ++ [LF] ++ lit "Good night.")).
  reflexivity.
Defined.

(** *** White space *)

Lemma in_set_space (c : ascii) : in_set [CSpace] c = is_space c.
Proof. unfold in_set. simpl. apply orb_false_r. Qed.

Lemma squeeze_only_sp (s : list ascii) :
  forall b,
    forallb (fun c => negb (is_space c) || eqc c SP)
      (squeeze [CSpace] [SP] b s) = true.
Proof.
  induction s as [|c s IH]; intros b; [done|]. simpl.
  rewrite in_set_space. destruct (is_space c) eqn:Hc.
  - destruct b; simpl; by rewrite IH.
  - simpl. by rewrite Hc, IH.
Qed.

Lemma squeeze_true_head (s : list ascii) :
  head_in [CSpace] (squeeze [CSpace] [SP] true s) = false.
Proof.
  induction s as [|c s IH]; [done|]. simpl.
  destruct (in_set [CSpace] c) eqn:Hc; [done|]. simpl. exact Hc.
Qed.

Lemma not_space_not_sp (c : ascii) : is_space c = false -> eqc SP c = false.
Proof.
  intros H. apply eqc_false. intros <-. by vm_compute in H.
Qed.

Lemma squeeze_no_double (s : list ascii) :
  forall b, contains [SP; SP] (squeeze [CSpace] [SP] b s) = false.
Proof.
  induction s as [|c s IH]; intros b; [done|]. simpl squeeze.
  destruct (in_set [CSpace] c) eqn:Hc.
  - destruct b; [apply IH|].
    change ([SP] ++ squeeze [CSpace] [SP] true s)
      with (SP :: squeeze [CSpace] [SP] true s).
    change (contains [SP; SP] (SP :: squeeze [CSpace] [SP] true s))
      with (startswith [SP; SP] (SP :: squeeze [CSpace] [SP] true s)
            || contains [SP; SP] (squeeze [CSpace] [SP] true s)).
    rewrite IH, orb_false_r.
    pose proof (squeeze_true_head s) as Hh.
    destruct (squeeze [CSpace] [SP] true s) as [|d x]; [done|].
    simpl in Hh. rewrite in_set_space in Hh.
    cbn [startswith]. rewrite (not_space_not_sp d Hh). apply andb_false_r.
  - change (contains [SP; SP] (c :: squeeze [CSpace] [SP] false s))
      with (startswith [SP; SP] (c :: squeeze [CSpace] [SP] false s)
            || contains [SP; SP] (squeeze [CSpace] [SP] false s)).
    rewrite IH, orb_false_r. rewrite in_set_space in Hc.
    cbn [startswith]. by rewrite (not_space_not_sp c Hc).
Qed.

Lemma lstrip_head (s : list ascii) : head_in [CSpace] (lstrip s) = false.
Proof.
  induction s as [|c s IH]; [done|]. simpl.
  destruct (is_space c) eqn:Hc; [done|]. simpl. by rewrite in_set_space.
Qed.

Lemma lstrip_id (s : list ascii) : head_in [CSpace] s = false -> lstrip s = s.
Proof.
  destruct s as [|c s]; [done|]. simpl. rewrite in_set_space. by intros ->.
Qed.

Lemma rstrip_head (s : list ascii) :
  head_in [CSpace] s = false -> head_in [CSpace] (rstrip s) = false.
Proof.
  intros H. destruct (rstrip_prefix s) as [b Hb].
  destruct (rstrip s) as [|c x]; [done|]. by rewrite Hb in H.
Qed.

Lemma strip_strip (s : list ascii) : strip (strip s) = strip s.
Proof.
  unfold strip at 1.
  rewrite lstrip_id by (apply rstrip_head, lstrip_head).
  unfold strip, rstrip. rewrite rev_involutive.
  by rewrite (lstrip_id _ (lstrip_head _)).
Qed.

(** Collapsed and stripped, a text is in normal form. *)
Lemma normal_strip_collapse (s : list ascii) :
  normal_ws (strip (collapse_whitespace s)) = true.
Proof.
  unfold collapse_whitespace, sub.
  change (sub_go (plus space) [TLit (lit " ")] None 0 s)
    with (sub_go (plus (Cset [CSpace])) [TLit [SP]] None 0 s).
  rewrite sub_plus_set.
  pose proof (squeeze_only_sp s false) as H1.
  pose proof (squeeze_no_double s false) as H2.
  destruct (strip_infix (squeeze [CSpace] [SP] false s)) as (a & b & Hs).
  rewrite Hs in H1, H2.
  rewrite !forallb_app in H1.
  apply andb_true_iff in H1 as [_ H1]. apply andb_true_iff in H1 as [H1 _].
  apply contains_false_app_r, contains_false_app_l in H2.
  unfold normal_ws. rewrite H1, H2, strip_strip. simpl.
  by apply eqs_true.
Qed.

Lemma build_chapter_text_normal (c : config) (break_string : list ascii)
  (rules : list rule) lines heading text :
  _build_chapter_text c lines break_string rules heading = Ok text ->
  normal_ws text = true.
Proof.
  unfold _build_chapter_text. intros H.
  destruct (negb (nonempty lines) && negb (truthy heading));
    [by injection H as <-|].
  match type of H with context [negb (nonempty ?x)] =>
    destruct (negb (nonempty x)); [by injection H as <-|] end.
  match type of H with context [_apply_newline_mode c ?x break_string] =>
    destruct (_apply_newline_mode c x break_string) as [t1|e]; [|done] end.
  cbn [rbind] in H.
  match type of H with context [apply_rules rules ?x] =>
    destruct (apply_rules rules x) as [t2|e]; [|done] end.
  cbn [rbind] in H. injection H as <-. apply normal_strip_collapse.
Qed.

Lemma emit_segments_texts
  (sanitize_title : list ascii -> list ascii -> list ascii)
  (c : config) (break_string : list ascii) (rules : list rule)
  (Q : list ascii -> Prop) :
  (forall lines heading t,
      _build_chapter_text c lines break_string rules heading = Ok t ->
      nonempty t = true -> Q t) ->
  forall segs emitted chs,
    Forall (fun ch => Q ch.2) emitted ->
    emit_segments sanitize_title c break_string rules emitted segs = Ok chs ->
    Forall (fun ch => Q ch.2) chs.
Proof.
  intros HQ segs.
  induction segs as [|[heading lines] segs IH]; intros emitted chs Hem; simpl.
  - by intros [= <-].
  - destruct (_build_chapter_text c lines break_string rules heading)
      as [t|e] eqn:Hb; [|done].
    simpl. apply IH. destruct (nonempty t) eqn:Ht; [|done].
    apply Forall_app. split; [done|]. constructor; [|done].
    simpl. by eapply HQ.
Qed.

(** Every chapter [get_chapters] returns has a text that is not empty and
    is in normal form: its only white space is single spaces between words,
    whatever the document, the newline mode and the search-and-replace
    rules. *)
Theorem chapter_texts_are_normalised :
  forall (sanitize_title : list ascii -> list ascii -> list ascii)
         (p : parser) (break_string : list ascii) (rules : list rule)
         (chs : list (list ascii * list ascii)),
    get_chapters sanitize_title p break_string rules = Ok chs ->
    Forall (fun ch => nonempty ch.2 = true /\ normal_ws ch.2 = true) chs.
Proof.
  intros sanitize_title p break_string rules chs.
  unfold get_chapters. rewrite scan_chapters_segments.
  destruct (emit_segments _ _ _ _ _ _) as [chs0|e] eqn:Hemit; [|done].
  apply (emit_segments_texts sanitize_title (cfg p) break_string rules
           (fun t => nonempty t = true /\ normal_ws t = true)) in Hemit;
    [| |by constructor].
  - cbn [rbind]. unfold whole_book.
    destruct (negb (nonempty chs0) && nonempty (body_lines p));
      [|by intros [= <-]].
    destruct (_build_chapter_text _ _ _ _ _) as [t|e] eqn:Hb; [|done].
    cbn [rbind]. destruct (nonempty t) eqn:Ht; [|by intros [= <-]].
    intros [= <-]. apply Forall_app. split; [done|].
    constructor; [|done]. simpl. split; [done|].
    by eapply build_chapter_text_normal.
  - intros lines heading t Hb Ht. split; [done|].
    by eapply build_chapter_text_normal.
Qed.

(** At the example document: the two chapter texts are in normal form. *)
Lemma chapter_texts_are_normalised_witness :
  Forall (fun ch => nonempty ch.2 = true /\ normal_ws ch.2 = true)
    [(lit "Prologue", lit "Prologue @BRK# Hello.");
     (lit "One", lit "One @BRK# World bold.")].
Proof.
  apply (chapter_texts_are_normalised (fun t _ => t)
           (init example_config example_doc) (lit " @BRK#") []).
  vm_compute. reflexivity.
Defined.

(** *** An unknown newline mode *)

Lemma lstrip_nonempty (s : list ascii) :
  nonempty (lstrip s) = existsb (fun c => negb (is_space c)) s.
Proof.
  induction s as [|c s IH]; [done|]. simpl.
  by destruct (is_space c).
Qed.

Lemma existsb_lstrip (s : list ascii) :
  existsb (fun c => negb (is_space c)) (lstrip s) =
  existsb (fun c => negb (is_space c)) s.
Proof.
  induction s as [|c s IH]; [done|]. simpl.
  destruct (is_space c) eqn:Hc; [done|]. simpl. by rewrite Hc.
Qed.

Lemma nonempty_rev {A : Type} (l : list A) : nonempty (rev l) = nonempty l.
Proof.
  destruct l as [|a l]; [done|]. simpl.
  by destruct (rev l).
Qed.

Lemma existsb_rev_eq {A : Type} (f : A -> bool) (l : list A) :
  existsb f (rev l) = existsb f l.
Proof.
  induction l as [|a l IH]; [done|]. simpl.
  rewrite existsb_app, IH. simpl. rewrite orb_false_r. apply orb_comm.
Qed.

(** A text strips to something exactly when it has a character that is not
    white space. *)
Lemma strip_nonempty (s : list ascii) :
  nonempty (strip s) = existsb (fun c => negb (is_space c)) s.
Proof.
  unfold strip, rstrip.
  by rewrite nonempty_rev, lstrip_nonempty, existsb_rev_eq, existsb_lstrip.
Qed.

Lemma existsb_strip (s : list ascii) :
  existsb (fun c => negb (is_space c)) (strip s) =
  existsb (fun c => negb (is_space c)) s.
Proof. by rewrite <- !strip_nonempty, strip_strip. Qed.

Lemma existsb_join (sep : list ascii) (lines : list (list ascii)) :
  has_text lines = true ->
  existsb (fun c => negb (is_space c)) (join sep lines) = true.
Proof.
  unfold has_text. induction lines as [|l lines IH]; [done|].
  intros H. simpl in H. apply orb_true_iff in H.
  destruct lines as [|l' lines].
  - simpl. destruct H as [H|H]; done.
  - change (join sep (l :: l' :: lines))
      with (l ++ sep ++ join sep (l' :: lines)).
    rewrite !existsb_app. destruct H as [->|H]; [done|].
    rewrite (IH H). by rewrite !orb_true_r.
Qed.

Lemma apply_newline_mode_invalid (c : config) (text break_string : list ascii) :
  valid_mode c = false ->
  _apply_newline_mode c text break_string =
  Raise (ValueError (lit "Invalid newline mode: " ++ newline_mode c)).
Proof.
  unfold valid_mode, _apply_newline_mode.
  intros [[H1 H2]%orb_false_iff H3]%orb_false_iff.
  by rewrite H1, H2, H3.
Qed.

Lemma build_chapter_text_invalid (c : config) (break_string : list ascii)
  (rules : list rule) lines heading :
  valid_mode c = false ->
  _build_chapter_text c lines break_string rules heading = Ok [] \/
  _build_chapter_text c lines break_string rules heading =
  Raise (ValueError (lit "Invalid newline mode: " ++ newline_mode c)).
Proof.
  intros Hmode. unfold _build_chapter_text.
  destruct (negb (nonempty lines) && negb (truthy heading)); [by left|].
  match goal with |- context [negb (nonempty ?x)] =>
    destruct (negb (nonempty x)); [by left|] end.
  right. by rewrite apply_newline_mode_invalid.
Qed.

Lemma build_chapter_text_invalid_text (c : config) (break_string : list ascii)
  (rules : list rule) lines heading :
  valid_mode c = false -> has_text lines = true ->
  _build_chapter_text c lines break_string rules heading =
  Raise (ValueError (lit "Invalid newline mode: " ++ newline_mode c)).
Proof.
  intros Hmode Htext. unfold _build_chapter_text.
  assert (Hlines : nonempty lines = true) by (by destruct lines).
  assert (Hbody : nonempty (strip (join [LF] lines)) = true)
    by (rewrite strip_nonempty; by apply existsb_join).
  rewrite Hlines, Hbody. cbn [negb andb]. cbv zeta.
  match goal with |- context [join [LF; LF] (?ph ++ [?bt])] =>
    assert (Hparts : nonempty (strip (join [LF; LF] (ph ++ [bt]))) = true) end.
  { rewrite strip_nonempty. apply existsb_join. unfold has_text.
    rewrite existsb_app. apply orb_true_iff. right. simpl.
    by rewrite existsb_strip, (existsb_join [LF] lines Htext). }
  rewrite Hparts. cbn [negb]. by rewrite apply_newline_mode_invalid.
Qed.

Lemma emit_segments_invalid
  (sanitize_title : list ascii -> list ascii -> list ascii)
  (c : config) (break_string : list ascii) (rules : list rule) :
  valid_mode c = false ->
  forall segs,
    emit_segments sanitize_title c break_string rules [] segs = Ok [] \/
    emit_segments sanitize_title c break_string rules [] segs =
    Raise (ValueError (lit "Invalid newline mode: " ++ newline_mode c)).
Proof.
  intros Hmode segs. induction segs as [|[heading lines] segs IH]; simpl.
  - by left.
  - destruct (build_chapter_text_invalid c break_string rules lines heading
                Hmode) as [-> | ->]; [exact IH|by right].
Qed.

(** Under a newline mode other than [single], [double] and [none], a
    document whose body has any text makes [get_chapters] raise
    [ValueError] with the mode in the message: no chapter is returned. *)
Theorem invalid_newline_mode_is_reported :
  forall (sanitize_title : list ascii -> list ascii -> list ascii)
         (p : parser) (break_string : list ascii) (rules : list rule),
    valid_mode (cfg p) = false ->
    has_text (body_lines p) = true ->
    get_chapters sanitize_title p break_string rules =
    Raise (ValueError (lit "Invalid newline mode: " ++ newline_mode (cfg p))).
Proof.
  intros sanitize_title p break_string rules Hmode Htext.
  unfold get_chapters. rewrite scan_chapters_segments.
  destruct (emit_segments_invalid sanitize_title (cfg p) break_string rules
              Hmode (segments None [] (body_lines p))) as [-> | ->];
    [|done].
  cbn [rbind]. unfold whole_book.
  assert (Hlines : nonempty (body_lines p) = true)
    by (by destruct (body_lines p)).
  rewrite Hlines. cbn [nonempty negb andb].
  by rewrite build_chapter_text_invalid_text.
Qed.

(** At a one-line document under the mode [paragraph]. *)
Lemma invalid_newline_mode_is_reported_witness :
  get_chapters (fun t _ => t) (init paragraph_config (lit "Hello."))
    (lit " @BRK#") [] =
  Raise (ValueError (lit "Invalid newline mode: paragraph")).
Proof.
  apply (invalid_newline_mode_is_reported (fun t _ => t)
           (init paragraph_config (lit "Hello.")) (lit " @BRK#") []);
    reflexivity.
Defined.

(** *** How many chapters *)

Lemma segments_length (body : list (list ascii)) :
  forall heading lines,
    length (segments heading lines body) = S (length (chapter_headings body)).
Proof.
  unfold chapter_headings.
  induction body as [|l body IH]; intros heading lines; [done|].
  simpl. unfold opens_chapter at 1.
  destruct (heading_of l) as [[level heading_text]|]; [|apply IH].
  destruct (level <=? 2); simpl; by rewrite IH.
Qed.

Lemma emit_segments_length
  (sanitize_title : list ascii -> list ascii -> list ascii)
  (c : config) (break_string : list ascii) (rules : list rule) :
  forall segs emitted chs,
    emit_segments sanitize_title c break_string rules emitted segs = Ok chs ->
    length chs <= length emitted + length segs.
Proof.
  intros segs.
  induction segs as [|[heading lines] segs IH]; intros emitted chs; simpl.
  - intros [= <-]. lia.
  - destruct (_build_chapter_text c lines break_string rules heading)
      as [t|e]; [|done].
    simpl. intros H. apply IH in H.
    destruct (nonempty t); [rewrite length_app in H; simpl in H|]; lia.
Qed.

(** [get_chapters] returns at most one chapter more than the body has
    headings of level one or two: a deeper heading never opens a chapter,
    and a body without such headings gives one chapter at most. *)
Theorem chapters_bounded_by_headings :
  forall (sanitize_title : list ascii -> list ascii -> list ascii)
         (p : parser) (break_string : list ascii) (rules : list rule)
         (chs : list (list ascii * list ascii)),
    get_chapters sanitize_title p break_string rules = Ok chs ->
    length chs <= S (length (chapter_headings (body_lines p))).
Proof.
  intros sanitize_title p break_string rules chs.
  unfold get_chapters. rewrite scan_chapters_segments.
  destruct (emit_segments _ _ _ _ _ _) as [chs0|e] eqn:Hemit; [|done].
  apply emit_segments_length in Hemit. rewrite segments_length in Hemit.
  cbn [rbind]. unfold whole_book.
  destruct chs0 as [|ch chs0]; cbn [nonempty negb andb].
  - destruct (nonempty (body_lines p)); [|intros [= <-]; simpl; lia].
    destruct (_build_chapter_text _ _ _ _ _) as [t|e]; [|done].
    cbn [rbind]. destruct (nonempty t); intros [= <-]; simpl; lia.
  - intros [= <-]. exact Hemit.
Qed.

(** At the example document: two headings, two chapters. *)
Lemma chapters_bounded_by_headings_witness :
  length [(lit "Prologue", lit "Prologue @BRK# Hello.");
          (lit "One", lit "One @BRK# World bold.")] <= 3.
Proof.
  apply (chapters_bounded_by_headings (fun t _ => t)
           (init example_config example_doc) (lit " @BRK#") []).
  vm_compute. reflexivity.
Defined.

(** *** The title from the file name *)

Lemma basename_go_plain (name : list ascii) :
  forallb (fun c => negb (eqc c "/")) name = true ->
  forall cur, basename_go cur name = rev cur ++ name.
Proof.
  induction name as [|c name IH]; intros H cur; simpl.
  - by rewrite app_nil_r.
  - simpl in H. apply andb_true_iff in H as [Hc H].
    apply negb_true_iff in Hc. rewrite Hc, (IH H). simpl.
    by rewrite <- app_assoc.
Qed.

Lemma basename_go_dir (dir name : list ascii) :
  forall cur, basename_go cur (dir ++ "/"%char :: name) = basename_go [] name.
Proof.
  induction dir as [|c dir IH]; intros cur; simpl; [done|].
  destruct (eqc c "/"); apply IH.
Qed.

Lemma rfind_dot_app (a b : list ascii) :
  forall i found,
    rfind_dot i (a ++ b) found =
    rfind_dot (i + length a) b (rfind_dot i a found).
Proof.
  induction a as [|c a IH]; intros i found; simpl.
  - by rewrite Nat.add_0_r.
  - rewrite IH. f_equal. lia.
Qed.

Lemma rfind_dot_plain (s : list ascii) :
  forallb (fun c => negb (eqc c ".")) s = true ->
  forall i found, rfind_dot i s found = found.
Proof.
  induction s as [|c s IH]; intros H i found; [done|].
  simpl in H. apply andb_true_iff in H as [Hc H].
  apply negb_true_iff in Hc. simpl. rewrite Hc. by apply IH.
Qed.

Lemma splitext_root_stem (stem ext : list ascii) :
  forallb (fun c => negb (eqc c ".")) ext = true ->
  existsb (fun c => negb (eqc c ".")) stem = true ->
  splitext_root (stem ++ "."%char :: ext) = stem.
Proof.
  intros Hext Hstem. unfold splitext_root.
  rewrite rfind_dot_app. simpl rfind_dot at 1.
  rewrite (rfind_dot_plain ext Hext). simpl.
  rewrite take_app_length.
  assert (forallb (fun c => eqc c ".") stem = false) as ->; [|done].
  clear -Hstem. induction stem as [|c stem IH]; [done|].
  simpl in *. destruct (eqc c "."); [by apply IH|done].
Qed.

(** Without a [title] entry in the front matter and without a heading of
    level one, the title of the book is the stem of the input file's name:
    the text after the last slash and before the last dot. *)
Theorem book_title_falls_back_to_file_stem :
  forall (p : parser) (dir stem ext : list ascii),
    file_name stem ext = true ->
    input_file (cfg p) = stem ++ lit "." ++ ext \/
    input_file (cfg p) = dir ++ lit "/" ++ stem ++ lit "." ++ ext ->
    metadata p !! lit "title" = None ->
    first_h1 (body_lines p) = None ->
    get_book_title p = stem.
Proof.
  intros p dir stem ext Hname Hfile Hmeta Hh1.
  unfold file_name in Hname.
  apply andb_true_iff in Hname as [[Hslash Hext]%andb_true_iff Hstem].
  unfold get_book_title. rewrite Hmeta, Hh1.
  assert (Hbase : basename (input_file (cfg p)) = stem ++ lit "." ++ ext).
  { unfold basename. destruct Hfile as [-> | ->].
    - by rewrite basename_go_plain.
    - change (dir ++ lit "/" ++ stem ++ lit "." ++ ext)
        with (dir ++ "/"%char :: (stem ++ lit "." ++ ext)).
      rewrite basename_go_dir. by rewrite basename_go_plain. }
  rewrite Hbase. by apply splitext_root_stem.
Qed.

(** At the document [Hello.] in the file [books/a.b.md]: the title is
    [a.b]. *)
Lemma book_title_falls_back_to_file_stem_witness :
  get_book_title
    (init (Config (lit "books/a.b.md") (lit "double") false false)
       (lit "Hello.")) = lit "a.b".
Proof.
  apply (book_title_falls_back_to_file_stem _ (lit "books") (lit "a.b")
           (lit "md")); [reflexivity|by right|reflexivity|reflexivity].
Defined.

(** *** The search-and-replace file *)

Lemma split_go_skip (sep s : list ascii) :
  forall cur k, split_go sep cur k s = split_go sep cur 0 (drop k s).
Proof.
  induction s as [|c s IH]; intros cur [|k]; simpl; auto.
Qed.

Lemma split_go_cons (sep cur : list ascii) (x : ascii) (s : list ascii) :
  split_go sep cur 0 (x :: s) =
  if startswith sep (x :: s)
  then rev cur :: split_go sep [] 0 (drop (Nat.pred (length sep)) s)
  else split_go sep (x :: cur) 0 s.
Proof.
  change (split_go sep cur 0 (x :: s)) with
    (if startswith sep (x :: s)
     then rev cur :: split_go sep [] (Nat.pred (length sep)) s
     else split_go sep (x :: cur) 0 s).
  by rewrite <- split_go_skip.
Qed.

(** Without the separator the text is one piece. *)
Lemma split_go_none (sep s : list ascii) :
  contains sep s = false ->
  forall cur, split_go sep cur 0 s = [rev cur ++ s].
Proof.
  induction s as [|c s IH]; intros H cur.
  - simpl. by rewrite app_nil_r.
  - change (contains sep (c :: s))
      with (startswith sep (c :: s) || contains sep s) in H.
    apply orb_false_iff in H as [H1 H2].
    rewrite split_go_cons, H1, (IH H2). simpl. by rewrite <- app_assoc.
Qed.

(** No occurrence of [sep] begins in [a] when none lies in [a] followed by
    all of [sep] but its last character. *)
Lemma startswith_before (sep a b : list ascii) (x : ascii) :
  sep <> [] ->
  startswith sep (x :: a ++ removelast sep) = false ->
  startswith sep (x :: a ++ sep ++ b) = false.
Proof.
  intros Hsep H. rewrite <- H.
  assert (Hsplit : sep = removelast sep ++ [List.last sep x])
    by (by apply app_removelast_last).
  assert (Hlen : length sep = S (length (removelast sep))).
  { rewrite Hsplit at 1. rewrite length_app. simpl. lia. }
  rewrite Hsplit at 2.
  replace (x :: a ++ (removelast sep ++ [List.last sep x]) ++ b)
    with ((x :: a ++ removelast sep) ++ [List.last sep x] ++ b)
    by (simpl; by rewrite <- !app_assoc).
  apply startswith_long. simpl. rewrite length_app. lia.
Qed.

(** The first piece ends where the separator first occurs. *)
Lemma split_go_first (sep a b : list ascii) :
  sep <> [] ->
  contains sep (a ++ removelast sep) = false ->
  forall cur,
    split_go sep cur 0 (a ++ sep ++ b) = (rev cur ++ a) :: split_go sep [] 0 b.
Proof.
  intros Hsep. induction a as [|x a IH]; intros H cur.
  - destruct sep as [|o sep']; [done|].
    change ([] ++ (o :: sep') ++ b) with (o :: (sep' ++ b)).
    rewrite split_go_cons.
    change (o :: sep' ++ b) with ((o :: sep') ++ b).
    rewrite startswith_app. simpl. by rewrite drop_app_length, app_nil_r.
  - change (contains sep ((x :: a) ++ removelast sep))
      with (startswith sep (x :: a ++ removelast sep)
            || contains sep (a ++ removelast sep)) in H.
    apply orb_false_iff in H as [H1 H2].
    change ((x :: a) ++ sep ++ b) with (x :: (a ++ sep ++ b)).
    rewrite split_go_cons, (startswith_before sep a b x Hsep H1), (IH H2).
    simpl. by rewrite <- app_assoc.
Qed.

Lemma endswith_contains (p s : list ascii) :
  endswith p s = true -> contains p s = true.
Proof.
  unfold endswith. intros [t Ht]%startswith_true.
  apply contains_true. exists (rev t), [].
  rewrite app_nil_r, <- (rev_involutive s), Ht, rev_app_distr.
  by rewrite rev_involutive.
Qed.

Lemma endswith_long (p u v : list ascii) :
  length p <= length v -> endswith p (u ++ v) = endswith p v.
Proof.
  intros H. unfold endswith. rewrite rev_app_distr.
  apply startswith_long. by rewrite !length_rev.
Qed.

Lemma replacement_entries_app (a b : list (list ascii)) :
  replacement_entries (a ++ b) =
  replacement_entries a ++ replacement_entries b.
Proof.
  induction a as [|l a IH]; [done|]. simpl.
  destruct (is_replacement_line l); by rewrite IH.
Qed.

(** A line [search==replace] followed by one more character (the line
    feed, or whatever ends the last line) gives the entry of [search] and
    [replace]. *)
Lemma replacement_line_entry (search replace : list ascii) (c : ascii) :
  nonempty search = true ->
  startswith (lit "#") search = false ->
  contains (lit "==") (search ++ lit "=") = false ->
  contains (lit "==") (lit "=" ++ replace ++ [c]) = false ->
  replacement_entries [search ++ lit "==" ++ replace ++ [c]] =
  [(search, replace)].
Proof.
  intros Hne Hhash Hsearch Hreplace.
  set (line := search ++ lit "==" ++ replace ++ [c]).
  assert (Hin : contains (lit "==") line = true).
  { apply contains_true. by exists search, (replace ++ [c]). }
  assert (Hstart : startswith (lit "==") line = false).
  { destruct search as [|x search]; [done|].
    change (contains (lit "==") ((x :: search) ++ lit "="))
      with (startswith (lit "==") (x :: search ++ lit "=")
            || contains (lit "==") (search ++ lit "=")) in Hsearch.
    apply orb_false_iff in Hsearch as [Hs _].
    by apply (startswith_before (lit "==") search (replace ++ [c]) x). }
  assert (Hend : endswith (lit "==") line = false).
  { unfold line.
    change (search ++ lit "==" ++ replace ++ [c])
      with (search ++ lit "=" ++ (lit "=" ++ replace ++ [c])).
    rewrite app_assoc, endswith_long.
    - destruct (endswith (lit "==") (lit "=" ++ replace ++ [c])) eqn:He;
        [|done].
      apply endswith_contains in He. by rewrite He in Hreplace.
    - simpl. rewrite length_app. simpl. lia. }
  assert (Hcomment : startswith (lit "#") line = false).
  { unfold line. rewrite startswith_long; [exact Hhash|].
    destruct search; [done|]. simpl. lia. }
  assert (Hsplit : split (lit "==") line = [search; replace ++ [c]]).
  { unfold split, line.
    rewrite (split_go_first (lit "==") search (replace ++ [c]))
      by done.
    rewrite split_go_none; [done|].
    by apply (contains_false_app_r _ (lit "=")). }
  cbn [replacement_entries]. unfold is_replacement_line.
  fold line. rewrite Hin, Hstart, Hend, Hcomment, Hsplit.
  cbn [negb andb nth]. by rewrite removelast_last.
Qed.

(** [get_search_and_replaces] reads its file line by line. A line
    [search==replace] with its line feed gives the pair of [search] and
    [replace], in the order of the file; the character that ends the line
    is dropped whatever it is, so a last line without a line feed loses the
    last character of its replacement. A line that begins with [#] or with
    [==], that ends with [==] or that has no [==] gives nothing. Without a
    file there are no rules. *)
Theorem search_and_replace_entries :
  get_search_and_replaces None = [] /\
  (forall search replace c before after,
      nonempty search = true ->
      startswith (lit "#") search = false ->
      contains (lit "==") (search ++ lit "=") = false ->
      contains (lit "==") (lit "=" ++ replace ++ [c]) = false ->
      get_search_and_replaces
        (Some (before ++ [search ++ lit "==" ++ replace ++ [c]] ++ after)) =
      get_search_and_replaces (Some before) ++ [(search, replace)] ++
      get_search_and_replaces (Some after)) /\
  (forall line before after,
      startswith (lit "#") line = true \/ startswith (lit "==") line = true \/
      endswith (lit "==") line = true \/ contains (lit "==") line = false ->
      get_search_and_replaces (Some (before ++ [line] ++ after)) =
      get_search_and_replaces (Some before) ++
      get_search_and_replaces (Some after)).
Proof.
  split; [done|]. split.
  - intros search replace c before after Hne Hhash Hsearch Hreplace.
    unfold get_search_and_replaces.
    rewrite !replacement_entries_app. by rewrite replacement_line_entry.
  - intros line before after H. unfold get_search_and_replaces.
    rewrite !replacement_entries_app. f_equal.
    cbn [replacement_entries]. unfold is_replacement_line.
    destruct H as [-> | [-> | [-> | ->]]];
      rewrite ?andb_false_r; cbn [negb andb]; rewrite ?andb_false_r; done.
Qed.

(** At a file of a comment and two rules, the second without a line feed:
    its replacement [colour] comes out as [colou]. *)
Lemma search_and_replace_entries_witness :
  get_search_and_replaces
    (Some [lit "# spelling" ++ [LF]; lit "Mr\.==Mister" ++ [LF];
           lit "color==colour"]) =
  [(lit "Mr\.", lit "Mister"); (lit "color", lit "colou")].
Proof.
  pose proof (proj1 (proj2 search_and_replace_entries) (lit "color")
                (lit "colou") "r"%char
                [lit "# spelling" ++ [LF]; lit "Mr\.==Mister" ++ [LF]] []
                eq_refl eq_refl eq_refl eq_refl) as H.
  exact H.
Defined.

(** *** Heading lines *)

Lemma space_not_hash (c : ascii) :
  is_space c = true -> in_set [CChar "#"] c = false.
Proof.
  intros H. unfold in_set. simpl. rewrite orb_false_r.
  apply eqc_false. intros ->. by vm_compute in H.
Qed.

Lemma hashes_run (k : nat) : forallb (in_set [CChar "#"]) (repeat "#"%char k) = true.
Proof. induction k as [|k IH]; [done|]. simpl. by rewrite IH. Qed.

Lemma lstrip_run (r t : list ascii) :
  forallb (in_set [CSpace]) r = true -> head_in [CSpace] t = false ->
  lstrip (r ++ t) = t.
Proof.
  intros Hr Ht. induction r as [|c r IH].
  - by apply lstrip_id.
  - simpl in Hr. apply andb_true_iff in Hr as [Hc Hr].
    rewrite in_set_space in Hc. simpl. rewrite Hc. by apply IH.
Qed.

(** The match of [HEADING_PATTERN] on an indented line of [k] hash signs, a
    run [ws] of white space and a text [t] that begins with none. *)
Lemma heading_match (indent ws t : list ascii) (k : nat) :
  forallb (in_set [CSpace]) indent = true ->
  1 <= k <= 6 ->
  forallb (in_set [CSpace]) ws = true -> ws <> [] ->
  head_in [CSpace] t = false ->
  forallb (fun c => negb (eqc c LF)) t = true ->
  exists mt,
    rmatch HEADING_PATTERN (indent ++ repeat "#"%char k ++ ws ++ t) = Some mt /\
    group 1 mt = repeat "#"%char k /\ group 2 mt = t.
Proof.
  intros Hindent Hk Hws Hne Ht Hlf.
  unfold rmatch, HEADING_PATTERN, hashes, star, plus, space.
  cbn [seqs run prev rest].
  set (p1 := match last indent with Some d => Some d | None => None end).
  set (p2 := match last (repeat "#"%char k) with
             | Some d => Some d | None => p1 end).
  set (p3 := match last ws with Some d => Some d | None => p2 end).
  set (p4 := match last t with Some d => Some d | None => p3 end).
  set (final := MState p4 [] [(2, t); (1, repeat "#"%char k)]).
  exists final. split; [|done].
  apply (rep_greedy_full (in_set [CSpace]) _ 0 None _ _ [] final
           (fun _ _ => eq_refl)).
  { destruct k as [|k]; [lia|]. done. }
  { done. }
  { rewrite length_app. lia. }
  { done. }
  { lia. }
  fold p1. cbn [run prev rest caps].
  apply (rep_greedy_full (in_set [CChar "#"]) _ 1 (Some 6) _ _ [] final
           (fun _ _ => eq_refl)).
  { destruct ws as [|c ws]; [done|]. simpl in Hws.
    apply andb_true_iff in Hws as [Hc _]. rewrite in_set_space in Hc.
    simpl. by apply space_not_hash. }
  { apply hashes_run. }
  { rewrite length_app. lia. }
  { intros j Hj. rewrite repeat_length in Hj. simpl. apply Nat.ltb_lt. lia. }
  { rewrite repeat_length. lia. }
  fold p2. cbn [prev rest caps]. rewrite consumed_app.
  cbn [run rest].
  apply (rep_greedy_full (in_set [CSpace]) _ 1 None _ _ _ final
           (fun _ _ => eq_refl)).
  { done. }
  { done. }
  { rewrite length_app. lia. }
  { done. }
  { destruct ws; [done|]. simpl. lia. }
  fold p3. cbn [run prev rest caps].
  apply (rep_greedy_all (fun c => false || negb (eqc c LF)) _ 0 _ _ final).
  { done. }
  { done. }
  { lia. }
  fold p4. cbn [prev rest caps].
  pose proof (consumed_app t [] p3 p4 [(1, repeat "#"%char k)]
                [(1, repeat "#"%char k)]) as Hc.
  rewrite app_nil_r in Hc. by rewrite Hc.
Qed.

(** Which lines are headings. A line of optional white space, one to six
    hash signs, white space and a text is a heading of that level whose
    text is the stripped text; a line without a hash sign, or without any
    white space, is no heading. *)
Theorem heading_lines :
  (forall (indent title : list ascii) (k : nat) (sp : ascii),
      forallb is_space indent = true ->
      1 <= k <= 6 ->
      is_space sp = true ->
      forallb (fun c => negb (eqc c LF)) title = true ->
      heading_of (indent ++ repeat "#"%char k ++ sp :: title) =
      Some (k, strip title)) /\
  (forall line : list ascii,
      forallb (fun c => negb (eqc c "#")) line = true \/
      forallb (fun c => negb (is_space c)) line = true ->
      heading_of line = None).
Proof.
  split.
  - intros indent title k sp Hindent Hk Hsp Hlf.
    destruct (split_set_run [CSpace] title) as (r & t & -> & Hr & Ht).
    rewrite forallb_app in Hlf. apply andb_true_iff in Hlf as [_ Hlf].
    assert (Hin : forallb (in_set [CSpace]) indent = true).
    { rewrite <- Hindent. clear. induction indent as [|c l IH]; [done|].
      simpl. by rewrite in_set_space, IH. }
    destruct (heading_match indent (sp :: r) t k Hin Hk) as (mt & Hm & H1 & H2);
      try done.
    { simpl. by rewrite in_set_space, Hsp. }
    unfold heading_of.
    change (indent ++ repeat "#"%char k ++ sp :: r ++ t)
      with (indent ++ repeat "#"%char k ++ (sp :: r) ++ t).
    rewrite Hm, H1, H2, repeat_length. do 2 f_equal.
    unfold strip. by rewrite (lstrip_run r t Hr Ht), (lstrip_id t Ht).
  - intros line H. unfold heading_of, rmatch.
    destruct H as [H|H].
    + rewrite (run_needs (fun c => eqc c "#") HEADING_PATTERN); [done| |done].
      vm_compute. reflexivity.
    + rewrite (run_needs is_space HEADING_PATTERN); [done| |done].
      vm_compute. reflexivity.
Qed.

(** At the line [## One]: a heading of level two with the text [One]. *)
Lemma heading_lines_witness :
  heading_of (lit "## One") = Some (2, lit "One").
Proof.
  apply (proj1 heading_lines [] (lit "One") 2 " "%char); try reflexivity.
  lia.
Defined.

End ParserFacts.

(** * What [_strip_markdown] removes *)

Module MarkupFacts.

Import Re Markdown Spec Notions Examples MoreExamples PyStrFacts NewlineFacts
  EngineFacts ParserFacts.

Local Arguments in_set : simpl never.
Local Arguments rep_loop : simpl never.

(** *** Substitution, position by position *)

(** Where the pattern matches nowhere, the text stays. *)
Lemma sub_go_misses (r : re) (tpl : list titem) :
  forall s p,
    (forall a x b p', s = a ++ x :: b -> attempt r false p' (x :: b) = None) ->
    (forall p', attempt r false p' [] = None) ->
    sub_go r tpl p 0 s = s.
Proof.
  induction s as [|c s IH]; intros p Hmiss Hnil.
  - by apply sub_go_nil.
  - rewrite sub_go_miss by (by apply (Hmiss [] c s)).
    f_equal. apply IH; [|done].
    intros a x b p' ->. by apply (Hmiss (c :: a) x b).
Qed.

(** A text [a] in which no match begins, then a match of exactly [m]: [a]
    is copied, [m] is replaced, and the substitution goes on behind. *)
Lemma sub_go_at (r : re) (tpl : list titem) (m c e : list ascii) :
  m <> [] ->
  (forall p', exists st',
      attempt r false p' (m ++ c) = Some st' /\ rest st' = c /\
      expand tpl st' = e) ->
  forall a p,
    (forall a1 x a2 p',
        a = a1 ++ x :: a2 -> attempt r false p' (x :: a2 ++ m ++ c) = None) ->
    exists p'', sub_go r tpl p 0 (a ++ m ++ c) = a ++ e ++ sub_go r tpl p'' 0 c.
Proof.
  intros Hm Hhit a. induction a as [|x a IH]; intros p Hmiss.
  - destruct (Hhit p) as (st' & Hatt & Hrest & Hexp).
    destruct m as [|y m]; [done|].
    destruct (sub_go_skip r tpl m c (Some y)) as [p'' Hskip].
    exists p''. simpl app in *.
    rewrite (sub_go_hit _ _ _ _ _ _ (length m) Hatt).
    + by rewrite Hexp, Hskip.
    + unfold consumed. cbn [rest]. rewrite Hrest. simpl length.
      rewrite length_app.
      replace (S (length m + length c) - length c) with (S (length m)) by lia.
      change (y :: m ++ c) with ((y :: m) ++ c).
      by rewrite take_app_length'.
  - destruct (IH (Some x)) as [p'' Hrec].
    { intros a1 y a2 p' ->. by apply (Hmiss (x :: a1) y a2). }
    exists p''. simpl app.
    rewrite sub_go_miss by (by apply (Hmiss [] x a)).
    by rewrite Hrec.
Qed.

(** A text [a] in which no match begins is copied. *)
Lemma sub_go_copy (r : re) (tpl : list titem) (s : list ascii) :
  forall a p,
    (forall a1 x a2 p',
        a = a1 ++ x :: a2 -> attempt r false p' (x :: a2 ++ s) = None) ->
    exists p'', sub_go r tpl p 0 (a ++ s) = a ++ sub_go r tpl p'' 0 s.
Proof.
  induction a as [|x a IH]; intros p Hmiss; [by exists p|].
  destruct (IH (Some x)) as [p'' Hrec].
  { intros a1 y a2 p' ->. by apply (Hmiss (x :: a1) y a2). }
  exists p''. simpl app.
  rewrite sub_go_miss by (by apply (Hmiss [] x a)).
  by rewrite Hrec.
Qed.

(** *** Literals, back-references and lazy repetitions *)

Lemma forallb_eq {A : Type} (f g : A -> bool) (l : list A) :
  (forall x, f x = g x) -> forallb f l = forallb g l.
Proof.
  intros H. induction l as [|x l IH]; [done|]. simpl. by rewrite H, IH.
Qed.

Lemma in_set_char (d x : ascii) : in_set [CChar d] x = eqc x d.
Proof. unfold in_set. simpl. apply orb_false_r. Qed.

Lemma eqc_sym (a b : ascii) : eqc a b = eqc b a.
Proof.
  destruct (eqc a b) eqn:H.
  - apply eqc_true in H as ->. by rewrite eqc_refl.
  - symmetry. apply eqc_false. apply eqc_false in H. congruence.
Qed.

Lemma after_cons (c : ascii) (w : list ascii) (p : option ascii) :
  after p (c :: w) = after (Some c) w.
Proof. apply last_cons_or. Qed.

(** A literal matches where the text begins with it. *)
Lemma run_literal (w t : list ascii) (cs : list (nat * list ascii))
  (k : mstate -> option mstate) :
  forall p,
    run (seqs (map chr w)) k (MState p (w ++ t) cs) =
    k (MState (after p w) t cs).
Proof.
  induction w as [|x w IH]; intros p; [done|].
  rewrite after_cons. destruct w as [|y w].
  - simpl. unfold one_char. cbn [rest].
    by rewrite in_set_char, eqc_refl.
  - change (seqs (map chr (x :: y :: w)))
      with (Seq (chr x) (seqs (map chr (y :: w)))).
    cbn [run chr]. unfold one_char at 1. cbn [rest app].
    rewrite in_set_char, eqc_refl. apply IH.
Qed.

Lemma run_literal_miss (w s : list ascii) (cs : list (nat * list ascii))
  (k : mstate -> option mstate) :
  w <> [] ->
  forall p,
    startswith w s = false ->
    run (seqs (map chr w)) k (MState p s cs) = None.
Proof.
  revert s. induction w as [|x w IH]; intros s Hw p Hs; [done|].
  destruct w as [|y w].
  - simpl. unfold one_char. cbn [rest]. destruct s as [|c s]; [done|].
    rewrite in_set_char, eqc_sym. simpl in Hs.
    by rewrite andb_true_r in Hs; rewrite Hs.
  - change (seqs (map chr (x :: y :: w)))
      with (Seq (chr x) (seqs (map chr (y :: w)))).
    cbn [run chr]. unfold one_char at 1. cbn [rest].
    destruct s as [|c s]; [done|].
    rewrite in_set_char, eqc_sym.
    change (startswith (x :: y :: w) (c :: s))
      with (eqc x c && startswith (y :: w) s) in Hs.
    destruct (eqc x c); [|done]. simpl in Hs.
    by apply IH.
Qed.

Lemma startswith_cons (x y : ascii) (w s : list ascii) :
  startswith (x :: w) (y :: s) = eqc x y && startswith w s.
Proof. done. Qed.

Lemma startswith_miss (x y : ascii) (w s : list ascii) :
  eqc y x = false -> startswith (x :: w) (y :: s) = false.
Proof. intros H. cbn [startswith]. by rewrite eqc_sym, H. Qed.

Lemma eat_app (v t : list ascii) (cs : list (nat * list ascii)) :
  forall p, eat v (MState p (v ++ t) cs) = Some (MState (after p v) t cs).
Proof.
  induction v as [|x v IH]; intros p; [done|].
  rewrite after_cons. simpl. rewrite eqc_refl. apply IH.
Qed.

Lemma eat_miss (v s : list ascii) (st : mstate) :
  v <> [] -> rest st = s -> startswith v s = false -> eat v st = None.
Proof.
  revert s st. induction v as [|x v IH]; intros s st Hv Hs Hmiss; [done|].
  simpl. rewrite Hs. destruct s as [|c s]; [done|].
  simpl in Hmiss. destruct (eqc x c); [|done]. simpl in Hmiss.
  destruct v as [|y v]; [done|]. by apply (IH s).
Qed.

(** A lazy repetition of single characters stops at the first position
    where the pattern behind it matches. *)
Lemma rep_lazy_first (P : ascii -> bool)
  (body : (mstate -> option mstate) -> mstate -> option mstate)
  (k : mstate -> option mstate) (t : list ascii)
  (cs : list (nat * list ascii)) (x : mstate) :
  (forall k0 st, body k0 st = one_char P k0 st) ->
  forall r fuel i p,
    forallb P r = true ->
    length r <= fuel ->
    (forall a1 y a2 p', r = a1 ++ y :: a2 ->
                        k (MState p' (y :: a2 ++ t) cs) = None) ->
    k (MState (after p r) t cs) = Some x ->
    rep_loop false body 0 None k fuel i (MState p (r ++ t) cs) = Some x.
Proof.
  intros Hbody. induction r as [|c r IH]; intros fuel i p Hr Hfuel Hmiss Hk.
  - simpl app. change (after p []) with p in Hk. destruct fuel as [|fuel].
    + change (rep_loop false body 0 None k 0 i (MState p t cs))
        with (orelse (k (MState p t cs)) None).
      by rewrite Hk.
    + change (rep_loop false body 0 None k (S fuel) i (MState p t cs))
        with (orelse (k (MState p t cs))
                (body (rep_loop false body 0 None k fuel (S i))
                   (MState p t cs))).
      by rewrite Hk.
  - destruct fuel as [|fuel]; [simpl in Hfuel; lia|].
    simpl in Hr. apply andb_true_iff in Hr as [Hc Hr].
    rewrite after_cons in Hk.
    change ((c :: r) ++ t) with (c :: (r ++ t)).
    change (rep_loop false body 0 None k (S fuel) i (MState p (c :: r ++ t) cs))
      with (orelse (k (MState p (c :: r ++ t) cs))
              (body (rep_loop false body 0 None k fuel (S i))
                 (MState p (c :: r ++ t) cs))).
    rewrite (Hmiss [] c r p eq_refl), Hbody. simpl orelse.
    unfold one_char. cbn [rest]. rewrite Hc. unfold advance. cbn [caps].
    apply IH; [done|simpl in Hfuel; lia| |done].
    intros a1 y a2 p' ->. by apply (Hmiss (c :: a1) y a2).
Qed.

(** *** Fenced code *)

Lemma markup_chars (x : ascii) :
  markup x = false ->
  eqc x "`" = false /\ eqc x "[" = false /\ eqc x "*" = false /\
  eqc x "_" = false /\ eqc x ">" = false /\ eqc x "-" = false /\
  eqc x "+" = false /\ eqc x "#" = false /\ is_digit x = false.
Proof.
  unfold markup, in_set. simpl. rewrite orb_false_r.
  intros H. repeat (apply orb_false_iff in H as [? H]). done.
Qed.

Lemma plain_text_elem (a1 a2 : list ascii) (x : ascii) :
  plain_text (a1 ++ x :: a2) = true -> markup x = false.
Proof.
  unfold plain_text. rewrite forallb_app. simpl.
  intros [_ [H _]%andb_true_iff]%andb_true_iff. by apply negb_true_iff.
Qed.

Lemma plain_text_app (a b : list ascii) :
  plain_text a = true -> plain_text b = true -> plain_text (a ++ b) = true.
Proof. unfold plain_text. rewrite forallb_app. by intros -> ->. Qed.

Lemma free_elem (d : ascii) (a1 a2 : list ascii) (x : ascii) :
  forallb (fun c => negb (eqc c d)) (a1 ++ x :: a2) = true -> eqc x d = false.
Proof.
  rewrite forallb_app. simpl.
  intros [_ [H _]%andb_true_iff]%andb_true_iff. by apply negb_true_iff.
Qed.

Lemma strip_code_blocks_fence (a b c : list ascii) :
  plain_text a = true -> plain_text c = true ->
  forallb (fun x => negb (eqc x "`")) b = true ->
  strip_code_blocks (a ++ lit "```" ++ b ++ lit "```" ++ c) = a ++ c.
Proof.
  intros Ha Hc Hb. unfold strip_code_blocks, sub.
  change (seqs [text "```"; lazy_star (Dot true); text "```"])
    with (Seq (seqs (map chr (lit "```")))
            (Seq (lazy_star (Dot true)) (seqs (map chr (lit "```"))))).
  match goal with |- sub_go ?r0 _ _ _ _ = _ => set (r := r0) end.
  replace (a ++ lit "```" ++ b ++ lit "```" ++ c)
    with (a ++ (lit "```" ++ b ++ lit "```") ++ c)
    by (by rewrite <- !app_assoc).
  destruct (sub_go_at r [] (lit "```" ++ b ++ lit "```") c [] ltac:(done))
    with (a := a) (p := @None ascii) as [p'' Hsub].
  - intros p'. eexists. split; [|split].
    { unfold attempt, r. cbn [run lazy_star andb].
      rewrite <- !app_assoc, run_literal. cbn [rest].
      apply (rep_lazy_first (fun x => true || negb (eqc x LF)) _ _ _ _ _
               (fun _ _ => eq_refl)).
      - by apply forallb_forall.
      - rewrite length_app. lia.
      - intros a1 y a2 p0 ->. apply run_literal_miss; [done|].
        apply free_elem in Hb. by apply (startswith_miss "`"%char).
      - by rewrite run_literal. }
    { reflexivity. }
    { reflexivity. }
  - intros a1 x a2 p' ->. unfold attempt, r. cbn [run].
    apply run_literal_miss; [done|].
    apply plain_text_elem, markup_chars in Ha as (Hx & _).
    by apply (startswith_miss "`"%char).
  - rewrite Hsub. f_equal. simpl app. apply (sub_needs markup); [|done].
    vm_compute. reflexivity.
Qed.

(** A fenced code block is removed with everything in it: markup, line
    breaks and all. *)
Theorem fenced_code_is_removed (a b c : list ascii) :
  plain_text a = true -> plain_text c = true ->
  forallb (fun x => negb (eqc x "`")) b = true ->
  _strip_markdown (a ++ lit "```" ++ b ++ lit "```" ++ c) = a ++ c.
Proof.
  intros Ha Hc Hb.
  destruct (plain_passes (a ++ c) (plain_text_app a c Ha Hc))
    as (_ & H2 & H3 & H4 & H5 & H6 & H7 & H8 & H9 & H10).
  unfold _strip_markdown. cbv zeta.
  rewrite strip_code_blocks_fence by done.
  by rewrite H2, H3, H4, H5, H6, H7, H8, H9, H10.
Qed.

(** At a block of two lines of code between two lines of prose. *)
Lemma fenced_code_is_removed_witness :
  _strip_markdown
    (lit "Run it." ++ [LF] ++ lit "```" ++
     (lit "x = a[0] * 2" ++ [LF] ++ lit "print(x)" ++ [LF]) ++ lit "```" ++
     [LF] ++ lit "Done.") =
  (lit "Run it." ++ [LF]) ++ [LF] ++ lit "Done.".
Proof.
  apply (fenced_code_is_removed (lit "Run it." ++ [LF])
           (lit "x = a[0] * 2" ++ [LF] ++ lit "print(x)" ++ [LF])
           ([LF] ++ lit "Done.")); reflexivity.
Defined.

(** *** Inline code *)

Lemma startswith_free (d : ascii) (w s : list ascii) :
  forallb (fun x => negb (eqc x d)) s = true -> startswith (d :: w) s = false.
Proof.
  destruct s as [|y s]; [done|]. simpl.
  intros [Hy _]%andb_true_iff. apply negb_true_iff in Hy.
  by rewrite eqc_sym, Hy.
Qed.

(** A text without the first character of [w] holds no [w], nor does it
    add one in front of another text. *)
Lemma contains_free (d : ascii) (w a s : list ascii) :
  forallb (fun x => negb (eqc x d)) a = true ->
  contains (d :: w) (a ++ s) = contains (d :: w) s.
Proof.
  induction a as [|y a IH]; [done|]. simpl forallb.
  intros [Hy Ha]%andb_true_iff. apply negb_true_iff in Hy.
  change (contains (d :: w) ((y :: a) ++ s))
    with (startswith (d :: w) (y :: a ++ s) || contains (d :: w) (a ++ s)).
  by rewrite (startswith_miss d y), (IH Ha).
Qed.

Lemma contains_free_nil (d : ascii) (w a : list ascii) :
  forallb (fun x => negb (eqc x d)) a = true -> contains (d :: w) a = false.
Proof.
  intros Ha. rewrite <- (app_nil_r a), contains_free by done. done.
Qed.

(** A substitution whose pattern begins with a literal leaves a text
    without that literal as it is. *)
Lemma sub_literal_absent (w : list ascii) (r : re) (tpl : list titem)
  (s : list ascii) :
  w <> [] -> contains w s = false ->
  forall p, sub_go (Seq (seqs (map chr w)) r) tpl p 0 s = s.
Proof.
  intros Hw Hs p. apply sub_go_misses.
  - intros a x b p' ->. unfold attempt. cbn [run].
    apply run_literal_miss; [done|].
    apply contains_false_app_r in Hs.
    change (contains w (x :: b))
      with (startswith w (x :: b) || contains w b) in Hs.
    by apply orb_false_iff in Hs as [? _].
  - intros p'. unfold attempt. cbn [run].
    apply run_literal_miss; [done|]. by destruct w.
Qed.

Lemma plain_no_backtick (a : list ascii) :
  plain_text a = true -> forallb (fun x => negb (eqc x "`")) a = true.
Proof.
  unfold plain_text. induction a as [|x a IH]; [done|]. simpl.
  intros [Hx Ha]%andb_true_iff. apply negb_true_iff, markup_chars in Hx.
  destruct Hx as (-> & _). by rewrite IH.
Qed.

Lemma no_fence (a b c : list ascii) :
  forallb (fun x => negb (eqc x "`")) a = true ->
  forallb (fun x => negb (eqc x "`")) b = true ->
  forallb (fun x => negb (eqc x "`")) c = true ->
  contains (lit "```") (a ++ lit "`" ++ b ++ lit "`" ++ c) = false.
Proof.
  intros Ha Hb Hc.
  change (lit "```") with ("`"%char :: lit "``").
  rewrite contains_free by done.
  change (lit "`" ++ b ++ lit "`" ++ c) with ("`"%char :: b ++ "`"%char :: c).
  change (contains ("`"%char :: lit "``") ("`"%char :: b ++ "`"%char :: c))
    with (startswith ("`"%char :: lit "``") ("`"%char :: b ++ "`"%char :: c)
          || contains ("`"%char :: lit "``") (b ++ "`"%char :: c)).
  rewrite contains_free by done.
  change (contains ("`"%char :: lit "``") ("`"%char :: c))
    with (startswith ("`"%char :: lit "``") ("`"%char :: c)
          || contains ("`"%char :: lit "``") c).
  rewrite (contains_free_nil _ _ c Hc), !orb_false_r.
  apply orb_false_iff. split.
  - cbn [startswith]. rewrite eqc_refl. cbn [andb].
    destruct b as [|y b].
    + change (lit "``") with ("`"%char :: lit "`").
      cbn [app startswith]. rewrite eqc_refl. cbn [andb].
      by apply startswith_free.
    + simpl in Hb. apply andb_true_iff in Hb as [Hy _].
      apply negb_true_iff in Hy. by apply (startswith_miss "`"%char).
  - cbn [startswith]. rewrite eqc_refl. cbn [andb].
    by apply startswith_free.
Qed.

Lemma strip_inline_code_span (a b c : list ascii) :
  plain_text a = true -> plain_text c = true ->
  forallb (fun x => negb (eqc x "`")) b = true ->
  strip_inline_code (a ++ lit "`" ++ b ++ lit "`" ++ c) = a ++ b ++ c.
Proof.
  intros Ha Hc Hb. unfold strip_inline_code, sub.
  change (seqs [chr "`"; Grp 1 (star (Nset [CChar "`"])); chr "`"])
    with (Seq (chr "`") (Seq (Grp 1 (star (Nset [CChar "`"]))) (chr "`"))).
  match goal with |- sub_go ?r0 _ _ _ _ = _ => set (r := r0) end.
  replace (a ++ lit "`" ++ b ++ lit "`" ++ c)
    with (a ++ (lit "`" ++ b ++ lit "`") ++ c)
    by (by rewrite <- !app_assoc).
  destruct (sub_go_at r [TGrp 1] (lit "`" ++ b ++ lit "`") c (b ++ [])
              ltac:(done))
    with (a := a) (p := @None ascii) as [p'' Hsub].
  - intros p'. eexists. split; [|split].
    { unfold attempt, r. cbn [run star chr andb].
      rewrite <- !app_assoc.
      unfold one_char at 1. cbn [rest app lit list_ascii_of_string].
      rewrite in_set_char, eqc_refl. unfold advance. cbn [rest caps].
      apply (rep_greedy_full (fun x => negb (in_set [CChar "`"] x)) _ 0 None
               _ _ _ _ (fun _ _ => eq_refl)).
      - by rewrite in_set_char, eqc_refl.
      - rewrite (forallb_eq _ (fun x => negb (eqc x "`"))); [exact Hb|].
        intros x. by rewrite in_set_char.
      - rewrite length_app. lia.
      - done.
      - lia.
      - cbn [prev rest caps]. rewrite consumed_app.
        unfold one_char. cbn [rest].
        by rewrite in_set_char, eqc_refl. }
    { reflexivity. }
    { reflexivity. }
  - intros a1 x a2 p' ->. unfold attempt, r. cbn [run chr].
    unfold one_char. cbn [rest].
    apply plain_text_elem, markup_chars in Ha as (Hx & _).
    by rewrite in_set_char, Hx.
  - rewrite Hsub, app_nil_r. do 2 f_equal.
    apply (sub_needs markup); [|done]. vm_compute. reflexivity.
Qed.

(** An inline code span loses its back quotes and keeps its text. *)
Theorem inline_code_keeps_its_text (a b c : list ascii) :
  plain_text a = true -> plain_text b = true -> plain_text c = true ->
  _strip_markdown (a ++ lit "`" ++ b ++ lit "`" ++ c) = a ++ b ++ c.
Proof.
  intros Ha Hb Hc.
  destruct (plain_passes (a ++ b ++ c)
              (plain_text_app a _ Ha (plain_text_app b c Hb Hc)))
    as (_ & _ & H3 & H4 & H5 & H6 & H7 & H8 & H9 & H10).
  unfold _strip_markdown. cbv zeta.
  assert (H1 : strip_code_blocks (a ++ lit "`" ++ b ++ lit "`" ++ c) =
               a ++ lit "`" ++ b ++ lit "`" ++ c).
  { unfold strip_code_blocks, sub.
    change (seqs [text "```"; lazy_star (Dot true); text "```"])
      with (Seq (seqs (map chr (lit "```")))
              (Seq (lazy_star (Dot true)) (seqs (map chr (lit "```"))))).
    apply sub_literal_absent; [done|].
    apply no_fence; by apply plain_no_backtick. }
  rewrite H1, strip_inline_code_span by (done || by apply plain_no_backtick).
  by rewrite H3, H4, H5, H6, H7, H8, H9, H10.
Qed.

(** At a sentence with one code span. *)
Lemma inline_code_keeps_its_text_witness :
  _strip_markdown (lit "Call " ++ lit "`" ++ lit "main" ++ lit "`" ++ lit " now.")
  = lit "Call " ++ lit "main" ++ lit " now.".
Proof.
  apply (inline_code_keeps_its_text (lit "Call ") (lit "main") (lit " now."));
    reflexivity.
Defined.

(** *** Links and images *)

Lemma run_link_tail (url c : list ascii) (cs : list (nat * list ascii))
  (p : option ascii) (kf : mstate -> option mstate) (x : mstate) :
  forallb (fun y => negb (eqc y ")")) url = true ->
  kf (MState (Some ")"%char) c cs) = Some x ->
  run link_tail kf (MState p (lit "](" ++ url ++ ")"%char :: c) cs) = Some x.
Proof.
  intros Hurl Hk. unfold link_tail, text. fold (lit "](").
  cbn [run star chr]. rewrite run_literal. cbn [rest].
  apply (rep_greedy_full (fun y => negb (in_set [CChar ")"] y)) _ 0 None
           _ _ _ _ (fun _ _ => eq_refl)).
  - by rewrite in_set_char, eqc_refl.
  - rewrite (forallb_eq _ (fun y => negb (eqc y ")"))); [exact Hurl|].
    intros y. by rewrite in_set_char.
  - rewrite length_app. lia.
  - done.
  - lia.
  - unfold one_char. cbn [rest]. rewrite in_set_char, eqc_refl.
    unfold advance. cbn [caps]. exact Hk.
Qed.

Lemma address_chars (url : list ascii) :
  address url = true ->
  forallb (fun y => negb (eqc y ")")) url = true /\
  forallb (fun y => negb (eqc y "`")) url = true /\
  forallb (fun y => negb (eqc y "[")) url = true.
Proof.
  unfold address. induction url as [|y url IH]; [done|]. simpl.
  intros [Hy Hu]%andb_true_iff. destruct (IH Hu) as (-> & -> & ->).
  apply negb_true_iff in Hy. unfold in_set in Hy. simpl in Hy.
  rewrite orb_false_r in Hy.
  apply orb_false_iff in Hy as [-> Hy]. apply orb_false_iff in Hy as [-> ->].
  done.
Qed.

Lemma plain_no_bracket (a : list ascii) :
  plain_text a = true -> forallb (fun x => negb (eqc x "[")) a = true.
Proof.
  unfold plain_text. induction a as [|x a IH]; [done|]. simpl.
  intros [Hx Ha]%andb_true_iff. apply negb_true_iff, markup_chars in Hx.
  destruct Hx as (_ & -> & _). by rewrite IH.
Qed.

(** The first two substitutions need a back quote. *)
Lemma code_passes_without_backtick (s : list ascii) :
  forallb (fun x => negb (eqc x "`")) s = true ->
  strip_code_blocks s = s /\ strip_inline_code s = s.
Proof.
  intros H. split.
  - apply (sub_needs (fun x => eqc x "`")); [vm_compute; reflexivity|done].
  - apply (sub_needs (fun x => eqc x "`")); [vm_compute; reflexivity|done].
Qed.

Lemma strip_links_link (a label url c : list ascii) :
  plain_text a = true ->
  nonempty label = true ->
  forallb (fun y => negb (eqc y "]")) label = true ->
  forallb (fun y => negb (eqc y ")")) url = true ->
  plain_text c = true ->
  strip_links (a ++ lit "[" ++ label ++ lit "](" ++ url ++ lit ")" ++ c) =
  a ++ label ++ c.
Proof.
  intros Ha Hne Hlabel Hurl Hc. unfold strip_links, sub.
  change (seqs [chr "["; Grp 1 (plus (Nset [CChar "]"])); text "](";
                star (Nset [CChar ")"]); chr ")"])
    with (Seq (chr "[") (Seq (Grp 1 (plus (Nset [CChar "]"]))) link_tail)).
  match goal with |- sub_go ?r0 _ _ _ _ = _ => set (r := r0) end.
  replace (a ++ lit "[" ++ label ++ lit "](" ++ url ++ lit ")" ++ c)
    with (a ++ (lit "[" ++ label ++ lit "](" ++ url ++ lit ")") ++ c)
    by (by rewrite <- !app_assoc).
  destruct (sub_go_at r [TGrp 1]
              (lit "[" ++ label ++ lit "](" ++ url ++ lit ")") c (label ++ [])
              ltac:(done))
    with (a := a) (p := @None ascii) as [p'' Hsub].
  - intros p'. eexists. split; [|split].
    { unfold attempt, r. cbn [run plus chr andb].
      rewrite <- !app_assoc.
      unfold one_char at 1. cbn [rest app lit list_ascii_of_string].
      rewrite in_set_char, eqc_refl. unfold advance. cbn [rest caps].
      apply (rep_greedy_full (fun x => negb (in_set [CChar "]"] x)) _ 1 None
               _ _ _ _ (fun _ _ => eq_refl)).
      - by rewrite in_set_char, eqc_refl.
      - rewrite (forallb_eq _ (fun y => negb (eqc y "]"))); [exact Hlabel|].
        intros y. by rewrite in_set_char.
      - rewrite length_app. lia.
      - done.
      - destruct label; [done|]. simpl. lia.
      - cbn [prev rest caps].
        change ("]"%char :: "("%char :: url ++ ")"%char :: c)
          with (lit "](" ++ url ++ ")"%char :: c).
        rewrite consumed_app. by apply run_link_tail. }
    { reflexivity. }
    { reflexivity. }
  - intros a1 x a2 p' ->. unfold attempt, r. cbn [run chr].
    unfold one_char. cbn [rest].
    apply plain_text_elem, markup_chars in Ha as (_ & Hx & _).
    by rewrite in_set_char, Hx.
  - rewrite Hsub, app_nil_r. do 2 f_equal.
    apply (sub_needs markup); [|done]. vm_compute. reflexivity.
Qed.

Lemma strip_images_image (a alt url c : list ascii) :
  plain_text a = true ->
  forallb (fun y => negb (eqc y "]")) alt = true ->
  forallb (fun y => negb (eqc y ")")) url = true ->
  plain_text c = true ->
  strip_images (a ++ lit "![" ++ alt ++ lit "](" ++ url ++ lit ")" ++ c) =
  a ++ alt ++ c.
Proof.
  intros Ha Halt Hurl Hc. unfold strip_images, sub.
  change (seqs [text "!["; Grp 1 (star (Nset [CChar "]"])); text "](";
                star (Nset [CChar ")"]); chr ")"])
    with (Seq (seqs (map chr (lit "![")))
            (Seq (Grp 1 (star (Nset [CChar "]"]))) link_tail)).
  match goal with |- sub_go ?r0 _ _ _ _ = _ => set (r := r0) end.
  replace (a ++ lit "![" ++ alt ++ lit "](" ++ url ++ lit ")" ++ c)
    with (a ++ (lit "![" ++ alt ++ lit "](" ++ url ++ lit ")") ++ c)
    by (by rewrite <- !app_assoc).
  destruct (sub_go_at r [TGrp 1]
              (lit "![" ++ alt ++ lit "](" ++ url ++ lit ")") c (alt ++ [])
              ltac:(done))
    with (a := a) (p := @None ascii) as [p'' Hsub].
  - intros p'. eexists. split; [|split].
    { unfold attempt, r. cbn [run star andb].
      rewrite <- !app_assoc, run_literal. cbn [rest caps].
      apply (rep_greedy_full (fun x => negb (in_set [CChar "]"] x)) _ 0 None
               _ _ _ _ (fun _ _ => eq_refl)).
      - done.
      - rewrite (forallb_eq _ (fun y => negb (eqc y "]"))); [exact Halt|].
        intros y. by rewrite in_set_char.
      - rewrite length_app. lia.
      - done.
      - lia.
      - cbn [prev rest caps].
        change (lit "](" ++ url ++ lit ")" ++ c)
          with (lit "](" ++ url ++ ")"%char :: c).
        rewrite consumed_app. by apply run_link_tail. }
    { reflexivity. }
    { reflexivity. }
  - intros a1 x a2 p' ->. unfold attempt, r. cbn [run].
    apply run_literal_miss; [done|].
    change (lit "![") with ("!"%char :: lit "[").
    cbn [startswith]. apply andb_false_iff. right.
    destruct a2 as [|y a2]; [done|].
    apply (startswith_miss "["%char).
    rewrite (cons_middle x a1 (y :: a2)), app_assoc in Ha.
    by apply plain_text_elem, markup_chars in Ha as (_ & Hy & _).
  - rewrite Hsub, app_nil_r. do 2 f_equal.
    apply (sub_needs markup); [|done]. vm_compute. reflexivity.
Qed.

(** The image substitution leaves a link that no exclamation mark
    precedes as it is. *)
Lemma strip_images_keeps_link (a s : list ascii) :
  contains (lit "![") (a ++ lit "[") = false ->
  forallb (fun y => negb (eqc y "[")) s = true ->
  strip_images (a ++ lit "[" ++ s) = a ++ lit "[" ++ s.
Proof.
  intros Ha Hs. unfold strip_images, sub.
  change (seqs [text "!["; Grp 1 (star (Nset [CChar "]"])); text "](";
                star (Nset [CChar ")"]); chr ")"])
    with (Seq (seqs (map chr (lit "![")))
            (Seq (Grp 1 (star (Nset [CChar "]"]))) link_tail)).
  match goal with |- sub_go ?r0 _ _ _ _ = _ => set (r := r0) end.
  destruct (sub_go_copy r [TGrp 1] (lit "[" ++ s) a None) as [p'' ->].
  - intros a1 x a2 p' ->. unfold attempt, r. cbn [run].
    apply run_literal_miss; [done|].
    rewrite <- app_assoc in Ha. apply contains_false_app_r in Ha.
    change (contains (lit "![") ((x :: a2) ++ lit "["))
      with (startswith (lit "![") (x :: a2 ++ lit "[")
            || contains (lit "![") (a2 ++ lit "[")) in Ha.
    apply orb_false_iff in Ha as [Ha _].
    replace (x :: a2 ++ lit "[" ++ s) with ((x :: a2 ++ lit "[") ++ s)
      by (simpl; by rewrite <- app_assoc).
    rewrite startswith_long; [exact Ha|].
    simpl. rewrite length_app. simpl. lia.
  - f_equal. apply sub_go_misses.
    + intros a0 y b p' Heq. unfold attempt, r. cbn [run].
      apply run_literal_miss; [done|].
      change (lit "![") with ("!"%char :: lit "[").
      cbn [startswith]. apply andb_false_iff. right.
      apply startswith_free.
      destruct a0 as [|z a0]; simpl in Heq; injection Heq as _ Heq.
      * by subst b.
      * subst s. rewrite forallb_app in Hs. simpl in Hs.
        by apply andb_true_iff in Hs as [_ [_ ?]%andb_true_iff].
    + intros p'. unfold attempt, r. cbn [run].
      by apply run_literal_miss.
Qed.

(** A link keeps its label and an image its alternative text; the address
    is dropped with the brackets. *)
Theorem links_and_images_keep_their_text :
  (forall a label url c : list ascii,
      plain_text a = true ->
      contains (lit "![") (a ++ lit "[") = false ->
      plain_text label = true -> nonempty label = true ->
      forallb (fun y => negb (eqc y "]")) label = true ->
      address url = true ->
      plain_text c = true ->
      _strip_markdown
        (a ++ lit "[" ++ label ++ lit "](" ++ url ++ lit ")" ++ c) =
      a ++ label ++ c) /\
  (forall a alt url c : list ascii,
      plain_text a = true ->
      plain_text alt = true ->
      forallb (fun y => negb (eqc y "]")) alt = true ->
      address url = true ->
      plain_text c = true ->
      _strip_markdown
        (a ++ lit "![" ++ alt ++ lit "](" ++ url ++ lit ")" ++ c) =
      a ++ alt ++ c).
Proof.
  split.
  - intros a label url c Ha Hbang Hlabel Hne Hclose Hurl Hc.
    destruct (address_chars url Hurl) as (Hu1 & Hu2 & Hu3).
    destruct (plain_passes (a ++ label ++ c)
                (plain_text_app a _ Ha (plain_text_app label c Hlabel Hc)))
      as (_ & _ & _ & _ & H5 & H6 & H7 & H8 & H9 & H10).
    set (text := a ++ lit "[" ++ label ++ lit "](" ++ url ++ lit ")" ++ c).
    assert (Htick : forallb (fun x => negb (eqc x "`")) text = true).
    { unfold text. rewrite !forallb_app.
      by rewrite (plain_no_backtick a), (plain_no_backtick label),
        (plain_no_backtick c), Hu2. }
    destruct (code_passes_without_backtick text Htick) as [H1 H2].
    unfold _strip_markdown. cbv zeta. fold text. rewrite H1, H2.
    unfold text at 1. rewrite strip_images_keeps_link; [|done|].
    + rewrite strip_links_link by done.
      by rewrite H5, H6, H7, H8, H9, H10.
    + rewrite !forallb_app.
      by rewrite (plain_no_bracket label), (plain_no_bracket c), Hu3.
  - intros a alt url c Ha Halt Hclose Hurl Hc.
    destruct (address_chars url Hurl) as (Hu1 & Hu2 & Hu3).
    destruct (plain_passes (a ++ alt ++ c)
                (plain_text_app a _ Ha (plain_text_app alt c Halt Hc)))
      as (_ & _ & _ & H4 & H5 & H6 & H7 & H8 & H9 & H10).
    set (text := a ++ lit "![" ++ alt ++ lit "](" ++ url ++ lit ")" ++ c).
    assert (Htick : forallb (fun x => negb (eqc x "`")) text = true).
    { unfold text. rewrite !forallb_app.
      by rewrite (plain_no_backtick a), (plain_no_backtick alt),
        (plain_no_backtick c), Hu2. }
    destruct (code_passes_without_backtick text Htick) as [H1 H2].
    unfold _strip_markdown. cbv zeta. fold text. rewrite H1, H2.
    unfold text. rewrite strip_images_image by done.
    by rewrite H4, H5, H6, H7, H8, H9, H10.
Qed.

(** At a sentence with a link: the label stays, the address goes. *)
Lemma links_and_images_keep_their_text_witness :
  _strip_markdown
    (lit "See " ++ lit "[" ++ lit "the site" ++ lit "](" ++
     lit "https://example.org/a_b-1#top" ++ lit ")" ++ lit " now.") =
  lit "See " ++ lit "the site" ++ lit " now.".
Proof.
  apply (proj1 links_and_images_keep_their_text (lit "See ") (lit "the site")
           (lit "https://example.org/a_b-1#top") (lit " now."));
    reflexivity.
Defined.

(** *** Emphasis *)

Lemma plain_free (d : ascii) (a : list ascii) :
  markup d = true -> plain_text a = true ->
  forallb (fun x => negb (eqc x d)) a = true.
Proof.
  intros Hd. unfold plain_text. induction a as [|x a IH]; [done|]. simpl.
  intros [Hx Ha]%andb_true_iff. rewrite (IH Ha), andb_true_r.
  apply negb_true_iff in Hx. apply negb_true_iff, eqc_false.
  intros ->. by rewrite Hd in Hx.
Qed.

Lemma plain_no_code (a : list ascii) :
  plain_text a = true ->
  forallb (fun x => negb (in_set [CChar "`"; CChar "["] x)) a = true.
Proof.
  unfold plain_text. induction a as [|x a IH]; [done|]. simpl.
  intros [Hx Ha]%andb_true_iff. rewrite (IH Ha), andb_true_r.
  apply negb_true_iff, markup_chars in Hx as (H1 & H2 & _).
  unfold in_set. simpl. by rewrite H1, H2.
Qed.

(** The first four substitutions need a back quote or a bracket. *)
Lemma first_passes (s : list ascii) :
  forallb (fun x => negb (in_set [CChar "`"; CChar "["] x)) s = true ->
  strip_code_blocks s = s /\ strip_inline_code s = s /\
  strip_images s = s /\ strip_links s = s.
Proof.
  intros H.
  repeat split;
    apply (sub_needs (fun x => in_set [CChar "`"; CChar "["] x));
    (done || (vm_compute; reflexivity)).
Qed.

(** The body of the two emphasis patterns: the shortest text up to the
    marker that opened the emphasis. *)
Lemma run_emphasis_body (m b c : list ascii) (p1 : option ascii)
  (kf : mstate -> option mstate) (x : mstate) :
  m <> [] ->
  forallb (fun y => negb (eqc y LF)) b = true ->
  (forall a1 y a2, b = a1 ++ y :: a2 ->
                   startswith m (y :: a2 ++ m ++ c) = false) ->
  kf (MState (after (after p1 b) m) c [(2, b); (1, m)]) = Some x ->
  run (Seq (Grp 2 (lazy_star (Dot false))) (Bref 1)) kf
    (MState p1 (b ++ m ++ c) [(1, m)]) = Some x.
Proof.
  intros Hm Hb Hmiss Hk. cbn [run lazy_star rest].
  apply (rep_lazy_first (fun y => false || negb (eqc y LF)) _ _ _ _ _
           (fun _ _ => eq_refl)).
  - exact Hb.
  - rewrite length_app. lia.
  - intros a1 y a2 p' Heq. cbn [prev rest caps get_cap Nat.eqb].
    rewrite (eat_miss m (y :: a2 ++ m ++ c)); [done|done|done|].
    by apply (Hmiss a1).
  - cbn [prev rest caps get_cap Nat.eqb].
    rewrite consumed_app, eat_app. exact Hk.
Qed.

Lemma emphasis_attempt (wA wB m b c : list ascii) (p' : option ascii) :
  m <> [] -> wA <> [] ->
  m = wA \/ (m = wB /\ forall s, startswith wA (wB ++ s) = false) ->
  forallb (fun y => negb (eqc y LF)) b = true ->
  (forall a1 y a2, b = a1 ++ y :: a2 ->
                   startswith m (y :: a2 ++ m ++ c) = false) ->
  attempt
    (Seq (Grp 1 (Alt (seqs (map chr wA)) (seqs (map chr wB))))
       (Seq (Grp 2 (lazy_star (Dot false))) (Bref 1)))
    false p' (m ++ b ++ m ++ c) =
  Some (MState (after (after (after p' m) b) m) c [(2, b); (1, m)]).
Proof.
  intros Hm HwA Hcase Hb Hmiss. unfold attempt.
  set (kf := fun st' : mstate =>
               if false && (length (rest st') =? length (m ++ b ++ m ++ c))
               then None else Some st').
  set (st0 := MState p' (m ++ b ++ m ++ c) []).
  set (body := Seq (Grp 2 (lazy_star (Dot false))) (Bref 1)).
  change (run (Seq (Grp 1 (Alt (seqs (map chr wA)) (seqs (map chr wB)))) body)
            kf st0)
    with (orelse
            (run (seqs (map chr wA))
               (fun st' => run body kf
                             (MState (prev st') (rest st')
                                ((1, consumed st0 st') :: caps st'))) st0)
            (run (seqs (map chr wB))
               (fun st' => run body kf
                             (MState (prev st') (rest st')
                                ((1, consumed st0 st') :: caps st'))) st0)).
  assert (Hbody : run body kf
                    (MState (after p' m) (b ++ m ++ c) [(1, m)]) =
                  Some (MState (after (after (after p' m) b) m) c
                          [(2, b); (1, m)])).
  { by apply run_emphasis_body. }
  destruct Hcase as [<- | [<- Hfirst]].
  - unfold st0. rewrite run_literal. cbn [prev rest caps].
    by rewrite consumed_app, Hbody.
  - unfold st0. rewrite (run_literal_miss wA) by done.
    cbn [orelse]. rewrite run_literal. cbn [prev rest caps].
    by rewrite consumed_app, Hbody.
Qed.

(** One emphasised text: what stands before is copied, the markers go, the
    text stays, and the substitution goes on behind. *)
Lemma sub_emphasis (wA wB m a b c : list ascii) :
  m <> [] -> wA <> [] -> wB <> [] ->
  m = wA \/ (m = wB /\ forall s, startswith wA (wB ++ s) = false) ->
  forallb (fun y => negb (eqc y LF)) b = true ->
  (forall a1 y a2, b = a1 ++ y :: a2 ->
                   startswith m (y :: a2 ++ m ++ c) = false) ->
  (forall a1 x a2 s, a = a1 ++ x :: a2 ->
                     startswith wA (x :: s) = false /\
                     startswith wB (x :: s) = false) ->
  exists p'',
    sub_go
      (Seq (Grp 1 (Alt (seqs (map chr wA)) (seqs (map chr wB))))
         (Seq (Grp 2 (lazy_star (Dot false))) (Bref 1)))
      [TGrp 2] None 0 (a ++ m ++ b ++ m ++ c) =
    a ++ b ++
    sub_go
      (Seq (Grp 1 (Alt (seqs (map chr wA)) (seqs (map chr wB))))
         (Seq (Grp 2 (lazy_star (Dot false))) (Bref 1)))
      [TGrp 2] p'' 0 c.
Proof.
  intros Hm HwA HwB Hcase Hb Hmiss Ha.
  replace (a ++ m ++ b ++ m ++ c) with (a ++ (m ++ b ++ m) ++ c)
    by (by rewrite <- !app_assoc).
  match goal with |- exists _, sub_go ?r0 _ _ _ _ = _ => set (r := r0) end.
  destruct (sub_go_at r [TGrp 2] (m ++ b ++ m) c (b ++ [])) with (a := a)
    (p := @None ascii) as [p'' Hsub].
  - by destruct m.
  - intros p'. eexists. split; [|split].
    { rewrite <- !app_assoc. by apply emphasis_attempt. }
    { reflexivity. }
    { reflexivity. }
  - intros a1 x a2 p' Heq. unfold attempt, r.
    destruct (Ha a1 x a2 (a2 ++ (m ++ b ++ m) ++ c) Heq) as [HA HB].
    cbn [run].
    by rewrite (run_literal_miss wA), (run_literal_miss wB).
  - exists p''. by rewrite Hsub, app_nil_r.
Qed.

(** Where neither double marker stands, the bold substitution changes
    nothing. *)
Lemma strip_bold_absent (s : list ascii) :
  contains (lit "**") s = false -> contains (lit "__") s = false ->
  strip_bold s = s.
Proof.
  intros HA HB. unfold strip_bold, sub.
  change (seqs [Grp 1 (Alt (text "**") (text "__"));
                Grp 2 (lazy_star (Dot false)); Bref 1])
    with (Seq (Grp 1 (Alt (seqs (map chr (lit "**")))
                          (seqs (map chr (lit "__")))))
            (Seq (Grp 2 (lazy_star (Dot false))) (Bref 1))).
  assert (Hpos : forall w a x b,
             contains w (a ++ x :: b) = false -> startswith w (x :: b) = false).
  { intros w a x b H. apply contains_false_app_r in H.
    change (contains w (x :: b)) with (startswith w (x :: b) || contains w b)
      in H.
    by apply orb_false_iff in H as [? _]. }
  apply sub_go_misses.
  - intros a x b p' ->. unfold attempt. cbn [run].
    by rewrite (run_literal_miss (lit "**")), (run_literal_miss (lit "__"))
      by (done || by eapply Hpos).
  - intros p'. unfold attempt. cbn [run].
    by rewrite (run_literal_miss (lit "**")), (run_literal_miss (lit "__")).
Qed.

Lemma no_double (d : ascii) (a b c : list ascii) :
  nonempty b = true ->
  forallb (fun x => negb (eqc x d)) a = true ->
  forallb (fun x => negb (eqc x d)) b = true ->
  forallb (fun x => negb (eqc x d)) c = true ->
  contains [d; d] (a ++ [d] ++ b ++ [d] ++ c) = false.
Proof.
  intros Hne Ha Hb Hc.
  rewrite contains_free by done.
  change ([d] ++ b ++ [d] ++ c) with (d :: b ++ d :: c).
  change (contains [d; d] (d :: b ++ d :: c))
    with (startswith [d; d] (d :: b ++ d :: c)
          || contains [d; d] (b ++ d :: c)).
  rewrite contains_free by done.
  change (contains [d; d] (d :: c))
    with (startswith [d; d] (d :: c) || contains [d; d] c).
  rewrite (contains_free_nil _ _ c Hc), !orb_false_r.
  apply orb_false_iff. split.
  - rewrite startswith_cons, eqc_refl. cbn [andb].
    destruct b as [|y b]; [done|]. simpl in Hb.
    apply andb_true_iff in Hb as [Hy _]. apply negb_true_iff in Hy.
    by apply startswith_miss.
  - rewrite startswith_cons, eqc_refl. cbn [andb].
    by apply startswith_free.
Qed.

Lemma strip_italic_pair (d : ascii) (a b c : list ascii) :
  d = "*"%char \/ d = "_"%char ->
  plain_text a = true -> plain_text b = true -> plain_text c = true ->
  forallb (fun y => negb (eqc y LF)) b = true ->
  strip_italic (a ++ [d] ++ b ++ [d] ++ c) = a ++ b ++ c.
Proof.
  intros Hd Ha Hb Hc Hlf. unfold strip_italic, sub.
  change (seqs [Grp 1 (Alt (chr "*") (chr "_"));
                Grp 2 (lazy_star (Dot false)); Bref 1])
    with (Seq (Grp 1 (Alt (seqs (map chr (lit "*")))
                          (seqs (map chr (lit "_")))))
            (Seq (Grp 2 (lazy_star (Dot false))) (Bref 1))).
  assert (Hmd : markup d = true) by (by destruct Hd as [-> | ->]).
  destruct (sub_emphasis (lit "*") (lit "_") [d] a b c) as [p'' ->];
    try done.
  - destruct Hd as [-> | ->]; [by left|right]. split; [done|].
    intros s. done.
  - intros a1 y a2 ->. apply startswith_miss.
    by apply (free_elem d a1 a2), plain_free.
  - intros a1 x a2 s ->.
    apply plain_text_elem, markup_chars in Ha as (_ & _ & H1 & H2 & _).
    split; by apply startswith_miss.
  - do 2 f_equal. apply (sub_needs markup); [|done]. vm_compute. reflexivity.
Qed.

Lemma strip_bold_pair (d : ascii) (a b c : list ascii) :
  d = "*"%char \/ d = "_"%char ->
  plain_text a = true -> plain_text b = true -> plain_text c = true ->
  forallb (fun y => negb (eqc y LF)) b = true ->
  strip_bold (a ++ [d; d] ++ b ++ [d; d] ++ c) = a ++ b ++ c.
Proof.
  intros Hd Ha Hb Hc Hlf. unfold strip_bold, sub.
  change (seqs [Grp 1 (Alt (text "**") (text "__"));
                Grp 2 (lazy_star (Dot false)); Bref 1])
    with (Seq (Grp 1 (Alt (seqs (map chr (lit "**")))
                          (seqs (map chr (lit "__")))))
            (Seq (Grp 2 (lazy_star (Dot false))) (Bref 1))).
  assert (Hmd : markup d = true) by (by destruct Hd as [-> | ->]).
  destruct (sub_emphasis (lit "**") (lit "__") [d; d] a b c) as [p'' ->];
    try done.
  - destruct Hd as [-> | ->]; [by left|right]. split; [done|].
    intros s. done.
  - intros a1 y a2 ->. apply startswith_miss.
    by apply (free_elem d a1 a2), plain_free.
  - intros a1 x a2 s ->.
    apply plain_text_elem, markup_chars in Ha as (_ & _ & H1 & H2 & _).
    split; by apply (startswith_miss _ x).
  - do 2 f_equal. apply (sub_needs markup); [|done]. vm_compute. reflexivity.
Qed.

(** Emphasis keeps its text and loses its markers, single or double,
    asterisks or underscores; so does any pair of underscores in a line,
    as in a name written with underscores. *)
Theorem emphasis_keeps_its_text :
  forall (d : ascii) (a b c : list ascii),
    d = "*"%char \/ d = "_"%char ->
    plain_text a = true -> plain_text b = true -> plain_text c = true ->
    nonempty b = true ->
    forallb (fun y => negb (eqc y LF)) b = true ->
    _strip_markdown (a ++ [d] ++ b ++ [d] ++ c) = a ++ b ++ c /\
    _strip_markdown (a ++ [d; d] ++ b ++ [d; d] ++ c) = a ++ b ++ c.
Proof.
  intros d a b c Hd Ha Hb Hc Hne Hlf.
  assert (Hmd : markup d = true) by (by destruct Hd as [-> | ->]).
  assert (Hdc : in_set [CChar "`"; CChar "["] d = false)
    by (by destruct Hd as [-> | ->]).
  destruct (plain_passes (a ++ b ++ c)
              (plain_text_app a _ Ha (plain_text_app b c Hb Hc)))
    as (_ & _ & _ & _ & H5 & H6 & H7 & H8 & H9 & H10).
  pose proof (plain_no_code a Ha) as Ca.
  pose proof (plain_no_code b Hb) as Cb.
  pose proof (plain_no_code c Hc) as Cc.
  split.
  - set (text := a ++ [d] ++ b ++ [d] ++ c).
    destruct (first_passes text) as (H1 & H2 & H3 & H4).
    { unfold text. rewrite !forallb_app, Ca, Cb, Cc. simpl.
      by rewrite Hdc. }
    assert (Hbold : strip_bold text = text).
    { apply strip_bold_absent.
      - destruct Hd as [-> | ->].
        + apply (no_double "*"); (done || by apply plain_free).
        + apply contains_free_nil. unfold text. rewrite !forallb_app.
          rewrite (plain_free "*" a), (plain_free "*" b),
            (plain_free "*" c) by done.
          done.
      - destruct Hd as [-> | ->].
        + apply contains_free_nil. unfold text. rewrite !forallb_app.
          rewrite (plain_free "_" a), (plain_free "_" b),
            (plain_free "_" c) by done.
          done.
        + apply (no_double "_"); (done || by apply plain_free). }
    unfold _strip_markdown. cbv zeta. fold text.
    rewrite H1, H2, H3, H4, Hbold. unfold text.
    rewrite strip_italic_pair by done.
    by rewrite H7, H8, H9, H10.
  - set (text := a ++ [d; d] ++ b ++ [d; d] ++ c).
    destruct (first_passes text) as (H1 & H2 & H3 & H4).
    { unfold text. rewrite !forallb_app, Ca, Cb, Cc. simpl.
      by rewrite Hdc. }
    unfold _strip_markdown. cbv zeta. fold text.
    rewrite H1, H2, H3, H4. unfold text.
    rewrite strip_bold_pair by done.
    by rewrite H6, H7, H8, H9, H10.
Qed.

(** At a name written with underscores: the underscores around [total]
    go. *)
Lemma emphasis_keeps_its_text_witness :
  _strip_markdown (lit "word_total_max") = lit "wordtotalmax".
Proof.
  apply (proj1 (emphasis_keeps_its_text "_" (lit "word") (lit "total")
                  (lit "max") ltac:(by right) eq_refl eq_refl eq_refl
                  eq_refl eq_refl)).
Defined.

(** *** Headings inside a chapter *)

Lemma after_snoc (p : option ascii) (a : list ascii) (z : ascii) :
  after p (a ++ [z]) = Some z.
Proof. unfold after. by rewrite last_snoc. Qed.

Lemma after_app (p : option ascii) (a b : list ascii) :
  after p (a ++ b) = after (after p a) b.
Proof.
  revert p. induction a as [|x a IH]; intros p; [done|].
  simpl app. by rewrite !after_cons, IH.
Qed.

Lemma sub_go_skip_prev (r : re) (tpl : list titem) (a t : list ascii) :
  forall p, sub_go r tpl p (length a) (a ++ t) = sub_go r tpl (after p a) 0 t.
Proof.
  induction a as [|c a IH]; intros p; [done|].
  rewrite after_cons. simpl length. simpl app. apply (IH (Some c)).
Qed.

(** As [sub_go_at], with the character before each position. *)
Lemma sub_go_at_prev (r : re) (tpl : list titem) (m c e : list ascii) :
  m <> [] ->
  forall a p,
    (forall a1 x a2,
        a = a1 ++ x :: a2 ->
        attempt r false (after p a1) (x :: a2 ++ m ++ c) = None) ->
    (exists st',
        attempt r false (after p a) (m ++ c) = Some st' /\ rest st' = c /\
        expand tpl st' = e) ->
    sub_go r tpl p 0 (a ++ m ++ c) =
    a ++ e ++ sub_go r tpl (after (after p a) m) 0 c.
Proof.
  intros Hm a. induction a as [|x a IH]; intros p Hmiss Hhit.
  - destruct Hhit as (st' & Hatt & Hrest & Hexp).
    change (after p []) with p in *.
    destruct m as [|y m]; [done|]. simpl app in *.
    rewrite (sub_go_hit _ _ _ _ _ _ (length m) Hatt).
    + by rewrite Hexp, sub_go_skip_prev, after_cons.
    + unfold consumed. cbn [rest]. rewrite Hrest. simpl length.
      rewrite length_app.
      replace (S (length m + length c) - length c) with (S (length m)) by lia.
      change (y :: m ++ c) with ((y :: m) ++ c).
      by rewrite take_app_length'.
  - simpl app. rewrite sub_go_miss by (by apply (Hmiss [] x a)).
    rewrite (IH (Some x)).
    + by rewrite after_cons.
    + intros a1 y a2 ->. rewrite <- (after_cons x a1 p).
      by apply (Hmiss (x :: a1) y a2).
    + by rewrite <- (after_cons x a p).
Qed.

(** A greedy repetition fails when the pattern behind it fails wherever
    the repetition may stop. *)
Lemma rep_greedy_none (P : ascii -> bool)
  (body : (mstate -> option mstate) -> mstate -> option mstate)
  (lo : nat) (hi : option nat) (k : mstate -> option mstate)
  (t : list ascii) (cs : list (nat * list ascii)) :
  (forall k0 st, body k0 st = one_char P k0 st) ->
  match t with c :: _ => P c | [] => false end = false ->
  forall r fuel i p,
    (forall a1 a2 p', r = a1 ++ a2 -> k (MState p' (a2 ++ t) cs) = None) ->
    rep_loop true body lo hi k fuel i (MState p (r ++ t) cs) = None.
Proof.
  intros Hbody Ht. induction r as [|c r IH]; intros fuel i p Hk.
  - simpl app.
    assert (Hnone : forall k0, body k0 (MState p t cs) = None).
    { intros k0. rewrite Hbody. unfold one_char. simpl.
      destruct t as [|c t]; [done|]. by rewrite Ht. }
    pose proof (Hk [] [] p eq_refl) as Hstop. simpl in Hstop.
    destruct fuel as [|fuel].
    + change (rep_loop true body lo hi k 0 i (MState p t cs))
        with (orelse None (if lo <=? i then k (MState p t cs) else None)).
      rewrite Hstop. by destruct (lo <=? i).
    + change (rep_loop true body lo hi k (S fuel) i (MState p t cs))
        with (orelse
                (if below i hi
                 then body (rep_loop true body lo hi k fuel (S i))
                        (MState p t cs)
                 else None)
                (if lo <=? i then k (MState p t cs) else None)).
      rewrite Hnone, Hstop. by destruct (below i hi), (lo <=? i).
  - change ((c :: r) ++ t) with (c :: (r ++ t)).
    pose proof (Hk [] (c :: r) p eq_refl) as Hstop. simpl app in Hstop.
    destruct fuel as [|fuel].
    + change (rep_loop true body lo hi k 0 i (MState p (c :: r ++ t) cs))
        with (orelse None
                (if lo <=? i then k (MState p (c :: r ++ t) cs) else None)).
      rewrite Hstop. by destruct (lo <=? i).
    + change (rep_loop true body lo hi k (S fuel) i
                (MState p (c :: r ++ t) cs))
        with (orelse
                (if below i hi
                 then body (rep_loop true body lo hi k fuel (S i))
                        (MState p (c :: r ++ t) cs)
                 else None)
                (if lo <=? i then k (MState p (c :: r ++ t) cs) else None)).
      rewrite Hstop, Hbody. unfold one_char. cbn [rest].
      assert (Hrec : rep_loop true body lo hi k fuel (S i)
                       (advance c (r ++ t) (MState p (c :: r ++ t) cs)) = None).
      { unfold advance. cbn [caps]. apply IH.
        intros a1 a2 p' ->. by apply (Hk (c :: a1) a2). }
      rewrite Hrec. by destruct (below i hi), (P c), (lo <=? i).
Qed.

(** The hash signs of the heading pattern need a hash sign. *)
Lemma run_hashes_miss (s : list ascii) (p : option ascii)
  (cs : list (nat * list ascii)) (k : mstate -> option mstate) :
  head_in [CChar "#"] s = false ->
  run (Grp 1 hashes) k (MState p s cs) = None.
Proof.
  intros Hs. unfold hashes. cbn [run chr rest].
  destruct (length s) as [|fuel].
  - change (rep_loop true (run (Cset [CChar "#"])) 1 (Some 6) ?k0 0 0 ?st)
      with (@None mstate). done.
  - match goal with
    | |- rep_loop true ?body 1 (Some 6) ?k0 (S fuel) 0 ?st = None =>
        change (rep_loop true body 1 (Some 6) k0 (S fuel) 0 st)
          with (orelse (body (rep_loop true body 1 (Some 6) k0 fuel 1) st)
                  None)
    end.
    cbn [run]. unfold one_char. cbn [rest].
    destruct s as [|c s]; [done|]. simpl in Hs. by rewrite Hs.
Qed.

Lemma space_not_inline (x : ascii) :
  is_space x = true -> inline_markup x = false.
Proof.
  assert (H : forallb (fun c => implb (is_space c) (negb (inline_markup c)))
                all_chars = true) by (vm_compute; reflexivity).
  rewrite forallb_forall in H. specialize (H x (all_chars_complete x)).
  intros Hx. rewrite Hx in H. by apply negb_true_iff.
Qed.

Lemma plain_not_inline (x : ascii) :
  markup x = false -> inline_markup x = false.
Proof.
  assert (H : forallb (fun c => implb (negb (markup c))
                                  (negb (inline_markup c)))
                all_chars = true) by (vm_compute; reflexivity).
  rewrite forallb_forall in H. specialize (H x (all_chars_complete x)).
  intros Hx. rewrite Hx in H. by apply negb_true_iff.
Qed.

Lemma forallb_impl {A : Type} (f g : A -> bool) (l : list A) :
  (forall x, f x = true -> g x = true) ->
  forallb f l = true -> forallb g l = true.
Proof.
  intros H. induction l as [|x l IH]; [done|]. simpl.
  intros [Hx Hl]%andb_true_iff. by rewrite (H x Hx), IH.
Qed.

(** The nine substitutions before the heading substitution need a markup
    character other than the hash sign. *)
Lemma passes_before_headings (s : list ascii) :
  forallb (fun x => negb (inline_markup x)) s = true ->
  strip_code_blocks s = s /\ strip_inline_code s = s /\
  strip_images s = s /\ strip_links s = s /\ strip_bold s = s /\
  strip_italic s = s /\ strip_blockquotes s = s /\ strip_bullets s = s /\
  strip_numbered s = s.
Proof.
  intros H.
  repeat split; apply (sub_needs inline_markup);
    (done || (vm_compute; reflexivity)).
Qed.

Lemma snoc_split {A : Type} (l a1 a2 : list A) (x y : A) :
  l ++ [y] = a1 ++ x :: a2 ->
  (a2 = [] /\ x = y /\ a1 = l) \/
  (exists a2', a2 = a2' ++ [y] /\ l = a1 ++ x :: a2').
Proof.
  destruct a2 as [|w a2 _] using rev_ind.
  - intros H. apply app_inj_tail in H as [-> ->]. by left.
  - intros H. rewrite app_comm_cons, app_assoc in H.
    apply app_inj_tail in H as [-> ->]. right. by exists a2.
Qed.

(** The heading substitution finds nothing where, after the white space
    at the position, no hash sign stands. *)
Lemma strip_headings_miss (r t : list ascii) (p' : option ascii) :
  forallb (in_set [CSpace]) r = true ->
  head_in [CSpace] t = false ->
  head_in [CChar "#"] t = false ->
  attempt (Seq (Bol true) (Seq (star space) (Seq (Grp 1 hashes) (star space))))
    false p' (r ++ t) = None.
Proof.
  intros Hr Ht Hhash. unfold attempt.
  match goal with
  | |- run _ ?kf ?st = None =>
      change (run (Bol true)
                (run (star space) (run (Grp 1 hashes) (run (star space) kf)))
                st = None)
  end.
  assert (Hstar : forall p0 k0,
             run (star space) (run (Grp 1 hashes) k0) (MState p0 (r ++ t) [])
             = None).
  { intros p0 k0. unfold star, space. cbn [run rest].
    apply (rep_greedy_none (in_set [CSpace]) _ 0 None _ t []
             (fun _ _ => eq_refl) Ht).
    intros a1 a2 p1 ->. apply run_hashes_miss.
    rewrite forallb_app in Hr. apply andb_true_iff in Hr as [_ Hr].
    destruct a2 as [|y a2]; [done|]. simpl in Hr.
    apply andb_true_iff in Hr as [Hy _]. rewrite in_set_space in Hy.
    simpl. by apply space_not_hash. }
  cbn [run prev]. destruct p' as [c|]; [|apply Hstar].
  destruct (true && eqc c LF); [apply Hstar|done].
Qed.

(** At the start of a line the heading substitution takes the white space
    before the hash signs, the hash signs, and the white space after
    them. *)
Lemma strip_headings_hit (ws sp b : list ascii) (k : nat) :
  forallb (in_set [CSpace]) ws = true ->
  1 <= k <= 6 ->
  forallb (in_set [CSpace]) sp = true ->
  head_in [CSpace] b = false ->
  head_in [CChar "#"] b = false ->
  exists st',
    attempt
      (Seq (Bol true) (Seq (star space) (Seq (Grp 1 hashes) (star space))))
      false (Some LF) (ws ++ repeat "#"%char k ++ sp ++ b) = Some st' /\
    rest st' = b.
Proof.
  intros Hws Hk Hsp Hb Hhash. eexists. split.
  { unfold attempt, hashes, star, space. cbn [run prev rest andb].
    rewrite eqc_refl.
    apply (rep_greedy_full (in_set [CSpace]) _ 0 None _ _ [] _
             (fun _ _ => eq_refl)).
    { destruct k as [|k]; [lia|]. done. }
    { done. }
    { rewrite length_app. lia. }
    { done. }
    { lia. }
    cbn [run prev rest caps].
    apply (rep_greedy_full (in_set [CChar "#"]) _ 1 (Some 6) _ _ [] _
             (fun _ _ => eq_refl)).
    { destruct sp as [|c sp]; [exact Hhash|]. simpl in Hsp.
      apply andb_true_iff in Hsp as [Hc _]. rewrite in_set_space in Hc.
      simpl. by apply space_not_hash. }
    { apply hashes_run. }
    { rewrite length_app. lia. }
    { intros j Hj. rewrite repeat_length in Hj. simpl. apply Nat.ltb_lt. lia. }
    { rewrite repeat_length. lia. }
    cbn [prev rest caps]. rewrite consumed_app. cbn [run rest].
    apply (rep_greedy_full (in_set [CSpace]) _ 0 None _ _ _ _
             (fun _ _ => eq_refl)).
    { done. }
    { done. }
    { rewrite length_app. lia. }
    { done. }
    { lia. }
    reflexivity. }
  reflexivity.
Qed.

Lemma strip_headings_subheading (a ws sp b : list ascii) (z : ascii)
  (k : nat) :
  plain_text (a ++ [z]) = true -> is_space z = false ->
  forallb (in_set [CSpace]) ws = true ->
  1 <= k <= 6 ->
  forallb (in_set [CSpace]) sp = true ->
  plain_text b = true -> head_in [CSpace] b = false ->
  strip_headings (a ++ z :: LF :: ws ++ repeat "#"%char k ++ sp ++ b) =
  a ++ z :: LF :: b.
Proof.
  intros Ha Hz Hws Hk Hsp Hb Hhead. unfold strip_headings, sub.
  change (seqs [Bol true; star space; Grp 1 hashes; star space])
    with (Seq (Bol true) (Seq (star space) (Seq (Grp 1 hashes) (star space)))).
  match goal with |- sub_go ?r0 _ _ _ _ = _ => set (r := r0) end.
  assert (Hbhash : head_in [CChar "#"] b = false).
  { destruct b as [|y b]; [done|]. simpl.
    apply (plain_text_elem [] b y), markup_chars in Hb as (_&_&_&_&_&_&_&H&_).
    by rewrite in_set_char. }
  replace (a ++ z :: LF :: ws ++ repeat "#"%char k ++ sp ++ b)
    with ((a ++ [z; LF]) ++ (ws ++ repeat "#"%char k ++ sp) ++ b)
    by (by rewrite <- !app_assoc).
  rewrite (sub_go_at_prev r [] (ws ++ repeat "#"%char k ++ sp) b []).
  - rewrite <- app_assoc. simpl. do 3 f_equal.
    apply (sub_needs markup); [|done]. vm_compute. reflexivity.
  - destruct k as [|k]; [lia|]. by destruct ws.
  - intros a1 x a2 Heq.
    change (a ++ [z; LF]) with (a ++ [z] ++ [LF]) in Heq.
    rewrite app_assoc in Heq.
    apply snoc_split in Heq as [(-> & -> & ->) | (a2' & -> & Heq)].
    + rewrite after_snoc. unfold attempt, r. cbn [run prev].
      assert (eqc z LF = false) as ->; [|done].
      apply eqc_false. intros ->. by vm_compute in Hz.
    + assert (Hlast : exists l, x :: a2' = l ++ [z]).
      { destruct a2' as [|w a2' _] using rev_ind.
        - apply app_inj_tail in Heq as [_ ->]. by exists [].
        - rewrite app_comm_cons, app_assoc in Heq.
          apply app_inj_tail in Heq as [_ ->]. by exists (x :: a2'). }
      destruct (split_set_run [CSpace] (x :: a2')) as (r0 & t0 & Hsplit & Hr0 & Ht0).
      assert (Ht0ne : t0 <> []).
      { intros ->. rewrite app_nil_r in Hsplit. subst r0.
        destruct Hlast as [l Hl]. rewrite Hl, forallb_app in Hr0.
        apply andb_true_iff in Hr0 as [_ Hr0]. simpl in Hr0.
        rewrite in_set_space, Hz in Hr0. done. }
      destruct t0 as [|y t0]; [done|].
      replace (x :: (a2' ++ [LF]) ++ (ws ++ repeat "#"%char k ++ sp) ++ b)
        with (r0 ++ (y :: t0 ++ [LF] ++ (ws ++ repeat "#"%char k ++ sp) ++ b)).
      * apply strip_headings_miss; [done|done|].
        simpl. rewrite in_set_char.
        rewrite Heq in Ha. rewrite Hsplit in Ha.
        rewrite app_assoc in Ha.
        by apply plain_text_elem, markup_chars in Ha as (_&_&_&_&_&_&_&H&_).
      * transitivity
          ((x :: a2') ++ [LF] ++ (ws ++ repeat "#"%char k ++ sp) ++ b).
        -- rewrite Hsplit, <- (app_assoc r0). reflexivity.
        -- simpl. rewrite <- (app_assoc a2'). reflexivity.
  - change (a ++ [z; LF]) with (a ++ [z] ++ [LF]).
    rewrite app_assoc, after_snoc.
    destruct (strip_headings_hit ws sp b k Hws Hk Hsp Hhead Hbhash)
      as (st' & Hatt & Hrest).
    exists st'. rewrite <- !app_assoc. by repeat split.
Qed.

(** A heading marker inside a chapter is removed together with the blank
    lines before it: the heading text follows the line before after one
    line feed. *)
Theorem subheading_marker_is_removed :
  forall (a ws sp b : list ascii) (z : ascii) (k : nat),
    plain_text (a ++ [z]) = true -> is_space z = false ->
    forallb is_space ws = true ->
    1 <= k <= 6 ->
    forallb is_space sp = true ->
    plain_text b = true -> head_in [CSpace] b = false ->
    _strip_markdown (a ++ z :: LF :: ws ++ repeat "#"%char k ++ sp ++ b) =
    a ++ z :: LF :: b.
Proof.
  intros a ws sp b z k Ha Hz Hws Hk Hsp Hb Hhead.
  set (text := a ++ z :: LF :: ws ++ repeat "#"%char k ++ sp ++ b).
  assert (Hfree : forallb (fun x => negb (inline_markup x)) text = true).
  { unfold text.
    change (a ++ z :: LF :: ws ++ repeat "#"%char k ++ sp ++ b)
      with (a ++ [z] ++ [LF] ++ ws ++ repeat "#"%char k ++ sp ++ b).
    rewrite app_assoc, !forallb_app.
    assert (Hplain : forall l, plain_text l = true ->
                               forallb (fun x => negb (inline_markup x)) l = true).
    { intros l. apply forallb_impl. intros x Hx.
      apply negb_true_iff in Hx. apply negb_true_iff.
      by apply plain_not_inline. }
    assert (Hspace : forall l, forallb is_space l = true ->
                               forallb (fun x => negb (inline_markup x)) l = true).
    { intros l. apply forallb_impl. intros x Hx. apply negb_true_iff.
      by apply space_not_inline. }
    rewrite <- (forallb_app _ a [z]).
    rewrite (Hplain _ Ha), (Hplain _ Hb), (Hspace _ Hws), (Hspace _ Hsp).
    assert (forallb (fun x => negb (inline_markup x)) (repeat "#"%char k)
            = true) as ->; [|done].
    clear. induction k as [|k IH]; [done|]. simpl. by rewrite IH. }
  destruct (passes_before_headings text Hfree)
    as (H1 & H2 & H3 & H4 & H5 & H6 & H7 & H8 & H9).
  unfold _strip_markdown. cbv zeta. fold text.
  rewrite H1, H2, H3, H4, H5, H6, H7, H8, H9. unfold text.
  apply strip_headings_subheading; try done.
  - rewrite <- Hws. apply forallb_eq. intros x. apply in_set_space.
  - rewrite <- Hsp. apply forallb_eq. intros x. apply in_set_space.
Qed.

(** At a sub-heading after a blank line: the paragraph break before it is
    gone. *)
Lemma subheading_marker_is_removed_witness :
  _strip_markdown
    (lit "End of part." ++ [LF; LF] ++ lit "### Next" ++ [LF; LF] ++
     lit "Start.") =
  lit "End of part." ++ [LF] ++ lit "Next" ++ [LF; LF] ++ lit "Start.".
Proof.
  apply (subheading_marker_is_removed (lit "End of part") [LF] (lit " ")
           (lit "Next" ++ [LF; LF] ++ lit "Start.") "."%char 3);
    try reflexivity.
  lia.
Defined.

End MarkupFacts.

(** * Quote and list markers at the start of a line *)

Module LineFacts.

Import Re Markdown Spec Notions Examples MoreExamples PyStrFacts NewlineFacts
  EngineFacts ParserFacts MarkupFacts.

Local Arguments in_set : simpl never.
Local Arguments rep_loop : simpl never.

(** *** Repetitions that fail *)

Lemma rep_loop_0
  (body : (mstate -> option mstate) -> mstate -> option mstate)
  (g : bool) (lo : nat) (hi : option nat) (k : mstate -> option mstate)
  (i : nat) (st : mstate) :
  rep_loop g body lo hi k 0 i st =
  if g then orelse None (if lo <=? i then k st else None)
  else orelse (if lo <=? i then k st else None) None.
Proof. reflexivity. Qed.

Lemma rep_loop_S
  (body : (mstate -> option mstate) -> mstate -> option mstate)
  (g : bool) (lo : nat) (hi : option nat) (k : mstate -> option mstate)
  (fuel i : nat) (st : mstate) :
  rep_loop g body lo hi k (S fuel) i st =
  if g
  then orelse
         (if below i hi
          then body (rep_loop g body lo hi k fuel (S i)) st else None)
         (if lo <=? i then k st else None)
  else orelse
         (if lo <=? i then k st else None)
         (if below i hi
          then body (rep_loop g body lo hi k fuel (S i)) st else None).
Proof. reflexivity. Qed.

(** A repetition that asks for one character of [P] at least fails where
    none stands. *)
Lemma rep_min_miss (P : ascii -> bool)
  (body : (mstate -> option mstate) -> mstate -> option mstate)
  (g : bool) (lo : nat) (hi : option nat) (k : mstate -> option mstate)
  (s : list ascii) (p : option ascii) (cs : list (nat * list ascii)) :
  (forall k0 st, body k0 st = one_char P k0 st) ->
  1 <= lo ->
  match s with c :: _ => P c | [] => false end = false ->
  forall fuel, rep_loop g body lo hi k fuel 0 (MState p s cs) = None.
Proof.
  intros Hbody Hlo Hs fuel.
  assert (Hlo0 : (lo <=? 0) = false) by (apply Nat.leb_gt; lia).
  destruct fuel as [|fuel].
  - rewrite rep_loop_0, Hlo0. by destruct g.
  - rewrite rep_loop_S, Hlo0, Hbody. unfold one_char. cbn [rest].
    destruct s as [|c s]; [by destruct g, (below 0 hi)|].
    rewrite Hs. by destruct g, (below 0 hi).
Qed.

(** A repetition, greedy or lazy, fails when the pattern behind it fails
    at every position of the text. *)
Lemma rep_none (P : ascii -> bool)
  (body : (mstate -> option mstate) -> mstate -> option mstate)
  (g : bool) (lo : nat) (hi : option nat) (k : mstate -> option mstate)
  (cs : list (nat * list ascii)) :
  (forall k0 st, body k0 st = one_char P k0 st) ->
  forall s fuel i p,
    (forall a1 a2 p', s = a1 ++ a2 -> k (MState p' a2 cs) = None) ->
    rep_loop g body lo hi k fuel i (MState p s cs) = None.
Proof.
  intros Hbody. induction s as [|c s IH]; intros fuel i p Hk.
  - pose proof (Hk [] [] p eq_refl) as Hstop.
    destruct fuel as [|fuel].
    + rewrite rep_loop_0, Hstop. by destruct g, (lo <=? i).
    + rewrite rep_loop_S, Hstop, Hbody. unfold one_char. cbn [rest].
      by destruct g, (below i hi), (lo <=? i).
  - pose proof (Hk [] (c :: s) p eq_refl) as Hstop.
    destruct fuel as [|fuel].
    + rewrite rep_loop_0, Hstop. by destruct g, (lo <=? i).
    + rewrite rep_loop_S, Hstop, Hbody. unfold one_char. cbn [rest].
      assert (Hrec : rep_loop g body lo hi k fuel (S i)
                       (advance c s (MState p (c :: s) cs)) = None).
      { unfold advance. cbn [caps]. apply IH.
        intros a1 a2 p' ->. by apply (Hk (c :: a1) a2). }
      rewrite Hrec. by destruct g, (below i hi), (P c), (lo <=? i).
Qed.

(** A fact about every character, checked on the table of all of them. *)
Lemma forallb_by_table (Q R : ascii -> bool) (l : list ascii) :
  forallb (fun c => implb (Q c) (R c)) all_chars = true ->
  forallb Q l = true -> forallb R l = true.
Proof.
  intros H. rewrite forallb_forall in H. apply forallb_impl.
  intros x Hx. specialize (H x (all_chars_complete x)).
  by rewrite Hx in H.
Qed.

Lemma by_table (Q R : ascii -> bool) (x : ascii) :
  forallb (fun c => implb (Q c) (R c)) all_chars = true ->
  Q x = true -> R x = true.
Proof.
  intros H Hx. rewrite forallb_forall in H.
  specialize (H x (all_chars_complete x)). by rewrite Hx in H.
Qed.

(** *** A marker at the start of a line *)

(** From a position in a text that ends with a character other than white
    space: a run of white space, then a character that is neither white
    space nor markup. *)
Lemma run_before_text (a a1 a2 : list ascii) (z x : ascii) :
  plain_text (a ++ [z]) = true -> is_space z = false ->
  a ++ [z] = a1 ++ x :: a2 ->
  exists r y t,
    x :: a2 = r ++ y :: t /\ forallb (in_set [CSpace]) r = true /\
    is_space y = false /\ markup y = false.
Proof.
  intros Ha Hz Heq.
  assert (Hlast : exists l, x :: a2 = l ++ [z]).
  { destruct a2 as [|w a2 _] using rev_ind.
    - apply app_inj_tail in Heq as [_ ->]. by exists [].
    - rewrite app_comm_cons, app_assoc in Heq.
      apply app_inj_tail in Heq as [_ ->]. by exists (x :: a2). }
  destruct (split_set_run [CSpace] (x :: a2)) as (r & t & Hsplit & Hr & Ht).
  destruct t as [|y t].
  - rewrite app_nil_r in Hsplit. subst r.
    destruct Hlast as [l Hl]. rewrite Hl, forallb_app in Hr.
    apply andb_true_iff in Hr as [_ Hr]. simpl in Hr.
    by rewrite in_set_space, Hz in Hr.
  - exists r, y, t. repeat split; [done|done| |].
    + simpl in Ht. by rewrite in_set_space in Ht.
    + rewrite Heq, Hsplit, app_assoc in Ha. by apply plain_text_elem in Ha.
Qed.

(** A pattern for the start of a line, on a text in which a line ends with
    [z] and the next line begins with [m]: nothing matches before, the
    line feed stays, and [m] goes. *)
Lemma sub_line_marker (body : re) (a m b : list ascii) (z : ascii) :
  m <> [] -> is_space z = false ->
  (forall a1 x a2 p' k,
      a ++ [z] = a1 ++ x :: a2 ->
      run body k (MState p' ((x :: a2) ++ LF :: m ++ b) []) = None) ->
  (exists st',
      attempt (Seq (Bol true) body) false (Some LF) (m ++ b) = Some st' /\
      rest st' = b) ->
  (forall p, sub_go (Seq (Bol true) body) [] p 0 b = b) ->
  sub_go (Seq (Bol true) body) [] None 0 (a ++ z :: LF :: m ++ b) =
  a ++ z :: LF :: b.
Proof.
  intros Hm Hz Hmiss Hhit Hrest.
  replace (a ++ z :: LF :: m ++ b) with ((a ++ [z; LF]) ++ m ++ b)
    by (by rewrite <- app_assoc).
  rewrite (sub_go_at_prev _ [] m b []).
  - rewrite <- app_assoc. simpl. by rewrite Hrest.
  - done.
  - intros a1 x a2 Heq.
    change (a ++ [z; LF]) with (a ++ [z] ++ [LF]) in Heq.
    rewrite app_assoc in Heq.
    apply snoc_split in Heq as [(-> & -> & ->) | (a2' & -> & Heq)].
    + rewrite after_snoc. unfold attempt. cbn [run prev].
      assert (eqc z LF = false) as ->; [|done].
      apply eqc_false. intros ->. by vm_compute in Hz.
    + unfold attempt. cbn [run prev].
      replace (x :: (a2' ++ [LF]) ++ m ++ b)
        with ((x :: a2') ++ LF :: m ++ b)
        by (simpl; by rewrite <- (app_assoc a2')).
      rewrite (Hmiss a1 x a2' _ _ Heq).
      destruct (after None a1) as [c0|]; [|done].
      by destruct (true && eqc c0 LF).
  - change (a ++ [z; LF]) with (a ++ [z] ++ [LF]).
    rewrite app_assoc, after_snoc.
    destruct Hhit as (st' & Hatt & Hst'). exists st'. by repeat split.
Qed.

Lemma run_opt_space (kf : mstate -> option mstate) (p : option ascii)
  (c : ascii) (b : list ascii) (cs : list (nat * list ascii)) (x : mstate) :
  kf (if is_space c then MState (Some c) b cs else MState p (c :: b) cs)
  = Some x ->
  run (opt space) kf (MState p (c :: b) cs) = Some x.
Proof.
  intros Hk. unfold opt, space. cbn [run rest]. simpl length.
  rewrite rep_loop_S. change (below 0 (Some 1)) with true.
  change (0 <=? 0) with true. cbv iota.
  cbn [run]. unfold one_char at 1. cbn [rest]. rewrite in_set_space.
  destruct (is_space c).
  - unfold advance. cbn [caps].
    destruct (length b) as [|fuel].
    + rewrite rep_loop_0. change (0 <=? 1) with true. cbv iota.
      cbn [orelse]. by rewrite Hk.
    + rewrite rep_loop_S. change (below 1 (Some 1)) with false.
      change (0 <=? 1) with true. cbv iota. cbn [orelse]. by rewrite Hk.
  - cbn [orelse]. exact Hk.
Qed.

(** *** Quotes *)

Lemma quote_attempt (k : nat) (c : ascii) (b : list ascii)
  (p' : option ascii) :
  1 <= k -> eqc c ">" = false ->
  match p' with Some c0 => eqc c0 LF | None => true end = true ->
  exists st',
    attempt (Seq (Bol true) (Seq (plus (chr ">")) (opt space))) false p'
      (repeat ">"%char k ++ c :: b) = Some st' /\
    rest st' = if is_space c then b else c :: b.
Proof.
  intros Hk Hc Hp. eexists. split.
  { unfold attempt, plus, chr. cbn [run prev rest andb].
    assert (Hrep : forall kf x,
               kf (MState (after p' (repeat ">"%char k)) (c :: b) [])
               = Some x ->
               rep_loop true (run (Cset [CChar ">"])) 1 None kf
                 (length (repeat ">"%char k ++ c :: b)) 0
                 (MState p' (repeat ">"%char k ++ c :: b) []) = Some x).
    { intros kf x Hkf.
      apply (rep_greedy_full (in_set [CChar ">"]) _ 1 None _ _ [] _
               (fun _ _ => eq_refl)).
      { by rewrite in_set_char. }
      { clear. induction k as [|k IH]; [done|]. simpl.
        exact IH. }
      { rewrite length_app. lia. }
      { done. }
      { rewrite repeat_length. lia. }
      exact Hkf. }
    destruct p' as [c0|].
    - rewrite Hp. apply Hrep. apply run_opt_space. reflexivity.
    - apply Hrep. apply run_opt_space. reflexivity. }
  cbn [rest]. by destruct (is_space c).
Qed.

Lemma strip_blockquotes_line (a b : list ascii) (c : ascii) (k : nat) :
  plain_text a = true -> at_line_start a = true -> 1 <= k ->
  plain_text (c :: b) = true ->
  strip_blockquotes (a ++ repeat ">"%char k ++ c :: b) =
  a ++ (if is_space c then b else c :: b).
Proof.
  intros Ha Hstart Hk Hcb. unfold strip_blockquotes, sub.
  change (seqs [Bol true; plus (chr ">"); opt space])
    with (Seq (Bol true) (Seq (plus (chr ">")) (opt space))).
  match goal with |- sub_go ?r0 _ _ _ _ = _ => set (r := r0) end.
  assert (Hc : eqc c ">" = false).
  { by apply (plain_text_elem [] b c), markup_chars in Hcb
      as (_&_&_&_&H&_). }
  assert (Hb : plain_text b = true).
  { simpl in Hcb. by apply andb_true_iff in Hcb as [_ ?]. }
  assert (Hprev : match after None a with
                  | Some c0 => eqc c0 LF | None => true end = true).
  { unfold at_line_start in Hstart. unfold after.
    by destruct (last a). }
  destruct (quote_attempt k c b (after None a) Hk Hc Hprev)
    as (st' & Hatt & Hst').
  assert (Hmiss : forall m t a1 x a2,
             a = a1 ++ x :: a2 ->
             attempt r false (after None a1) (x :: a2 ++ m ++ t) = None).
  { intros m t a1 x a2 ->. unfold attempt, r, plus, chr.
    cbn [run prev rest].
    rewrite (rep_min_miss (in_set [CChar ">"]) _ true 1 None _ _ _ []
               (fun _ _ => eq_refl)).
    - destruct (after None a1) as [c0|]; [|done].
      by destruct (true && eqc c0 LF).
    - lia.
    - rewrite in_set_char.
      by apply plain_text_elem, markup_chars in Ha as (_&_&_&_&H&_). }
  assert (Hrest : forall t p, plain_text t = true -> sub_go r [] p 0 t = t).
  { intros t p Ht. apply (sub_needs markup); [|done].
    vm_compute. reflexivity. }
  destruct (is_space c) eqn:Hsp.
  - replace (a ++ repeat ">"%char k ++ c :: b)
      with (a ++ (repeat ">"%char k ++ [c]) ++ b)
      by (by rewrite <- app_assoc).
    rewrite (sub_go_at_prev r [] (repeat ">"%char k ++ [c]) b []).
    + rewrite Hrest by done. reflexivity.
    + by destruct k.
    + intros a1 x a2. apply Hmiss.
    + exists st'. rewrite <- app_assoc. by repeat split.
  - rewrite (sub_go_at_prev r [] (repeat ">"%char k) (c :: b) []).
    + rewrite Hrest by done. reflexivity.
    + destruct k; [lia|done].
    + intros a1 x a2. apply Hmiss.
    + exists st'. by repeat split.
Qed.

(** A quote marker at the start of a line is removed, with one white-space
    character after it when there is one; the quoted text stays. *)
Theorem quote_marker_is_removed :
  forall (a b : list ascii) (c : ascii) (k : nat),
    plain_text a = true -> at_line_start a = true -> 1 <= k ->
    plain_text (c :: b) = true ->
    _strip_markdown (a ++ repeat ">"%char k ++ c :: b) =
    a ++ (if is_space c then b else c :: b).
Proof.
  intros a b c k Ha Hstart Hk Hcb.
  set (text := a ++ repeat ">"%char k ++ c :: b).
  set (P := fun x => in_set [CChar "`"; CChar "["; CChar "*"; CChar "_"] x).
  assert (Hfree : forallb (fun x => negb (P x)) text = true).
  { unfold text. rewrite !forallb_app.
    assert (Hplain : forall l, plain_text l = true ->
                               forallb (fun x => negb (P x)) l = true).
    { intros l. apply (forallb_by_table (fun x => negb (markup x))).
      vm_compute. reflexivity. }
    rewrite (Hplain _ Ha), (Hplain _ Hcb).
    assert (forallb (fun x => negb (P x)) (repeat ">"%char k) = true)
      as ->; [|done].
    clear. induction k as [|k IH]; [done|]. simpl. exact IH. }
  assert (Hsub : forall r tpl, needs P r = true -> sub r tpl text = text).
  { intros r tpl Hr. by apply (sub_needs P). }
  assert (Hb : plain_text b = true).
  { simpl in Hcb. by apply andb_true_iff in Hcb as [_ ?]. }
  assert (Hout : plain_text (a ++ (if is_space c then b else c :: b)) = true).
  { apply plain_text_app; [done|]. by destruct (is_space c). }
  destruct (plain_passes _ Hout) as (_&_&_&_&_&_&_& H8 & H9 & H10).
  unfold _strip_markdown. cbv zeta. fold text.
  unfold strip_code_blocks, strip_inline_code, strip_images, strip_links,
    strip_bold, strip_italic.
  rewrite !Hsub by (vm_compute; reflexivity).
  unfold text. rewrite strip_blockquotes_line by done.
  by rewrite H8, H9, H10.
Qed.

(** At a quoted line after a line of text. *)
Lemma quote_marker_is_removed_witness :
  _strip_markdown (lit "He said:" ++ [LF] ++ lit ">> Not now.") =
  lit "He said:" ++ [LF] ++ lit "Not now.".
Proof.
  apply (quote_marker_is_removed (lit "He said:" ++ [LF]) (lit "Not now.")
           " "%char 2); (reflexivity || lia).
Defined.

(** *** List items *)

(** Where a character [d] stands once in a text, a position holds another
    character, or it is the position of [d]. *)
Lemma single_split (d : ascii) (u v : list ascii) :
  forallb (fun x => negb (eqc x d)) u = true ->
  forallb (fun x => negb (eqc x d)) v = true ->
  forall a x b,
    u ++ d :: v = a ++ x :: b -> eqc x d = false \/ (x = d /\ b = v).
Proof.
  intros Hu Hv. induction u as [|y u IH]; intros a x b Heq.
  - destruct a as [|y' a]; simpl in Heq.
    + injection Heq as <- <-. by right.
    + injection Heq as <- ->. left. by apply (free_elem d a b).
  - simpl in Hu. apply andb_true_iff in Hu as [Hy Hu].
    destruct a as [|y' a]; simpl in Heq.
    + injection Heq as <- _. left. by apply negb_true_iff.
    + injection Heq as _ Heq. by apply (IH Hu a).
Qed.

(** One asterisk alone in a text opens no emphasis. *)
Lemma single_asterisk (u v : list ascii) :
  forallb (fun x => negb (in_set [CChar "*"; CChar "_"] x)) u = true ->
  forallb (fun x => negb (in_set [CChar "*"; CChar "_"] x)) v = true ->
  strip_bold (u ++ "*"%char :: v) = u ++ "*"%char :: v /\
  strip_italic (u ++ "*"%char :: v) = u ++ "*"%char :: v.
Proof.
  intros Hu Hv.
  assert (Hone : forall d l,
             in_set [CChar "*"; CChar "_"] d = true ->
             forallb (fun x => negb (in_set [CChar "*"; CChar "_"] x)) l
             = true ->
             forallb (fun x => negb (eqc x d)) l = true).
  { intros d l Hd. apply forallb_impl. intros x Hx.
    apply negb_true_iff in Hx. apply negb_true_iff, eqc_false.
    intros ->. by rewrite Hd in Hx. }
  pose proof (Hone "*"%char u eq_refl Hu) as Hu1.
  pose proof (Hone "*"%char v eq_refl Hv) as Hv1.
  pose proof (Hone "_"%char u eq_refl Hu) as Hu2.
  pose proof (Hone "_"%char v eq_refl Hv) as Hv2.
  assert (Hlow : forall a x b, u ++ "*"%char :: v = a ++ x :: b ->
                               eqc x "_" = false).
  { intros a x b Heq. apply (free_elem "_" a b). rewrite <- Heq.
    rewrite forallb_app. simpl. by rewrite Hu2, Hv2. }
  split.
  - unfold strip_bold, sub.
    change (seqs [Grp 1 (Alt (text "**") (text "__"));
                  Grp 2 (lazy_star (Dot false)); Bref 1])
      with (Seq (Grp 1 (Alt (seqs (map chr (lit "**")))
                            (seqs (map chr (lit "__")))))
              (Seq (Grp 2 (lazy_star (Dot false))) (Bref 1))).
    apply sub_go_misses.
    + intros a x b p' Heq. unfold attempt. cbn [run].
      rewrite (run_literal_miss (lit "__"))
        by (done || by apply startswith_miss, (Hlow a x b)).
      destruct (single_split "*" u v Hu1 Hv1 a x b Heq) as [Hx | [-> ->]].
      * by rewrite (run_literal_miss (lit "**"))
          by (done || by apply startswith_miss).
      * rewrite (run_literal_miss (lit "**")); [done|done|].
        change (lit "**") with ["*"%char; "*"%char].
        rewrite startswith_cons, eqc_refl. by apply startswith_free.
    + intros p'. unfold attempt. cbn [run].
      by rewrite (run_literal_miss (lit "**")), (run_literal_miss (lit "__")).
  - unfold strip_italic, sub.
    change (seqs [Grp 1 (Alt (chr "*") (chr "_"));
                  Grp 2 (lazy_star (Dot false)); Bref 1])
      with (Seq (Grp 1 (Alt (seqs (map chr (lit "*")))
                            (seqs (map chr (lit "_")))))
              (Seq (Grp 2 (lazy_star (Dot false))) (Bref 1))).
    apply sub_go_misses.
    + intros a x b p' Heq. unfold attempt.
      match goal with |- run _ ?kf0 _ = None => set (kf := kf0) end.
      set (st0 := MState p' (x :: b) []).
      set (body := Seq (Grp 2 (lazy_star (Dot false))) (Bref 1)).
      change (run (Seq (Grp 1 (Alt (seqs (map chr (lit "*")))
                                   (seqs (map chr (lit "_"))))) body)
                kf st0)
        with (orelse
                (run (seqs (map chr (lit "*")))
                   (fun st' => run body kf
                                 (MState (prev st') (rest st')
                                    ((1, consumed st0 st') :: caps st')))
                   st0)
                (run (seqs (map chr (lit "_")))
                   (fun st' => run body kf
                                 (MState (prev st') (rest st')
                                    ((1, consumed st0 st') :: caps st')))
                   st0)).
      unfold st0.
      rewrite (run_literal_miss (lit "_"))
        by (done || by apply startswith_miss, (Hlow a x b)).
      destruct (single_split "*" u v Hu1 Hv1 a x b Heq) as [Hx | [-> ->]].
      * by rewrite (run_literal_miss (lit "*"))
          by (done || by apply startswith_miss).
      * change ("*"%char :: v) with (lit "*" ++ v).
        rewrite run_literal. cbn [prev rest caps].
        rewrite consumed_app. unfold body. cbn [run lazy_star rest].
        rewrite (rep_none (fun y => false || negb (eqc y LF)) _ false 0 None
                   _ [(1, lit "*")] (fun _ _ => eq_refl)); [done|].
        intros a1 a2 p1 ->. cbn [prev rest caps get_cap Nat.eqb].
        rewrite (eat_miss (lit "*") a2); [done|done|done|].
        apply startswith_free.
        rewrite forallb_app in Hv1. by apply andb_true_iff in Hv1 as [_ ?].
    + intros p'. unfold attempt. cbn [run].
      by rewrite (run_literal_miss (lit "*")), (run_literal_miss (lit "_")).
Qed.

Lemma bullet_attempt (ws sp b : list ascii) (m : ascii) :
  forallb (in_set [CSpace]) ws = true -> length ws <= 3 ->
  in_set [CChar "-"; CChar "*"; CChar "+"] m = true ->
  forallb (in_set [CSpace]) sp = true -> sp <> [] ->
  head_in [CSpace] b = false ->
  exists st',
    attempt
      (Seq (Bol true)
         (Seq (Rep true 0 (Some 3) space)
            (Seq (Cset [CChar "-"; CChar "*"; CChar "+"]) (plus space))))
      false (Some LF) ((ws ++ m :: sp) ++ b) = Some st' /\
    rest st' = b.
Proof.
  intros Hws Hlen Hm Hsp Hne Hb. rewrite <- app_assoc.
  change ((m :: sp) ++ b) with (m :: sp ++ b).
  eexists. split.
  { unfold attempt, plus, space. cbn [run prev rest andb].
    rewrite eqc_refl.
    apply (rep_greedy_full (in_set [CSpace]) _ 0 (Some 3) _ _ [] _
             (fun _ _ => eq_refl)).
    { apply negb_true_iff.
      apply (by_table (in_set [CChar "-"; CChar "*"; CChar "+"])
               (fun x => negb (in_set [CSpace] x))); [|done].
      vm_compute. reflexivity. }
    { done. }
    { rewrite length_app. lia. }
    { intros j Hj. simpl. apply Nat.ltb_lt. lia. }
    { lia. }
    unfold one_char at 1. cbn [rest]. rewrite Hm.
    unfold advance. cbn [caps rest].
    apply (rep_greedy_full (in_set [CSpace]) _ 1 None _ _ [] _
             (fun _ _ => eq_refl)).
    { exact Hb. }
    { done. }
    { rewrite length_app. lia. }
    { done. }
    { destruct sp; [done|simpl; lia]. }
    reflexivity. }
  reflexivity.
Qed.

Lemma strip_bullets_item (a ws sp b : list ascii) (z m : ascii) :
  plain_text (a ++ [z]) = true -> is_space z = false ->
  forallb (in_set [CSpace]) ws = true -> length ws <= 3 ->
  in_set [CChar "-"; CChar "*"; CChar "+"] m = true ->
  forallb (in_set [CSpace]) sp = true -> sp <> [] ->
  plain_text b = true -> head_in [CSpace] b = false ->
  strip_bullets (a ++ z :: LF :: ws ++ m :: sp ++ b) = a ++ z :: LF :: b.
Proof.
  intros Ha Hz Hws Hlen Hm Hsp Hne Hb Hhead. unfold strip_bullets, sub.
  change (seqs [Bol true; Rep true 0 (Some 3) space;
                Cset [CChar "-"; CChar "*"; CChar "+"]; plus space])
    with (Seq (Bol true)
            (Seq (Rep true 0 (Some 3) space)
               (Seq (Cset [CChar "-"; CChar "*"; CChar "+"]) (plus space)))).
  replace (ws ++ m :: sp ++ b) with ((ws ++ m :: sp) ++ b)
    by (by rewrite <- app_assoc).
  apply sub_line_marker.
  - by destruct ws.
  - done.
  - intros a1 x a2 p' k Heq.
    destruct (run_before_text a a1 a2 z x Ha Hz Heq)
      as (r & y & t & Hsplit & Hr & Hy & Hmy).
    rewrite Hsplit, <- app_assoc.
    change ((y :: t) ++ LF :: (ws ++ m :: sp) ++ b)
      with (y :: t ++ LF :: (ws ++ m :: sp) ++ b).
    unfold space. cbn [run rest].
    apply (rep_greedy_none (in_set [CSpace]) _ 0 (Some 3) _ _ []
             (fun _ _ => eq_refl)).
    { by rewrite in_set_space. }
    intros a1' a2' p1 ->. unfold one_char. cbn [rest].
    destruct a2' as [|w a2']; cbn [app]; cbv beta iota.
    + assert (in_set [CChar "-"; CChar "*"; CChar "+"] y = false) as ->;
        [|done].
      apply negb_true_iff.
      apply (by_table (fun c => negb (markup c))
               (fun c => negb (in_set [CChar "-"; CChar "*"; CChar "+"] c)));
        [vm_compute; reflexivity|by rewrite Hmy].
    + assert (in_set [CChar "-"; CChar "*"; CChar "+"] w = false) as ->;
        [|done].
      apply negb_true_iff.
      apply (by_table (in_set [CSpace])
               (fun c => negb (in_set [CChar "-"; CChar "*"; CChar "+"] c)));
        [vm_compute; reflexivity|].
      rewrite forallb_app in Hr. apply andb_true_iff in Hr as [_ Hr].
      simpl in Hr. by apply andb_true_iff in Hr as [? _].
  - by apply bullet_attempt.
  - intros p. apply (sub_needs markup); [|done]. vm_compute. reflexivity.
Qed.

Lemma spaces_in_set (l : list ascii) :
  forallb is_space l = true -> forallb (in_set [CSpace]) l = true.
Proof.
  apply forallb_impl. intros x Hx. by rewrite in_set_space.
Qed.

(** What stands before and after a marker holds no character of [P], when
    neither a plain character nor white space is one. *)
Lemma free_before (P : ascii -> bool) (a ws : list ascii) (z : ascii) :
  forallb (fun c => implb (negb (markup c)) (negb (P c))) all_chars = true ->
  forallb (fun c => implb (is_space c) (negb (P c))) all_chars = true ->
  plain_text (a ++ [z]) = true -> forallb is_space ws = true ->
  forallb (fun c => negb (P c)) (a ++ z :: LF :: ws) = true.
Proof.
  intros T1 T2 Ha Hws.
  change (a ++ z :: LF :: ws) with (a ++ [z] ++ LF :: ws).
  rewrite app_assoc, forallb_app.
  rewrite (forallb_by_table _ _ _ T1 Ha).
  by apply (forallb_by_table _ _ (LF :: ws) T2).
Qed.

Lemma free_after (P : ascii -> bool) (sp b : list ascii) :
  forallb (fun c => implb (negb (markup c)) (negb (P c))) all_chars = true ->
  forallb (fun c => implb (is_space c) (negb (P c))) all_chars = true ->
  forallb is_space sp = true -> plain_text b = true ->
  forallb (fun c => negb (P c)) (sp ++ b) = true.
Proof.
  intros T1 T2 Hsp Hb. rewrite forallb_app.
  by rewrite (forallb_by_table _ _ _ T2 Hsp), (forallb_by_table _ _ _ T1 Hb).
Qed.

Lemma plain_lines (a b : list ascii) (z : ascii) :
  plain_text (a ++ [z]) = true -> plain_text b = true ->
  plain_text (a ++ z :: LF :: b) = true.
Proof.
  intros Ha Hb. change (a ++ z :: LF :: b) with (a ++ [z] ++ LF :: b).
  rewrite app_assoc. by apply plain_text_app.
Qed.

(** A list item after a line of text loses its marker, a hyphen, an
    asterisk or a plus sign, with the white space around it; up to three
    white-space characters before the marker go too, blank lines
    included. *)
Theorem list_marker_is_removed :
  forall (a ws sp b : list ascii) (z m : ascii),
    plain_text (a ++ [z]) = true -> is_space z = false ->
    forallb is_space ws = true -> length ws <= 3 ->
    m = "-"%char \/ m = "*"%char \/ m = "+"%char ->
    forallb is_space sp = true -> nonempty sp = true ->
    plain_text b = true -> head_in [CSpace] b = false ->
    _strip_markdown (a ++ z :: LF :: ws ++ m :: sp ++ b) =
    a ++ z :: LF :: b.
Proof.
  intros a ws sp b z m Ha Hz Hws Hlen Hm Hsp Hne Hb Hhead.
  pose (u := a ++ z :: LF :: ws). pose (v := sp ++ b).
  assert (Htext : a ++ z :: LF :: ws ++ m :: sp ++ b = u ++ m :: v).
  { unfold u, v. by rewrite <- app_assoc. }
  assert (HmS : in_set [CChar "-"; CChar "*"; CChar "+"] m = true).
  { by destruct Hm as [-> | [-> | ->]]. }
  assert (Hfree : forall P : ascii -> bool,
             forallb (fun c => implb (negb (markup c)) (negb (P c)))
               all_chars = true ->
             forallb (fun c => implb (is_space c) (negb (P c)))
               all_chars = true ->
             P m = false ->
             forallb (fun c => negb (P c)) (u ++ m :: v) = true).
  { intros P T1 T2 HPm. rewrite forallb_app. simpl. rewrite HPm. simpl.
    unfold u, v. by rewrite (free_before P), (free_after P). }
  set (P0 := fun x => in_set [CChar "`"; CChar "["; CChar ">"] x).
  assert (Hsub0 : forall r tpl,
             needs P0 r = true -> sub r tpl (u ++ m :: v) = u ++ m :: v).
  { intros r tpl Hr. apply (sub_needs P0); [done|].
    apply Hfree; [vm_compute; reflexivity|vm_compute; reflexivity|].
    by destruct Hm as [-> | [-> | ->]]. }
  set (P1 := fun x => in_set [CChar "*"; CChar "_"] x).
  assert (Hemph : strip_bold (u ++ m :: v) = u ++ m :: v /\
                  strip_italic (u ++ m :: v) = u ++ m :: v).
  { destruct Hm as [-> | [-> | ->]].
    - split; (apply (sub_needs P1); [vm_compute; reflexivity|]);
        (apply Hfree; [vm_compute; reflexivity|vm_compute; reflexivity|done]).
    - apply single_asterisk.
      + apply (free_before P1); (done || (vm_compute; reflexivity)).
      + apply (free_after P1); (done || (vm_compute; reflexivity)).
    - split; (apply (sub_needs P1); [vm_compute; reflexivity|]);
        (apply Hfree; [vm_compute; reflexivity|vm_compute; reflexivity|done]).
  }
  destruct Hemph as [H5 H6].
  destruct (plain_passes _ (plain_lines a b z Ha Hb))
    as (_&_&_&_&_&_&_&_& H9 & H10).
  rewrite Htext. unfold _strip_markdown. cbv zeta.
  unfold strip_code_blocks, strip_inline_code, strip_images, strip_links.
  rewrite !Hsub0 by (vm_compute; reflexivity).
  rewrite H5, H6. unfold strip_blockquotes.
  rewrite Hsub0 by (vm_compute; reflexivity).
  rewrite <- Htext, strip_bullets_item; try done.
  - by rewrite H9, H10.
  - by apply spaces_in_set.
  - by apply spaces_in_set.
  - by destruct sp.
Qed.

(** At an item marked with an asterisk after a blank line. *)
Lemma list_marker_is_removed_witness :
  _strip_markdown (lit "To do:" ++ [LF; LF] ++ lit "* call home") =
  lit "To do:" ++ [LF] ++ lit "call home".
Proof.
  apply (list_marker_is_removed (lit "To do") [LF] (lit " ")
           (lit "call home") ":"%char "*"%char);
    try reflexivity; try (simpl; lia).
  right. by left.
Defined.

(** *** Numbered items *)

Lemma in_set_digit (x : ascii) : in_set [CDigit] x = is_digit x.
Proof. unfold in_set. simpl. apply orb_false_r. Qed.

Lemma digits_in_set (l : list ascii) :
  forallb is_digit l = true -> forallb (in_set [CDigit]) l = true.
Proof.
  apply forallb_impl. intros x Hx. by rewrite in_set_digit.
Qed.

Lemma number_attempt (ws ds sp b : list ascii) :
  forallb (in_set [CSpace]) ws = true ->
  forallb (in_set [CDigit]) ds = true -> ds <> [] ->
  forallb (in_set [CSpace]) sp = true -> sp <> [] ->
  head_in [CSpace] b = false ->
  exists st',
    attempt
      (Seq (Bol true)
         (Seq (star space) (Seq (plus digit) (Seq (chr ".") (plus space)))))
      false (Some LF) ((ws ++ ds ++ "."%char :: sp) ++ b) = Some st' /\
    rest st' = b.
Proof.
  intros Hws Hds Hne Hsp Hnes Hb.
  replace ((ws ++ ds ++ "."%char :: sp) ++ b)
    with (ws ++ ds ++ "."%char :: sp ++ b)
    by (by rewrite <- !app_assoc).
  eexists. split.
  { unfold attempt, plus, star, digit, space, chr.
    cbn [run prev rest andb]. rewrite eqc_refl.
    apply (rep_greedy_full (in_set [CSpace]) _ 0 None _ _ [] _
             (fun _ _ => eq_refl)).
    { destruct ds as [|d ds]; [done|]. simpl in Hds.
      apply andb_true_iff in Hds as [Hd _]. simpl.
      apply negb_true_iff.
      apply (by_table (in_set [CDigit]) (fun x => negb (in_set [CSpace] x)));
        [|done].
      vm_compute. reflexivity. }
    { done. }
    { rewrite length_app. lia. }
    { done. }
    { lia. }
    cbn [rest].
    apply (rep_greedy_full (in_set [CDigit]) _ 1 None _ _ [] _
             (fun _ _ => eq_refl)).
    { reflexivity. }
    { done. }
    { rewrite length_app. lia. }
    { done. }
    { destruct ds; [done|simpl; lia]. }
    unfold one_char at 1. cbn [rest]. rewrite in_set_char, eqc_refl.
    unfold advance. cbn [caps rest].
    apply (rep_greedy_full (in_set [CSpace]) _ 1 None _ _ [] _
             (fun _ _ => eq_refl)).
    { exact Hb. }
    { done. }
    { rewrite length_app. lia. }
    { done. }
    { destruct sp; [done|simpl; lia]. }
    reflexivity. }
  reflexivity.
Qed.

Lemma strip_numbered_item (a ws ds sp b : list ascii) (z : ascii) :
  plain_text (a ++ [z]) = true -> is_space z = false ->
  forallb (in_set [CSpace]) ws = true ->
  forallb (in_set [CDigit]) ds = true -> ds <> [] ->
  forallb (in_set [CSpace]) sp = true -> sp <> [] ->
  plain_text b = true -> head_in [CSpace] b = false ->
  strip_numbered (a ++ z :: LF :: ws ++ ds ++ "."%char :: sp ++ b) =
  a ++ z :: LF :: b.
Proof.
  intros Ha Hz Hws Hds Hne Hsp Hnes Hb Hhead. unfold strip_numbered, sub.
  change (seqs [Bol true; star space; plus digit; chr "."; plus space])
    with (Seq (Bol true)
            (Seq (star space)
               (Seq (plus digit) (Seq (chr ".") (plus space))))).
  replace (ws ++ ds ++ "."%char :: sp ++ b)
    with ((ws ++ ds ++ "."%char :: sp) ++ b)
    by (by rewrite <- !app_assoc).
  apply sub_line_marker.
  - destruct ws; [|done]. by destruct ds.
  - done.
  - intros a1 x a2 p' k Heq.
    destruct (run_before_text a a1 a2 z x Ha Hz Heq)
      as (r & y & t & Hsplit & Hr & Hy & Hmy).
    rewrite Hsplit, <- app_assoc.
    change ((y :: t) ++ LF :: (ws ++ ds ++ "."%char :: sp) ++ b)
      with (y :: t ++ LF :: (ws ++ ds ++ "."%char :: sp) ++ b).
    unfold star, space. cbn [run rest].
    apply (rep_greedy_none (in_set [CSpace]) _ 0 None _ _ []
             (fun _ _ => eq_refl)).
    { by rewrite in_set_space. }
    intros a1' a2' p1 ->. unfold plus, digit. cbn [run rest].
    apply (rep_min_miss (in_set [CDigit]) _ true 1 None _ _ _ []
             (fun _ _ => eq_refl)); [lia|].
    destruct a2' as [|w a2']; cbn [app]; cbv beta iota.
    + rewrite in_set_digit.
      by apply markup_chars in Hmy as (_&_&_&_&_&_&_&_&H).
    + apply negb_true_iff.
      apply (by_table (in_set [CSpace]) (fun c => negb (in_set [CDigit] c)));
        [vm_compute; reflexivity|].
      rewrite forallb_app in Hr. apply andb_true_iff in Hr as [_ Hr].
      simpl in Hr. by apply andb_true_iff in Hr as [? _].
  - by apply number_attempt.
  - intros p. apply (sub_needs markup); [|done]. vm_compute. reflexivity.
Qed.

(** A numbered item after a line of text loses its number, the full stop
    and the white space around them, blank lines before it included. *)
Theorem number_marker_is_removed :
  forall (a ws ds sp b : list ascii) (z : ascii),
    plain_text (a ++ [z]) = true -> is_space z = false ->
    forallb is_space ws = true ->
    forallb is_digit ds = true -> nonempty ds = true ->
    forallb is_space sp = true -> nonempty sp = true ->
    plain_text b = true -> head_in [CSpace] b = false ->
    _strip_markdown (a ++ z :: LF :: ws ++ ds ++ "."%char :: sp ++ b) =
    a ++ z :: LF :: b.
Proof.
  intros a ws ds sp b z Ha Hz Hws Hds Hne Hsp Hnes Hb Hhead.
  set (text := a ++ z :: LF :: ws ++ ds ++ "."%char :: sp ++ b).
  set (P := fun x => in_set [CChar "`"; CChar "["; CChar "*"; CChar "_";
                             CChar ">"; CChar "-"; CChar "+"] x).
  assert (Hfree : forallb (fun c => negb (P c)) text = true).
  { unfold text.
    replace (a ++ z :: LF :: ws ++ ds ++ "."%char :: sp ++ b)
      with ((a ++ z :: LF :: ws) ++ ds ++ "."%char :: sp ++ b)
      by (by rewrite <- app_assoc).
    rewrite (forallb_app _ (a ++ z :: LF :: ws)), (forallb_app _ ds).
    cbn [forallb].
    rewrite (free_before P) by (done || (vm_compute; reflexivity)).
    rewrite (free_after P) by (done || (vm_compute; reflexivity)).
    rewrite (forallb_by_table is_digit (fun c => negb (P c)) ds)
      by (done || (vm_compute; reflexivity)).
    reflexivity. }
  assert (Hsub : forall r tpl, needs P r = true -> sub r tpl text = text).
  { intros r tpl Hr. by apply (sub_needs P). }
  destruct (plain_passes _ (plain_lines a b z Ha Hb))
    as (_&_&_&_&_&_&_&_&_& H10).
  unfold _strip_markdown. cbv zeta. fold text.
  unfold strip_code_blocks, strip_inline_code, strip_images, strip_links,
    strip_bold, strip_italic, strip_blockquotes, strip_bullets.
  rewrite !Hsub by (vm_compute; reflexivity).
  unfold text. rewrite strip_numbered_item; try done.
  - by apply spaces_in_set.
  - by apply digits_in_set.
  - by destruct ds.
  - by apply spaces_in_set.
  - by destruct sp.
Qed.

(** At a numbered step after a blank line. *)
Lemma number_marker_is_removed_witness :
  _strip_markdown (lit "Steps:" ++ [LF; LF] ++ lit "12. Mix well") =
  lit "Steps:" ++ [LF] ++ lit "Mix well".
Proof.
  apply (number_marker_is_removed (lit "Steps") [LF] (lit "12") (lit " ")
           (lit "Mix well") ":"%char);
    reflexivity.
Defined.

End LineFacts.
